(** * darray: dynamic arrays and dynamic strings in C

    A shallow embedding of [darray.c] / [darray.h] (Victor Cushman's darray
    library) and the verification of its capacity-growth engine and of the
    dstring layer built on it.

    Layout of the file:
    - [Size]      : [size_t] arithmetic and the binary64 arithmetic behind
                    [DA_NEW_CAPACITY_FROM_LENGTH];
    - [Mem]       : the heap of header+data blocks, the allocator and the
                    state monad in which the C functions are written;
    - [Darray]    : the darray core ([da_alloc] ... [da_concat], the
                    [da_push]/[da_pop]/[da_insert]/[da_remove] macros);
    - [Dstring]   : the dstring functions;
    - [Spec]      : calls and sequences of calls, the invariants, the
                    postconditions of the functions, and the functions on
                    texts the dstring functions are compared with;
    - the theorems: the capacity formula, a program logic for the monad,
                    the specifications of the functions one by one, the
                    properties C1 to C10, and the properties X1 to X29 of
                    the functions and macros those leave out.

    Conventions of the model.  A [size_t] is a [Z] in [0, 2^64), and every
    [size_t] operation of the source is written with its wrap-around.  The
    storage of a block is the list of its element slots, so offsets and sizes
    of [memmove] and [memcpy] are counted in elements; a count of elements
    that does not fit the block is an access outside the block, also where
    its size in bytes would wrap around.  Undefined behaviour has no result
    ([None]); the theorems speak of the executions that have one. *)

From Stdlib Require Import ZArith Lia List Bool ZifyBool SpecFloat.
From stdpp Require Import base option list gmap.
From Stdlib Require Strings.String.
Import String.StringSyntax.
Delimit Scope string_scope with string.

Local Open Scope Z_scope.

(* ===================================================================== *)
(** * [size_t] and the capacity formula                                   *)
(* ===================================================================== *)

Module Size.

(** [size_t] is a 64-bit unsigned integer (LP64); arithmetic on it wraps. *)
Definition SIZE_MOD : Z := 18446744073709551616.
Definition SIZE_MAX : Z := SIZE_MOD - 1.
Definition wrap (z : Z) : Z := z mod SIZE_MOD.

(** ** binary64

    The macro [DA_NEW_CAPACITY_FROM_LENGTH] multiplies a [size_t] by the
    [double] constant [1.3] and the product is converted back to [size_t]
    when it is assigned to [capacity].  A non-negative finite double is
    [mant * 2^expo]; only non-negative values occur here, and the exponent
    range of binary64 is never left (values stay between 1 and 2^65). *)
Record double := Double { mant : Z; expo : Z }.

(** Round the non-negative real [m * 2^e] to 53 significant bits, to nearest,
    ties to even (the default IEEE 754 rounding mode). *)
Definition round53 (m e : Z) : double :=
  let k := Z.log2 m in
  if k <? 53 then Double m e
  else
    let sh := k - 52 in
    let q := m / 2 ^ sh in
    let r := m mod 2 ^ sh in
    let half := 2 ^ (sh - 1) in
    let q' := if r <? half then q
              else if half <? r then q + 1
              else if Z.even q then q else q + 1 in
    Double q' (e + sh).

(** Conversion of a [size_t] to [double] (inexact above 2^53). *)
Definition double_of_size_t (n : Z) : double := round53 n 0.

(** Product of two doubles: the exact product, rounded once. *)
Definition double_mul (x y : double) : double :=
  round53 (mant x * mant y) (expo x + expo y).

(** Conversion of a [double] to [size_t]: the fractional part is discarded
    (C11 6.3.1.4); the behaviour is undefined ([None]) when the integral part
    does not fit. *)
Definition size_t_of_double (x : double) : option Z :=
  let v := if 0 <=? expo x then mant x * 2 ^ expo x
           else mant x / 2 ^ (- expo x) in
  if v <? SIZE_MOD then Some v else None.

(** [#define DA_CAPACITY_FACTOR 1.3]: the double nearest to 13/10, which is
    [0x14CCCCCCCCCCCD * 2^-52]. *)
Definition DA_CAPACITY_FACTOR : double := Double 5854679515581645 (-52).

(** [#define DA_CAPACITY_MIN 10] *)
Definition DA_CAPACITY_MIN : Z := 10.

(** [#define DA_NEW_CAPACITY_FROM_LENGTH(length) ((length) < DA_CAPACITY_MIN ?
        DA_CAPACITY_MIN : ((length)*DA_CAPACITY_FACTOR))]

    The conditional expression has type [double] (its branches are an [int]
    and a [double]); every use in darray.c assigns it to a [size_t]. *)
Definition DA_NEW_CAPACITY_FROM_LENGTH (length : Z) : option Z :=
  size_t_of_double
    (if length <? DA_CAPACITY_MIN
     then round53 DA_CAPACITY_MIN 0
     else double_mul (double_of_size_t length) DA_CAPACITY_FACTOR).

(** The same computation carried out with the Standard Library's
    specification of IEEE 754 ([SpecFloat], precision 53, emax 1024); used
    only to cross-check [round53] and [double_mul] on sample values. *)
Definition sf_of_Z (n : Z) : spec_float := binary_normalize 53 1024 n 0 false.

Definition sf_trunc (x : spec_float) : option Z :=
  match x with
  | S754_zero _ => Some 0
  | S754_finite false m e =>
      Some (if 0 <=? e then Z.pos m * 2 ^ e else Z.pos m / 2 ^ (- e))
  | _ => None
  end.

Definition sf_new_capacity (length : Z) : option Z :=
  sf_trunc
    (if length <? 10 then sf_of_Z 10
     else SFmul 53 1024 (sf_of_Z length)
            (S754_finite false 5854679515581645 (-52))).

(** Lengths on which [round53] is compared with [SpecFloat]: all small
    ones, and a few around every power of two. *)
Definition sample_lengths : list Z :=
  map Z.of_nat (seq 0 600) ++
  flat_map (fun k => let p := 2 ^ Z.of_nat k in
                     [p - 3; p - 1; p; p + 1; 10 * p + 7; 5 * p])
           (seq 4 56).

(** The specification's formula, for comparison:
    [max(BASELINE, ceil(count * 1.3))] with exact arithmetic. *)
Definition spec_capacity (count : Z) : Z :=
  Z.max 10 ((13 * count + 9) / 10).

End Size.

Import Size.

(* ===================================================================== *)
(** * Memory: blocks, the allocator, and the monad of C computations      *)
(* ===================================================================== *)

Module Mem.

(** A handle is the address of element 0 of a block; [NULL] is the failure
    sentinel. *)
Definition addr := Z.
Definition NULL : addr := 0.

(** The C functions an allocation strategy can point to. *)
Inductive mem_fn :=
  | libc_malloc | libc_realloc | libc_free
  | custom_fn (id : nat)
  | no_fn.

(** [struct da_mem_funcs] *)
Record da_mem_funcs := Build_mem_funcs {
  alloc_f : mem_fn;
  realloc_f : mem_fn;
  free_f : mem_fn
}.

(** [#define DA_DEFAULT_MEM_FUNCS
      (struct da_mem_funcs){.alloc_f=malloc, .realloc_f=realloc, .free_f=free}] *)
Definition DA_DEFAULT_MEM_FUNCS : da_mem_funcs :=
  Build_mem_funcs libc_malloc libc_realloc libc_free.

(** [sizeof(struct _darray)]: three [size_t], three function pointers, and the
    flexible array member aligned on [max_align_t] (LP64). *)
Definition sizeof_darray : Z := 48.

Section Blocks.
Context {A : Type}.   (* ELEM_TYPE *)

(** [struct _darray]: the header and, behind it, the element storage.  The
    storage is kept as the list of its element slots (slot [i] is the
    [_elemsz] bytes at byte offset [_elemsz * i] behind the handle); its
    physical size is [length _data], whatever [_capacity] says. *)
Record _darray := Build_darray {
  _elemsz : Z;
  _length : Z;
  _capacity : Z;
  _mem_funcs : da_mem_funcs;
  _data : list A
}.

(** What one call of an allocation function does: it fails, or it hands out
    a block, at the old address (a [realloc] in place) or at a new one.  The
    part of the block that is not copied from an old block holds whatever the
    allocator left there: slot [i] holds [fill i]. *)
Inductive alloc_event :=
  | AllocFail
  | AllocStay (fill : nat -> A)
  | AllocMove (fill : nat -> A).

(** The state of the program: the live blocks, keyed by their handle, and
    the answers the allocator is going to give, in order (once they are used
    up, every request fails). *)
Record world := World {
  heap : gmap Z _darray;
  allocator : list alloc_event
}.

(** C computations: they read and write the world and return a value;
    [None] is undefined behaviour (a dangling handle, an access outside the
    block, an out-of-range conversion). *)
Definition M (X : Type) : Type := world -> option (X * world).

Definition ret {X} (x : X) : M X := fun w => Some (x, w).
Definition bind {X Y} (c : M X) (k : X -> M Y) : M Y :=
  fun w => match c w with
           | Some (x, w') => k x w'
           | None => None
           end.
Definition undefined {X} : M X := fun _ => None.
Definition lift {X} (o : option X) : M X :=
  fun w => match o with Some x => Some (x, w) | None => None end.

End Blocks.

Arguments _darray : clear implicits.
Arguments alloc_event : clear implicits.
Arguments world : clear implicits.
Arguments M : clear implicits.

Declare Scope c_scope.
Delimit Scope c_scope with C.
Notation "x <- c1 ;; c2" := (bind c1 (fun x => c2))
  (at level 100, c1 at next level, right associativity) : c_scope.
Notation "c1 ;; c2" := (bind c1 (fun _ => c2))
  (at level 100, right associativity) : c_scope.
Local Open Scope c_scope.

Section Access.
Context {A : Type}.
Local Abbreviation M := (M A).

(** [DA_P_HEAD_FROM_HANDLE(darr)]: the block a handle belongs to.  Going
    through [NULL] or through a handle whose block is gone is undefined. *)
Definition deref (p : addr) : M (_darray A) :=
  fun w => if p =? NULL then None
           else match heap w !! p with
                | Some b => Some (b, w)
                | None => None
                end.

Definition store (p : addr) (b : _darray A) : M unit :=
  fun w => Some (tt, World (<[p := b]> (heap w)) (allocator w)).

(** A block with one field changed. *)
Definition upd_elemsz (v : Z) (b : _darray A) : _darray A :=
  Build_darray v (_length b) (_capacity b) (_mem_funcs b) (_data b).
Definition upd_length (v : Z) (b : _darray A) : _darray A :=
  Build_darray (_elemsz b) v (_capacity b) (_mem_funcs b) (_data b).
Definition upd_capacity (v : Z) (b : _darray A) : _darray A :=
  Build_darray (_elemsz b) (_length b) v (_mem_funcs b) (_data b).
Definition upd_mem_funcs (v : da_mem_funcs) (b : _darray A) : _darray A :=
  Build_darray (_elemsz b) (_length b) (_capacity b) v (_data b).
Definition upd_data (d : list A) (b : _darray A) : _darray A :=
  Build_darray (_elemsz b) (_length b) (_capacity b) (_mem_funcs b) d.

(** Writes through [DA_P_LENGTH_FROM_HANDLE] and friends. *)
Definition set_elemsz (p : addr) (v : Z) : M unit :=
  b <- deref p ;; store p (upd_elemsz v b).
Definition set_length (p : addr) (v : Z) : M unit :=
  b <- deref p ;; store p (upd_length v b).
Definition set_capacity (p : addr) (v : Z) : M unit :=
  b <- deref p ;; store p (upd_capacity v b).
Definition set_mem_funcs (p : addr) (v : da_mem_funcs) : M unit :=
  b <- deref p ;; store p (upd_mem_funcs v b).
Definition set_data (p : addr) (d : list A) : M unit :=
  b <- deref p ;; store p (upd_data d b).

(** [darr[i]] as an rvalue and as an lvalue; outside the block it is
    undefined. *)
Definition peek (p : addr) (i : Z) : M A :=
  b <- deref p ;;
  if (0 <=? i) then lift (_data b !! Z.to_nat i) else undefined.

Definition poke (p : addr) (i : Z) (v : A) : M unit :=
  b <- deref p ;;
  if (0 <=? i) && (i <? Z.of_nat (length (_data b)))
  then set_data p (<[Z.to_nat i := v]> (_data b))
  else undefined.

(** The slots [src .. src+n-1] written over [dst .. dst+n-1]. *)
Definition blit (d : list A) (dst : Z) (src : list A) : list A :=
  take (Z.to_nat dst) d ++ src ++ drop (Z.to_nat dst + length src) d.

(** [memmove(darr + dst, darr + src, n)], offsets and size counted in
    element slots. *)
Definition memmove (p : addr) (dst src n : Z) : M unit :=
  b <- deref p ;;
  let slots := Z.of_nat (length (_data b)) in
  if (0 <=? dst) && (0 <=? src) && (0 <=? n)
     && (dst + n <=? slots) && (src + n <=? slots)
  then set_data p (blit (_data b) dst
                        (take (Z.to_nat n) (drop (Z.to_nat src) (_data b))))
  else undefined.

(** [memcpy(darr + dst, src, n)] from memory outside the heap of darrays:
    [src] is the content of the memory the source pointer points to. *)
Definition memcpy (p : addr) (dst : Z) (src : list A) (n : Z) : M unit :=
  b <- deref p ;;
  let slots := Z.of_nat (length (_data b)) in
  if (0 <=? dst) && (0 <=? n) && (n <=? Z.of_nat (length src))
     && (dst + n <=? slots)
  then set_data p (blit (_data b) dst (take (Z.to_nat n) src))
  else undefined.

(** The next answer of the allocator. *)
Definition next_event : M (alloc_event A) :=
  fun w => match allocator w with
           | [] => Some (AllocFail, w)
           | e :: es => Some (e, World (heap w) es)
           end.

(** An address no live block has, other than [NULL]. *)
Definition fresh_addr (h : gmap Z (_darray A)) : addr :=
  fresh ({[NULL]} ∪ dom h).

(** Number of element slots behind the header of a block of [size] bytes. *)
Definition slots_of (size elemsz : Z) : nat :=
  Z.to_nat ((size - sizeof_darray) / elemsz).

(** Content of a block after [realloc]: the old slots as far as they fit,
    then what the allocator left in the new ones. *)
Definition resize_data (n : nat) (old : list A) (fill : nat -> A) : list A :=
  take n old ++ map fill (seq (length old) (n - length old)).

(** A call [f(size)] of an allocation function ([malloc]-compatible).  The
    header of the new block is not initialised; [elemsz] only tells in which
    unit the model counts the storage.  The result is the handle
    ([&darr->_data]) of the new block, or [NULL]. *)
Definition call_alloc (f : mem_fn) (size elemsz : Z) : M addr :=
  e <- next_event ;;
  match e with
  | AllocFail => ret NULL
  | AllocStay fill | AllocMove fill =>
      if size <? sizeof_darray then undefined
      else fun w =>
        let q := fresh_addr (heap w) in
        let b := Build_darray 0 0 0 (Build_mem_funcs no_fn no_fn no_fn)
                   (resize_data (slots_of size elemsz) [] fill) in
        Some (q, World (<[q := b]> (heap w)) (allocator w))
  end.

(** A call [f(DA_P_HEAD_FROM_HANDLE(p), size)] of a reallocation function
    ([realloc]-compatible): on failure nothing changes; on success the block
    (header included) lives on with [size] bytes, possibly elsewhere, and the
    old handle is dead. *)
Definition call_realloc (f : mem_fn) (p : addr) (size : Z) : M addr :=
  b <- deref p ;;
  e <- next_event ;;
  match e with
  | AllocFail => ret NULL
  | AllocStay fill | AllocMove fill =>
      if size <? sizeof_darray then undefined
      else fun w =>
        let h := delete p (heap w) in
        let q := match e with AllocStay _ => p | _ => fresh_addr h end in
        let d := resize_data (slots_of size (_elemsz b)) (_data b) fill in
        Some (q, World (<[q := upd_data d b]> h) (allocator w))
  end.

(** A call [f(DA_P_HEAD_FROM_HANDLE(p))] of a release function. *)
Definition call_free (f : mem_fn) (p : addr) : M unit :=
  _ <- deref p ;;
  fun w => Some (tt, World (delete p (heap w)) (allocator w)).

End Access.

End Mem.

Import Mem.
Local Open Scope c_scope.

(* ===================================================================== *)
(** * The darray core (darray.c, darray.h)                                *)
(* ===================================================================== *)

Module Darray.
Section Darray.
Context {A : Type}.   (* ELEM_TYPE *)
Local Abbreviation M := (M A).

(** Size in bytes of a block with room for [capacity] elements:
    [sizeof(struct _darray) + capacity*size], in [size_t] arithmetic. *)
Definition arr_size (capacity size : Z) : Z :=
  wrap (sizeof_darray + wrap (capacity * size)).

(** [void* da_alloc_custom(struct da_mem_funcs mem_funcs, size_t nelem,
                           size_t size)] *)
Definition da_alloc_custom (mem_funcs : da_mem_funcs) (nelem size : Z) : M addr :=
  capacity <- lift (DA_NEW_CAPACITY_FROM_LENGTH nelem) ;;
  darr <- call_alloc (alloc_f mem_funcs) (arr_size capacity size) size ;;
  if darr =? NULL then ret NULL
  else
    set_mem_funcs darr mem_funcs ;;
    set_elemsz darr size ;;
    set_length darr nelem ;;
    set_capacity darr capacity ;;
    ret darr.

(** [void* da_alloc(size_t nelem, size_t size)]: the same body, with
    [malloc] and [DA_DEFAULT_MEM_FUNCS]. *)
Definition da_alloc (nelem size : Z) : M addr :=
  capacity <- lift (DA_NEW_CAPACITY_FROM_LENGTH nelem) ;;
  darr <- call_alloc libc_malloc (arr_size capacity size) size ;;
  if darr =? NULL then ret NULL
  else
    set_mem_funcs darr DA_DEFAULT_MEM_FUNCS ;;
    set_elemsz darr size ;;
    set_length darr nelem ;;
    set_capacity darr capacity ;;
    ret darr.

(** [void* da_alloc_exact_custom(struct da_mem_funcs mem_funcs, size_t nelem,
                                 size_t size)] *)
Definition da_alloc_exact_custom (mem_funcs : da_mem_funcs) (nelem size : Z)
  : M addr :=
  darr <- call_alloc (alloc_f mem_funcs) (arr_size nelem size) size ;;
  if darr =? NULL then ret NULL
  else
    set_mem_funcs darr mem_funcs ;;
    set_elemsz darr size ;;
    set_length darr nelem ;;
    set_capacity darr nelem ;;
    ret darr.

(** [void* da_alloc_exact(size_t nelem, size_t size)] *)
Definition da_alloc_exact (nelem size : Z) : M addr :=
  darr <- call_alloc libc_malloc (arr_size nelem size) size ;;
  if darr =? NULL then ret NULL
  else
    set_mem_funcs darr DA_DEFAULT_MEM_FUNCS ;;
    set_elemsz darr size ;;
    set_length darr nelem ;;
    set_capacity darr nelem ;;
    ret darr.

(** [void da_free(void* darr)] *)
Definition da_free (darr : addr) : M unit :=
  b <- deref darr ;;
  call_free (free_f (_mem_funcs b)) darr.

(** [size_t da_length(const void* darr)] *)
Definition da_length (darr : addr) : M Z :=
  b <- deref darr ;; ret (_length b).

(** [size_t da_capacity(const void* darr)] *)
Definition da_capacity (darr : addr) : M Z :=
  b <- deref darr ;; ret (_capacity b).

(** [size_t da_sizeof_elem(const void* darr)] *)
Definition da_sizeof_elem (darr : addr) : M Z :=
  b <- deref darr ;; ret (_elemsz b).

(** [void* da_resize(void* darr, size_t nelem)] *)
Definition da_resize (darr : addr) (nelem : Z) : M addr :=
  new_capacity <- lift (DA_NEW_CAPACITY_FROM_LENGTH nelem) ;;
  elemsz <- da_sizeof_elem darr ;;
  let new_arr_size := arr_size new_capacity elemsz in
  b <- deref darr ;;
  ptr <- call_realloc (realloc_f (_mem_funcs b)) darr new_arr_size ;;
  if ptr =? NULL then ret NULL
  else
    set_length ptr nelem ;;
    set_capacity ptr new_capacity ;;
    ret ptr.

(** [void* da_resize_exact(void* darr, size_t nelem)] *)
Definition da_resize_exact (darr : addr) (nelem : Z) : M addr :=
  elemsz <- da_sizeof_elem darr ;;
  let new_arr_size := arr_size nelem elemsz in
  b <- deref darr ;;
  ptr <- call_realloc (realloc_f (_mem_funcs b)) darr new_arr_size ;;
  if ptr =? NULL then ret NULL
  else
    set_length ptr nelem ;;
    set_capacity ptr nelem ;;
    ret ptr.

(** [void* da_reserve(void* darr, size_t nelem)] *)
Definition da_reserve (darr : addr) (nelem : Z) : M addr :=
  len <- da_length darr ;;
  let min_capacity := wrap (len + nelem) in
  cap <- da_capacity darr ;;
  if min_capacity <=? cap then ret darr
  else
    new_capacity <- lift (DA_NEW_CAPACITY_FROM_LENGTH min_capacity) ;;
    elemsz <- da_sizeof_elem darr ;;
    let new_arr_size := arr_size new_capacity elemsz in
    b <- deref darr ;;
    ptr <- call_realloc (realloc_f (_mem_funcs b)) darr new_arr_size ;;
    if ptr =? NULL then ret NULL
    else
      set_capacity ptr new_capacity ;;
      ret ptr.

(** [void* da_insert_arr(void* darr, size_t index, const void* src,
                         size_t nelem)]; [src] is the memory behind the
    source pointer. *)
Definition da_insert_arr (darr : addr) (index : Z) (src : list A) (nelem : Z)
  : M addr :=
  darr <- da_reserve darr nelem ;;
  if darr =? NULL then ret NULL
  else
    len <- da_length darr ;;
    memmove darr (wrap (index + nelem)) index (wrap (len - index)) ;;
    memcpy darr index src nelem ;;
    len <- da_length darr ;;
    set_length darr (wrap (len + nelem)) ;;
    ret darr.

(** [void da_remove_arr(void* darr, size_t index, size_t nelem)] *)
Definition da_remove_arr (darr : addr) (index nelem : Z) : M unit :=
  len <- da_length darr ;;
  memmove darr index (wrap (index + nelem)) (wrap (len - index - nelem)) ;;
  len <- da_length darr ;;
  set_length darr (wrap (len - nelem)).

(** [void* da_concat(void* dest, const void* src, size_t nelem)] *)
Definition da_concat (dest : addr) (src : list A) (nelem : Z) : M addr :=
  offset <- da_length dest ;;
  dest <- da_reserve dest nelem ;;
  if dest =? NULL then ret NULL
  else
    memcpy dest offset src nelem ;;
    len <- da_length dest ;;
    set_length dest (wrap (len + nelem)) ;;
    ret dest.

(** [_da_push(darr, value)] (statement-expression macro); its value is the
    new handle, or [NULL]. *)
Definition _da_push (darr : addr) (value : A) : M addr :=
  len <- da_length darr ;;
  cap <- da_capacity darr ;;
  if len =? cap then
    _darr <- da_reserve darr 1 ;;
    if _darr =? NULL then ret _darr
    else
      len <- da_length _darr ;;
      poke _darr len value ;;
      set_length _darr (wrap (len + 1)) ;;
      ret _darr
  else
    poke darr len value ;;
    set_length darr (wrap (len + 1)) ;;
    ret darr.

(** [_da_pop(darr)]: the length in the header is decremented, and the
    element at the new length is the value. *)
Definition _da_pop (darr : addr) : M A :=
  len <- da_length darr ;;
  set_length darr (wrap (len - 1)) ;;
  peek darr (wrap (len - 1)).

(** [_da_move_and_insert(darr, index, value)] *)
Definition _da_move_and_insert (darr : addr) (index : Z) (value : A) : M unit :=
  len <- da_length darr ;;
  memmove darr (index + 1) index (wrap (len - index)) ;;
  poke darr index value ;;
  len <- da_length darr ;;
  set_length darr (wrap (len + 1)).

(** [_da_insert(darr, index, value)].  [_da_move_and_insert] expands to
    three statements, and after [da_reserve] the macro is used as the body
    of an [if] without braces,
    [if (_darr != NULL) _da_move_and_insert(_darr, _index, _value);]:
    the test guards the [memmove] only, and the store and the increment of
    the length are executed whatever [da_reserve] returned. *)
Definition _da_insert (darr : addr) (index : Z) (value : A) : M addr :=
  len <- da_length darr ;;
  cap <- da_capacity darr ;;
  if len =? cap then
    _darr <- da_reserve darr 1 ;;
    (if _darr =? NULL then ret tt
     else
       len <- da_length _darr ;;
       memmove _darr (index + 1) index (wrap (len - index))) ;;
    poke _darr index value ;;
    len <- da_length _darr ;;
    set_length _darr (wrap (len + 1)) ;;
    ret _darr
  else
    _da_move_and_insert darr index value ;; ret darr.

(** [_da_remove(darr, index)] *)
Definition _da_remove (darr : addr) (index : Z) : M A :=
  _rtn_val <- peek darr index ;;
  len <- da_length darr ;;
  memmove darr index (index + 1) (wrap (len - index - 1)) ;;
  len <- da_length darr ;;
  set_length darr (wrap (len - 1)) ;;
  ret _rtn_val.

(** Pushing a list of values, handle threaded as the caller does
    ([darr = da_push(darr, v)]), giving up at the first failure. *)
Fixpoint push_all (darr : addr) (values : list A) : M addr :=
  match values with
  | [] => ret darr
  | v :: rest =>
      darr' <- _da_push darr v ;;
      if darr' =? NULL then ret NULL else push_all darr' rest
  end.

(** [n] pops in a row, the popped values in the order they came out. *)
Fixpoint pop_n (darr : addr) (n : nat) : M (list A) :=
  match n with
  | O => ret []
  | S k => v <- _da_pop darr ;; vs <- pop_n darr k ;; ret (v :: vs)
  end.

(** The loop of [_da_fill]: [for (size_t _indx = 0; _indx < _len; ++_indx)
    _darr[_indx] = _value;], with [n] the number of iterations still to
    run. *)
Fixpoint _da_fill_loop (darr : addr) (value : A) (_indx : Z) (n : nat) : M unit :=
  match n with
  | O => ret tt
  | S n' => poke darr _indx value ;; _da_fill_loop darr value (_indx + 1) n'
  end.

(** [_da_fill(darr, value)]: the length is read once, before the loop. *)
Definition _da_fill (darr : addr) (value : A) : M unit :=
  _len <- da_length darr ;;
  _da_fill_loop darr value 0 (Z.to_nat _len).

(** The loop of [_da_foreach]: the iterator [itername] is kept as its index
    behind the handle, [n] is the number of elements in front of the stop
    pointer, and [L] is the state of the local variables the loop body
    updates. *)
Fixpoint _da_foreach_loop {L : Type} (body : Z -> L -> M L) (itername : Z)
    (n : nat) (s : L) : M L :=
  match n with
  | O => ret s
  | S n' => s' <- body itername s ;;
            _da_foreach_loop body (itername + 1) n' s'
  end.

(** [_da_foreach(darr, itername) body]: the stop pointer
    [itername + da_length(itername)] is computed once, in the first test of
    the loop condition, and the iterator runs from the handle up to it. *)
Definition _da_foreach {L : Type} (darr : addr) (body : Z -> L -> M L) (s : L)
  : M L :=
  _da_stop <- da_length darr ;;
  _da_foreach_loop body 0 (Z.to_nat _da_stop) s.

End Darray.

(** ** Elements as bytes

    [da_swap] exchanges two elements byte by byte.  Its darrays are modelled
    with every element kept as the list of its [_elemsz] bytes: byte [k]
    behind the handle is byte [k mod _elemsz] of slot [k / _elemsz]. *)

(** [((char* )darr)[k]] as an rvalue. *)
Definition peek_byte (p : addr) (k : Z) : Mem.M (list Z) Z :=
  b <- deref p ;;
  if (0 <? _elemsz b) && (0 <=? k) then
    match _data b !! Z.to_nat (k / _elemsz b) with
    | Some e => lift (e !! Z.to_nat (k mod _elemsz b))
    | None => undefined
    end
  else undefined.

(** [((char* )darr)[k] = v]. *)
Definition poke_byte (p : addr) (k : Z) (v : Z) : Mem.M (list Z) unit :=
  b <- deref p ;;
  if (0 <? _elemsz b) && (0 <=? k) then
    match _data b !! Z.to_nat (k / _elemsz b) with
    | Some e =>
        if k mod _elemsz b <? Z.of_nat (length e)
        then set_data p (<[Z.to_nat (k / _elemsz b) :=
                            <[Z.to_nat (k mod _elemsz b) := v]> e]> (_data b))
        else undefined
    | None => undefined
    end
  else undefined.

(** The loop of [_da_memswap]; [a] and [b] are the byte offsets of [p1] and
    [p2] behind the handle [p], and [n] is the number of iterations still to
    run. *)
Fixpoint _da_memswap_loop (p : addr) (a b : Z) (i : Z) (n : nat)
  : Mem.M (list Z) unit :=
  match n with
  | O => ret tt
  | S n' =>
      tmp <- peek_byte p (a + i) ;;
      bi <- peek_byte p (b + i) ;;
      poke_byte p (a + i) bi ;;
      poke_byte p (b + i) tmp ;;
      _da_memswap_loop p a b (i + 1) n'
  end.

(** [static inline void _da_memswap(void* p1, void* p2, size_t sz)] *)
Definition _da_memswap (p : addr) (p1 p2 sz : Z) : Mem.M (list Z) unit :=
  _da_memswap_loop p p1 p2 0 (Z.to_nat sz).

(** [void da_swap(void* darr, size_t index_a, size_t index_b)] *)
Definition da_swap (darr : addr) (index_a index_b : Z) : Mem.M (list Z) unit :=
  size <- da_sizeof_elem darr ;;
  _da_memswap darr (wrap (index_a * size)) (wrap (index_b * size)) size.

End Darray.

Import Darray.

(* ===================================================================== *)
(** * dstrings (darray.c, second half)                                    *)
(* ===================================================================== *)

Module Dstring.

(** A [char] is kept as its byte value 0..255; a dstring is a
    [darray(char)], so the element type is [Z] and [_elemsz] is 1. *)
Local Abbreviation M := (M Z).

(** [EOF] of <stdio.h>. *)
Definition EOF : Z := -1.

(** Conversion of the [int] returned by [fgetc] to the [char] stored. *)
Definition to_char (c : Z) : Z := c mod 256.

(** <ctype.h>, "C" locale. *)
Definition tolower (c : Z) : Z :=
  if (65 <=? c) && (c <=? 90) then c + 32 else c.
Definition isspace (c : Z) : bool :=
  (c =? 32) || ((9 <=? c) && (c <=? 13)).

(** The string a [const char*] points to: the bytes in front of the first
    zero byte of the memory [s] behind the pointer; [None] when the memory
    holds no zero byte (the scan leaves it). *)
Fixpoint c_str (s : list Z) : option (list Z) :=
  match s with
  | [] => None
  | c :: rest =>
      if c =? 0 then Some []
      else match c_str rest with
           | Some t => Some (c :: t)
           | None => None
           end
  end.

(** [strlen].  No object has [SIZE_MAX] bytes or more: a scan that has not
    found the terminator by then has left its object. *)
Definition strlen (s : list Z) : option Z :=
  match c_str s with
  | Some t =>
      if Z.of_nat (length t) + 1 <? SIZE_MOD then Some (Z.of_nat (length t))
      else None
  | None => None
  end.

(** [vsnprintf(NULL, 0, format, args)]: the length of the text the format
    and its arguments produce, [rendered]; it is an [int], and the functions
    below do not look at error returns. *)
Definition INT_MAX : Z := 2147483647.
Definition vsnprintf (rendered : list Z) : option Z :=
  if Z.of_nat (length rendered) <? INT_MAX then Some (Z.of_nat (length rendered))
  else None.

(** The memory image of a string literal. *)
Definition literal (text : list Z) : list Z := text ++ [0].

Fixpoint starts_with (needle hay : list Z) : bool :=
  match needle, hay with
  | [], _ => true
  | _ :: _, [] => false
  | n :: needle', h :: hay' => (n =? h) && starts_with needle' hay'
  end.

(** [strstr] on the two strings: offset of the first occurrence. *)
Fixpoint strstr (haystack needle : list Z) : option Z :=
  if starts_with needle haystack then Some 0
  else match haystack with
       | [] => None
       | _ :: rest =>
           match strstr rest needle with
           | Some i => Some (i + 1)
           | None => None
           end
       end.

(** The loop of [_da_strcasestr]: [haystack] is the offset of the candidate
    match, [currh] the text from the scan position [pos] on, [currn] the part
    of the needle still to be matched. *)
Fixpoint _da_strcasestr_loop (needle : list Z) (haystack : Z)
    (currh : list Z) (pos : Z) (currn : list Z) : option Z :=
  match currn with
  | [] => Some haystack
  | cn :: currn' =>
      match currh with
      | [] => None
      | ch :: currh' =>
          if negb (tolower ch =? tolower cn)
          then _da_strcasestr_loop needle (pos + 1) currh' (pos + 1) needle
          else _da_strcasestr_loop needle haystack currh' (pos + 1) currn'
      end
  end.

(** [static const char* _da_strcasestr(const char* haystack,
                                       const char* needle)] *)
Definition _da_strcasestr (haystack needle : list Z) : option Z :=
  _da_strcasestr_loop needle 0 haystack 0 needle.

(** The memory behind a handle, as [strlen], [strstr], [memcpy] and the
    character loops see it. *)
Definition read_mem (p : addr) : M (list Z) :=
  b <- deref p ;; ret (_data b).

(** [darray(char) dstr_alloc_empty(void)] *)
Definition dstr_alloc_empty : M addr :=
  dstr <- da_alloc 1 1 ;;
  if dstr =? NULL then ret NULL
  else poke dstr 0 0 ;; ret dstr.

(** [darray(char) dstr_alloc_cstr(const char* src)] *)
Definition dstr_alloc_cstr (src : list Z) : M addr :=
  n <- lift (strlen src) ;;
  let src_len_with_nullterm := wrap (n + 1) in
  dstr <- da_alloc src_len_with_nullterm 1 ;;
  if dstr =? NULL then ret NULL
  else memcpy dstr 0 src src_len_with_nullterm ;; ret dstr.

(** [darray(char) dstr_alloc_dstr(const darray(char) src)] *)
Definition dstr_alloc_dstr (src : addr) : M addr :=
  src_len_with_nullterm <- da_length src ;;
  dstr <- da_alloc src_len_with_nullterm 1 ;;
  if dstr =? NULL then ret NULL
  else
    mem <- read_mem src ;;
    memcpy dstr 0 mem src_len_with_nullterm ;; ret dstr.

(** [darray(char) dstr_alloc_format(const char* format, ...)]; [rendered] is
    the text the formatting functions produce for the arguments: [vsprintf]
    writes it and a terminator. *)
Definition dstr_alloc_format (rendered : list Z) : M addr :=
  n <- lift (vsnprintf rendered) ;;
  let size := n + 1 in
  dstr <- da_alloc size 1 ;;
  if dstr =? NULL then ret NULL
  else memcpy dstr 0 (literal rendered) size ;; ret dstr.

(** [darray(char) dstr_reassign_empty(darray(char) allocated_dstr)] *)
Definition dstr_reassign_empty (allocated_dstr : addr) : M addr :=
  set_length allocated_dstr 0 ;;
  da_concat allocated_dstr (literal []) 1.

(** [darray(char) dstr_reassign_cstr(darray(char) allocated_dstr,
                                     const char* src)] *)
Definition dstr_reassign_cstr (allocated_dstr : addr) (src : list Z) : M addr :=
  set_length allocated_dstr 0 ;;
  n <- lift (strlen src) ;;
  da_concat allocated_dstr src (wrap (n + 1)).

(** [darray(char) dstr_reassign_dstr(darray(char) allocated_dstr,
                                     const darray(char) src)] *)
Definition dstr_reassign_dstr (allocated_dstr src : addr) : M addr :=
  set_length allocated_dstr 0 ;;
  n <- da_length src ;;
  mem <- read_mem src ;;
  da_concat allocated_dstr mem n.

(** [darray(char) dstr_reassign_format(darray(char) allocated_dstr,
                                       const char* format, ...)] *)
Definition dstr_reassign_format (allocated_dstr : addr) (rendered : list Z)
  : M addr :=
  n <- lift (vsnprintf rendered) ;;
  let size := n + 1 in
  set_length allocated_dstr 0 ;;
  allocated_dstr <- da_reserve allocated_dstr size ;;
  if allocated_dstr =? NULL then ret NULL
  else
    memcpy allocated_dstr 0 (literal rendered) size ;;
    set_length allocated_dstr size ;;
    ret allocated_dstr.

(** [size_t dstr_length(const darray(char) dstr)] *)
Definition dstr_length (dstr : addr) : M Z :=
  len <- da_length dstr ;; ret (wrap (len - 1)).

(** [darray(char) dstr_concat_char(darray(char) dest, char c)] *)
Definition dstr_concat_char (dest : addr) (c : Z) : M addr :=
  len <- da_length dest ;;
  _da_insert dest (wrap (len - 1)) c.

(** [darray(char) dstr_concat_cstr(darray(char) dest, const char* src)] *)
Definition dstr_concat_cstr (dest : addr) (src : list Z) : M addr :=
  dest_strlen <- dstr_length dest ;;
  src_strlen <- lift (strlen src) ;;
  dest <- da_reserve dest src_strlen ;;
  if dest =? NULL then ret NULL
  else
    memcpy dest dest_strlen src (wrap (src_strlen + 1)) ;;
    len <- da_length dest ;;
    set_length dest (wrap (len + src_strlen)) ;;
    ret dest.

(** [darray(char) dstr_concat_dstr(darray(char) dest,
                                   const darray(char) src)].  When [src] is
    [dest] itself the [memcpy] reads a block that overlaps its target or has
    just been released: undefined. *)
Definition dstr_concat_dstr (dest src : addr) : M addr :=
  dest_strlen <- dstr_length dest ;;
  src_strlen <- dstr_length src ;;
  dest' <- da_reserve dest src_strlen ;;
  if dest' =? NULL then ret NULL
  else if src =? dest then undefined
  else
    mem <- read_mem src ;;
    memcpy dest' dest_strlen mem (wrap (src_strlen + 1)) ;;
    len <- da_length dest' ;;
    set_length dest' (wrap (len + src_strlen)) ;;
    ret dest'.

(** [darray(char) dstr_concat_format(darray(char) dest,
                                     const char* format, ...)] *)
Definition dstr_concat_format (dest : addr) (rendered : list Z) : M addr :=
  dest_strlen <- dstr_length dest ;;
  formatted_strlen <- lift (vsnprintf rendered) ;;
  dest <- da_reserve dest formatted_strlen ;;
  if dest =? NULL then ret NULL
  else
    memcpy dest dest_strlen (literal rendered) (formatted_strlen + 1) ;;
    len <- da_length dest ;;
    set_length dest (wrap (len + formatted_strlen)) ;;
    ret dest.

(** [long dstr_find(darray(char) dstr, const char* substr)] *)
Definition dstr_find (dstr : addr) (substr : list Z) : M Z :=
  mem <- read_mem dstr ;;
  haystack <- lift (c_str mem) ;;
  needle <- lift (c_str substr) ;;
  match strstr haystack needle with
  | None => ret (-1)
  | Some loc => ret loc
  end.

(** [long dstr_find_case(darray(char) dstr, const char* substr)] *)
Definition dstr_find_case (dstr : addr) (substr : list Z) : M Z :=
  mem <- read_mem dstr ;;
  haystack <- lift (c_str mem) ;;
  needle <- lift (c_str substr) ;;
  match _da_strcasestr haystack needle with
  | None => ret (-1)
  | Some loc => ret loc
  end.

(** How a loop that need not terminate ended after a bounded number of
    iterations: it returned, or it is still running with this handle. *)
Inductive loop_end :=
  | Returned (dstr : addr)
  | Running (dstr : addr).

(** The [while] loop of [dstr_replace_all], at most [fuel] iterations. *)
Fixpoint dstr_replace_all_loop (fuel : nat) (dstr : addr) (substr new_str : list Z)
    (substr_len new_str_len : Z) : M loop_end :=
  match fuel with
  | O => ret (Running dstr)
  | S fuel' =>
      loc <- dstr_find dstr substr ;;
      if loc =? -1 then ret (Returned dstr)
      else
        da_remove_arr dstr loc substr_len ;;
        dstr' <- da_insert_arr dstr loc new_str new_str_len ;;
        if dstr' =? NULL then ret (Returned NULL)
        else dstr_replace_all_loop fuel' dstr' substr new_str
               substr_len new_str_len
  end.

(** [darray(char) dstr_replace_all(darray(char) dstr, const char* substr,
                                   const char* new_str)] *)
Definition dstr_replace_all (fuel : nat) (dstr : addr) (substr new_str : list Z)
  : M loop_end :=
  substr_len <- lift (strlen substr) ;;
  new_str_len <- lift (strlen new_str) ;;
  dstr_replace_all_loop fuel dstr substr new_str substr_len new_str_len.

(** The [while] loop of [dstr_replace_all_case]. *)
Fixpoint dstr_replace_all_case_loop (fuel : nat) (dstr : addr)
    (substr new_str : list Z) (substr_len new_str_len : Z) : M loop_end :=
  match fuel with
  | O => ret (Running dstr)
  | S fuel' =>
      loc <- dstr_find_case dstr substr ;;
      if loc =? -1 then ret (Returned dstr)
      else
        da_remove_arr dstr loc substr_len ;;
        dstr' <- da_insert_arr dstr loc new_str new_str_len ;;
        if dstr' =? NULL then ret (Returned NULL)
        else dstr_replace_all_case_loop fuel' dstr' substr new_str
               substr_len new_str_len
  end.

(** [darray(char) dstr_replace_all_case(darray(char) dstr,
                                        const char* substr,
                                        const char* new_str)] *)
Definition dstr_replace_all_case (fuel : nat) (dstr : addr)
    (substr new_str : list Z) : M loop_end :=
  substr_len <- lift (strlen substr) ;;
  new_str_len <- lift (strlen new_str) ;;
  dstr_replace_all_case_loop fuel dstr substr new_str substr_len new_str_len.

(** The loop of [dstr_getdelim]; [stream] is what is left to read from the
    [FILE*], and [fgetc] at its end returns [EOF].  The value is the result
    of the function and the rest of the stream. *)
Fixpoint dstr_getdelim_loop (allocated_dstr : addr) (delim : Z)
    (stream : list Z) : M (addr * list Z) :=
  match stream with
  | [] =>
      (* c is EOF: the loop is left when delim is EOF too, and otherwise
         delim != EOF && c == EOF holds *)
      if negb (EOF =? delim) then ret (NULL, [])
      else ret (allocated_dstr, [])
  | c :: rest =>
      if negb (c =? delim) then
        if negb (delim =? EOF) && (c =? EOF) then ret (NULL, rest)
        else
          allocated_dstr' <- dstr_concat_char allocated_dstr (to_char c) ;;
          if allocated_dstr' =? NULL then ret (NULL, rest)
          else dstr_getdelim_loop allocated_dstr' delim rest
      else ret (allocated_dstr, rest)
  end.

(** [darray(char) dstr_getdelim(darray(char) allocated_dstr, int delim,
                                FILE* stream)] *)
Definition dstr_getdelim (allocated_dstr : addr) (delim : Z) (stream : list Z)
  : M (addr * list Z) :=
  allocated_dstr <- dstr_reassign_empty allocated_dstr ;;
  if allocated_dstr =? NULL then ret (NULL, stream)
  else dstr_getdelim_loop allocated_dstr delim stream.

(** [darray(char) dstr_getline(darray(char) allocated_dstr, FILE* stream)] *)
Definition dstr_getline (allocated_dstr : addr) (stream : list Z)
  : M (addr * list Z) :=
  dstr_getdelim allocated_dstr 10 stream.

(** [while (isspace( *tmp++ )) ++n;]: the number of whitespace bytes at the
    start of [mem]; the scan leaves the block when there is nothing else. *)
Fixpoint count_space (mem : list Z) : option Z :=
  match mem with
  | [] => None
  | c :: rest =>
      if isspace c
      then match count_space rest with
           | Some n => Some (n + 1)
           | None => None
           end
      else Some 0
  end.

(** [while (isspace( *tmp-- )) n++;] started at offset [start]: the scan
    runs towards the front of the data and on to what is in front of the
    data, [front].  It leaves the block when every byte from [start] down
    to the last one of [front] is whitespace (or when [start] is not in the
    block to begin with). *)
Definition count_space_back (front mem : list Z) (start : Z) : option Z :=
  if (-1 <=? start) && (start <? Z.of_nat (length mem))
  then count_space (rev (take (Z.to_nat (start + 1)) mem) ++ front)
  else None.

(** ** The byte in front of the data

    On an empty text the backward scan of [dstr_trim] starts at [dstr[-1]],
    the last byte of the header, which the functions of the library reach
    through negative offsets from the handle as well.  The header ends with
    [_mem_funcs.free_f] (its 48 bytes need no padding in front of [_data]),
    so this is the last byte of the object representation of a pointer to
    a function.  That depends on the implementation, and
    [fn_last_byte] is a parameter of [dstr_trim], the only function that
    reads the header bytewise.

    When that byte is whitespace the scan goes on into the header with a
    count [n] of at least 1, and the [da_remove_arr] behind the scan is
    called with the index [dstr_length(dstr) - n], which is [0 - n] in
    [size_t]: an offset of [SIZE_MAX - n + 1] elements, which no object
    has.  There is no result then, whatever the bytes further to the front
    are, and the scan is modelled up to this one byte. *)
Section HeaderByte.
Variable fn_last_byte : mem_fn -> Z.

Definition read_front (p : addr) : M (list Z) :=
  b <- deref p ;; ret [fn_last_byte (free_f (_mem_funcs b))].

(** [darray(char) dstr_trim(darray(char) dstr)] *)
Definition dstr_trim (dstr : addr) : M addr :=
  mem <- read_mem dstr ;;
  n <- lift (count_space mem) ;;
  da_remove_arr dstr 0 n ;;
  len <- dstr_length dstr ;;
  mem <- read_mem dstr ;;
  front <- read_front dstr ;;
  n <- lift (count_space_back front mem (len - 1)) ;;
  len <- dstr_length dstr ;;
  da_remove_arr dstr (wrap (len - n)) n ;;
  ret dstr.

End HeaderByte.

(** [darray(char) dstr_alloc_empty_custom(struct da_mem_funcs mem_funcs)] *)
Definition dstr_alloc_empty_custom (mem_funcs : da_mem_funcs) : M addr :=
  dstr <- da_alloc_custom mem_funcs 1 1 ;;
  if dstr =? NULL then ret NULL
  else poke dstr 0 0 ;; ret dstr.

(** [darray(char) dstr_alloc_cstr_custom(struct da_mem_funcs mem_funcs,
                                         const char* src)] *)
Definition dstr_alloc_cstr_custom (mem_funcs : da_mem_funcs) (src : list Z)
  : M addr :=
  n <- lift (strlen src) ;;
  let src_len_with_nullterm := wrap (n + 1) in
  dstr <- da_alloc_custom mem_funcs src_len_with_nullterm 1 ;;
  if dstr =? NULL then ret NULL
  else memcpy dstr 0 src src_len_with_nullterm ;; ret dstr.

(** [darray(char) dstr_alloc_dstr_custom(struct da_mem_funcs mem_funcs,
                                         const darray(char) src)] *)
Definition dstr_alloc_dstr_custom (mem_funcs : da_mem_funcs) (src : addr)
  : M addr :=
  src_len_with_nullterm <- da_length src ;;
  dstr <- da_alloc_custom mem_funcs src_len_with_nullterm 1 ;;
  if dstr =? NULL then ret NULL
  else
    mem <- read_mem src ;;
    memcpy dstr 0 mem src_len_with_nullterm ;; ret dstr.

(** [darray(char) dstr_alloc_format_custom(struct da_mem_funcs mem_funcs,
                                           const char* format, ...)] *)
Definition dstr_alloc_format_custom (mem_funcs : da_mem_funcs)
    (rendered : list Z) : M addr :=
  n <- lift (vsnprintf rendered) ;;
  let size := n + 1 in
  dstr <- da_alloc_custom mem_funcs size 1 ;;
  if dstr =? NULL then ret NULL
  else memcpy dstr 0 (literal rendered) size ;; ret dstr.

(** [void dstr_free(darray(char) dstr)] *)
Definition dstr_free (dstr : addr) : M unit := da_free dstr.

(** The value of a [char] in an expression of type [int]: whether [char] is
    a signed type is up to the implementation, and a signed [char] holds the
    bytes from 128 on as negative numbers. *)
Definition int_of_char (char_signed : bool) (c : Z) : Z :=
  if char_signed && (128 <=? c) then c - 256 else c.

(** The loop of [dstr_cmp] and its [return], on the memory behind [s1] and
    behind [s2]; a scan that finds no terminator leaves the memory. *)
Fixpoint dstr_cmp_loop (char_signed : bool) (s1 s2 : list Z) : option Z :=
  match s1, s2 with
  | c1 :: s1', c2 :: s2' =>
      if (c1 =? c2) && negb (c1 =? 0)
      then dstr_cmp_loop char_signed s1' s2'
      else Some (int_of_char char_signed c1 - int_of_char char_signed c2)
  | _, _ => None
  end.

(** [int dstr_cmp(const darray(char) s1, const char* s2)] *)
Definition dstr_cmp (char_signed : bool) (s1 : addr) (s2 : list Z) : M Z :=
  mem <- read_mem s1 ;;
  lift (dstr_cmp_loop char_signed mem s2).

(** The loop of [dstr_cmp_case]: the bytes are compared through [tolower],
    and the value returned is the difference of the bytes themselves. *)
Fixpoint dstr_cmp_case_loop (char_signed : bool) (s1 s2 : list Z) : option Z :=
  match s1, s2 with
  | c1 :: s1', c2 :: s2' =>
      if (tolower c1 =? tolower c2) && negb (c1 =? 0)
      then dstr_cmp_case_loop char_signed s1' s2'
      else Some (int_of_char char_signed c1 - int_of_char char_signed c2)
  | _, _ => None
  end.

(** [int dstr_cmp_case(const darray(char) s1, const char* s2)] *)
Definition dstr_cmp_case (char_signed : bool) (s1 : addr) (s2 : list Z) : M Z :=
  mem <- read_mem s1 ;;
  lift (dstr_cmp_case_loop char_signed mem s2).

(** <ctype.h>, "C" locale. *)
Definition toupper (c : Z) : Z :=
  if (97 <=? c) && (c <=? 122) then c - 32 else c.

(** [void dstr_transform_lower(darray(char) dstr)]:
    [da_foreach(dstr, c) *c = tolower( *c );] -- the loop runs over the
    [da_length] bytes of the dstring, the terminator included. *)
Definition dstr_transform_lower (dstr : addr) : M unit :=
  _da_foreach dstr
    (fun c (_ : unit) => v <- peek dstr c ;; poke dstr c (tolower v)) tt.

(** [void dstr_transform_upper(darray(char) dstr)] *)
Definition dstr_transform_upper (dstr : addr) : M unit :=
  _da_foreach dstr
    (fun c (_ : unit) => v <- peek dstr c ;; poke dstr c (toupper v)) tt.

(** The text of a string constant, as byte values. *)
Definition bytes (s : String.string) : list Z :=
  map (fun c => Z.of_N (Ascii.N_of_ascii c)) (String.list_ascii_of_string s).
Arguments bytes s%_string.

End Dstring.

Import Dstring.

(* ===================================================================== *)
(** * Calls, invariants and the program logic                             *)
(* ===================================================================== *)

Module Spec.

(** ** One call of the library

    [da_call A] is a call of a darray function on darrays of element type
    [A], [dstr_call] a call of a dstring function; a call on darrays of
    [char] is either. *)
Inductive da_call (A : Type) : Type :=
  | Call_da_alloc (nelem size : Z)
  | Call_da_alloc_exact (nelem size : Z)
  | Call_da_alloc_custom (mem_funcs : da_mem_funcs) (nelem size : Z)
  | Call_da_alloc_exact_custom (mem_funcs : da_mem_funcs) (nelem size : Z)
  | Call_da_free (darr : addr)
  | Call_da_resize (darr : addr) (nelem : Z)
  | Call_da_resize_exact (darr : addr) (nelem : Z)
  | Call_da_reserve (darr : addr) (nelem : Z)
  | Call_da_push (darr : addr) (value : A)
  | Call_da_pop (darr : addr)
  | Call_da_insert (darr : addr) (index : Z) (value : A)
  | Call_da_insert_arr (darr : addr) (index : Z) (src : list A) (nelem : Z)
  | Call_da_remove (darr : addr) (index : Z)
  | Call_da_remove_arr (darr : addr) (index nelem : Z)
  | Call_da_concat (dest : addr) (src : list A) (nelem : Z).

Arguments Call_da_alloc {A}.
Arguments Call_da_alloc_exact {A}.
Arguments Call_da_alloc_custom {A}.
Arguments Call_da_alloc_exact_custom {A}.
Arguments Call_da_free {A}.
Arguments Call_da_resize {A}.
Arguments Call_da_resize_exact {A}.
Arguments Call_da_reserve {A}.
Arguments Call_da_push {A}.
Arguments Call_da_pop {A}.
Arguments Call_da_insert {A}.
Arguments Call_da_insert_arr {A}.
Arguments Call_da_remove {A}.
Arguments Call_da_remove_arr {A}.
Arguments Call_da_concat {A}.

Inductive dstr_call : Type :=
  | Call_dstr_alloc_empty
  | Call_dstr_alloc_cstr (src : list Z)
  | Call_dstr_alloc_dstr (src : addr)
  | Call_dstr_alloc_format (rendered : list Z)
  | Call_dstr_reassign_empty (dstr : addr)
  | Call_dstr_reassign_cstr (dstr : addr) (src : list Z)
  | Call_dstr_reassign_dstr (dstr src : addr)
  | Call_dstr_reassign_format (dstr : addr) (rendered : list Z)
  | Call_dstr_concat_char (dest : addr) (c : Z)
  | Call_dstr_concat_cstr (dest : addr) (src : list Z)
  | Call_dstr_concat_dstr (dest src : addr)
  | Call_dstr_concat_format (dest : addr) (rendered : list Z)
  | Call_dstr_replace_all (fuel : nat) (dstr : addr) (substr new_str : list Z)
  | Call_dstr_replace_all_case (fuel : nat) (dstr : addr)
      (substr new_str : list Z)
  | Call_dstr_getdelim (dstr : addr) (delim : Z) (stream : list Z)
  | Call_dstr_getline (dstr : addr) (stream : list Z)
  | Call_dstr_trim (dstr : addr).

Inductive call : Type -> Type :=
  | Da {A} (c : da_call A) : call A
  | Dstr (c : dstr_call) : call Z.

(** The handle a call returns, if it returns one. *)
Definition returns_handle {A} (c : M A addr) : M A (option addr) :=
  h <- c ;; ret (Some h).
Definition returns_other {A X} (c : M A X) : M A (option addr) :=
  _ <- c ;; ret None.
(** A loop that is still running has not returned: there is no state after
    the call. *)
Definition returns_loop_end (c : M Z loop_end) : M Z (option addr) :=
  r <- c ;;
  match r with
  | Returned h => ret (Some h)
  | Running _ => undefined
  end.

Definition exec_da {A} (c : da_call A) : M A (option addr) :=
  match c with
  | Call_da_alloc n s => returns_handle (da_alloc n s)
  | Call_da_alloc_exact n s => returns_handle (da_alloc_exact n s)
  | Call_da_alloc_custom mf n s => returns_handle (da_alloc_custom mf n s)
  | Call_da_alloc_exact_custom mf n s =>
      returns_handle (da_alloc_exact_custom mf n s)
  | Call_da_free d => returns_other (da_free d)
  | Call_da_resize d n => returns_handle (da_resize d n)
  | Call_da_resize_exact d n => returns_handle (da_resize_exact d n)
  | Call_da_reserve d n => returns_handle (da_reserve d n)
  | Call_da_push d v => returns_handle (_da_push d v)
  | Call_da_pop d => returns_other (_da_pop d)
  | Call_da_insert d i v => returns_handle (_da_insert d i v)
  | Call_da_insert_arr d i src n => returns_handle (da_insert_arr d i src n)
  | Call_da_remove d i => returns_other (_da_remove d i)
  | Call_da_remove_arr d i n => returns_other (da_remove_arr d i n)
  | Call_da_concat d src n => returns_handle (da_concat d src n)
  end.

(** The calls are executed on an implementation, which fixes the byte in
    front of the data ([dstr_trim] reads it). *)
Section Exec.
Variable fn_last_byte : mem_fn -> Z.

Definition exec_dstr (c : dstr_call) : M Z (option addr) :=
  match c with
  | Call_dstr_alloc_empty => returns_handle dstr_alloc_empty
  | Call_dstr_alloc_cstr src => returns_handle (dstr_alloc_cstr src)
  | Call_dstr_alloc_dstr src => returns_handle (dstr_alloc_dstr src)
  | Call_dstr_alloc_format r => returns_handle (dstr_alloc_format r)
  | Call_dstr_reassign_empty d => returns_handle (dstr_reassign_empty d)
  | Call_dstr_reassign_cstr d src => returns_handle (dstr_reassign_cstr d src)
  | Call_dstr_reassign_dstr d src => returns_handle (dstr_reassign_dstr d src)
  | Call_dstr_reassign_format d r => returns_handle (dstr_reassign_format d r)
  | Call_dstr_concat_char d c => returns_handle (dstr_concat_char d c)
  | Call_dstr_concat_cstr d src => returns_handle (dstr_concat_cstr d src)
  | Call_dstr_concat_dstr d src => returns_handle (dstr_concat_dstr d src)
  | Call_dstr_concat_format d r => returns_handle (dstr_concat_format d r)
  | Call_dstr_replace_all fuel d sub new =>
      returns_loop_end (dstr_replace_all fuel d sub new)
  | Call_dstr_replace_all_case fuel d sub new =>
      returns_loop_end (dstr_replace_all_case fuel d sub new)
  | Call_dstr_getdelim d delim stream =>
      x <- dstr_getdelim d delim stream ;; ret (Some (fst x))
  | Call_dstr_getline d stream =>
      x <- dstr_getline d stream ;; ret (Some (fst x))
  | Call_dstr_trim d => returns_handle (dstr_trim fn_last_byte d)
  end.

Definition exec {A} (c : call A) : M A (option addr) :=
  match c in call T return M T (option addr) with
  | Da c => exec_da c
  | Dstr c => exec_dstr c
  end.

(** A sequence of calls, each started in the state the one before left. *)
Fixpoint run {A} (cs : list (call A)) : M A unit :=
  match cs with
  | [] => ret tt
  | c :: cs' => _ <- exec c ;; run cs'
  end.

End Exec.

(** The arguments of type [size_t] are values of that type. *)
Definition is_size_t (z : Z) : Prop := 0 <= z < SIZE_MOD.

Definition well_typed_da {A} (c : da_call A) : Prop :=
  match c with
  | Call_da_alloc n s | Call_da_alloc_exact n s
  | Call_da_alloc_custom _ n s | Call_da_alloc_exact_custom _ n s =>
      is_size_t n /\ is_size_t s
  | Call_da_resize _ n | Call_da_resize_exact _ n | Call_da_reserve _ n =>
      is_size_t n
  | Call_da_insert _ i _ | Call_da_remove _ i => is_size_t i
  | Call_da_insert_arr _ i _ n | Call_da_remove_arr _ i n =>
      is_size_t i /\ is_size_t n
  | Call_da_concat _ _ n => is_size_t n
  | _ => True
  end.

Definition well_typed {A} (c : call A) : Prop :=
  match c with
  | Da c => well_typed_da c
  | Dstr _ => True
  end.

(** ** Invariants *)
Section Invariants.
Context {A : Type}.

(** The header of a block is consistent: the length is within the capacity,
    and the block holds no more slots than the capacity says. *)
Definition block_ok (b : _darray A) : Prop :=
  0 <= _elemsz b /\
  0 <= _length b <= _capacity b /\
  _capacity b < SIZE_MOD /\
  Z.of_nat (length (_data b)) <= _capacity b.

Definition heap_ok (w : world A) : Prop :=
  map_Forall (fun _ b => block_ok b) (heap w).

(** The block has room for exactly [_capacity] elements (the size handed to
    the allocator did not overflow). *)
Definition block_full (b : _darray A) : Prop :=
  Z.of_nat (length (_data b)) = _capacity b.

(** Partial correctness: if [c] is defined in [w], its value and final state
    satisfy [Q]. *)
Definition wp {X} (c : M A X) (w : world A) (Q : X -> world A -> Prop) : Prop :=
  match c w with
  | Some (x, w') => Q x w'
  | None => True
  end.

End Invariants.

(** ** Worlds and blocks after an operation *)
Section Effects.
Context {A : Type}.
Implicit Types (w : world A) (p q : addr) (b : _darray A).

(** [w] with block [b] written at [p]. *)
Definition put w p b : world A := World (<[p := b]> (heap w)) (allocator w).

(** What is known of the world after an allocator call that was answered by
    [e]: the answers still to come. *)
Definition answered w (e : alloc_event A) (w' : world A) : Prop :=
  (allocator w = [] /\ e = AllocFail /\ allocator w' = []) \/
  (exists es, allocator w = e :: es /\ allocator w' = es).

(** The block that lived at [p] in [w] lives at [q] in [w'], with content
    [b']; nothing else changed in the heap. *)
Definition relocated w p w' q b' : Prop :=
  q <> NULL /\ delete p (heap w) !! q = None /\
  heap w' = <[q := b']> (delete p (heap w)).

(** The block after a successful reallocation for capacity [c] (the header
    still to be updated). *)
Definition grown (c : Z) (fill : nat -> A) b : _darray A :=
  upd_data (resize_data (slots_of (arr_size c (_elemsz b)) (_elemsz b))
                        (_data b) fill) b.

(** What [da_reserve] leaves behind a non-[NULL] result: the block itself, or
    the block grown. *)
Definition reserved (n : Z) b b1 : Prop :=
  (b1 = b /\ wrap (_length b + n) <= _capacity b) \/
  (_capacity b < wrap (_length b + n) /\
   exists c fill,
     DA_NEW_CAPACITY_FROM_LENGTH (wrap (_length b + n)) = Some c /\
     sizeof_darray <= arr_size c (_elemsz b) /\
     b1 = upd_capacity c (grown c fill b)).

(** The three ways [da_reserve] ends. *)
Definition reserve_post p n w (r : addr) w' : Prop :=
  exists b, p <> NULL /\ heap w !! p = Some b /\
    ((wrap (_length b + n) <= _capacity b /\ r = p /\ w' = w) \/
     (_capacity b < wrap (_length b + n) /\ r = NULL /\ heap w' = heap w /\
      answered w AllocFail w') \/
     (_capacity b < wrap (_length b + n) /\
      exists c fill e,
        DA_NEW_CAPACITY_FROM_LENGTH (wrap (_length b + n)) = Some c /\
        sizeof_darray <= arr_size c (_elemsz b) /\
        answered w e w' /\ e <> AllocFail /\
        relocated w p w' r (upd_capacity c (grown c fill b)))).

(** The blocks the functions leave behind, as functions of the block they
    found. *)
Definition blk_remove_arr (index nelem : Z) b : _darray A :=
  upd_length (wrap (_length b - nelem))
    (upd_data (blit (_data b) index
                 (take (Z.to_nat (wrap (_length b - index - nelem)))
                       (drop (Z.to_nat (wrap (index + nelem))) (_data b)))) b).

Definition blk_insert_arr (index : Z) (src : list A) (nelem : Z) b : _darray A :=
  upd_length (wrap (_length b + nelem))
    (upd_data
       (blit (blit (_data b) (wrap (index + nelem))
                (take (Z.to_nat (wrap (_length b - index)))
                      (drop (Z.to_nat index) (_data b))))
             index (take (Z.to_nat nelem) src)) b).

Definition blk_concat (src : list A) (nelem : Z) b : _darray A :=
  upd_length (wrap (_length b + nelem))
    (upd_data (blit (_data b) (_length b) (take (Z.to_nat nelem) src)) b).

Definition blk_push (value : A) b : _darray A :=
  upd_length (wrap (_length b + 1))
    (upd_data (<[Z.to_nat (_length b) := value]> (_data b)) b).

Definition blk_pop b : _darray A := upd_length (wrap (_length b - 1)) b.

Definition blk_insert (index : Z) (value : A) b : _darray A :=
  upd_length (wrap (_length b + 1))
    (upd_data
       (<[Z.to_nat index := value]>
          (blit (_data b) (index + 1)
             (take (Z.to_nat (wrap (_length b - index)))
                   (drop (Z.to_nat index) (_data b))))) b).

Definition blk_remove (index : Z) b : _darray A :=
  upd_length (wrap (_length b - 1))
    (upd_data (blit (_data b) index
                 (take (Z.to_nat (wrap (_length b - index - 1)))
                       (drop (Z.to_nat (index + 1)) (_data b)))) b).

(** [memmove(darr + dst, darr + src, n)] stays inside the block. *)
Definition can_move b (dst src n : Z) : Prop :=
  0 <= dst /\ 0 <= src /\ 0 <= n /\
  dst + n <= Z.of_nat (length (_data b)) /\
  src + n <= Z.of_nat (length (_data b)).


(** The block [da_alloc] and its variants hand out. *)
Definition fresh_block (mem_funcs : da_mem_funcs) (nelem size capacity : Z)
    (fill : nat -> A) : _darray A :=
  Build_darray size nelem capacity mem_funcs
    (resize_data (slots_of (arr_size capacity size) size) [] fill).

Definition alloc_post (mem_funcs : da_mem_funcs) (nelem size capacity : Z)
    w (r : addr) w' : Prop :=
  (r = NULL /\ heap w' = heap w /\ answered w AllocFail w') \/
  (r <> NULL /\ heap w !! r = None /\
   exists fill e,
     sizeof_darray <= arr_size capacity size /\
     answered w e w' /\ e <> AllocFail /\
     heap w' = <[r := fresh_block mem_funcs nelem size capacity fill]> (heap w)).

(** The block after a successful [da_resize] / [da_resize_exact]. *)
Definition resized (nelem capacity : Z) (fill : nat -> A) b : _darray A :=
  upd_capacity capacity (upd_length nelem (grown capacity fill b)).

Definition resize_post p (nelem capacity : Z) w (r : addr) w' : Prop :=
  exists b, p <> NULL /\ heap w !! p = Some b /\
    ((r = NULL /\ heap w' = heap w /\ answered w AllocFail w') \/
     (exists fill e,
        sizeof_darray <= arr_size capacity (_elemsz b) /\
        answered w e w' /\ e <> AllocFail /\
        relocated w p w' r (resized nelem capacity fill b))).

(** The allocator is about to refuse. *)
Definition next_answer_fails w : Prop :=
  allocator w = [] \/ exists es, allocator w = AllocFail :: es.

End Effects.

(** ** dstrings *)

(** [length] counts one terminator, and it is the last byte. *)
Definition dstr_inv (b : _darray Z) : Prop :=
  block_ok b /\ 1 <= _length b /\
  _data b !! Z.to_nat (_length b - 1) = Some 0.

(** The text of a dstring: the [dstr_length] bytes in front of the
    terminator. *)
Definition dstr_text (b : _darray Z) : list Z :=
  take (Z.to_nat (_length b - 1)) (_data b).

Definition is_dstr (w : world Z) (p : addr) : Prop :=
  p <> NULL /\ exists b, heap w !! p = Some b /\ dstr_inv b.

(** The dstring a text operation (append, replace, reassign, trim) works on,
    and what the operation needs of its arguments: a source dstring is a
    dstring, and the source of a reassignment is another one than the
    target. *)
Definition text_op (c : dstr_call) : option addr :=
  match c with
  | Call_dstr_reassign_empty d | Call_dstr_reassign_cstr d _
  | Call_dstr_reassign_dstr d _ | Call_dstr_reassign_format d _
  | Call_dstr_concat_char d _ | Call_dstr_concat_cstr d _
  | Call_dstr_concat_dstr d _ | Call_dstr_concat_format d _
  | Call_dstr_replace_all _ d _ _ | Call_dstr_replace_all_case _ d _ _
  | Call_dstr_trim d => Some d
  | _ => None
  end.

Definition text_op_pre (w : world Z) (c : dstr_call) : Prop :=
  match c with
  | Call_dstr_reassign_dstr d src => src <> d /\ is_dstr w src
  | Call_dstr_concat_dstr d src => is_dstr w src
  | _ => True
  end.

(** ** The specification's reading of replace_all, for comparison

    "after each replacement, scanning resumes from the position immediately
    following the inserted replacement (not from the start)": the text is
    consumed from left to right, and what has been inserted is never looked
    at again. *)
Fixpoint spec_replace_all (fuel : nat) (text substr new_str : list Z) : list Z :=
  match fuel with
  | O => text
  | S fuel' =>
      match strstr text substr with
      | None => text
      | Some loc =>
          take (Z.to_nat loc) text ++ new_str ++
          spec_replace_all fuel'
            (drop (Z.to_nat loc + length substr) text) substr new_str
      end
  end.

(** What the loop of [dstr_replace_all] computes on the text, as a function
    on lists: the first occurrence found by [find] from the start of the
    whole text is replaced, and the search starts over.  [None]: no result
    within [fuel] iterations. *)
Fixpoint restart_replace_all (find : list Z -> list Z -> option Z) (fuel : nat)
    (text substr new_str : list Z) : option (list Z) :=
  match fuel with
  | O => None
  | S fuel' =>
      match find text substr with
      | None => Some text
      | Some loc =>
          restart_replace_all find fuel'
            (take (Z.to_nat loc) text ++ new_str ++
             drop (Z.to_nat loc + length substr) text) substr new_str
      end
  end.


(** ** Content of darrays and dstrings *)

(** The logical content of a darray: its first [_length] slots. *)
Definition elems {A} (b : _darray A) : list A :=
  take (Z.to_nat (_length b)) (_data b).

(** The length is a [size_t] and the elements are in the block. *)
Definition fits {A} (b : _darray A) : Prop :=
  0 <= _length b <= Z.of_nat (length (_data b)) /\ _length b < SIZE_MOD.

(** The string in front of the first zero byte of a text. *)
Fixpoint c_prefix (s : list Z) : list Z :=
  match s with
  | [] => []
  | c :: rest => if c =? 0 then [] else c :: c_prefix rest
  end.

(** What a text operation on the dstring [p] guarantees: the block is still
    there (maybe elsewhere), its header is consistent, and if the operation
    returned a handle and started from a dstring (and [Pre] holds of its
    other arguments), the result is a dstring whose text is related to the
    old one by [R]. *)
Definition dstr_post (p : addr) (Pre : Prop) (R : list Z -> list Z -> Prop)
    (w : world Z) (r : addr) (w' : world Z) : Prop :=
  exists b q b', p <> NULL /\ heap w !! p = Some b /\
    relocated w p w' q b' /\ (r = NULL \/ r = q) /\
    (block_ok b -> block_ok b') /\
    (r <> NULL -> dstr_inv b -> Pre ->
     dstr_inv b' /\ R (dstr_text b) (dstr_text b')).

(** A block whose bytes from [off] on were overwritten by [chunk], the
    length set to the end of the chunk. *)
Definition overwritten (off : Z) (chunk : list Z) (b : _darray Z) : _darray Z :=
  upd_length (off + Z.of_nat (length chunk))
    (upd_data (blit (_data b) off chunk) b).

(** ** The replace loops

    The loops of [dstr_replace_all] and [dstr_replace_all_case] differ in
    the search function only. *)
Fixpoint replace_loop (find : addr -> list Z -> M Z Z) (fuel : nat) (dstr : addr)
    (substr new_str : list Z) (substr_len new_str_len : Z) : M Z loop_end :=
  match fuel with
  | O => ret (Running dstr)
  | S fuel' =>
      loc <- find dstr substr ;;
      if loc =? -1 then ret (Returned dstr)
      else
        da_remove_arr dstr loc substr_len ;;
        dstr' <- da_insert_arr dstr loc new_str new_str_len ;;
        if dstr' =? NULL then ret (Returned NULL)
        else replace_loop find fuel' dstr' substr new_str
               substr_len new_str_len
  end.

(** The search of the loop, on the text of the dstring: [strstr] and
    [_da_strcasestr] stop at the first zero byte. *)
Definition text_find (F : list Z -> list Z -> option Z) (text substr : list Z)
  : option Z := F (c_prefix text) substr.

Definition find_post (F : list Z -> list Z -> option Z) (p : addr)
    (substr : list Z) (w : world Z) (loc : Z) (w' : world Z) : Prop :=
  w' = w /\ exists b hay needle,
    p <> NULL /\ heap w !! p = Some b /\
    c_str (_data b) = Some hay /\ c_str substr = Some needle /\
    (F hay needle = None /\ loc = -1 \/ F hay needle = Some loc).

(** What a replace loop leaves after at most [fuel] iterations. *)
Definition loop_post (F : list Z -> list Z -> option Z) (sub new : list Z)
    (p : addr) (fuel : nat) (w : world Z) (r : loop_end) (w' : world Z) : Prop :=
  exists b q b', p <> NULL /\ heap w !! p = Some b /\
    relocated w p w' q b' /\ (block_ok b -> block_ok b') /\
    match r with
    | Returned h =>
        (h = NULL \/ h = q) /\
        (h <> NULL -> dstr_inv b ->
         dstr_inv b' /\
         restart_replace_all (text_find F) fuel (dstr_text b) sub new
           = Some (dstr_text b'))
    | Running h =>
        h = q /\
        (dstr_inv b ->
         dstr_inv b' /\
         restart_replace_all (text_find F) fuel (dstr_text b) sub new = None)
    end.

(** ** Trimming and reading *)

(** The text [dstr_trim] leaves: [n] whitespace bytes are dropped at the
    front and [n2] at the end. *)
Definition trimmed (t t' : list Z) : Prop :=
  exists n n2,
    count_space (t ++ [0]) = Some n /\
    count_space (rev (drop (Z.to_nat n) t)) = Some n2 /\
    t' = take (Z.to_nat (Z.of_nat (length t) - n - n2)) (drop (Z.to_nat n) t).

(** What the loop of [dstr_getdelim] takes from the stream, as a function on
    lists: the bytes stored and the rest of the stream, or [None] when the
    read fails. *)
Fixpoint read_until (delim : Z) (stream : list Z) : option (list Z * list Z) :=
  match stream with
  | [] => if negb (EOF =? delim) then None else Some ([], [])
  | c :: rest =>
      if negb (c =? delim) then
        if negb (delim =? EOF) && (c =? EOF) then None
        else match read_until delim rest with
             | Some (t, rest') => Some (to_char c :: t, rest')
             | None => None
             end
      else Some ([], rest)
  end.

Definition getdelim_post (p : addr) (delim : Z) (stream : list Z)
    (w : world Z) (x : addr * list Z) (w' : world Z) : Prop :=
  dstr_post p True
    (fun t t' => exists s, read_until delim stream = Some (s, snd x) /\ t' = t ++ s)
    w (fst x) w' /\
  (read_until delim stream = None -> fst x = NULL).

(** ** What every call keeps *)

(** The headers of all blocks stay consistent, and a handle that is returned
    is the handle of a block. *)
Definition call_post {A} (w : world A) (r : option addr) (w' : world A) : Prop :=
  (heap_ok w -> heap_ok w') /\
  (forall h, r = Some h -> h <> NULL -> is_Some (heap w' !! h)).

(** A new block was handed out, or none. *)
Definition alloc_ok {A} (w : world A) (r : addr) (w' : world A) : Prop :=
  (r = NULL /\ heap w' = heap w) \/
  (r <> NULL /\ heap w !! r = None /\
   exists b', heap w' = <[r := b']> (heap w) /\ (heap_ok w -> block_ok b')).

(** A dstring that occupies a block of [_capacity] bytes, with its text. *)
Definition dstr_with (t : list Z) (cap : Z) (b : _darray Z) : Prop :=
  dstr_inv b /\ block_full b /\ dstr_text b = t /\ _capacity b = cap.

(** ** Results of the text functions *)

(** The state a computation leaves. *)
Definition world_after {A X} (c : M A X) (w : world A) : world A :=
  match c w with
  | Some (_, w') => w'
  | None => w
  end.

(** What [dstr_replace_all] (with [F] the search of [strstr]) and
    [dstr_replace_all_case] (with that of [_da_strcasestr]) have done to the
    dstring [b] when they stop, or after [fuel] iterations. *)
Definition replaced (F : list Z -> list Z -> option Z) (substr new_str : list Z)
    (fuel : nat) (b : _darray Z) (r : loop_end) (w' : world Z) : Prop :=
  exists sub new, c_str substr = Some sub /\ c_str new_str = Some new /\
    match r with
    | Returned h =>
        h <> NULL ->
        exists b', heap w' !! h = Some b' /\ dstr_inv b' /\
          restart_replace_all (text_find F) fuel (dstr_text b) sub new
            = Some (dstr_text b') /\
          text_find F (dstr_text b') sub = None
    | Running h =>
        exists b', heap w' !! h = Some b' /\ dstr_inv b' /\
          restart_replace_all (text_find F) fuel (dstr_text b) sub new = None
    end.

(** A value [fgetc] returns for a byte read: an [unsigned char]. *)
Definition is_byte (c : Z) : Prop := 0 <= c < 256.

(** ** Concrete worlds, used to run the functions *)
Definition demo_fill : nat -> Z := fun _ => 0.

(** The last byte of a function pointer in the demonstrations: zero, as the
    most significant byte of an address is on x86-64. *)
Definition demo_fn_last_byte : mem_fn -> Z := fun _ => 0.

Definition demo_block (len cap : Z) (data : list Z) : _darray Z :=
  Build_darray 4 len cap DA_DEFAULT_MEM_FUNCS data.

Definition demo_alloc_world : world Z := World ∅ [AllocMove demo_fill].

(** An [int] darray [7, 8, 9] with capacity 10, and an allocator that will
    satisfy one request. *)
Definition demo_world : world Z :=
  World {[ 8 := demo_block 3 10 [7; 8; 9; 0; 0; 0; 0; 0; 0; 0] ]}
        [AllocMove demo_fill].

(** The same darray with an allocator that refuses. *)
Definition demo_world_failing : world Z :=
  World {[ 8 := demo_block 3 10 [7; 8; 9; 0; 0; 0; 0; 0; 0; 0] ]} [AllocFail].

(** [demo_world] after [da_resize(darr, 12)]. *)
Definition demo_world_resized : world Z :=
  World {[ 1 := demo_block 12 15 [7; 8; 9; 0; 0; 0; 0; 0; 0; 0; 0; 0; 0; 0; 0] ]} [].

(** [demo_world] after [da_reserve(darr, 9)]. *)
Definition demo_world_reserved : world Z :=
  World {[ 1 := demo_block 3 15 [7; 8; 9; 0; 0; 0; 0; 0; 0; 0; 0; 0; 0; 0; 0] ]} [].

(** [demo_world] after pushing 41 and 42. *)
Definition demo_world_pushed : world Z :=
  World {[ 8 := demo_block 5 10 [7; 8; 9; 41; 42; 0; 0; 0; 0; 0] ]}
        [AllocMove demo_fill].

(** A darray with length 0 and capacity 130, as left by
    [da_reserve(da_alloc(0, 1), 100)]. *)
Definition demo_reserved : M Z addr :=
  d <- da_alloc 0 1 ;; da_reserve d 100.

(** An [int] darray is allocated and filled; the allocator satisfies three
    requests. *)
Definition demo_calls : list (call Z) :=
  [Da (Call_da_alloc 0 4); Da (Call_da_push 1 5); Da (Call_da_insert 1 0 6)].

Definition demo_script : list (alloc_event Z) :=
  [AllocMove demo_fill; AllocMove demo_fill; AllocMove demo_fill].

(** A dstring block with the given text and capacity, the unused bytes
    zero. *)
Definition demo_dstr (text : list Z) (cap : Z) : _darray Z :=
  Build_darray 1 (Z.of_nat (length text) + 1) cap DA_DEFAULT_MEM_FUNCS
    (text ++ replicate (Z.to_nat cap - length text) 0).

Definition demo_dstr_world (text : String.string) : world Z :=
  World {[ 8 := demo_dstr (bytes text) 10 ]} [AllocMove demo_fill].
Arguments demo_dstr_world text%_string.

(** ** Contents, texts and occurrences

    The predicates and the demonstration worlds of the properties X1 to
    X29. *)

(** A darray filled to its capacity, and an allocator that refuses. *)
Definition demo_world_full : world Z :=
  World {[ 8 := demo_block 3 3 [7; 8; 9] ]} [].

(** Every element of the block is kept as its [_elemsz] bytes, and the
    storage has a size in bytes that is a [size_t]. *)
Definition bytes_ok (b : _darray (list Z)) : Prop :=
  0 < _elemsz b /\
  Forall (fun e => Z.of_nat (length e) = _elemsz b) (_data b) /\
  Z.of_nat (length (_data b)) * _elemsz b < SIZE_MOD.

(** A darray of two-byte elements. *)
Definition demo_bytes_world : world (list Z) :=
  World {[ 8 := Build_darray 2 3 4 DA_DEFAULT_MEM_FUNCS
                  [[1; 2]; [3; 4]; [5; 6]; [0; 0]] ]} [].

(** The first [j] bytes taken from [y], the others from [x]. *)
Definition mix (j : nat) (x y : list Z) : list Z := take j y ++ drop j x.

(** The storage after [j] iterations of the loop of [_da_memswap] on the
    elements [ea] at [ia] and [eb] at [ib]. *)
Definition swapping (b0 : _darray (list Z)) (ia ib : nat) (ea eb : list Z)
    (j : nat) : list (list Z) :=
  <[ia := mix j ea eb]> (<[ib := mix j eb ea]> (_data b0)).

(** [p] is a dstring with text [t]. *)
Definition has_text (w : world Z) (p : addr) (t : list Z) : Prop :=
  p <> NULL /\ exists b, heap w !! p = Some b /\ dstr_inv b /\ dstr_text b = t.

(** A new dstring with text [t] and memory functions [mf] was handed out at
    [r] and nothing else changed in the heap; or no block was handed out,
    the result is [NULL] and the heap is as before. *)
Definition new_dstr (mf : da_mem_funcs) (t : list Z) (w : world Z) (r : addr)
    (w' : world Z) : Prop :=
  (r = NULL /\ heap w' = heap w) \/
  (r <> NULL /\ heap w !! r = None /\
   exists b', heap w' = <[r := b']> (heap w) /\ has_text w' r t /\
              _mem_funcs b' = mf /\ _elemsz b' = 1 /\
              dstr_length r w' = Some (Z.of_nat (length t), w')).

(** The dstring [p] of [w] has become the dstring [r] of [w'], with text
    [t]; the other blocks of the heap are as they were. *)
Definition now_text (w : world Z) (p : addr) (w' : world Z) (r : addr)
    (t : list Z) : Prop :=
  has_text w' r t /\
  dstr_length r w' = Some (Z.of_nat (length t), w') /\
  (forall k x, k <> p -> heap w !! k = Some x -> heap w' !! k = Some x).

(** A dstring with room for no more than its text "ab", and an allocator
    that refuses. *)
Definition demo_dstr_full : world Z :=
  World {[ 8 := demo_dstr (bytes "ab") 3 ]} [].

(** [needle] occurs in [hay] at offset [i]; and the same up to the case of
    the letters. *)
Definition occurs_at (needle hay : list Z) (i : nat) : Prop :=
  (i + length needle <= length hay)%nat /\
  take (length needle) (drop i hay) = needle.

Definition occurs_at_case (needle hay : list Z) (i : nat) : Prop :=
  (i + length needle <= length hay)%nat /\
  map tolower (take (length needle) (drop i hay)) = map tolower needle.

(** A text of whitespace only (the empty text is one). *)
Definition blank (l : list Z) : Prop := Forall (fun c => isspace c = true) l.

(** [t'] is [t] without the whitespace at its two ends. *)
Definition stripped (t t' : list Z) : Prop :=
  exists l r, t = l ++ t' ++ r /\ blank l /\ blank r /\
    (exists c, head t' = Some c /\ isspace c = false) /\
    (exists c, last t' = Some c /\ isspace c = false).

End Spec.

Import Spec.

(* ===================================================================== *)
(** * Arithmetic of the capacity formula                                  *)
(* ===================================================================== *)

Section CapacityArith.

Lemma factor_is_nearest_to_13_10 :
  10 * mant DA_CAPACITY_FACTOR - 13 * 2 ^ 52 = 2 /\ expo DA_CAPACITY_FACTOR = -52.
Proof. split; reflexivity. Qed.

(** The hand-written rounding agrees with [SpecFloat] on the sample. *)
Lemma new_capacity_agrees_with_SpecFloat :
  forallb (fun n =>
    match DA_NEW_CAPACITY_FROM_LENGTH n, sf_new_capacity n with
    | Some a, Some b => a =? b
    | _, _ => false
    end) sample_lengths = true.
Proof. vm_compute. reflexivity. Qed.

Lemma log2_bounds m : 0 < m -> 2 ^ Z.log2 m <= m < 2 * 2 ^ Z.log2 m.
Proof.
  intros H. pose proof (Z.log2_spec m H) as [H1 H2].
  rewrite Z.pow_succ_r in H2 by apply Z.log2_nonneg. lia.
Qed.

(** Value bounds for round53: the result stays within half a unit in the last place. *)
Lemma round53_spec m e :
  0 < m ->
  let d := round53 m e in
  exists sh, 0 <= sh /\ expo d = e + sh /\
     2 * Z.abs (mant d * 2 ^ sh - m) <= 2 ^ sh /\
     m / 2 ^ sh <= mant d <= m / 2 ^ sh + 1 /\
     (sh = 0 \/ (2 ^ 52 * 2 ^ sh <= m < 2 ^ 53 * 2 ^ sh)).
Proof.
  intros Hm d. subst d. unfold round53.
  destruct (Z.ltb_spec (Z.log2 m) 53) as [Hk|Hk].
  - exists 0. cbn [mant expo]. rewrite Z.pow_0_r, Z.div_1_r. repeat split; try lia.
  - set (sh := Z.log2 m - 52). assert (Hsh : 1 <= sh) by (unfold sh; lia).
    exists sh. cbn [mant expo].
    pose proof (log2_bounds m Hm) as Hb.
    assert (Hk2 : Z.log2 m = 52 + sh) by (unfold sh; lia).
    rewrite Hk2, Z.pow_add_r in Hb by lia.
    assert (Hp : 0 < 2 ^ sh) by (apply Z.pow_pos_nonneg; lia).
    assert (Hhalf : 2 ^ sh = 2 * 2 ^ (sh - 1)).
    { replace sh with (Z.succ (sh - 1)) at 1 by lia. rewrite Z.pow_succ_r by lia. reflexivity. }
    pose proof (Z.div_mod m (2 ^ sh) ltac:(lia)) as Hdm.
    pose proof (Z.mod_pos_bound m (2 ^ sh) Hp) as Hr.
    set (q := m / 2 ^ sh) in *. set (r := m mod 2 ^ sh) in *.
    set (h := 2 ^ (sh - 1)) in *.
    split; [lia|]. split; [reflexivity|].
    assert (H53 : 2 ^ 53 = 2 * 2 ^ 52) by reflexivity.
    destruct (Z.ltb_spec r h); [|destruct (Z.ltb_spec h r); [|destruct (Z.even q)]];
      (split; [nia|]; split; [lia|]; right; nia).
Qed.

Lemma new_capacity_small n : 0 <= n < 10 -> DA_NEW_CAPACITY_FROM_LENGTH n = Some 10.
Proof.
  intros H. unfold DA_NEW_CAPACITY_FROM_LENGTH, DA_CAPACITY_MIN.
  destruct (Z.ltb_spec n 10); [reflexivity | lia].
Qed.

Lemma new_capacity_floor n :
  10 <= n < 2 ^ 48 -> DA_NEW_CAPACITY_FROM_LENGTH n = Some (13 * n / 10).
Proof.
  intros Hn. unfold DA_NEW_CAPACITY_FROM_LENGTH, DA_CAPACITY_MIN.
  destruct (Z.ltb_spec n 10) as [?|_]; [lia|].
  assert (H48 : 2 ^ 48 = 281474976710656) by reflexivity.
  assert (Hd1 : double_of_size_t n = Double n 0).
  { unfold double_of_size_t, round53.
    destruct (Z.ltb_spec (Z.log2 n) 53) as [_|Hk]; [reflexivity|].
    exfalso. assert (Z.log2 n < 48); [|lia].
    apply Z.log2_lt_pow2; lia. }
  rewrite Hd1. unfold double_mul, DA_CAPACITY_FACTOR. cbn [mant expo].
  set (M := 5854679515581645). set (m := n * M).
  assert (Hm : 0 < m) by (unfold m, M; lia).
  destruct (round53_spec m (0 + -52) Hm) as (sh & Hsh & He & Hhalf & Hq & Hrange).
  set (d := round53 m (0 + -52)) in *.
  assert (H52 : 2 ^ 52 = 4503599627370496) by reflexivity.
  assert (H53 : 2 ^ 53 = 9007199254740992) by reflexivity.
  assert (HP : 0 < 2 ^ sh) by (apply Z.pow_pos_nonneg; lia).
  assert (Hsh49 : sh < 49).
  { destruct Hrange as [->|[Hlo _]]; [lia|].
    apply (Z.pow_lt_mono_r_iff 2); [lia|lia|].
    change (2 ^ 49) with 562949953421312. unfold m, M in Hlo. nia. }
  assert (HPn : 2 ^ sh < 2 * n).
  { destruct Hrange as [->|[Hlo _]]; [change (2 ^ 0) with 1; lia|].
    unfold m, M in Hlo. nia. }
  unfold size_t_of_double. rewrite He.
  destruct (Z.leb_spec 0 (0 + -52 + sh)) as [?|_]; [lia|].
  replace (- (0 + -52 + sh)) with (52 - sh) by lia.
  assert (HPQ : 2 ^ sh * 2 ^ (52 - sh) = 2 ^ 52).
  { rewrite <- Z.pow_add_r by lia. f_equal. lia. }
  assert (HQ : 0 < 2 ^ (52 - sh)) by (apply Z.pow_pos_nonneg; lia).
  set (P := 2 ^ sh) in *. set (Q := 2 ^ (52 - sh)) in *. set (q := mant d) in *.
  set (c := 13 * n / 10).
  assert (Hc : 10 * c <= 13 * n < 10 * c + 10).
  { unfold c. pose proof (Z.div_mod (13 * n) 10 ltac:(lia)).
    pose proof (Z.mod_pos_bound (13 * n) 10 ltac:(lia)). lia. }
  assert (HM : 10 * m = 13 * n * 2 ^ 52 + 2 * n) by (unfold m, M; lia).
  assert (Hlow : c * Q <= q).
  { transitivity (m / P); [|lia]. apply Z.div_le_lower_bound; [lia|]. nia. }
  assert (Hup : q < (c + 1) * Q).
  { assert (2 * (q * P) <= 2 * m + P) by lia.
    assert (q * P < (c + 1) * Q * P); [|nia].
    replace ((c + 1) * Q * P) with ((c + 1) * 2 ^ 52) by nia. nia. }
  assert (Hv : q / Q = c).
  { symmetry. apply (Z.div_unique q Q c (q - c * Q)); lia. }
  rewrite Hv. destruct (Z.ltb_spec c SIZE_MOD) as [_|Hbig]; [reflexivity|].
  unfold SIZE_MOD in Hbig. lia.
Qed.

Lemma round53_lower m e :
  0 < m ->
  exists sh, 0 <= sh /\ expo (round53 m e) = e + sh /\ 0 <= mant (round53 m e) /\
    (2 ^ 53 - 1) * m <= 2 ^ 53 * (mant (round53 m e) * 2 ^ sh).
Proof.
  intros Hm. destruct (round53_spec m e Hm) as (sh & Hsh & He & Hhalf & Hq & Hrange).
  exists sh. split; [lia|]. split; [exact He|].
  assert (HP : 0 < 2 ^ sh) by (apply Z.pow_pos_nonneg; lia).
  assert (0 <= m / 2 ^ sh) by (apply Z.div_pos; lia).
  split; [lia|].
  change (2 ^ 53) with 9007199254740992 in *. change (2 ^ 52) with 4503599627370496 in *.
  destruct Hrange as [->|[Hlo _]].
  - change (2 ^ 0) with 1 in *. lia.
  - lia.
Qed.

Lemma new_capacity_ge n c :
  0 <= n -> DA_NEW_CAPACITY_FROM_LENGTH n = Some c -> n <= c < SIZE_MOD /\ 10 <= c.
Proof.
  intros Hn. unfold DA_NEW_CAPACITY_FROM_LENGTH, DA_CAPACITY_MIN.
  destruct (Z.ltb_spec n 10) as [Hlt|Hge].
  - change (size_t_of_double (round53 10 0)) with (Some 10).
    intros [= <-]. unfold SIZE_MOD. lia.
  - unfold size_t_of_double.
    match goal with
    | |- context [if ?t <? SIZE_MOD then _ else _] => set (v := t)
    end.
    destruct (Z.ltb_spec v SIZE_MOD) as [Hv|Hv]; [|discriminate].
    intros [= <-]. cut (n <= v); [lia|]. revert Hv. subst v.
    unfold double_mul, double_of_size_t, DA_CAPACITY_FACTOR. cbn [mant expo].
    destruct (round53_lower n 0 ltac:(lia)) as (s1 & Hs1 & He1 & Ha & H1).
    set (d1 := round53 n 0) in *. set (a := mant d1) in *. rewrite He1.
    set (M := 5854679515581645).
    assert (Hapos : 0 < a).
    { assert (0 < 2 ^ s1) by (apply Z.pow_pos_nonneg; lia).
      change (2 ^ 53) with 9007199254740992 in H1. nia. }
    destruct (round53_lower (a * M) (0 + s1 + -52) ltac:(unfold M; lia))
      as (s2 & Hs2 & He2 & Hb & H2).
    set (d2 := round53 (a * M) (0 + s1 + -52)) in *. set (b := mant d2) in *.
    rewrite He2. intros _.
    assert (HP1 : 0 < 2 ^ s1) by (apply Z.pow_pos_nonneg; lia).
    assert (HP2 : 0 < 2 ^ s2) by (apply Z.pow_pos_nonneg; lia).
    set (P1 := 2 ^ s1) in *. set (P2 := 2 ^ s2) in *.
    assert (Hkey : n * 2 ^ 52 <= b * P1 * P2).
    { change (2 ^ 53) with 9007199254740992 in *. change (2 ^ 52) with 4503599627370496.
      assert (E1 : 9007199254740991 * (a * M) * P1 <= 9007199254740992 * (b * P2) * P1)
        by (apply Z.mul_le_mono_nonneg_r; lia).
      assert (E2 : 9007199254740991 * M * (9007199254740991 * n)
                   <= 9007199254740991 * M * (9007199254740992 * (a * P1)))
        by (apply Z.mul_le_mono_nonneg_l; unfold M; lia).
      unfold M in *. nia. }
    destruct (Z.leb_spec 0 (0 + s1 + -52 + s2)) as [Hpos|Hneg].
    + assert (HE : P1 * P2 = 2 ^ 52 * 2 ^ (0 + s1 + -52 + s2)).
      { unfold P1, P2. rewrite <- !Z.pow_add_r by lia. f_equal. lia. }
      set (E := 2 ^ (0 + s1 + -52 + s2)) in *.
      change (2 ^ 52) with 4503599627370496 in *. nia.
    + replace (- (0 + s1 + -52 + s2)) with (52 - s1 - s2) by lia.
      assert (HE : P1 * P2 * 2 ^ (52 - s1 - s2) = 2 ^ 52).
      { unfold P1, P2. rewrite <- !Z.pow_add_r by lia. f_equal. lia. }
      assert (HQ : 0 < 2 ^ (52 - s1 - s2)) by (apply Z.pow_pos_nonneg; lia).
      set (Q := 2 ^ (52 - s1 - s2)) in *.
      apply Z.div_le_lower_bound; [lia|].
      change (2 ^ 52) with 4503599627370496 in *. nia.
Qed.

Lemma new_capacity_mono n n' c c' :
  0 <= n <= n' -> n' < 2 ^ 48 ->
  DA_NEW_CAPACITY_FROM_LENGTH n = Some c -> DA_NEW_CAPACITY_FROM_LENGTH n' = Some c' ->
  c <= c'.
Proof.
  intros Hn Hn'.
  destruct (Z.lt_ge_cases n 10); destruct (Z.lt_ge_cases n' 10);
    rewrite ?new_capacity_small, ?new_capacity_floor by lia; intros [= <-] [= <-];
    try lia.
  - assert (13 * 10 / 10 <= 13 * n' / 10) by (apply Z.div_le_mono; lia).
    change (13 * 10 / 10) with 13 in *. lia.
  - apply Z.div_le_mono; lia.
Qed.

End CapacityArith.

(* ===================================================================== *)
(** * Rules of the program logic                                          *)
(* ===================================================================== *)

Section Logic.
Context {A : Type}.
Implicit Types (w : world A) (p q : addr) (b : _darray A).

Lemma wp_elim {X} (c : M A X) w (Q : X -> world A -> Prop) x w' :
  wp c w Q -> c w = Some (x, w') -> Q x w'.
Proof. unfold wp. intros H E. rewrite E in H. exact H. Qed.

Lemma wp_intro {X} (c : M A X) w (Q : X -> world A -> Prop) :
  (forall x w', c w = Some (x, w') -> Q x w') -> wp c w Q.
Proof. unfold wp. intros H. destruct (c w) as [[x w']|]; auto. Qed.

Lemma wp_mono {X} (c : M A X) w (Q Q' : X -> world A -> Prop) :
  wp c w Q -> (forall x w', Q x w' -> Q' x w') -> wp c w Q'.
Proof. unfold wp. destruct (c w) as [[x w']|]; auto. Qed.

Lemma wp_ret {X} (x : X) w (Q : X -> world A -> Prop) : Q x w -> wp (ret x) w Q.
Proof. intros H. exact H. Qed.

Lemma wp_bind {X Y} (c : M A X) (k : X -> M A Y) w (Q : Y -> world A -> Prop) :
  wp c w (fun x w' => wp (k x) w' Q) -> wp (bind c k) w Q.
Proof. unfold wp, bind. destruct (c w) as [[x w']|]; auto. Qed.

Lemma wp_lift {X} (o : option X) w (Q : X -> world A -> Prop) :
  (forall x, o = Some x -> Q x w) -> wp (lift o) w Q.
Proof. unfold wp, lift. destruct o; auto. Qed.

Lemma wp_undefined {X} w (Q : X -> world A -> Prop) : wp undefined w Q.
Proof. exact I. Qed.

Lemma wp_deref p w (Q : _darray A -> world A -> Prop) :
  (forall b, p <> NULL -> heap w !! p = Some b -> Q b w) -> wp (deref p) w Q.
Proof.
  unfold wp, deref. intros H. destruct (Z.eqb_spec p NULL); [exact I|].
  destruct (heap w !! p) eqn:E; auto.
Qed.

Lemma wp_store p b w (Q : unit -> world A -> Prop) :
  Q tt (World (<[p := b]> (heap w)) (allocator w)) -> wp (store p b) w Q.
Proof. intros H. exact H. Qed.

Lemma wp_next_event w (Q : alloc_event A -> world A -> Prop) :
  (allocator w = [] -> Q AllocFail w) ->
  (forall e es, allocator w = e :: es -> Q e (World (heap w) es)) ->
  wp next_event w Q.
Proof. unfold wp, next_event. intros H1 H2. destruct (allocator w); auto. Qed.

Lemma fresh_addr_spec (h : gmap Z (_darray A)) :
  fresh_addr h <> NULL /\ h !! fresh_addr h = None.
Proof.
  unfold fresh_addr.
  pose proof (is_fresh ({[NULL]} ∪ dom h)) as H.
  split.
  - intros E. apply H. apply elem_of_union_l, elem_of_singleton. exact E.
  - apply not_elem_of_dom. intros E. apply H. apply elem_of_union_r. exact E.
Qed.

Lemma wp_call_realloc f p size w (Q : addr -> world A -> Prop) :
  (forall b, p <> NULL -> heap w !! p = Some b ->
     (forall w', heap w' = heap w -> answered w AllocFail w' -> Q NULL w') /\
     (forall q e fill w',
        (e = AllocStay fill /\ q = p \/
         e = AllocMove fill /\ q = fresh_addr (delete p (heap w))) ->
        answered w e w' ->
        q <> NULL -> delete p (heap w) !! q = None ->
        sizeof_darray <= size ->
        heap w' = <[q := upd_data (resize_data (slots_of size (_elemsz b))
                                               (_data b) fill) b]>
                    (delete p (heap w)) ->
        Q q w')) ->
  wp (call_realloc f p size) w Q.
Proof.
  intros H. unfold call_realloc. apply wp_bind, wp_deref. intros b Hp Hb.
  destruct (H b Hp Hb) as [Hfail Hok]. clear H.
  apply wp_bind, wp_next_event.
  - intros Hnil. apply wp_ret, Hfail; [reflexivity|]. left. auto.
  - intros e es He. destruct e as [|fill|fill].
    + apply wp_ret, Hfail; [reflexivity|]. right. exists es. auto.
    + unfold wp. cbn [heap allocator]. destruct (Z.ltb_spec size sizeof_darray); [exact I|].
      apply (Hok p (AllocStay fill) fill); cbn; auto.
      * right. eexists; eauto.
      * apply lookup_delete_eq.
    + unfold wp. cbn [heap allocator]. destruct (Z.ltb_spec size sizeof_darray); [exact I|].
      destruct (fresh_addr_spec (delete p (heap w))) as [F1 F2].
      apply (Hok _ (AllocMove fill) fill); cbn; auto.
      right. eexists; eauto.
Qed.

Lemma wp_call_alloc f size elemsz w (Q : addr -> world A -> Prop) :
  (forall w', heap w' = heap w -> answered w AllocFail w' -> Q NULL w') ->
  (forall q e fill w',
      e <> AllocFail -> answered w e w' ->
      q <> NULL -> heap w !! q = None ->
      sizeof_darray <= size ->
      heap w' = <[q := Build_darray 0 0 0 (Build_mem_funcs no_fn no_fn no_fn)
                         (resize_data (slots_of size elemsz) [] fill)]>
                  (heap w) ->
      Q q w') ->
  wp (call_alloc f size elemsz) w Q.
Proof.
  intros Hfail Hok. unfold call_alloc. apply wp_bind, wp_next_event.
  - intros Hnil. apply wp_ret, Hfail; [reflexivity|]. left. auto.
  - intros e es He.
    destruct (fresh_addr_spec (heap w)) as [F1 F2].
    destruct e as [|fill|fill].
    + apply wp_ret, Hfail; [reflexivity|]. right. exists es. auto.
    + unfold wp. cbn [heap allocator]. destruct (Z.ltb_spec size sizeof_darray); [exact I|].
      apply (Hok (fresh_addr (heap w)) (AllocStay fill) fill);
        [discriminate | right; eexists; split; [exact He|reflexivity]
        | exact F1 | exact F2 | lia | reflexivity].
    + unfold wp. cbn [heap allocator]. destruct (Z.ltb_spec size sizeof_darray); [exact I|].
      apply (Hok (fresh_addr (heap w)) (AllocMove fill) fill);
        [discriminate | right; eexists; split; [exact He|reflexivity]
        | exact F1 | exact F2 | lia | reflexivity].
Qed.

End Logic.

Section LogicDerived.
Context {A : Type}.
Implicit Types (w : world A) (p q : addr) (b : _darray A).

Lemma wp_set_with (f : _darray A -> _darray A) p w (Q : unit -> world A -> Prop) :
  (forall b, p <> NULL -> heap w !! p = Some b -> Q tt (put w p (f b))) ->
  wp (b <- deref p ;; store p (f b)) w Q.
Proof. intros H. apply wp_bind, wp_deref. intros b Hp Hb. apply wp_store, H; auto. Qed.

Lemma wp_peek p i w (Q : A -> world A -> Prop) :
  (forall b v, p <> NULL -> heap w !! p = Some b -> 0 <= i ->
     _data b !! Z.to_nat i = Some v -> Q v w) ->
  wp (peek p i) w Q.
Proof.
  intros H. unfold peek. apply wp_bind, wp_deref. intros b Hp Hb.
  destruct (Z.leb_spec 0 i); [|exact I]. apply wp_lift. intros v Hv. eauto.
Qed.

Lemma wp_poke p i v w (Q : unit -> world A -> Prop) :
  (forall b, p <> NULL -> heap w !! p = Some b ->
     0 <= i < Z.of_nat (length (_data b)) ->
     Q tt (put w p (upd_data (<[Z.to_nat i := v]> (_data b)) b))) ->
  wp (poke p i v) w Q.
Proof.
  intros H. unfold poke. apply wp_bind, wp_deref. intros b Hp Hb.
  destruct (_ && _) eqn:E; [|exact I].
  unfold set_data. apply wp_set_with. intros b' _ Hb'.
  assert (b' = b) by congruence. subst b'. apply H; auto. lia.
Qed.

Lemma wp_memmove p dst src n w (Q : unit -> world A -> Prop) :
  (forall b, p <> NULL -> heap w !! p = Some b ->
     0 <= dst -> 0 <= src -> 0 <= n ->
     dst + n <= Z.of_nat (length (_data b)) ->
     src + n <= Z.of_nat (length (_data b)) ->
     Q tt (put w p (upd_data (blit (_data b) dst
             (take (Z.to_nat n) (drop (Z.to_nat src) (_data b)))) b))) ->
  wp (memmove p dst src n) w Q.
Proof.
  intros H. unfold memmove. apply wp_bind, wp_deref. intros b Hp Hb.
  destruct (_ && _) eqn:E; [|exact I].
  unfold set_data. apply wp_set_with. intros b' _ Hb'.
  assert (b' = b) by congruence. subst b'. apply H; auto; lia.
Qed.

Lemma wp_memcpy p dst (src : list A) n w (Q : unit -> world A -> Prop) :
  (forall b, p <> NULL -> heap w !! p = Some b ->
     0 <= dst -> 0 <= n -> n <= Z.of_nat (length src) ->
     dst + n <= Z.of_nat (length (_data b)) ->
     Q tt (put w p (upd_data (blit (_data b) dst (take (Z.to_nat n) src)) b))) ->
  wp (memcpy p dst src n) w Q.
Proof.
  intros H. unfold memcpy. apply wp_bind, wp_deref. intros b Hp Hb.
  destruct (_ && _) eqn:E; [|exact I].
  unfold set_data. apply wp_set_with. intros b' _ Hb'.
  assert (b' = b) by congruence. subst b'. apply H; auto; lia.
Qed.

Lemma wp_get {X} (f : _darray A -> X) p w (Q : X -> world A -> Prop) :
  (forall b, p <> NULL -> heap w !! p = Some b -> Q (f b) w) ->
  wp (b <- deref p ;; ret (f b)) w Q.
Proof. intros H. apply wp_bind, wp_deref. intros b Hp Hb. apply wp_ret; auto. Qed.

Lemma heap_put w p b : heap (put w p b) = <[p := b]> (heap w).
Proof. reflexivity. Qed.
Lemma allocator_put w p b : allocator (put w p b) = allocator w.
Proof. reflexivity. Qed.
Lemma put_put w p b b' : put (put w p b) p b' = put w p b'.
Proof. unfold put. cbn. f_equal. apply insert_insert_eq. Qed.
Lemma lookup_put w p b : heap (put w p b) !! p = Some b.
Proof. apply lookup_insert_eq. Qed.

End LogicDerived.

Ltac wp_prim :=
  lazymatch goal with
  | |- wp (bind _ _) _ _ => apply wp_bind
  | |- wp (ret _) _ _ => apply wp_ret
  | |- wp (lift _) _ _ => apply wp_lift; intros ? ?
  | |- wp undefined _ _ => exact I
  | |- wp (deref _) _ _ => apply wp_deref; intros ? ? ?
  | |- wp (store _ _) _ _ => apply wp_store
  | |- wp (da_length _) _ _ => apply (wp_get _length); intros ? ? ?
  | |- wp (da_capacity _) _ _ => apply (wp_get _capacity); intros ? ? ?
  | |- wp (da_sizeof_elem _) _ _ => apply (wp_get _elemsz); intros ? ? ?
  | |- wp (read_mem _) _ _ => apply (wp_get _data); intros ? ? ?
  | |- wp (set_length _ ?v) _ _ => apply (wp_set_with (upd_length v)); intros ? ? ?
  | |- wp (set_capacity _ ?v) _ _ => apply (wp_set_with (upd_capacity v)); intros ? ? ?
  | |- wp (set_elemsz _ ?v) _ _ => apply (wp_set_with (upd_elemsz v)); intros ? ? ?
  | |- wp (set_mem_funcs _ ?v) _ _ => apply (wp_set_with (upd_mem_funcs v)); intros ? ? ?
  | |- wp (peek _ _) _ _ => apply wp_peek; intros ? ? ? ? ? ?
  | |- wp (poke _ _ _) _ _ => apply wp_poke; intros ? ? ? ?
  | |- wp (memmove _ _ _ _) _ _ => apply wp_memmove; intros ? ? ? ? ? ? ? ?
  | |- wp (memcpy _ _ _ _) _ _ => apply wp_memcpy; intros ? ? ? ? ? ? ?
  | |- wp (if ?x =? ?y then _ else _) _ _ =>
      destruct (Z.eqb_spec x y); try congruence
  | |- wp (if ?c then _ else _) _ _ => destruct c eqn:?
  end.

(** After a write at [p], what a later read at [p] finds. *)
Ltac heap_simpl :=
  repeat match goal with
  | H : heap (put _ ?p _) !! ?p = Some _ |- _ =>
      rewrite lookup_put in H; injection H as <-
  | |- context [put (put _ ?p _) ?p _] => rewrite put_put
  | H1 : heap ?w !! ?p = Some ?b, H2 : heap ?w !! ?p = Some ?b' |- _ =>
      rewrite H1 in H2; injection H2 as <-
  | H : ?p <> NULL, H' : ?p <> NULL |- _ => clear H'
  | E : heap ?w' = <[?q := _]> _, H : heap ?w' !! ?q = Some _ |- _ =>
      rewrite E, lookup_insert_eq in H; injection H as <-
  end.

Ltac wp_go := repeat (wp_prim; heap_simpl).

Section Relocation.
Context {A : Type}.
Implicit Types (w : world A) (p q : addr) (b : _darray A).

Lemma relocated_lookup w p w' q b' : relocated w p w' q b' -> heap w' !! q = Some b'.
Proof. intros (_ & _ & ->). apply lookup_insert_eq. Qed.

Lemma relocated_put w p b b' :
  p <> NULL -> relocated w p (put w p b') p b'.
Proof.
  intros Hp. split; [exact Hp|]. split; [apply lookup_delete_eq|].
  cbn. symmetry. apply insert_delete_eq.
Qed.

Lemma relocated_same w p b : p <> NULL -> heap w !! p = Some b -> relocated w p w p b.
Proof.
  intros Hp Hb. split; [exact Hp|]. split; [apply lookup_delete_eq|].
  symmetry. apply insert_delete_id. exact Hb.
Qed.

Lemma relocated_trans w p w1 q b1 w2 r b2 :
  relocated w p w1 q b1 -> relocated w1 q w2 r b2 -> relocated w p w2 r b2.
Proof.
  intros (Hq & Hq' & E1) (Hr & Hr' & E2).
  rewrite E1, delete_insert_eq, (delete_id _ q Hq') in E2, Hr'.
  split; [exact Hr|]. split; assumption.
Qed.

Lemma relocated_frame w p w' q b' k :
  relocated w p w' q b' -> k <> p -> is_Some (heap w !! k) ->
  k <> q /\ heap w' !! k = heap w !! k.
Proof.
  intros (Hq & Hq' & E) Hk [x Hx].
  assert (k <> q).
  { intros ->. rewrite lookup_delete_ne in Hq' by auto. congruence. }
  split; [assumption|]. rewrite E, lookup_insert_ne, lookup_delete_ne by auto.
  reflexivity.
Qed.

Lemma relocated_heap_ok w p w' q b' :
  heap_ok w -> block_ok b' -> relocated w p w' q b' -> heap_ok w'.
Proof.
  unfold heap_ok. intros Hw Hb (_ & _ & ->).
  apply map_Forall_insert_2; [exact Hb|]. apply map_Forall_delete. exact Hw.
Qed.

(** Content of a reallocated block. *)
Lemma length_resize_data n (d : list A) fill : length (resize_data n d fill) = n.
Proof.
  unfold resize_data. rewrite length_app, length_take, length_map, length_seq. lia.
Qed.

Lemma lookup_resize_data_old n (d : list A) fill (i : nat) :
  (i < n)%nat -> (i < length d)%nat -> resize_data n d fill !! i = d !! i.
Proof.
  intros H1 H2. unfold resize_data.
  rewrite lookup_app_l by (rewrite length_take; lia).
  apply lookup_take_lt. exact H1.
Qed.

Lemma take_resize_data n (d : list A) fill (k : nat) :
  (k <= n)%nat -> (k <= length d)%nat -> take k (resize_data n d fill) = take k d.
Proof.
  intros H1 H2. unfold resize_data.
  rewrite take_app_le by (rewrite length_take; lia).
  rewrite take_take. f_equal. lia.
Qed.

Lemma length_blit (d : list A) dst src :
  0 <= dst -> dst + Z.of_nat (length src) <= Z.of_nat (length d) ->
  length (blit d dst src) = length d.
Proof.
  intros H1 H2. unfold blit.
  rewrite !length_app, length_take, length_drop. lia.
Qed.

(** Size of the storage of a block of [arr_size c e] bytes. *)
Lemma slots_of_arr_size_le c e :
  0 <= c -> 0 <= e -> sizeof_darray <= arr_size c e ->
  Z.of_nat (slots_of (arr_size c e) e) <= c.
Proof.
  intros Hc He Hs. unfold slots_of, arr_size, wrap, sizeof_darray, SIZE_MOD in *.
  destruct (Z.eq_dec e 0) as [->|Hne].
  { rewrite Z.div_0_r. cbn. lia. }
  assert (0 <= c * e) by nia.
  set (x := c * e) in *.
  assert (Hx : (48 + x mod 18446744073709551616) mod 18446744073709551616 - 48 <= x)
    by (Z.div_mod_to_equations; lia).
  assert (0 <= (48 + x mod 18446744073709551616) mod 18446744073709551616 - 48) by lia.
  rewrite Z2Nat.id by (apply Z.div_pos; lia).
  apply Z.div_le_upper_bound; [lia|]. subst x. lia.
Qed.

Lemma slots_of_arr_size_eq c e :
  0 <= c -> 0 < e -> sizeof_darray + c * e < SIZE_MOD ->
  arr_size c e = sizeof_darray + c * e /\ Z.of_nat (slots_of (arr_size c e) e) = c.
Proof.
  intros Hc He Hs. unfold slots_of, arr_size, wrap, sizeof_darray, SIZE_MOD in *.
  assert (0 <= c * e) by nia.
  rewrite (Z.mod_small (c * e)) by lia. rewrite Z.mod_small by lia.
  split; [reflexivity|].
  replace (48 + c * e - 48) with (c * e) by lia.
  rewrite Z.div_mul by lia. lia.
Qed.

End Relocation.

Ltac wrap_lia := unfold wrap, is_size_t, SIZE_MOD, SIZE_MAX in *; Z.div_mod_to_equations; lia.

Section CoreSpecs.
Context {A : Type}.
Implicit Types (w : world A) (p q : addr) (b : _darray A).

Lemma da_reserve_spec p n w : wp (da_reserve p n) w (reserve_post p n w).
Proof.
  unfold da_reserve, reserve_post. wp_go.
  - exists b. repeat (split; [assumption|]). left. split; [lia|]. auto.
  - apply wp_call_realloc. intros b' _ Hb'. heap_simpl. split.
    + intros w' Hh Ha. wp_go. exists b. repeat (split; [assumption|]).
      right. left. repeat split; auto. lia.
    + intros q e fill w' He Ha Hq Hfree Hsz Hh.
      wp_go. exists b. repeat (split; [assumption|]). right. right.
      split; [lia|]. exists x, fill, e.
      split; [assumption|]. split; [assumption|]. split; [assumption|].
      split; [destruct He as [[-> _]|[-> _]]; discriminate|].
      split; [assumption|]. split; [assumption|].
      cbn. rewrite Hh. rewrite insert_insert_eq. reflexivity.
Qed.

Lemma da_reserve_spec' p n w :
  wp (da_reserve p n) w (fun r w' =>
    exists b, p <> NULL /\ heap w !! p = Some b /\
      ((r = NULL /\ heap w' = heap w) \/
       (exists b1, relocated w p w' r b1 /\ reserved n b b1))).
Proof.
  eapply wp_mono; [apply da_reserve_spec|].
  intros r w' (b & Hp & Hb & [(Hle & -> & ->)|[(Hlt & -> & Hh & _)|(Hlt & c & fill & e & Hc & Hsz & _ & _ & Hrel)]]);
    exists b; (split; [assumption|]); (split; [assumption|]).
  - right. exists b. split; [apply relocated_same; assumption|]. left. auto.
  - left. auto.
  - right. eexists. split; [exact Hrel|]. right. split; [assumption|]. eauto.
Qed.

Lemma reserved_props n b b1 :
  reserved n b b1 ->
  _length b1 = _length b /\ _elemsz b1 = _elemsz b /\
  _mem_funcs b1 = _mem_funcs b /\
  wrap (_length b + n) <= _capacity b1 /\ _capacity b <= _capacity b1 /\
  (block_ok b -> block_ok b1) /\
  (forall k : nat, (k <= length (_data b))%nat -> (k <= length (_data b1))%nat ->
     take k (_data b1) = take k (_data b)).
Proof.
  intros [[-> Hle]|(Hlt & c & fill & Hc & Hsz & ->)].
  - do 3 (split; [reflexivity|]). split; [lia|]. split; [lia|]. split; auto.
  - cbn. assert (Hw : 0 <= wrap (_length b + n)) by wrap_lia.
    destruct (new_capacity_ge _ _ Hw Hc) as [[Hge Hlt'] _].
    split; [reflexivity|]. split; [reflexivity|]. split; [reflexivity|].
    split; [lia|]. split; [lia|]. split.
    + intros (He & Hl & Hcap & Hs). unfold block_ok. cbn.
      rewrite length_resize_data.
      split; [lia|]. split; [lia|]. split; [lia|].
      apply slots_of_arr_size_le; [lia|exact He|exact Hsz].
    + intros k Hk1 Hk2. rewrite length_resize_data in Hk2.
      apply take_resize_data; assumption.
Qed.

(** The storage behind a handle [da_reserve] returned has room for the
    capacity, when the block it found had and the size of the new block did
    not overflow. *)
Lemma reserved_block_full n b b1 :
  reserved n b b1 -> block_full b -> 0 < _elemsz b ->
  (_capacity b < wrap (_length b + n) ->
   sizeof_darray + _capacity b1 * _elemsz b < SIZE_MOD) ->
  block_full b1.
Proof.
  intros [[-> Hle]|(Hlt & c & fill & Hc & Hsz & ->)] Hfull He Hsize; [exact Hfull|].
  specialize (Hsize Hlt).
  unfold block_full in *. cbn in *. rewrite length_resize_data.
  assert (Hw : 0 <= wrap (_length b + n)) by wrap_lia.
  destruct (new_capacity_ge _ _ Hw Hc) as [[Hge _] _].
  apply slots_of_arr_size_eq; [lia|assumption|assumption].
Qed.

End CoreSpecs.

Tactic Notation "wp_apply" open_constr(lem) :=
  lazymatch goal with
  | |- wp (bind _ _) _ _ => apply wp_bind
  | _ => idtac
  end;
  eapply wp_mono; [apply lem|]; cbv beta.

Ltac blk_simpl :=
  cbn [_length _data _capacity _elemsz _mem_funcs upd_length upd_data
       upd_capacity upd_elemsz upd_mem_funcs] in *.

Ltac finish :=
  repeat first [assumption | reflexivity | lia | split
               | progress unfold can_move].

Section CoreSpecs2.
Context {A : Type}.
Implicit Types (w : world A) (p q : addr) (b : _darray A).

Lemma da_remove_arr_spec p i n w :
  wp (da_remove_arr p i n) w (fun _ w' =>
    exists b, p <> NULL /\ heap w !! p = Some b /\
      can_move b i (wrap (i + n)) (wrap (_length b - i - n)) /\
      w' = put w p (blk_remove_arr i n b)).
Proof.
  unfold da_remove_arr. wp_go. exists b. finish.
Qed.

Lemma relocated_put_after w p w1 r b1 b' :
  relocated w p w1 r b1 -> relocated w p (put w1 r b') r b'.
Proof.
  intros (Hr & Hfree & Hh). split; [exact Hr|]. split; [exact Hfree|].
  cbn. rewrite Hh. apply insert_insert_eq.
Qed.

Lemma length_blit_move (d : list A) dst src n :
  0 <= dst -> 0 <= n -> dst + n <= Z.of_nat (length d) ->
  src + n <= Z.of_nat (length d) -> 0 <= src ->
  length (blit d dst (take (Z.to_nat n) (drop (Z.to_nat src) d))) = length d.
Proof.
  intros. apply length_blit; [assumption|].
  rewrite length_take, length_drop. lia.
Qed.

Lemma length_blit_copy (d src : list A) dst n :
  0 <= dst -> 0 <= n -> n <= Z.of_nat (length src) ->
  dst + n <= Z.of_nat (length d) ->
  length (blit d dst (take (Z.to_nat n) src)) = length d.
Proof.
  intros. apply length_blit; [assumption|]. rewrite length_take. lia.
Qed.

Lemma da_insert_arr_spec p i src n w :
  wp (da_insert_arr p i src n) w (fun r w' =>
    exists b, p <> NULL /\ heap w !! p = Some b /\
      ((r = NULL /\ heap w' = heap w) \/
       (exists b1, reserved n b b1 /\
          can_move b1 (wrap (i + n)) i (wrap (_length b1 - i)) /\
          0 <= n <= Z.of_nat (length src) /\
          i + n <= Z.of_nat (length (_data b1)) /\
          relocated w p w' r (blk_insert_arr i src n b1)))).
Proof.
  unfold da_insert_arr. wp_apply da_reserve_spec'.
  intros r w1 (b & Hp & Hb & [[-> Hh]|(b1 & Hrel & Hres)]).
  - wp_go. exists b. auto.
  - pose proof (relocated_lookup _ _ _ _ _ Hrel) as Hb1.
    pose proof Hrel as (Hr & _ & _).
    wp_go. blk_simpl. rewrite length_blit_move in * by lia.
    exists b. repeat (split; [assumption|]). right. exists b1.
    split; [assumption|]. split; [unfold can_move; lia|].
    split; [lia|]. split; [lia|].
    apply (relocated_put_after _ _ _ _ b1). exact Hrel.
Qed.

Lemma da_concat_spec p src n w :
  wp (da_concat p src n) w (fun r w' =>
    exists b, p <> NULL /\ heap w !! p = Some b /\
      ((r = NULL /\ heap w' = heap w) \/
       (exists b1, reserved n b b1 /\
          0 <= n <= Z.of_nat (length src) /\
          0 <= _length b /\
          _length b + n <= Z.of_nat (length (_data b1)) /\
          relocated w p w' r (blk_concat src n b1)))).
Proof.
  unfold da_concat. wp_go. wp_apply da_reserve_spec'.
  intros r w1 (b' & _ & Hb' & [[-> Hh]|(b1 & Hrel & Hres)]); heap_simpl.
  - wp_go. exists b. auto.
  - pose proof (relocated_lookup _ _ _ _ _ Hrel) as Hb1.
    pose proof Hrel as (Hr & _ & _).
    destruct (reserved_props _ _ _ Hres) as (Hlen & _).
    wp_go. blk_simpl.
    exists b. repeat (split; [assumption|]). right. exists b1.
    split; [assumption|]. split; [lia|]. split; [lia|]. split; [lia|].
    unfold blk_concat. rewrite Hlen.
    apply (relocated_put_after _ _ _ _ b1). exact Hrel.
Qed.

Lemma _da_push_spec p v w :
  wp (_da_push p v) w (fun r w' =>
    exists b, p <> NULL /\ heap w !! p = Some b /\
      ((r = NULL /\ heap w' = heap w /\ _length b = _capacity b) \/
       (exists b1,
          (_length b = _capacity b /\ reserved 1 b b1 \/
           _length b <> _capacity b /\ b1 = b) /\
          0 <= _length b1 < Z.of_nat (length (_data b1)) /\
          relocated w p w' r (blk_push v b1)))).
Proof.
  unfold _da_push. wp_go.
  - wp_apply da_reserve_spec'.
    intros r w1 (b' & _ & Hb' & [[-> Hh]|(b1 & Hrel & Hres)]); heap_simpl.
    + wp_go. exists b. repeat (split; [assumption|]). left. auto.
    + pose proof (relocated_lookup _ _ _ _ _ Hrel) as Hb1.
      pose proof Hrel as (Hr & _ & _).
      wp_go. blk_simpl.
      exists b. repeat (split; [assumption|]). right. exists b1.
      split; [left; split; [lia|assumption]|]. split; [lia|].
      apply (relocated_put_after _ _ _ _ b1). exact Hrel.
  - blk_simpl. exists b. repeat (split; [assumption|]). right. exists b.
    split; [right; split; [lia|reflexivity]|]. split; [lia|].
    apply relocated_put; assumption.
Qed.

Lemma _da_pop_spec p w :
  wp (_da_pop p) w (fun v w' =>
    exists b, p <> NULL /\ heap w !! p = Some b /\
      _data b !! Z.to_nat (wrap (_length b - 1)) = Some v /\
      w' = put w p (blk_pop b)).
Proof.
  unfold _da_pop. wp_go. blk_simpl. exists b. finish.
Qed.

Lemma _da_move_and_insert_spec p i v w :
  wp (_da_move_and_insert p i v) w (fun _ w' =>
    exists b, p <> NULL /\ heap w !! p = Some b /\
      can_move b (i + 1) i (wrap (_length b - i)) /\
      w' = put w p (blk_insert i v b)).
Proof.
  unfold _da_move_and_insert. wp_go. blk_simpl. exists b. finish.
Qed.

Lemma _da_insert_spec p i v w :
  wp (_da_insert p i v) w (fun r w' =>
    exists b, p <> NULL /\ heap w !! p = Some b /\
      exists b1,
        (_length b = _capacity b /\ reserved 1 b b1 \/
         _length b <> _capacity b /\ b1 = b) /\
        can_move b1 (i + 1) i (wrap (_length b1 - i)) /\
        relocated w p w' r (blk_insert i v b1)).
Proof.
  unfold _da_insert. wp_go.
  - wp_apply da_reserve_spec'.
    intros r w1 (b' & _ & Hb' & [[-> Hh]|(b1 & Hrel & Hres)]); heap_simpl.
    + (* the store goes through NULL: no result *)
      wp_go. congruence.
    + pose proof (relocated_lookup _ _ _ _ _ Hrel) as Hb1.
      pose proof Hrel as (Hr & _ & _).
      wp_go. blk_simpl.
      exists b. repeat (split; [assumption|]). exists b1.
      split; [left; split; [lia|assumption]|]. split; [finish|].
      apply (relocated_put_after _ _ _ _ b1). exact Hrel.
  - wp_apply _da_move_and_insert_spec.
    intros _ w2 (b2 & _ & Hb2 & Hmv & ->). heap_simpl. wp_go.
    exists b. repeat (split; [assumption|]). exists b.
    split; [right; split; [lia|reflexivity]|]. split; [assumption|].
    apply relocated_put; assumption.
Qed.

Lemma _da_remove_spec p i w :
  wp (_da_remove p i) w (fun v w' =>
    exists b, p <> NULL /\ heap w !! p = Some b /\
      0 <= i /\ _data b !! Z.to_nat i = Some v /\
      can_move b i (i + 1) (wrap (_length b - i - 1)) /\
      w' = put w p (blk_remove i b)).
Proof.
  unfold _da_remove. wp_go. blk_simpl. exists b. finish.
Qed.

End CoreSpecs2.

Section CoreSpecs3.
Context {A : Type}.
Implicit Types (w : world A) (p q : addr) (b : _darray A).

Lemma alloc_body_spec f mem_funcs nelem size capacity w :
  wp (darr <- call_alloc f (arr_size capacity size) size ;;
      if darr =? NULL then ret NULL
      else
        set_mem_funcs darr mem_funcs ;;
        set_elemsz darr size ;;
        set_length darr nelem ;;
        set_capacity darr capacity ;;
        ret darr) w (alloc_post mem_funcs nelem size capacity w).
Proof.
  wp_prim. apply wp_call_alloc.
  - intros w' Hh Ha. wp_go. left. auto.
  - intros q e fill w' He Ha Hq Hfree Hsz Hh. wp_go. blk_simpl.
    right. split; [assumption|]. split; [assumption|]. exists fill, e.
    repeat (split; [assumption|]).
    cbn. rewrite Hh, insert_insert_eq. reflexivity.
Qed.

Lemma da_alloc_custom_spec mem_funcs nelem size w :
  wp (da_alloc_custom mem_funcs nelem size) w (fun r w' =>
    exists c, DA_NEW_CAPACITY_FROM_LENGTH nelem = Some c /\
              alloc_post mem_funcs nelem size c w r w').
Proof.
  unfold da_alloc_custom. wp_prim. wp_prim.
  eapply wp_mono; [apply alloc_body_spec|]. intros r w' H'. eauto.
Qed.

Lemma da_alloc_spec nelem size w :
  wp (da_alloc nelem size) w (fun r w' =>
    exists c, DA_NEW_CAPACITY_FROM_LENGTH nelem = Some c /\
              alloc_post DA_DEFAULT_MEM_FUNCS nelem size c w r w').
Proof.
  unfold da_alloc. wp_prim. wp_prim.
  eapply wp_mono; [apply alloc_body_spec|]. intros r w' H'. eauto.
Qed.

Lemma da_alloc_exact_custom_spec mem_funcs nelem size w :
  wp (da_alloc_exact_custom mem_funcs nelem size) w
     (alloc_post mem_funcs nelem size nelem w).
Proof. apply alloc_body_spec. Qed.

Lemma da_alloc_exact_spec nelem size w :
  wp (da_alloc_exact nelem size) w
     (alloc_post DA_DEFAULT_MEM_FUNCS nelem size nelem w).
Proof. apply alloc_body_spec. Qed.

Lemma da_free_spec p w :
  wp (da_free p) w (fun _ w' =>
    exists b, p <> NULL /\ heap w !! p = Some b /\
      heap w' = delete p (heap w) /\ allocator w' = allocator w).
Proof.
  unfold da_free, call_free. wp_go. unfold wp. exists b. auto.
Qed.

Lemma resize_body_spec p nelem capacity w :
  wp (elemsz <- da_sizeof_elem p ;;
      b <- deref p ;;
      ptr <- call_realloc (realloc_f (_mem_funcs b)) p (arr_size capacity elemsz) ;;
      if ptr =? NULL then ret NULL
      else
        set_length ptr nelem ;;
        set_capacity ptr capacity ;;
        ret ptr) w (resize_post p nelem capacity w).
Proof.
  wp_go. apply wp_call_realloc. intros b' _ Hb'. heap_simpl. split.
  - intros w' Hh Ha. wp_go. exists b. repeat (split; [assumption|]). left. auto.
  - intros q e fill w' He Ha Hq Hfree Hsz Hh. wp_go. blk_simpl.
    exists b. repeat (split; [assumption|]). right. exists fill, e.
    split; [assumption|]. split; [assumption|].
    split; [destruct He as [[-> _]|[-> _]]; discriminate|].
    split; [assumption|]. split; [assumption|].
    cbn. rewrite Hh, insert_insert_eq. reflexivity.
Qed.

Lemma da_resize_spec p nelem w :
  wp (da_resize p nelem) w (fun r w' =>
    exists c, DA_NEW_CAPACITY_FROM_LENGTH nelem = Some c /\
              resize_post p nelem c w r w').
Proof.
  unfold da_resize. wp_prim. wp_prim.
  eapply wp_mono; [apply resize_body_spec|]. intros r w' H'. eauto.
Qed.

Lemma da_resize_exact_spec p nelem w :
  wp (da_resize_exact p nelem) w (resize_post p nelem nelem w).
Proof. apply resize_body_spec. Qed.

End CoreSpecs3.

(* ===================================================================== *)
(** * The growth engine                                                  *)
(* ===================================================================== *)

(** The capacity formula in closed form, in the range where the double
    arithmetic is exact enough. *)
Lemma new_capacity_closed n :
  0 <= n < 2 ^ 48 ->
  DA_NEW_CAPACITY_FROM_LENGTH n = Some (if n <? 10 then 10 else 13 * n / 10).
Proof.
  intros Hn. destruct (Z.ltb_spec n 10).
  - apply new_capacity_small. lia.
  - apply new_capacity_floor. lia.
Qed.

(* ---------------- C2 ---------------- *)

(** C2 counterexample: [da_alloc(11, 4)] gives the capacity 14, where
    max(10, ceil(11 * 1.3)) is 15. *)
Lemma da_alloc_capacity_rounds_down :
  exists r w' b,
    da_alloc 11 4 (World ∅ [AllocMove demo_fill]) = Some (r, w') /\
    r <> NULL /\ heap w' !! r = Some b /\
    _length b = 11 /\ _capacity b = 14 /\ spec_capacity 11 = 15.
Proof.
  eexists _, _, _. split; [vm_compute; reflexivity|].
  split; [discriminate|]. split; [vm_compute; reflexivity|].
  repeat split.
Qed.

(** C2 (as the code has it): a successful [da_alloc(n, s)] or
    [da_alloc_custom(funcs, n, s)] with n < 2^48 produces an instance with
    length n, and capacity 10 when n < 10 and the integer part of 13 n / 10
    otherwise: the product with 1.3 is truncated, not rounded up, and the
    baseline 10 is taken for the counts below 10 only. *)
Theorem da_alloc_capacity {A} (mem_funcs : da_mem_funcs) (n s : Z)
    (w w' : world A) (r : addr) :
  0 <= n < 2 ^ 48 ->
  da_alloc n s w = Some (r, w') \/ da_alloc_custom mem_funcs n s w = Some (r, w') ->
  r <> NULL ->
  exists b, heap w' !! r = Some b /\ _length b = n /\
            _capacity b = (if n <? 10 then 10 else 13 * n / 10).
Proof.
  intros Hn Hrun Hr.
  assert (Hpost : exists mf c, DA_NEW_CAPACITY_FROM_LENGTH n = Some c /\
                               alloc_post mf n s c w r w').
  { destruct Hrun as [Hrun|Hrun].
    - destruct (wp_elim _ _ _ _ _ (da_alloc_spec n s w) Hrun) as (c & Hc & Hp). eauto.
    - destruct (wp_elim _ _ _ _ _ (da_alloc_custom_spec mem_funcs n s w) Hrun)
        as (c & Hc & Hp). eauto. }
  destruct Hpost as (mf & c & Hc & [(-> & _)|(_ & _ & fill & e & _ & _ & _ & Hh)]);
    [contradiction|].
  rewrite new_capacity_closed in Hc by assumption. injection Hc as <-.
  eexists. split; [rewrite Hh; apply lookup_insert_eq|]. split; reflexivity.
Qed.

Lemma da_alloc_capacity_witness :
  exists b, heap (World {[1 := fresh_block DA_DEFAULT_MEM_FUNCS 11 4 14 demo_fill]} [])
              !! 1 = Some b /\ _length b = 11 /\ _capacity b = 14.
Proof.
  apply (da_alloc_capacity DA_DEFAULT_MEM_FUNCS 11 4 demo_alloc_world
           (World {[1 := fresh_block DA_DEFAULT_MEM_FUNCS 11 4 14 demo_fill]} []) 1).
  - lia.
  - left. vm_compute. reflexivity.
  - discriminate.
Defined.

(* ---------------- C3 ---------------- *)

(** C3 counterexample: after [da_reserve(da_alloc(0, 1), 100)] the length is
    0 and the capacity 130; [da_resize(h, 1)] grows the length and leaves
    the capacity 10. *)
Lemma da_resize_can_shrink_capacity :
  exists p w b r w' b',
    demo_reserved (World ∅ [AllocMove demo_fill; AllocMove demo_fill;
                            AllocStay demo_fill]) = Some (p, w) /\
    heap w !! p = Some b /\
    da_resize p 1 w = Some (r, w') /\ r <> NULL /\
    heap w' !! r = Some b' /\
    _length b < 1 /\ _capacity b = 130 /\ _capacity b' = 10.
Proof.
  eexists _, _, _, _, _, _.
  split; [vm_compute; reflexivity|].
  split; [vm_compute; reflexivity|].
  split; [vm_compute; reflexivity|].
  split; [discriminate|].
  split; [vm_compute; reflexivity|].
  repeat split.
Qed.

(** C3 (as the code has it): a successful [da_resize(h, n)] with
    length < n < 2^48 sets the capacity to the value of the growth formula
    at n (10 when n < 10, the integer part of 13 n / 10 otherwise), whatever
    it was before; the capacity is not lowered when the capacity before the
    call was itself the value of the formula at some length m <= n. *)
Theorem da_resize_capacity {A} (w w' : world A) (p r : addr) (b : _darray A) (n : Z) :
  heap w !! p = Some b ->
  _length b < n < 2 ^ 48 -> 0 <= _length b ->
  da_resize p n w = Some (r, w') -> r <> NULL ->
  exists b', heap w' !! r = Some b' /\
    _capacity b' = (if n <? 10 then 10 else 13 * n / 10) /\
    (forall m, 0 <= m <= n ->
       DA_NEW_CAPACITY_FROM_LENGTH m = Some (_capacity b) ->
       _capacity b <= _capacity b').
Proof.
  intros Hb Hn Hlen Hrun Hr.
  destruct (wp_elim _ _ _ _ _ (da_resize_spec p n w) Hrun)
    as (c & Hc & b0 & Hp & Hb0 & [(-> & _)|(fill & e & _ & _ & _ & Hrel)]);
    [contradiction|].
  exists (resized n c fill b0).
  split; [eapply relocated_lookup; exact Hrel|].
  assert (b0 = b) by congruence. subst b0. cbn.
  split.
  - rewrite new_capacity_closed in Hc by lia. congruence.
  - intros m Hm Hcm. eapply (new_capacity_mono m n); eauto; lia.
Qed.

Lemma da_resize_capacity_witness :
  exists b', heap demo_world_resized !! 1 = Some b' /\
    _capacity b' = 15 /\
    (forall m, 0 <= m <= 12 ->
       DA_NEW_CAPACITY_FROM_LENGTH m = Some 10 -> 10 <= _capacity b').
Proof.
  apply (da_resize_capacity demo_world demo_world_resized 8 1
           (demo_block 3 10 [7; 8; 9; 0; 0; 0; 0; 0; 0; 0]) 12).
  - vm_compute. reflexivity.
  - cbn. lia.
  - cbn. lia.
  - vm_compute. reflexivity.
  - discriminate.
Defined.

(* ---------------- C5 ---------------- *)

Lemma failing_realloc {A} (w : world A) f p b size :
  p <> NULL -> heap w !! p = Some b -> next_answer_fails w ->
  exists w', call_realloc f p size w = Some (NULL, w') /\ heap w' = heap w.
Proof.
  intros Hp Hb Hf. unfold call_realloc, bind, deref, next_event.
  destruct (Z.eqb_spec p NULL); [contradiction|]. rewrite Hb.
  destruct Hf as [->|[es ->]]; eexists; split; reflexivity.
Qed.

(** Running a computation forwards. *)
Lemma bind_eq {A X Y} (c : M A X) (k : X -> M A Y) w x w1 :
  c w = Some (x, w1) -> bind c k w = k x w1.
Proof. unfold bind. intros ->. reflexivity. Qed.

Lemma deref_eq {A} (w : world A) p b :
  p <> NULL -> heap w !! p = Some b -> deref p w = Some (b, w).
Proof.
  intros Hp Hb. unfold deref. destruct (Z.eqb_spec p NULL); [contradiction|].
  rewrite Hb. reflexivity.
Qed.

Lemma get_eq {A X} (f : _darray A -> X) (w : world A) p b :
  p <> NULL -> heap w !! p = Some b ->
  (b <- deref p ;; ret (f b)) w = Some (f b, w).
Proof. intros Hp Hb. rewrite (bind_eq _ _ w b w) by (apply deref_eq; auto). reflexivity. Qed.

Lemma refused_answer {A} (w w' : world A) e :
  next_answer_fails w -> answered w e w' -> e = AllocFail.
Proof.
  intros [Hf|[es Hf]] [(_ & -> & _)|(es' & Ha & _)]; try reflexivity;
    rewrite Hf in Ha; [discriminate|]. injection Ha as <- _. reflexivity.
Qed.

Lemma refused_resize {A} (w w' : world A) p n c r :
  next_answer_fails w -> resize_post p n c w r w' -> r = NULL /\ heap w' = heap w.
Proof.
  intros Hf (b & _ & _ & [(-> & Hh & _)|(fill & e & _ & Ha & Hne & _)]);
    [auto|].
  contradiction (Hne (refused_answer _ _ _ Hf Ha)).
Qed.

(** C5: when the allocator refuses, [da_resize(h, n)] and
    [da_resize_exact(h, n)] return [NULL] and leave the heap, hence the
    instance with its contents, length and capacity, as it was; so does
    [da_reserve(h, n)] when it has to grow the block.  For n < 2^48 the
    three calls are shown to return. *)
Theorem realloc_failure_leaves_instance {A} (w : world A) (p : addr)
    (b : _darray A) (n : Z) :
  p <> NULL -> heap w !! p = Some b -> next_answer_fails w ->
  (forall r w',
     da_resize p n w = Some (r, w') \/ da_resize_exact p n w = Some (r, w') \/
     (_capacity b < wrap (_length b + n) /\ da_reserve p n w = Some (r, w')) ->
     r = NULL /\ heap w' = heap w) /\
  (0 <= n < 2 ^ 48 ->
   (exists w', da_resize p n w = Some (NULL, w') /\ heap w' = heap w) /\
   (exists w', da_resize_exact p n w = Some (NULL, w') /\ heap w' = heap w) /\
   (_capacity b < _length b + n < 2 ^ 48 -> 0 <= _length b ->
    exists w', da_reserve p n w = Some (NULL, w') /\ heap w' = heap w)).
Proof.
  intros Hp Hb Hf. split.
  { intros r w' [Hrun|[Hrun|[Hcap Hrun]]].
    - destruct (wp_elim _ _ _ _ _ (da_resize_spec p n w) Hrun) as (c & _ & Hpost).
      exact (refused_resize _ _ _ _ _ _ Hf Hpost).
    - exact (refused_resize _ _ _ _ _ _ Hf
               (wp_elim _ _ _ _ _ (da_resize_exact_spec p n w) Hrun)).
    - destruct (wp_elim _ _ _ _ _ (da_reserve_spec p n w) Hrun)
        as (b0 & _ & Hb0 & Hcases).
      rewrite Hb in Hb0. injection Hb0 as <-.
      destruct Hcases as [(Hle & _)|[(_ & -> & Hh & _)|
                          (_ & c & fill & e & _ & _ & Ha & Hne & _)]];
        [lia|auto|].
      contradiction (Hne (refused_answer _ _ _ Hf Ha)). }
  intros Hn.
  assert (Hre : forall size, exists w',
             call_realloc (realloc_f (_mem_funcs b)) p size w = Some (NULL, w') /\
             heap w' = heap w)
    by (intros; apply (failing_realloc w _ p b); assumption).
  split; [|split].
  - destruct (Hre (arr_size (if n <? 10 then 10 else 13 * n / 10) (_elemsz b)))
      as (w' & Hrun & Hh).
    exists w'. split; [|exact Hh]. unfold da_resize.
    rewrite (bind_eq _ _ w _ w)
      by (unfold lift; rewrite new_capacity_closed by assumption; reflexivity).
    rewrite (bind_eq _ _ w _ w) by (exact (get_eq _elemsz w p b Hp Hb)).
    rewrite (bind_eq _ _ w _ w) by (exact (deref_eq w p b Hp Hb)).
    rewrite (bind_eq _ _ w _ w') by exact Hrun. reflexivity.
  - destruct (Hre (arr_size n (_elemsz b))) as (w' & Hrun & Hh).
    exists w'. split; [|exact Hh]. unfold da_resize_exact.
    rewrite (bind_eq _ _ w _ w) by (exact (get_eq _elemsz w p b Hp Hb)).
    rewrite (bind_eq _ _ w _ w) by (exact (deref_eq w p b Hp Hb)).
    rewrite (bind_eq _ _ w _ w') by exact Hrun. reflexivity.
  - intros Hcap Hlen.
    assert (Hw : wrap (_length b + n) = _length b + n) by wrap_lia.
    destruct (Hre (arr_size (if _length b + n <? 10 then 10
                             else 13 * (_length b + n) / 10) (_elemsz b)))
      as (w' & Hrun & Hh).
    exists w'. split; [|exact Hh]. unfold da_reserve.
    rewrite (bind_eq _ _ w _ w) by (exact (get_eq _length w p b Hp Hb)).
    rewrite (bind_eq _ _ w _ w) by (exact (get_eq _capacity w p b Hp Hb)).
    rewrite Hw. destruct (Z.leb_spec (_length b + n) (_capacity b)); [lia|].
    rewrite (bind_eq _ _ w _ w)
      by (unfold lift; rewrite new_capacity_closed by lia; reflexivity).
    rewrite (bind_eq _ _ w _ w) by (exact (get_eq _elemsz w p b Hp Hb)).
    rewrite (bind_eq _ _ w _ w) by (exact (deref_eq w p b Hp Hb)).
    rewrite (bind_eq _ _ w _ w') by exact Hrun. reflexivity.
Qed.

Lemma realloc_failure_leaves_instance_witness :
  (forall r w',
     da_resize 8 12 demo_world_failing = Some (r, w') \/
     da_resize_exact 8 12 demo_world_failing = Some (r, w') \/
     (10 < wrap (3 + 12) /\ da_reserve 8 12 demo_world_failing = Some (r, w')) ->
     r = NULL /\ heap w' = heap demo_world_failing) /\
  (0 <= 12 < 2 ^ 48 ->
   (exists w', da_resize 8 12 demo_world_failing = Some (NULL, w') /\
               heap w' = heap demo_world_failing) /\
   (exists w', da_resize_exact 8 12 demo_world_failing = Some (NULL, w') /\
               heap w' = heap demo_world_failing) /\
   (10 < 3 + 12 < 2 ^ 48 -> 0 <= 3 ->
    exists w', da_reserve 8 12 demo_world_failing = Some (NULL, w') /\
               heap w' = heap demo_world_failing)).
Proof.
  apply (realloc_failure_leaves_instance demo_world_failing 8
           (demo_block 3 10 [7; 8; 9; 0; 0; 0; 0; 0; 0; 0]) 12).
  - discriminate.
  - vm_compute. reflexivity.
  - right. exists []. reflexivity.
Defined.

(* ---------------- C6 ---------------- *)

Lemma da_reserve_noop {A} (w : world A) p b n :
  p <> NULL -> heap w !! p = Some b ->
  wrap (_length b + n) <= _capacity b ->
  da_reserve p n w = Some (p, w).
Proof.
  intros Hp Hb Hle. unfold da_reserve.
  rewrite (bind_eq _ _ w _ w) by (exact (get_eq _length w p b Hp Hb)).
  rewrite (bind_eq _ _ w _ w) by (exact (get_eq _capacity w p b Hp Hb)).
  destruct (Z.leb_spec (wrap (_length b + n)) (_capacity b)); [reflexivity|lia].
Qed.

(** C6 (as the code has it): for a count n with length + n not above
    [SIZE_MAX], a successful [da_reserve(h, n)] leaves the length unchanged
    and gives capacity >= length + n; the storage behind the returned
    handle has room for the whole capacity and the elements are the ones
    before the call, when the block had room for its capacity before and
    the size in bytes of the new block does not overflow [size_t].  When
    the capacity was already that large before the call, the same handle is
    returned and the state is unchanged; and a further [da_reserve] with the
    same or a smaller count returns the same handle and leaves the state
    unchanged. *)
Theorem da_reserve_guarantee {A} (w w' : world A) (p r : addr) (b : _darray A)
    (n : Z) :
  heap w !! p = Some b -> 0 <= _length b -> 0 <= n ->
  _length b + n < SIZE_MOD ->
  da_reserve p n w = Some (r, w') -> r <> NULL ->
  (exists b', heap w' !! r = Some b' /\ _length b' = _length b /\
              _length b' + n <= _capacity b' /\
              (block_full b -> _length b <= _capacity b -> 0 < _elemsz b ->
               sizeof_darray + _capacity b' * _elemsz b < SIZE_MOD ->
               _length b' + n <= Z.of_nat (length (_data b')) /\
               block_full b' /\ elems b' = elems b)) /\
  (_length b + n <= _capacity b -> r = p /\ w' = w) /\
  (forall n', 0 <= n' <= n -> da_reserve r n' w' = Some (r, w')).
Proof.
  intros Hb Hlen Hn Hsum Hrun Hr.
  assert (Hw : wrap (_length b + n) = _length b + n) by wrap_lia.
  destruct (wp_elim _ _ _ _ _ (da_reserve_spec' p n w) Hrun)
    as (b0 & Hp & Hb0 & [[-> _]|(b' & Hrel & Hres)]); [contradiction|].
  assert (b0 = b) by congruence. subst b0.
  pose proof (relocated_lookup _ _ _ _ _ Hrel) as Hb'.
  destruct (reserved_props _ _ _ Hres) as (Hl' & _ & _ & Hc' & _ & _ & Htake).
  rewrite Hw in Hc'.
  split; [|split].
  - exists b'. split; [assumption|]. split; [assumption|]. split; [lia|].
    intros Hfull Hlc He Hsize.
    pose proof (reserved_block_full _ _ _ Hres Hfull He (fun _ => Hsize)) as Hfull'.
    unfold block_full in Hfull, Hfull'.
    split; [lia|]. split; [exact Hfull'|].
    unfold elems. rewrite Hl'. apply Htake; lia.
  - intros Hle.
    destruct (wp_elim _ _ _ _ _ (da_reserve_spec p n w) Hrun)
      as (b1 & _ & Hb1 & [(_ & -> & ->)|[(Hlt & _)|(Hlt & _)]]); [auto| |];
      assert (b1 = b) by congruence; subst b1; lia.
  - intros n' Hn'.
    apply (da_reserve_noop w' r b'); [assumption|assumption|].
    rewrite Hl'.
    assert (wrap (_length b + n') = _length b + n') by wrap_lia. lia.
Qed.

Lemma da_reserve_guarantee_witness :
  (exists b', heap demo_world_reserved !! 1 = Some b' /\ _length b' = 3 /\
              _length b' + 9 <= _capacity b' /\
              _length b' + 9 <= Z.of_nat (length (_data b')) /\
              block_full b' /\
              elems b' = elems (demo_block 3 10 [7; 8; 9; 0; 0; 0; 0; 0; 0; 0])) /\
  (forall n', 0 <= n' <= 9 ->
     da_reserve 1 n' demo_world_reserved = Some (1, demo_world_reserved)).
Proof.
  destruct (da_reserve_guarantee demo_world demo_world_reserved
              8 1 (demo_block 3 10 [7; 8; 9; 0; 0; 0; 0; 0; 0; 0]) 9)
    as ((b' & Hb' & Hl & Hc & Hst) & _ & Hagain).
  - vm_compute. reflexivity.
  - cbn. lia.
  - lia.
  - unfold SIZE_MOD. cbn. lia.
  - vm_compute. reflexivity.
  - discriminate.
  - split; [|exact Hagain].
    exists b'. split; [exact Hb'|]. split; [exact Hl|]. split; [exact Hc|].
    apply Hst.
    + reflexivity.
    + cbn. lia.
    + cbn. lia.
    + assert (E : Some b'
                  = Some (demo_block 3 15 [7; 8; 9; 0; 0; 0; 0; 0; 0; 0; 0; 0; 0; 0; 0]))
        by (rewrite <- Hb'; vm_compute; reflexivity).
      injection E as ->. unfold sizeof_darray, SIZE_MOD. cbn. lia.
Defined.

(** C6, counterexample: with the count [SIZE_MAX] the sum length + n wraps
    around to length - 1, which the capacity exceeds: [da_reserve] returns
    the handle it was given, with capacity 10 for a darray of length 3, and
    a [da_reserve] with the smaller count 100 directly after it moves the
    block. *)
Lemma da_reserve_sum_wraps :
  exists b w2,
    heap demo_world !! 8 = Some b /\ _length b = 3 /\ _capacity b = 10 /\
    da_reserve 8 SIZE_MAX demo_world = Some (8, demo_world) /\
    ~ (_length b + SIZE_MAX <= _capacity b) /\
    da_reserve 8 100 demo_world = Some (1, w2) /\ 1 <> 8.
Proof.
  eexists _, _. split; [vm_compute; reflexivity|].
  split; [reflexivity|]. split; [reflexivity|].
  split; [vm_compute; reflexivity|].
  split; [unfold SIZE_MAX, SIZE_MOD; cbn; lia|].
  split; [vm_compute; reflexivity|lia].
Qed.

(* ---------------- C10 ---------------- *)

Lemma grown_lookup {A} (b : _darray A) c fill (i : nat) :
  0 <= c -> 0 < _elemsz b -> sizeof_darray + c * _elemsz b < SIZE_MOD ->
  (Z.of_nat i < c) -> (i < length (_data b))%nat ->
  _data (grown c fill b) !! i = _data b !! i.
Proof.
  intros Hc He Hsz Hi Hlen. cbn.
  destruct (slots_of_arr_size_eq c (_elemsz b) Hc He Hsz) as [_ Hs].
  apply lookup_resize_data_old; lia.
Qed.

(** C10 (as the code has it): a successful [da_resize(h, n)] or
    [da_resize_exact(h, n)] leaves the element size and the memory functions
    of the instance unchanged, sets the length to n and the capacity to at
    least n, and leaves the other blocks of the heap untouched; it keeps the
    values of the elements at the indices below min(old length, n) when the
    size in bytes of the new block, [sizeof(struct _darray)] + capacity *
    element size, does not overflow [size_t]. *)
Theorem da_resize_frame {A} (w w' : world A) (p r : addr) (b : _darray A) (n : Z) :
  heap w !! p = Some b ->
  block_full b -> _length b <= _capacity b -> 0 < _elemsz b -> 0 <= n ->
  da_resize p n w = Some (r, w') \/ da_resize_exact p n w = Some (r, w') ->
  r <> NULL ->
  exists b', heap w' !! r = Some b' /\
    _elemsz b' = _elemsz b /\ _mem_funcs b' = _mem_funcs b /\
    _length b' = n /\ n <= _capacity b' /\
    (sizeof_darray + _capacity b' * _elemsz b' < SIZE_MOD ->
     forall i, 0 <= i < Z.min (_length b) n ->
       is_Some (_data b !! Z.to_nat i) /\
       _data b' !! Z.to_nat i = _data b !! Z.to_nat i) /\
    (forall k x, k <> p -> heap w !! k = Some x -> heap w' !! k = Some x).
Proof.
  intros Hb Hfull Hlen He Hn Hrun Hr.
  assert (Hpost : exists c, n <= c /\ resize_post p n c w r w').
  { destruct Hrun as [Hrun|Hrun].
    - destruct (wp_elim _ _ _ _ _ (da_resize_spec p n w) Hrun) as (c & Hc & Hp).
      exists c. split; [|exact Hp].
      destruct (new_capacity_ge _ _ Hn Hc) as [[? _] _]. assumption.
    - exists n. split; [lia|].
      exact (wp_elim _ _ _ _ _ (da_resize_exact_spec p n w) Hrun). }
  destruct Hpost as (c & Hnc & b0 & Hp & Hb0 &
                     [(-> & _)|(fill & e & _ & _ & _ & Hrel)]); [contradiction|].
  assert (b0 = b) by congruence. subst b0.
  exists (resized n c fill b).
  split; [eapply relocated_lookup; exact Hrel|].
  split; [reflexivity|]. split; [reflexivity|]. split; [reflexivity|].
  split; [exact Hnc|]. split.
  - cbn [resized _capacity _elemsz upd_capacity upd_length upd_data grown].
    intros Hsz i Hi. unfold block_full in Hfull.
    split.
    + apply lookup_lt_is_Some. lia.
    + apply (grown_lookup b c fill); [lia|assumption|assumption|lia|lia].
  - intros k x Hk Hx.
    destruct (relocated_frame _ _ _ _ _ k Hrel Hk) as [_ ->]; eauto.
Qed.

Lemma da_resize_frame_witness :
  (exists b', heap demo_world_resized !! 1 = Some b' /\
     _elemsz b' = 4 /\ _mem_funcs b' = DA_DEFAULT_MEM_FUNCS /\
     _length b' = 12 /\ 12 <= _capacity b' /\
     (sizeof_darray + _capacity b' * _elemsz b' < SIZE_MOD ->
      forall i, 0 <= i < Z.min 3 12 ->
        is_Some ([7; 8; 9; 0; 0; 0; 0; 0; 0; 0] !! Z.to_nat i) /\
        _data b' !! Z.to_nat i = [7; 8; 9; 0; 0; 0; 0; 0; 0; 0] !! Z.to_nat i) /\
     (forall k x, k <> 8 -> heap demo_world !! k = Some x ->
                  heap demo_world_resized !! k = Some x)) /\
  (exists b', heap (world_after (da_resize_exact 8 2) demo_world) !! 1 = Some b' /\
     _elemsz b' = 4 /\ _mem_funcs b' = DA_DEFAULT_MEM_FUNCS /\
     _length b' = 2 /\ 2 <= _capacity b' /\
     (sizeof_darray + _capacity b' * _elemsz b' < SIZE_MOD ->
      forall i, 0 <= i < Z.min 3 2 ->
        is_Some ([7; 8; 9; 0; 0; 0; 0; 0; 0; 0] !! Z.to_nat i) /\
        _data b' !! Z.to_nat i = [7; 8; 9; 0; 0; 0; 0; 0; 0; 0] !! Z.to_nat i) /\
     (forall k x, k <> 8 -> heap demo_world !! k = Some x ->
                  heap (world_after (da_resize_exact 8 2) demo_world) !! k = Some x)).
Proof.
  split.
  - apply (da_resize_frame demo_world demo_world_resized 8 1
             (demo_block 3 10 [7; 8; 9; 0; 0; 0; 0; 0; 0; 0]) 12).
    + vm_compute. reflexivity.
    + reflexivity.
    + cbn. lia.
    + cbn. lia.
    + lia.
    + left. vm_compute. reflexivity.
    + discriminate.
  - apply (da_resize_frame demo_world _ 8 1
             (demo_block 3 10 [7; 8; 9; 0; 0; 0; 0; 0; 0; 0]) 2).
    + vm_compute. reflexivity.
    + reflexivity.
    + cbn. lia.
    + cbn. lia.
    + lia.
    + right. vm_compute. reflexivity.
    + discriminate.
Defined.

(** C10, counterexample: [da_resize_exact(h, 2^62)] on a darray of [int]
    asks [realloc] for 48 + 2^62 * 4 bytes, which is 48 in [size_t]: the
    call succeeds when the allocator hands out these 48 bytes, the header
    says length and capacity 2^62, and no element is left, the three the
    darray had included. *)
Lemma da_resize_exact_size_wraps :
  exists w' b',
    da_resize_exact 8 (2 ^ 62) demo_world = Some (1, w') /\
    heap demo_world !! 8 = Some (demo_block 3 10 [7; 8; 9; 0; 0; 0; 0; 0; 0; 0]) /\
    heap w' !! 1 = Some b' /\
    _length b' = 2 ^ 62 /\ _capacity b' = 2 ^ 62 /\
    0 < Z.min 3 (2 ^ 62) /\
    _data (demo_block 3 10 [7; 8; 9; 0; 0; 0; 0; 0; 0; 0]) !! Z.to_nat 0 = Some 7 /\
    _data b' !! Z.to_nat 0 = None.
Proof.
  eexists _, _. split; [vm_compute; reflexivity|].
  split; [vm_compute; reflexivity|]. split; [vm_compute; reflexivity|].
  split; [reflexivity|]. split; [reflexivity|]. split; [reflexivity|].
  split; reflexivity.
Qed.

Section PushPop.
Context {A : Type}.
Implicit Types (w : world A) (p q : addr) (b : _darray A).

Lemma set_length_eq w p b v :
  p <> NULL -> heap w !! p = Some b ->
  set_length p v w = Some (tt, put w p (upd_length v b)).
Proof.
  intros Hp Hb. unfold set_length.
  rewrite (bind_eq _ _ w _ w) by (exact (deref_eq w p b Hp Hb)). reflexivity.
Qed.

Lemma _da_pop_eq w p b v :
  p <> NULL -> heap w !! p = Some b ->
  0 <= wrap (_length b - 1) ->
  _data b !! Z.to_nat (wrap (_length b - 1)) = Some v ->
  _da_pop p w = Some (v, put w p (blk_pop b)).
Proof.
  intros Hp Hb H0 Hv. unfold _da_pop.
  rewrite (bind_eq _ _ w _ w) by (exact (get_eq _length w p b Hp Hb)).
  rewrite (bind_eq _ _ w _ _) by (exact (set_length_eq w p b _ Hp Hb)).
  unfold peek.
  rewrite (bind_eq _ _ _ _ _)
    by (apply deref_eq; [exact Hp|apply lookup_put]).
  destruct (Z.leb_spec 0 (wrap (_length b - 1))); [|lia].
  unfold lift. cbn [_data upd_length]. rewrite Hv. reflexivity.
Qed.

(** One push: the new element sits at the old length, everything in front
    of it stays. *)
Lemma push_step w p b v r w' :
  heap w !! p = Some b -> block_ok b ->
  _da_push p v w = Some (r, w') -> r <> NULL ->
  exists b', heap w' !! r = Some b' /\ block_ok b' /\
    _length b' = _length b + 1 /\
    _length b' <= Z.of_nat (length (_data b')) /\
    _data b' !! Z.to_nat (_length b) = Some v /\
    (forall j : nat, Z.of_nat j < _length b -> (j < length (_data b))%nat ->
       _data b' !! j = _data b !! j).
Proof.
  intros Hb Hok Hrun Hr.
  destruct (wp_elim _ _ _ _ _ (_da_push_spec p v w) Hrun)
    as (b0 & Hp & Hb0 & [(-> & _)|(b1 & Hres & Hlen & Hrel)]); [contradiction|].
  assert (b0 = b) by congruence. subst b0.
  assert (Hb1 : _length b1 = _length b /\ block_ok b1 /\
                forall k : nat, (k <= length (_data b))%nat ->
                  (k <= length (_data b1))%nat ->
                  take k (_data b1) = take k (_data b)).
  { destruct Hres as [[_ Hres]|[_ ->]]; [|auto].
    destruct (reserved_props _ _ _ Hres) as (? & _ & _ & _ & _ & ? & ?). auto. }
  destruct Hb1 as (Hl1 & Hok1 & Htake).
  destruct Hok1 as (He1 & Hlc1 & Hcap1 & Hs1).
  exists (blk_push v b1). split; [eapply relocated_lookup; exact Hrel|].
  assert (Hw : wrap (_length b1 + 1) = _length b1 + 1) by wrap_lia.
  unfold blk_push. rewrite Hw. cbn.
  split; [|split; [lia|split; [|split]]].
  - unfold block_ok. cbn. rewrite length_insert. lia.
  - rewrite length_insert. lia.
  - rewrite <- Hl1. apply list_lookup_insert_eq. lia.
  - intros j Hj Hjs. rewrite list_lookup_insert_ne by lia.
    assert (Hk := Htake (S j) ltac:(lia) ltac:(lia)).
    rewrite <- (lookup_take_lt (_data b1) (S j) j) by lia.
    rewrite <- (lookup_take_lt (_data b) (S j) j) by lia.
    rewrite Hk. reflexivity.
Qed.

Lemma push_all_spec vs : forall w p b r w',
  heap w !! p = Some b -> block_ok b ->
  _length b <= Z.of_nat (length (_data b)) ->
  push_all p vs w = Some (r, w') -> r <> NULL ->
  exists b', heap w' !! r = Some b' /\
    _length b' = _length b + Z.of_nat (length vs) /\
    _length b' <= Z.of_nat (length (_data b')) /\ block_ok b' /\
    (forall j : nat, Z.of_nat j < _length b -> _data b' !! j = _data b !! j) /\
    (forall (i : nat) v, vs !! i = Some v ->
       _data b' !! (Z.to_nat (_length b) + i)%nat = Some v).
Proof.
  induction vs as [|v vs IH]; intros w p b r w' Hb Hok Hfit Hrun Hr.
  - cbn [push_all] in Hrun. unfold ret in Hrun. inversion Hrun; subst.
    exists b. cbn [length].
    split; [assumption|]. split; [lia|]. split; [assumption|].
    split; [assumption|]. split; [auto|].
    intros i v Hv. rewrite lookup_nil in Hv. discriminate.
  - cbn [push_all] in Hrun. unfold bind in Hrun.
    destruct (_da_push p v w) as [[p1 w1]|] eqn:Hpush; [|discriminate].
    destruct (Z.eqb_spec p1 NULL) as [->|Hp1].
    { unfold ret in Hrun. inversion Hrun; subst. contradiction. }
    destruct (push_step w p b v p1 w1 Hb Hok Hpush Hp1)
      as (b1 & Hb1 & Hok1 & Hl1 & Hfit1 & Hv1 & Hpre1).
    destruct (IH w1 p1 b1 r w' Hb1 Hok1 Hfit1 Hrun Hr)
      as (b' & Hb' & Hl' & Hfit' & Hok' & Hpre' & Hvs').
    destruct Hok as (_ & Hlen0 & _).
    exists b'. split; [exact Hb'|]. split; [cbn [length]; lia|].
    split; [exact Hfit'|]. split; [exact Hok'|]. split.
    + intros j Hj. rewrite Hpre' by lia. apply Hpre1; lia.
    + intros [|i] x Hx.
      * injection Hx as <-. rewrite Nat.add_0_r, Hpre' by lia. exact Hv1.
      * cbn in Hx. specialize (Hvs' i x Hx).
        replace (Z.to_nat (_length b) + S i)%nat
          with (Z.to_nat (_length b1) + i)%nat by lia.
        exact Hvs'.
Qed.

Lemma pop_n_eq vs : forall w p b (L : Z),
  p <> NULL -> heap w !! p = Some b ->
  0 <= L -> _length b = L + Z.of_nat (length vs) -> _length b < SIZE_MOD ->
  (forall (i : nat) v, vs !! i = Some v ->
     _data b !! (Z.to_nat L + i)%nat = Some v) ->
  exists w' b', pop_n p (length vs) w = Some (rev vs, w') /\
    heap w' !! p = Some b' /\ _length b' = L.
Proof.
  induction vs as [|v vs IH] using rev_ind; intros w p b L Hp Hb HL Hlen Hmax Hvs.
  - exists w, b. cbn in *. split; [reflexivity|]. split; [assumption|lia].
  - rewrite length_app in *. cbn [length] in *.
    replace (length vs + 1)%nat with (S (length vs)) by lia.
    cbn [pop_n].
    assert (Hw : wrap (_length b - 1) = L + Z.of_nat (length vs)) by wrap_lia.
    assert (Hv : _data b !! Z.to_nat (wrap (_length b - 1)) = Some v).
    { rewrite Hw. replace (Z.to_nat (L + Z.of_nat (length vs)))
        with (Z.to_nat L + length vs)%nat by lia.
      apply Hvs. rewrite lookup_app_r by lia. rewrite Nat.sub_diag. reflexivity. }
    rewrite (bind_eq _ _ w _ _) by (apply (_da_pop_eq w p b v); auto; lia).
    destruct (IH (put w p (blk_pop b)) p (blk_pop b) L Hp (lookup_put _ _ _) HL)
      as (w' & b' & Hrun & Hb' & Hl').
    + cbn. lia.
    + cbn. wrap_lia.
    + intros i x Hx. cbn. apply Hvs. rewrite lookup_app_l; [exact Hx|].
      apply lookup_lt_Some in Hx. exact Hx.
    + rewrite (bind_eq _ _ _ _ _) by exact Hrun.
      exists w', b'. rewrite rev_app_distr. cbn. auto.
Qed.

(** C7: pushing v0..vn-1 with [da_push], every push succeeding, and then
    calling [da_pop] n times returns vn-1..v0, and leaves [da_length] at its
    value before the pushes. *)
Theorem push_pop_roundtrip w (p : addr) b (vs : list A) (r : addr) w1 :
  heap w !! p = Some b -> block_ok b ->
  push_all p vs w = Some (r, w1) -> r <> NULL ->
  exists w2, pop_n r (length vs) w1 = Some (rev vs, w2) /\
             da_length r w2 = Some (_length b, w2).
Proof.
  intros Hb Hok Hrun Hr.
  assert (Hfinal : exists b', heap w1 !! r = Some b' /\
            _length b' = _length b + Z.of_nat (length vs) /\
            _length b' < SIZE_MOD /\
            (forall (i : nat) v, vs !! i = Some v ->
               _data b' !! (Z.to_nat (_length b) + i)%nat = Some v)).
  { destruct vs as [|v vs].
    - cbn [push_all] in Hrun. unfold ret in Hrun. inversion Hrun; subst.
      exists b. cbn [length]. destruct Hok as (_ & ? & ? & _).
      split; [assumption|]. split; [lia|]. split; [lia|].
      intros i v Hv. rewrite lookup_nil in Hv. discriminate.
    - cbn [push_all] in Hrun. unfold bind in Hrun.
      destruct (_da_push p v w) as [[p1 w1']|] eqn:Hpush; [|discriminate].
      destruct (Z.eqb_spec p1 NULL) as [->|Hp1].
      { unfold ret in Hrun. inversion Hrun; subst. contradiction. }
      destruct (push_step w p b v p1 w1' Hb Hok Hpush Hp1)
        as (b1 & Hb1 & Hok1 & Hl1 & Hfit1 & Hv1 & Hpre1).
      destruct (push_all_spec vs w1' p1 b1 r w1 Hb1 Hok1 Hfit1 Hrun Hr)
        as (b' & Hb' & Hl' & Hfit' & Hok' & Hpre' & Hvs').
      destruct Hok as (_ & Hlen0 & _). destruct Hok' as (_ & ? & ? & _).
      exists b'. split; [exact Hb'|]. split; [cbn [length]; lia|].
      split; [lia|].
      intros [|i] x Hx.
      + injection Hx as <-. rewrite Nat.add_0_r, Hpre' by lia. exact Hv1.
      + cbn in Hx. specialize (Hvs' i x Hx).
        replace (Z.to_nat (_length b) + S i)%nat
          with (Z.to_nat (_length b1) + i)%nat by lia.
        exact Hvs'. }
  destruct Hfinal as (b' & Hb' & Hl' & Hmax & Hvs').
  destruct Hok as (_ & Hlen0 & _).
  destruct (pop_n_eq vs w1 r b' (_length b) Hr Hb' ltac:(lia) Hl' Hmax Hvs')
    as (w2 & b2 & Hpop & Hb2 & Hl2).
  exists w2. split; [exact Hpop|].
  unfold da_length. rewrite (get_eq _length w2 r b2 Hr Hb2). rewrite Hl2. reflexivity.
Qed.

End PushPop.

Lemma push_pop_roundtrip_witness :
  exists w2, pop_n 8 (length [41; 42]) demo_world_pushed = Some (rev [41; 42], w2) /\
             da_length 8 w2 = Some (3, w2).
Proof.
  apply (push_pop_roundtrip demo_world 8
           (demo_block 3 10 [7; 8; 9; 0; 0; 0; 0; 0; 0; 0]) [41; 42] 8
           demo_world_pushed).
  - vm_compute. reflexivity.
  - unfold block_ok, SIZE_MOD. cbn. lia.
  - vm_compute. reflexivity.
  - discriminate.
Defined.

(* ===================================================================== *)
(** * Elements of a darray                                               *)
(* ===================================================================== *)

Section Elems.
Context {A : Type}.
Implicit Types (b : _darray A) (d src : list A).

Lemma take_blit d dst src (k : nat) :
  0 <= dst -> (Z.to_nat dst <= length d)%nat ->
  k = (Z.to_nat dst + length src)%nat ->
  take k (blit d dst src) = take (Z.to_nat dst) d ++ src.
Proof.
  intros H0 Hd ->. unfold blit. rewrite app_assoc.
  apply take_app_length'. rewrite length_app, length_take. lia.
Qed.

Lemma take_blit_lt d dst src (k : nat) :
  0 <= dst -> (k <= Z.to_nat dst)%nat -> (Z.to_nat dst <= length d)%nat ->
  take k (blit d dst src) = take k d.
Proof.
  intros H0 Hk Hd. unfold blit.
  rewrite take_app_le by (rewrite length_take; lia).
  rewrite take_take. f_equal. lia.
Qed.

Lemma drop_blit d dst src (k : nat) :
  0 <= dst -> (Z.to_nat dst <= length d)%nat ->
  k = (Z.to_nat dst + length src)%nat ->
  drop k (blit d dst src) = drop k d.
Proof.
  intros H0 Hd ->. unfold blit. rewrite app_assoc.
  apply drop_app_length'. rewrite length_app, length_take. lia.
Qed.

Lemma length_elems b : fits b -> length (elems b) = Z.to_nat (_length b).
Proof. intros [H _]. unfold elems. rewrite length_take. lia. Qed.

Lemma elems_remove_arr b i n :
  fits b -> 0 <= i -> 0 <= n -> i + n <= _length b ->
  _length (blk_remove_arr i n b) = _length b - n /\
  elems (blk_remove_arr i n b) =
    take (Z.to_nat i) (elems b) ++ drop (Z.to_nat (i + n)) (elems b) /\
  length (_data (blk_remove_arr i n b)) = length (_data b).
Proof.
  intros [Hf Hmax] Hi Hn Hin.
  assert (E1 : wrap (_length b - n) = _length b - n) by wrap_lia.
  assert (E2 : wrap (i + n) = i + n) by wrap_lia.
  assert (E3 : wrap (_length b - i - n) = _length b - i - n) by wrap_lia.
  unfold elems, blk_remove_arr. cbn [_length _data upd_length upd_data].
  rewrite E1, E2, E3.
  set (d := _data b) in *.
  assert (Hl : length (take (Z.to_nat (_length b - i - n)) (drop (Z.to_nat (i + n)) d))
               = Z.to_nat (_length b - i - n))
    by (rewrite length_take, length_drop; lia).
  split; [reflexivity|]. split.
  - rewrite (take_blit d i _ _ Hi) by lia.
    rewrite take_take, take_drop_commute.
    repeat f_equal; lia.
  - apply length_blit; lia.
Qed.

Lemma elems_insert_arr b i src n :
  0 <= i <= _length b -> 0 <= n <= Z.of_nat (length src) ->
  _length b + n <= Z.of_nat (length (_data b)) -> _length b + n < SIZE_MOD ->
  _length (blk_insert_arr i src n b) = _length b + n /\
  elems (blk_insert_arr i src n b) =
    take (Z.to_nat i) (elems b) ++ take (Z.to_nat n) src
      ++ drop (Z.to_nat i) (elems b) /\
  length (_data (blk_insert_arr i src n b)) = length (_data b).
Proof.
  intros Hi Hn Hfit Hmax.
  assert (E1 : wrap (_length b + n) = _length b + n) by wrap_lia.
  assert (E2 : wrap (i + n) = i + n) by wrap_lia.
  assert (E3 : wrap (_length b - i) = _length b - i) by wrap_lia.
  unfold elems, blk_insert_arr. cbn [_length _data upd_length upd_data].
  rewrite E1, E2, E3.
  set (d := _data b) in *.
  set (tail := take (Z.to_nat (_length b - i)) (drop (Z.to_nat i) d)).
  assert (Ht : length tail = Z.to_nat (_length b - i))
    by (unfold tail; rewrite length_take, length_drop; lia).
  set (d1 := blit d (i + n) tail).
  assert (Hd1 : length d1 = length d) by (apply length_blit; lia).
  assert (Hs : length (take (Z.to_nat n) src) = Z.to_nat n)
    by (rewrite length_take; lia).
  split; [reflexivity|]. split.
  - transitivity (take (Z.to_nat (_length b + n))
                    (take (Z.to_nat i) d1 ++ take (Z.to_nat n) src
                       ++ drop (Z.to_nat i + Z.to_nat n) d1)).
    { unfold blit at 1. repeat f_equal. rewrite length_take. lia. }
    assert (Hpre : take (Z.to_nat i) d1 = take (Z.to_nat i) d)
      by (apply take_blit_lt; lia).
    assert (Hpost : take (Z.to_nat (_length b - i))
                      (drop (Z.to_nat i + Z.to_nat n) d1) = tail).
    { unfold d1, blit. replace (Z.to_nat i + Z.to_nat n)%nat with (Z.to_nat (i + n)) by lia.
      rewrite drop_app_length' by (rewrite length_take; lia).
      apply take_app_length'. lia. }
    rewrite Hpre. rewrite !take_app.
    rewrite !length_take.
    replace (take (Z.to_nat (_length b + n)) (take (Z.to_nat i) d))
      with (take (Z.to_nat i) d) by (rewrite take_take; f_equal; lia).
    replace (take (Z.to_nat (_length b + n) - Z.to_nat i `min` length d)
               (take (Z.to_nat n) src))
      with (take (Z.to_nat n) src) by (rewrite take_take; f_equal; lia).
    replace (Z.to_nat (_length b + n) - Z.to_nat i `min` length d
             - Z.to_nat n `min` length src)%nat
      with (Z.to_nat (_length b - i)) by lia.
    rewrite Hpost. unfold tail.
    rewrite take_take, take_drop_commute.
    repeat f_equal; lia.
  - rewrite length_blit; [exact Hd1|lia|rewrite length_take, Hd1; lia].
Qed.


Lemma elems_concat b src n :
  0 <= _length b -> 0 <= n <= Z.of_nat (length src) ->
  _length b + n <= Z.of_nat (length (_data b)) -> _length b + n < SIZE_MOD ->
  _length (blk_concat src n b) = _length b + n /\
  elems (blk_concat src n b) = elems b ++ take (Z.to_nat n) src /\
  length (_data (blk_concat src n b)) = length (_data b).
Proof.
  intros Hl Hn Hfit Hmax.
  assert (E1 : wrap (_length b + n) = _length b + n) by wrap_lia.
  unfold elems, blk_concat. cbn [_length _data upd_length upd_data]. rewrite E1.
  split; [reflexivity|]. split.
  - apply take_blit; [lia|lia|]. rewrite length_take. lia.
  - apply length_blit; [lia|]. rewrite length_take. lia.
Qed.

Lemma elems_insert b i v :
  0 <= i <= _length b ->
  _length b + 1 <= Z.of_nat (length (_data b)) -> _length b + 1 < SIZE_MOD ->
  _length (blk_insert i v b) = _length b + 1 /\
  elems (blk_insert i v b) =
    take (Z.to_nat i) (elems b) ++ v :: drop (Z.to_nat i) (elems b) /\
  length (_data (blk_insert i v b)) = length (_data b).
Proof.
  intros Hi Hfit Hmax.
  assert (E1 : wrap (_length b + 1) = _length b + 1) by wrap_lia.
  assert (E3 : wrap (_length b - i) = _length b - i) by wrap_lia.
  unfold elems, blk_insert. cbn [_length _data upd_length upd_data]. rewrite E1, E3.
  set (d := _data b) in *.
  set (tail := take (Z.to_nat (_length b - i)) (drop (Z.to_nat i) d)).
  assert (Ht : length tail = Z.to_nat (_length b - i))
    by (unfold tail; rewrite length_take, length_drop; lia).
  assert (Hd1 : length (blit d (i + 1) tail) = length d) by (apply length_blit; lia).
  split; [reflexivity|]. split.
  - rewrite take_insert_lt by lia.
    rewrite (take_blit d (i + 1) tail) by lia.
    replace (Z.to_nat (i + 1)) with (S (Z.to_nat i)) by lia.
    assert (Hlt : (Z.to_nat i < length d)%nat) by lia.
    destruct (lookup_lt_is_Some_2 d (Z.to_nat i) Hlt) as [x Hx].
    rewrite (take_S_r d _ x Hx).
    rewrite <- app_assoc. cbn [app].
    rewrite insert_app_r_alt by (rewrite length_take; lia).
    rewrite length_take. replace (Z.to_nat i - Z.to_nat i `min` length d)%nat with O by lia.
    cbn. rewrite take_take. unfold tail. rewrite take_drop_commute.
    repeat f_equal; lia.
  - rewrite length_insert. exact Hd1.
Qed.

Lemma elems_reserved n b b1 :
  reserved n b b1 -> fits b -> _length b <= Z.of_nat (length (_data b1)) ->
  elems b1 = elems b.
Proof.
  intros Hres [Hf _] Hf1.
  destruct (reserved_props _ _ _ Hres) as (Hl & _ & _ & _ & _ & _ & Htake).
  unfold elems. rewrite Hl. apply Htake; lia.
Qed.

End Elems.

(* ===================================================================== *)
(** * dstrings                                                           *)
(* ===================================================================== *)

Section DstrLemmas.
Implicit Types (b : _darray Z) (w : world Z) (p q : addr).

Lemma c_str_app_zero t rest : c_str (t ++ 0 :: rest) = Some (c_prefix t).
Proof.
  induction t as [|c t IH]; [reflexivity|].
  cbn. destruct (Z.eqb_spec c 0); [reflexivity|]. rewrite IH. reflexivity.
Qed.

Lemma c_str_take s t :
  c_str s = Some t ->
  take (length t + 1) s = t ++ [0] /\ (length t < length s)%nat.
Proof.
  revert t. induction s as [|c s IH]; intros t H; [discriminate|].
  cbn in H. destruct (Z.eqb_spec c 0) as [->|Hc].
  - injection H as <-. cbn. split; [reflexivity|lia].
  - destruct (c_str s) as [t'|]; [|discriminate]. injection H as <-.
    destruct (IH t' eq_refl) as [E Hl]. cbn. rewrite E. split; [reflexivity|lia].
Qed.

Lemma c_prefix_length t : (length (c_prefix t) <= length t)%nat.
Proof.
  induction t as [|c t IH]; cbn; [lia|]. destruct (c =? 0); cbn; lia.
Qed.

Lemma dstr_inv_elems b :
  dstr_inv b ->
  fits b /\ elems b = dstr_text b ++ [0] /\
  Z.of_nat (length (dstr_text b)) = _length b - 1.
Proof.
  intros ((He & Hl & Hc & Hs) & H1 & H0).
  assert (Hlt := lookup_lt_Some _ _ _ H0).
  split; [split; lia|].
  unfold elems, dstr_text. split.
  - replace (Z.to_nat (_length b)) with (S (Z.to_nat (_length b - 1))) by lia.
    apply take_S_r. exact H0.
  - rewrite length_take. lia.
Qed.

Lemma dstr_inv_intro b t :
  block_ok b -> _length b <= Z.of_nat (length (_data b)) ->
  elems b = t ++ [0] ->
  dstr_inv b /\ dstr_text b = t.
Proof.
  intros Hok Hfit E. pose proof Hok as (He & Hl & Hc & Hs).
  assert (Hlen : length (elems b) = Z.to_nat (_length b))
    by (unfold elems; rewrite length_take; lia).
  rewrite E, length_app in Hlen. cbn in Hlen.
  assert (Ht : dstr_text b = t).
  { unfold dstr_text.
    replace (take (Z.to_nat (_length b - 1)) (_data b))
      with (take (Z.to_nat (_length b - 1)) (elems b))
      by (unfold elems; rewrite take_take; f_equal; lia).
    rewrite E. apply take_app_length'. lia. }
  split; [|exact Ht].
  split; [exact Hok|]. split; [lia|].
  rewrite <- (lookup_take_lt _ (Z.to_nat (_length b))) by lia.
  fold (elems b). rewrite E.
  rewrite lookup_app_r by lia.
  replace (Z.to_nat (_length b - 1) - length t)%nat with O by lia. reflexivity.
Qed.

End DstrLemmas.

Section BlockOk.
Context {A : Type}.
Implicit Types (b : _darray A).

Ltac ok_start :=
  intros (He & Hl & Hc & Hs); unfold can_move, block_ok;
  cbn [_length _data _capacity _elemsz upd_length upd_data].

Lemma block_ok_remove_arr b i n :
  block_ok b -> can_move b i (wrap (i + n)) (wrap (_length b - i - n)) ->
  block_ok (blk_remove_arr i n b).
Proof.
  ok_start. intros (H1 & H2 & H3 & H4 & H5).
  unfold blk_remove_arr. cbn [_length _data _capacity _elemsz upd_length upd_data].
  rewrite length_blit_move by lia. split; [lia|]. split; [wrap_lia|]. lia.
Qed.

Lemma block_ok_insert_arr b i (src : list A) n :
  block_ok b -> can_move b (wrap (i + n)) i (wrap (_length b - i)) ->
  0 <= n <= Z.of_nat (length src) -> i + n <= Z.of_nat (length (_data b)) ->
  block_ok (blk_insert_arr i src n b).
Proof.
  ok_start. intros (H1 & H2 & H3 & H4 & H5) Hn Hin.
  unfold blk_insert_arr. cbn [_length _data _capacity _elemsz upd_length upd_data].
  rewrite length_blit_copy by (rewrite ?length_blit_move; lia).
  rewrite length_blit_move by lia. split; [lia|]. split; [wrap_lia|]. lia.
Qed.

Lemma block_ok_concat b (src : list A) n :
  block_ok b -> 0 <= n <= Z.of_nat (length src) ->
  _length b + n <= Z.of_nat (length (_data b)) ->
  block_ok (blk_concat src n b).
Proof.
  ok_start. intros Hn Hfit.
  unfold blk_concat. cbn [_length _data _capacity _elemsz upd_length upd_data].
  rewrite length_blit_copy by lia. split; [lia|]. split; [wrap_lia|]. lia.
Qed.

Lemma block_ok_push b v :
  block_ok b -> 0 <= _length b < Z.of_nat (length (_data b)) ->
  block_ok (blk_push v b).
Proof.
  ok_start. intros Hfit.
  unfold blk_push. cbn [_length _data _capacity _elemsz upd_length upd_data].
  rewrite length_insert. split; [lia|]. split; [wrap_lia|]. lia.
Qed.

Lemma block_ok_pop b v :
  block_ok b -> _data b !! Z.to_nat (wrap (_length b - 1)) = Some v ->
  block_ok (blk_pop b).
Proof.
  ok_start. intros Hv. apply lookup_lt_Some in Hv.
  unfold blk_pop. cbn [_length _data _capacity _elemsz upd_length upd_data].
  split; [lia|]. split; [wrap_lia|]. lia.
Qed.

Lemma block_ok_insert b i v :
  block_ok b -> can_move b (i + 1) i (wrap (_length b - i)) ->
  block_ok (blk_insert i v b).
Proof.
  ok_start. intros (H1 & H2 & H3 & H4 & H5).
  unfold blk_insert. cbn [_length _data _capacity _elemsz upd_length upd_data].
  rewrite length_insert, length_blit_move by lia.
  split; [lia|]. split; [wrap_lia|]. lia.
Qed.

Lemma block_ok_remove b i :
  block_ok b -> can_move b i (i + 1) (wrap (_length b - i - 1)) ->
  block_ok (blk_remove i b).
Proof.
  ok_start. intros (H1 & H2 & H3 & H4 & H5).
  unfold blk_remove. cbn [_length _data _capacity _elemsz upd_length upd_data].
  rewrite length_blit_move by lia. split; [lia|]. split; [wrap_lia|]. lia.
Qed.

Lemma block_ok_upd_data b d :
  block_ok b -> length d = length (_data b) -> block_ok (upd_data d b).
Proof. ok_start. intros ->. lia. Qed.

Lemma block_ok_reserved n b b1 : reserved n b b1 -> block_ok b -> block_ok b1.
Proof. intros H. apply (reserved_props _ _ _ H). Qed.

Lemma block_ok_fresh mf n s c fill :
  is_size_t n -> is_size_t s -> n <= c < SIZE_MOD ->
  sizeof_darray <= arr_size c s ->
  block_ok (fresh_block mf n s c fill : _darray A).
Proof.
  intros [Hn _] [Hs _] Hc Hsz. unfold block_ok, fresh_block. cbn.
  rewrite length_resize_data. split; [lia|]. split; [lia|]. split; [lia|].
  apply slots_of_arr_size_le; lia.
Qed.

Lemma block_ok_resized n c fill b :
  block_ok b -> 0 <= n <= c -> c < SIZE_MOD ->
  sizeof_darray <= arr_size c (_elemsz b) ->
  block_ok (resized n c fill b).
Proof.
  ok_start. intros Hn Hc' Hsz. unfold resized, grown. cbn.
  rewrite length_resize_data. split; [lia|]. split; [lia|]. split; [lia|].
  apply slots_of_arr_size_le; lia.
Qed.

End BlockOk.

Section DstrSpecs.
Implicit Types (b : _darray Z) (w : world Z) (p q : addr).

Lemma relocated_target_eq (w : world Z) p w1 w' q b' :
  relocated w p w1 q b' -> heap w' = heap w1 -> relocated w p w' q b'.
Proof. unfold relocated. intros (? & ? & E) ->. auto. Qed.

Lemma block_ok_overwritten b off chunk :
  block_ok b -> 0 <= off ->
  off + Z.of_nat (length chunk) <= Z.of_nat (length (_data b)) ->
  block_ok (overwritten off chunk b).
Proof.
  intros (He & Hl & Hc & Hs) Hoff Hfit. unfold block_ok, overwritten. cbn.
  rewrite length_blit by lia. lia.
Qed.

Lemma dstr_overwritten b off s :
  block_ok b -> 0 <= off ->
  off + Z.of_nat (length (s ++ [0])) <= Z.of_nat (length (_data b)) ->
  dstr_inv (overwritten off (s ++ [0]) b) /\
  dstr_text (overwritten off (s ++ [0]) b) = take (Z.to_nat off) (_data b) ++ s.
Proof.
  intros Hok Hoff Hfit.
  apply dstr_inv_intro.
  - apply block_ok_overwritten; assumption.
  - unfold overwritten. cbn. rewrite length_blit by lia. lia.
  - unfold elems, overwritten. cbn [_length _data upd_length upd_data].
    rewrite (take_blit _ off (s ++ [0])) by lia.
    rewrite app_assoc. reflexivity.
Qed.

(** The tail of a block after [da_reserve]: same bytes in front. *)
Lemma reserved_text n b b1 :
  reserved n b b1 -> dstr_inv b ->
  _length b - 1 <= Z.of_nat (length (_data b1)) ->
  _length b1 = _length b /\ block_ok b1 /\
  take (Z.to_nat (_length b - 1)) (_data b1) = dstr_text b.
Proof.
  intros Hres Hinv Hfit.
  destruct (reserved_props _ _ _ Hres) as (Hl & _ & _ & _ & _ & Hok & Htake).
  destruct Hinv as (Hb & H1 & H0). apply lookup_lt_Some in H0.
  split; [exact Hl|]. split; [auto|]. apply Htake; lia.
Qed.

Lemma strlen_Some src n :
  strlen src = Some n ->
  exists s, c_str src = Some s /\ n = Z.of_nat (length s) /\
            Z.of_nat (length s) + 1 < SIZE_MOD /\
            take (Z.to_nat (n + 1)) src = s ++ [0] /\
            n + 1 <= Z.of_nat (length src).
Proof.
  unfold strlen. destruct (c_str src) as [s|] eqn:Hs; [|discriminate].
  destruct (Z.ltb_spec (Z.of_nat (length s) + 1) SIZE_MOD); [|discriminate].
  intros [= <-]. destruct (c_str_take _ _ Hs) as [Ht Hl].
  exists s. split; [reflexivity|]. split; [reflexivity|]. split; [assumption|].
  split; [|lia]. rewrite <- Ht. f_equal. lia.
Qed.

Lemma vsnprintf_Some rendered n :
  vsnprintf rendered = Some n ->
  n = Z.of_nat (length rendered) /\ n + 1 < SIZE_MOD /\
  take (Z.to_nat (n + 1)) (literal rendered) = rendered ++ [0] /\
  n + 1 <= Z.of_nat (length (literal rendered)).
Proof.
  unfold vsnprintf, INT_MAX, literal.
  destruct (Z.ltb_spec (Z.of_nat (length rendered)) 2147483647); [|discriminate].
  intros [= <-]. split; [reflexivity|]. split; [unfold SIZE_MOD; lia|].
  split.
  - apply take_ge. rewrite length_app. cbn. lia.
  - rewrite length_app. cbn. lia.
Qed.

(** The text [s] and a terminator written over the terminator of [b1], the
    block [da_reserve] made of [b]. *)
Lemma text_appended b b1 n off s :
  reserved n b b1 -> off = wrap (_length b - 1) -> n = Z.of_nat (length s) ->
  0 <= off -> off + (n + 1) <= Z.of_nat (length (_data b1)) ->
  let b' := upd_length (wrap (_length b1 + n))
              (upd_data (blit (_data b1) off (s ++ [0])) b1) in
  (block_ok b -> block_ok b') /\
  (dstr_inv b -> dstr_inv b' /\ dstr_text b' = dstr_text b ++ s).
Proof.
  intros Hres Hoff Hn Hoff0 Hfit b'.
  destruct (reserved_props _ _ _ Hres) as (Hl1 & _ & _ & _ & _ & Hok1 & _).
  assert (Hlen : Z.of_nat (length (s ++ [0])) = n + 1)
    by (rewrite length_app; cbn [length]; lia).
  assert (Hok' : block_ok b -> block_ok b').
  { intros Hok. destruct (Hok1 Hok) as (He & Hl & Hc & Hsl).
    unfold block_ok, b'. cbn. rewrite length_blit by lia.
    split; [lia|]. split; [wrap_lia|]. lia. }
  split; [exact Hok'|]. intros Hinv.
  pose proof Hinv as (Hok & Hge1 & Hterm).
  destruct (dstr_inv_elems _ Hinv) as ([Hf Hmax] & _ & _).
  assert (E1 : off = _length b - 1) by wrap_lia. clear Hoff. subst off.
  destruct (reserved_text _ _ _ Hres Hinv) as (_ & Hok1' & Hpre); [lia|].
  assert (E3 : wrap (_length b1 + n)
               = _length b - 1 + Z.of_nat (length (s ++ [0]))).
  { destruct Hok1' as (_ & _ & ? & ?). wrap_lia. }
  destruct (dstr_overwritten b1 (_length b - 1) s Hok1') as [Hi Ht]; [lia|lia|].
  unfold b'. rewrite E3. split; [exact Hi|].
  unfold overwritten in Ht. rewrite Ht, Hpre. reflexivity.
Qed.

(** The text [s] and a terminator written at the start of [b1], the block
    [da_reserve] made of [b] with its length reset. *)
Lemma text_assigned b b1 n len' s :
  reserved n (upd_length 0 b) b1 -> len' = Z.of_nat (length s) + 1 ->
  len' <= Z.of_nat (length (_data b1)) ->
  let b' := upd_length len' (upd_data (blit (_data b1) 0 (s ++ [0])) b1) in
  (block_ok b -> dstr_inv b' /\ dstr_text b' = s).
Proof.
  intros Hres -> Hfit b' Hok.
  assert (Hok0 : block_ok (upd_length 0 b)).
  { destruct Hok as (? & ? & ? & ?). unfold block_ok. cbn. lia. }
  pose proof (block_ok_reserved _ _ _ Hres Hok0) as Hok1.
  assert (Hlen : Z.of_nat (length (s ++ [0])) = Z.of_nat (length s) + 1)
    by (rewrite length_app; cbn [length]; lia).
  destruct (dstr_overwritten b1 0 s Hok1) as [Hi Ht]; [lia|lia|].
  unfold overwritten in Hi, Ht. rewrite Hlen in Hi, Ht. cbn [Z.add] in Hi, Ht.
  replace (0 + (Z.of_nat (length s) + 1)) with (Z.of_nat (length s) + 1) in Hi, Ht by lia.
  unfold b'. split; [exact Hi|]. rewrite Ht. reflexivity.
Qed.

Lemma dstr_post_failed (Pre : Prop) R w p b w' :
  p <> NULL -> heap w !! p = Some b -> heap w' = heap w ->
  dstr_post p Pre R w NULL w'.
Proof.
  intros Hp Hb Hh. exists b, p, b. split; [assumption|]. split; [assumption|].
  split; [apply (relocated_target_eq _ _ w); [apply relocated_same|]; assumption|].
  split; [auto|]. split; [auto|]. intros; contradiction.
Qed.

Lemma dstr_post_failed_at (Pre : Prop) R w p b w0 b0 w' :
  p <> NULL -> heap w !! p = Some b -> w0 = put w p b0 ->
  (block_ok b -> block_ok b0) -> heap w' = heap w0 ->
  dstr_post p Pre R w NULL w'.
Proof.
  intros Hp Hb -> Hok Hh. exists b, p, b0. split; [assumption|]. split; [assumption|].
  split; [apply (relocated_target_eq _ _ (put w p b0)); [apply relocated_put|]; assumption|].
  split; [auto|]. split; [auto|]. intros; contradiction.
Qed.

Lemma dstr_concat_cstr_spec p src w :
  wp (dstr_concat_cstr p src) w
     (dstr_post p True (fun t t' => exists s, c_str src = Some s /\ t' = t ++ s) w).
Proof.
  unfold dstr_concat_cstr, dstr_length. wp_go.
  match goal with H : strlen src = Some _ |- _ =>
    destruct (strlen_Some _ _ H) as (s & Hs & Hn & Hsmax & Htake & Hsrc) end.
  wp_apply da_reserve_spec'.
  intros r w1 (b' & _ & Hb' & [[-> Hh]|(b1 & Hrel & Hres)]); heap_simpl.
  - wp_go. eapply dstr_post_failed; eauto.
  - pose proof (relocated_lookup _ _ _ _ _ Hrel) as Hb1.
    pose proof Hrel as (Hr & _ & _).
    assert (E2 : wrap (x + 1) = x + 1) by wrap_lia. rewrite E2.
    wp_go. blk_simpl. rewrite Htake.
    destruct (text_appended b b1 x (wrap (_length b - 1)) s Hres eq_refl Hn)
      as [Hok Hdstr]; [lia|lia|].
    exists b, r. eexists. split; [assumption|]. split; [assumption|].
    split; [apply (relocated_put_after _ _ _ _ b1); exact Hrel|].
    split; [auto|]. split; [exact Hok|].
    intros _ Hinv _. destruct (Hdstr Hinv) as [Hi Ht]. split; [exact Hi|]. eauto.
Qed.

Lemma dstr_concat_format_spec p rendered w :
  wp (dstr_concat_format p rendered) w
     (dstr_post p True (fun t t' => t' = t ++ rendered) w).
Proof.
  unfold dstr_concat_format, dstr_length. wp_go.
  match goal with H : vsnprintf _ = Some _ |- _ =>
    destruct (vsnprintf_Some _ _ H) as (Hn & Hsmax & Htake & Hsrc) end.
  wp_apply da_reserve_spec'.
  intros r w1 (b' & _ & Hb' & [[-> Hh]|(b1 & Hrel & Hres)]); heap_simpl.
  - wp_go. eapply dstr_post_failed; eauto.
  - pose proof (relocated_lookup _ _ _ _ _ Hrel) as Hb1.
    pose proof Hrel as (Hr & _ & _).
    wp_go. blk_simpl. rewrite Htake.
    destruct (text_appended b b1 x (wrap (_length b - 1)) rendered Hres eq_refl Hn)
      as [Hok Hdstr]; [lia|lia|].
    exists b, r. eexists. split; [assumption|]. split; [assumption|].
    split; [apply (relocated_put_after _ _ _ _ b1); exact Hrel|].
    split; [auto|]. split; [exact Hok|].
    intros _ Hinv _. exact (Hdstr Hinv).
Qed.


Lemma block_ok_appended b b1 n off chunk :
  reserved n b b1 -> off = wrap (_length b - 1) -> 0 <= off ->
  Z.of_nat (length chunk) = wrap (n + 1) ->
  off + Z.of_nat (length chunk) <= Z.of_nat (length (_data b1)) ->
  block_ok b ->
  block_ok (upd_length (wrap (_length b1 + n))
              (upd_data (blit (_data b1) off chunk) b1)).
Proof.
  intros Hres Hoff Hoff0 Hlen Hfit Hok.
  destruct (reserved_props _ _ _ Hres) as (Hl1 & _ & _ & _ & _ & Hok1 & _).
  destruct (Hok1 Hok) as (He & Hl & Hc & Hsl).
  unfold block_ok. cbn. rewrite length_blit by lia.
  split; [lia|]. split; [wrap_lia|]. lia.
Qed.

Lemma dstr_concat_dstr_spec p src w :
  wp (dstr_concat_dstr p src) w
     (dstr_post p (is_dstr w src)
        (fun t t' => forall bs, heap w !! src = Some bs -> t' = t ++ dstr_text bs) w).
Proof.
  unfold dstr_concat_dstr, dstr_length. wp_go.
  rename b0 into bs.
  wp_apply da_reserve_spec'.
  intros r w1 (b' & _ & Hb' & [[-> Hh]|(b1 & Hrel & Hres)]); heap_simpl.
  - wp_go. eapply dstr_post_failed; eauto.
  - pose proof (relocated_lookup _ _ _ _ _ Hrel) as Hb1.
    pose proof Hrel as (Hr & _ & _).
    wp_prim. wp_prim; wp_go.
    match goal with
    | Hne : src <> p, Hs : heap w !! src = Some bs |- _ =>
        destruct (relocated_frame _ _ _ _ _ src Hrel Hne (ex_intro _ bs Hs)) as [Hnr Heq]
    end.
    match goal with
    | Hs1 : heap w1 !! src = Some ?x |- _ =>
        rewrite Heq in Hs1;
        match goal with Hs : heap w !! src = Some bs |- _ =>
          rewrite Hs in Hs1; injection Hs1 as <- end
    end.
    blk_simpl.
    exists b, r. eexists. split; [assumption|]. split; [assumption|].
    split; [apply (relocated_put_after _ _ _ _ b1); exact Hrel|].
    split; [auto|]. split.
    + apply (block_ok_appended b b1 _ _ _ Hres eq_refl); [lia| |].
      * rewrite length_take. lia.
      * rewrite length_take. lia.
    + intros _ Hinv (_ & bs' & Hbs' & Hinvs).
      match goal with Hs : heap w !! src = Some bs |- _ =>
        rewrite Hs in Hbs'; injection Hbs' as <- end.
      destruct (dstr_inv_elems _ Hinvs) as ([Hfs Hmaxs] & Hes & Hls).
      assert (E1 : wrap (_length bs - 1) = _length bs - 1) by wrap_lia.
      rewrite E1 in *.
      assert (E2 : wrap (_length bs - 1 + 1) = _length bs) by wrap_lia.
      rewrite E2 in *.
      fold (elems bs). rewrite Hes.
      destruct (text_appended b b1 (_length bs - 1) (wrap (_length b - 1))
                  (dstr_text bs) Hres eq_refl) as [_ Hdstr]; [lia|lia|lia|].
      destruct (Hdstr Hinv) as [Hi Ht]. split; [exact Hi|].
      intros bs' Hbs'.
      match goal with Hs : heap w !! src = Some bs |- _ =>
        rewrite Hs in Hbs'; injection Hbs' as <- end.
      exact Ht.
Qed.

Lemma dstr_concat_char_spec p c w :
  wp (dstr_concat_char p c) w (dstr_post p True (fun t t' => t' = t ++ [c]) w).
Proof.
  unfold dstr_concat_char. wp_go. wp_apply _da_insert_spec.
  intros r w' (b' & _ & Hb' & b1 & Hb1 & Hmv & Hrel); heap_simpl.
  exists b, r, (blk_insert (wrap (_length b - 1)) c b1).
  split; [assumption|]. split; [assumption|]. split; [exact Hrel|].
  split; [auto|].
  assert (Hok1 : block_ok b -> block_ok b1).
  { destruct Hb1 as [[_ Hres]|[_ ->]]; [|auto]. apply (block_ok_reserved _ _ _ Hres). }
  assert (Hl1 : _length b1 = _length b).
  { destruct Hb1 as [[_ Hres]|[_ ->]]; [|auto]. apply (reserved_props _ _ _ Hres). }
  split; [intros Hok; apply block_ok_insert; auto|].
  intros _ Hinv _. pose proof Hinv as (Hok & Hge1 & Hterm).
  destruct (dstr_inv_elems _ Hinv) as ([Hf Hmax] & He & Hlt).
  assert (E1 : wrap (_length b - 1) = _length b - 1) by wrap_lia.
  rewrite E1 in *. rewrite Hl1 in Hmv.
  destruct Hmv as (M1 & M2 & M3 & M4 & M5).
  assert (E2 : wrap (_length b - (_length b - 1)) = 1) by wrap_lia.
  rewrite E2 in *.
  pose proof (Hok1 Hok) as (? & ? & ? & ?).
  assert (He1 : elems b1 = elems b).
  { destruct Hb1 as [[_ Hres]|[_ ->]]; [|auto].
    apply (elems_reserved _ _ _ Hres); [split; lia|lia]. }
  destruct (elems_insert b1 (_length b - 1) c) as (Hl' & He' & Hd'); [lia|lia|lia|].
  rewrite He1, He in He'.
  rewrite take_app_length' in He' by lia.
  rewrite drop_app_length' in He' by lia.
  apply (dstr_inv_intro _ (dstr_text b ++ [c])).
  - apply block_ok_insert; [auto|]. unfold can_move. rewrite Hl1, E2. lia.
  - rewrite Hl', Hd'. lia.
  - rewrite He', <- app_assoc. reflexivity.
Qed.

(** The reassignments: the length is reset, then the new content is
    appended with [da_concat]. *)
Lemma reassign_concat_spec p (src : list Z) n (Pre : Prop) (s : list Z) w b w0 :
  p <> NULL -> heap w !! p = Some b -> w0 = put w p (upd_length 0 b) ->
  (Pre -> take (Z.to_nat n) src = s ++ [0] /\ n = Z.of_nat (length s) + 1) ->
  wp (da_concat p src n) w0 (dstr_post p Pre (fun _ t' => t' = s) w).
Proof.
  intros Hp Hb -> HPre. eapply wp_mono; [apply da_concat_spec|].
  intros r w' (b0 & _ & Hb0 & Hcases). rewrite lookup_put in Hb0.
  injection Hb0 as <-.
  assert (Hok0 : block_ok b -> block_ok (upd_length 0 b)).
  { intros (? & ? & ? & ?). unfold block_ok. cbn. lia. }
  destruct Hcases as [[-> Hh]|(b1 & Hres & Hn & Hl0 & Hfit & Hrel)].
  - eapply dstr_post_failed_at; eauto.
  - destruct (reserved_props _ _ _ Hres) as (Hl1 & _). cbn in Hl1, Hfit.
    exists b, r, (blk_concat src n b1).
    split; [assumption|]. split; [assumption|].
    split; [eapply relocated_trans; [apply relocated_put; assumption|exact Hrel]|].
    split; [auto|]. split.
    + intros Hok. apply block_ok_concat; [|lia|lia].
      apply (block_ok_reserved _ _ _ Hres). auto.
    + intros _ Hinv HP. destruct (HPre HP) as [Ht ->].
      destruct Hinv as (Hok & _).
      pose proof (block_ok_reserved _ _ _ Hres (Hok0 Hok)) as (? & ? & ? & ?).
      unfold blk_concat. rewrite Hl1, Ht.
      assert (E : wrap (0 + (Z.of_nat (length s) + 1)) = Z.of_nat (length s) + 1)
        by wrap_lia.
      rewrite E.
      apply (text_assigned b b1 _ _ s Hres eq_refl); [lia|exact Hok].
Qed.

Lemma dstr_reassign_empty_spec p w :
  wp (dstr_reassign_empty p) w (dstr_post p True (fun _ t' => t' = []) w).
Proof.
  unfold dstr_reassign_empty. wp_go.
  apply (reassign_concat_spec p _ 1 True [] w b); auto.
Qed.

Lemma dstr_reassign_cstr_spec p src w :
  wp (dstr_reassign_cstr p src) w
     (dstr_post p True (fun _ t' => c_str src = Some t') w).
Proof.
  unfold dstr_reassign_cstr. wp_go.
  match goal with H : strlen src = Some _ |- _ =>
    destruct (strlen_Some _ _ H) as (s & Hs & Hn & Hsmax & Htake & Hsrc) end.
  assert (E2 : wrap (x + 1) = x + 1) by wrap_lia. rewrite E2.
  eapply wp_mono; [apply (reassign_concat_spec p src (x + 1) True s w b); auto|].
  - intros _. split; [exact Htake|lia].
  - intros r w' (b0 & q & b' & Hp & Hb & Hrel & Hr & Hok & Hd).
    exists b0, q, b'. repeat (split; [assumption|]).
    intros Hr' Hinv HP. destruct (Hd Hr' Hinv HP) as [Hi ->]. auto.
Qed.

Lemma dstr_reassign_dstr_spec p src w :
  wp (dstr_reassign_dstr p src) w
     (dstr_post p (src <> p /\ is_dstr w src)
        (fun _ t' => forall bs, heap w !! src = Some bs -> t' = dstr_text bs) w).
Proof.
  unfold dstr_reassign_dstr. wp_go. rename b0 into bs0.
  match goal with Hs : heap (put w p _) !! src = Some bs0 |- _ => rename Hs into Hbs0 end.
  eapply wp_mono;
    [apply (reassign_concat_spec p (_data bs0) (_length bs0)
              (src <> p /\ is_dstr w src) (dstr_text bs0) w b); auto|].
  - intros (Hne & _ & bs & Hbs & Hinvs).
    cbn in Hbs0. rewrite lookup_insert_ne in Hbs0 by auto.
    rewrite Hbs in Hbs0. injection Hbs0 as <-.
    destruct (dstr_inv_elems _ Hinvs) as (_ & He & Hl).
    split; [exact He|lia].
  - intros r w' (b0 & q & b' & Hp & Hb & Hrel & Hr & Hok & Hd).
    exists b0, q, b'. repeat (split; [assumption|]).
    intros Hr' Hinv HP. destruct (Hd Hr' Hinv HP) as [Hi Ht].
    split; [exact Hi|]. intros bs Hbs.
    destruct HP as (Hne & _). cbn in Hbs0. rewrite lookup_insert_ne in Hbs0 by auto.
    rewrite Hbs in Hbs0. injection Hbs0 as <-. exact Ht.
Qed.

Lemma dstr_reassign_format_spec p rendered w :
  wp (dstr_reassign_format p rendered) w
     (dstr_post p True (fun _ t' => t' = rendered) w).
Proof.
  unfold dstr_reassign_format. wp_go.
  match goal with H : vsnprintf _ = Some _ |- _ =>
    destruct (vsnprintf_Some _ _ H) as (Hn & Hsmax & Htake & Hsrc) end.
  assert (Hok0 : block_ok b -> block_ok (upd_length 0 b)).
  { intros (? & ? & ? & ?). unfold block_ok. cbn. lia. }
  wp_apply da_reserve_spec'.
  intros r w1 (b0 & _ & Hb0 & [[-> Hh]|(b1 & Hrel & Hres)]).
  - wp_go. eapply dstr_post_failed_at; eauto.
  - rewrite lookup_put in Hb0. injection Hb0 as <-.
    pose proof (relocated_lookup _ _ _ _ _ Hrel) as Hb1.
    pose proof Hrel as (Hr & _ & _).
    wp_go. blk_simpl. rewrite Htake.
    exists b, r. eexists. split; [assumption|]. split; [assumption|].
    split; [eapply relocated_trans; [apply relocated_put; assumption|];
            apply (relocated_put_after _ _ _ _ b1); exact Hrel|].
    split; [auto|]. split.
    + intros Hok. pose proof (block_ok_reserved _ _ _ Hres (Hok0 Hok)) as (? & ? & ? & ?).
      unfold block_ok. cbn. rewrite length_blit by (rewrite ?length_app; cbn; lia).
      lia.
    + intros _ (Hok & _) _.
      apply (text_assigned b b1 _ _ rendered Hres); [lia|lia|exact Hok].
Qed.

End DstrSpecs.

Section Find.

Lemma starts_with_length needle hay :
  starts_with needle hay = true -> (length needle <= length hay)%nat.
Proof.
  revert hay. induction needle as [|n needle IH]; intros [|h hay]; cbn;
    try lia; try discriminate.
  intros H. apply andb_true_iff in H as [_ H]. apply IH in H. lia.
Qed.

Lemma strstr_bound hay needle i :
  strstr hay needle = Some i ->
  0 <= i /\ i + Z.of_nat (length needle) <= Z.of_nat (length hay).
Proof.
  revert i. induction hay as [|h hay IH]; intros i; cbn [strstr].
  - destruct (starts_with needle []) eqn:E; [|discriminate].
    intros [= <-]. apply starts_with_length in E. lia.
  - destruct (starts_with needle (h :: hay)) eqn:E.
    + intros [= <-]. apply starts_with_length in E. lia.
    + destruct (strstr hay needle) as [j|]; [|discriminate].
      intros [= <-]. destruct (IH j eq_refl). cbn [length]. lia.
Qed.

Lemma _da_strcasestr_loop_bound needle currh :
  forall haystack pos currn i,
  0 <= haystack <= pos ->
  pos - haystack = Z.of_nat (length needle) - Z.of_nat (length currn) ->
  _da_strcasestr_loop needle haystack currh pos currn = Some i ->
  0 <= i /\ i + Z.of_nat (length needle) <= pos + Z.of_nat (length currh).
Proof.
  induction currh as [|ch currh IH]; intros haystack pos currn i Hh Hpos.
  - destruct currn as [|cn currn]; cbn; [|discriminate].
    intros [= <-]. cbn in Hpos. lia.
  - destruct currn as [|cn currn]; cbn [_da_strcasestr_loop].
    + intros [= <-]. cbn in Hpos. cbn [length]. lia.
    + cbn [length] in Hpos. destruct (negb (tolower ch =? tolower cn)).
      * intros H. apply (IH (pos + 1) (pos + 1) needle i) in H;
          [cbn [length]; lia|lia|lia].
      * intros H. apply (IH haystack (pos + 1) currn i) in H;
          [cbn [length]; lia|lia|lia].
Qed.

Lemma _da_strcasestr_bound hay needle i :
  _da_strcasestr hay needle = Some i ->
  0 <= i /\ i + Z.of_nat (length needle) <= Z.of_nat (length hay).
Proof.
  unfold _da_strcasestr. intros H.
  apply _da_strcasestr_loop_bound in H; lia.
Qed.

Lemma dstr_find_spec p substr w :
  wp (dstr_find p substr) w (find_post strstr p substr w).
Proof.
  unfold dstr_find. wp_go.
  destruct (strstr x x0) as [loc|] eqn:E; wp_go;
    (split; [reflexivity|]); exists b, x, x0; auto 10.
Qed.

Lemma dstr_find_case_spec p substr w :
  wp (dstr_find_case p substr) w (find_post _da_strcasestr p substr w).
Proof.
  unfold dstr_find_case. wp_go.
  destruct (_da_strcasestr x x0) as [loc|] eqn:E; wp_go;
    (split; [reflexivity|]); exists b, x, x0; auto 10.
Qed.

Lemma dstr_replace_all_loop_eq fuel p substr new_str sl nl w :
  dstr_replace_all_loop fuel p substr new_str sl nl w
  = replace_loop dstr_find fuel p substr new_str sl nl w.
Proof.
  revert p w. induction fuel as [|fuel IH]; intros p w; [reflexivity|].
  cbn [dstr_replace_all_loop replace_loop]. unfold bind.
  destruct (dstr_find p substr w) as [[loc w1]|]; [|reflexivity].
  destruct (loc =? -1); [reflexivity|].
  destruct (da_remove_arr p loc sl w1) as [[u w2]|]; [|reflexivity].
  destruct (da_insert_arr p loc new_str nl w2) as [[q w3]|]; [|reflexivity].
  destruct (q =? NULL); [reflexivity|apply IH].
Qed.

Lemma dstr_replace_all_case_loop_eq fuel p substr new_str sl nl w :
  dstr_replace_all_case_loop fuel p substr new_str sl nl w
  = replace_loop dstr_find_case fuel p substr new_str sl nl w.
Proof.
  revert p w. induction fuel as [|fuel IH]; intros p w; [reflexivity|].
  cbn [dstr_replace_all_case_loop replace_loop]. unfold bind.
  destruct (dstr_find_case p substr w) as [[loc w1]|]; [|reflexivity].
  destruct (loc =? -1); [reflexivity|].
  destruct (da_remove_arr p loc sl w1) as [[u w2]|]; [|reflexivity].
  destruct (da_insert_arr p loc new_str nl w2) as [[q w3]|]; [|reflexivity].
  destruct (q =? NULL); [reflexivity|apply IH].
Qed.

End Find.

Lemma wp_bind_assoc {A X Y Z'} (c : M A X) (f : X -> M A Y) (g : Y -> M A Z') w
    (Q : Z' -> world A -> Prop) :
  wp (bind (bind c f) g) w Q -> wp (bind c (fun x => bind (f x) g)) w Q.
Proof. unfold wp, bind. destruct (c w) as [[x w']|]; auto. Qed.

Section ReplaceLoop.

Lemma c_str_dstr b : dstr_inv b -> c_str (_data b) = Some (c_prefix (dstr_text b)).
Proof.
  intros Hinv. destruct (dstr_inv_elems _ Hinv) as (_ & He & _).
  rewrite <- (take_drop (Z.to_nat (_length b)) (_data b)).
  fold (elems b). rewrite He, <- app_assoc. apply c_str_app_zero.
Qed.

Lemma replace_step_spec p loc sl new_str nl w :
  wp (da_remove_arr p loc sl ;; da_insert_arr p loc new_str nl) w
     (dstr_post p
        (forall b, heap w !! p = Some b ->
           0 <= loc /\ 0 <= sl /\ loc + sl <= Z.of_nat (length (dstr_text b)))
        (fun t t' => t' = take (Z.to_nat loc) t ++ take (Z.to_nat nl) new_str
                          ++ drop (Z.to_nat (loc + sl)) t) w).
Proof.
  wp_apply da_remove_arr_spec. intros u w1 (b & Hp & Hb & Hmv & Hw1). subst w1. clear u.
  eapply wp_mono; [apply da_insert_arr_spec|].
  intros r w' (b1 & _ & Hb1 & Hcases). rewrite lookup_put in Hb1.
  injection Hb1 as <-.
  destruct Hcases as [[-> Hh]|(b2 & Hres & Hmv2 & Hn & Hin & Hrel)].
  - apply (dstr_post_failed_at _ _ w p b (put w p (blk_remove_arr loc sl b))
             (blk_remove_arr loc sl b)); auto using block_ok_remove_arr.
  - exists b, r, (blk_insert_arr loc new_str nl b2).
    split; [assumption|]. split; [assumption|].
    split; [eapply relocated_trans; [apply relocated_put; assumption|exact Hrel]|].
    split; [auto|].
    assert (Hok2 : block_ok b -> block_ok b2).
    { intros Hok. apply (block_ok_reserved _ _ _ Hres).
      apply block_ok_remove_arr; assumption. }
    split; [intros Hok; apply block_ok_insert_arr; auto|].
    intros _ Hinv HPre. destruct (HPre b Hb) as (Hloc & Hsl & Hfit).
    pose proof Hinv as (Hok & Hge1 & _).
    destruct (dstr_inv_elems _ Hinv) as (Hf & He & Hlt).
    destruct (elems_remove_arr b loc sl Hf Hloc Hsl) as (Hl1 & He1 & Hd1); [lia|].
    destruct (reserved_props _ _ _ Hres) as (Hl2 & _).
    pose proof (Hok2 Hok) as Hb2. pose proof Hb2 as (? & ? & ? & ?).
    destruct Hmv2 as (M1 & M2 & M3 & M4 & M5).
    rewrite Hl2, Hl1 in *.
    assert (E1 : wrap (loc + nl) = loc + nl) by wrap_lia.
    assert (E2 : wrap (_length b - sl - loc) = _length b - sl - loc) by wrap_lia.
    rewrite E1, E2 in *.
    assert (He2 : elems b2 = elems (blk_remove_arr loc sl b)).
    { apply (elems_reserved _ _ _ Hres).
      - destruct Hf as [Hf Hmax]. split; [rewrite ?Hl1, ?Hd1; lia|rewrite ?Hl1; lia].
      - rewrite ?Hl1. lia. }
    destruct (elems_insert_arr b2 loc new_str nl) as (Hl' & He' & Hd');
      [rewrite ?Hl2, ?Hl1; lia|lia|rewrite ?Hl2, ?Hl1; lia|rewrite ?Hl2, ?Hl1; lia|].
    apply dstr_inv_intro.
    + apply block_ok_insert_arr; auto. unfold can_move.
      rewrite ?Hl2, ?Hl1, ?E1, ?E2. lia.
    + rewrite Hl', Hd', ?Hl2, ?Hl1. lia.
    + rewrite He', He2, He1, He.
      assert (Ht : take (Z.to_nat loc) (dstr_text b ++ [0])
                   = take (Z.to_nat loc) (dstr_text b))
        by (apply take_app_le; lia).
      assert (Hd : drop (Z.to_nat (loc + sl)) (dstr_text b ++ [0])
                   = drop (Z.to_nat (loc + sl)) (dstr_text b) ++ [0])
        by (apply drop_app_le; lia).
      rewrite Ht, Hd.
      assert (Hlen : length (take (Z.to_nat loc) (dstr_text b)) = Z.to_nat loc)
        by (rewrite length_take; lia).
      rewrite take_app_length' by (symmetry; exact Hlen).
      rewrite drop_app_length' by (symmetry; exact Hlen).
      rewrite <- !app_assoc. reflexivity.
Qed.

Variable find : addr -> list Z -> M Z Z.
Variable F : list Z -> list Z -> option Z.
Variables (substr new_str sub new : list Z) (sl nl : Z).
Hypothesis Hfind : forall p w, wp (find p substr) w (find_post F p substr w).
Hypothesis HF : forall hay needle i,
  F hay needle = Some i ->
  0 <= i /\ i + Z.of_nat (length needle) <= Z.of_nat (length hay).
Hypothesis Hsub : c_str substr = Some sub.
Hypothesis Hsl : sl = Z.of_nat (length sub).
Hypothesis Hnew : take (Z.to_nat nl) new_str = new.

Lemma replace_loop_spec fuel :
  forall p w b, p <> NULL -> heap w !! p = Some b ->
  wp (replace_loop find fuel p substr new_str sl nl) w
     (loop_post F sub new p fuel w).
Proof.
  induction fuel as [|fuel IH]; intros p w b Hp Hb; cbn [replace_loop].
  - apply wp_ret. exists b, p, b. split; [assumption|]. split; [assumption|].
    split; [apply relocated_same; assumption|]. split; [auto|].
    split; [reflexivity|]. intros Hinv. split; [assumption|reflexivity].
  - wp_apply Hfind.
    intros loc w1 (-> & b0 & hay & needle & _ & Hb0 & Hhay & Hneedle & Hloc).
    rewrite Hb in Hb0. injection Hb0 as <-.
    rewrite Hsub in Hneedle. injection Hneedle as <-.
    destruct (Z.eqb_spec loc (-1)) as [->|Hne].
    + apply wp_ret. exists b, p, b. split; [assumption|]. split; [assumption|].
      split; [apply relocated_same; assumption|]. split; [auto|].
      split; [auto|]. intros _ Hinv. split; [assumption|].
      cbn [restart_replace_all]. unfold text_find.
      rewrite (c_str_dstr _ Hinv) in Hhay. injection Hhay as <-.
      destruct Hloc as [[-> _]|Hloc]; [reflexivity|].
      apply HF in Hloc. lia.
    + destruct Hloc as [[_ ->]|Hloc]; [contradiction|].
      apply wp_bind_assoc, wp_bind.
      eapply wp_mono; [apply replace_step_spec|].
      intros r w2 (b0 & q & b2 & _ & Hb0 & Hrel & Hr & Hok & Hstep).
      rewrite Hb in Hb0. injection Hb0 as <-.
      assert (Hstep' : r <> NULL -> dstr_inv b ->
                dstr_inv b2 /\
                text_find F (dstr_text b) sub = Some loc /\
                dstr_text b2 = take (Z.to_nat loc) (dstr_text b) ++ new
                                 ++ drop (Z.to_nat loc + length sub) (dstr_text b)).
      { intros Hr' Hinv.
        rewrite (c_str_dstr _ Hinv) in Hhay. injection Hhay as <-.
        pose proof (HF _ _ _ Hloc) as [Hl0 Hl1].
        pose proof (c_prefix_length (dstr_text b)) as Hcp.
        destruct (Hstep Hr' Hinv) as [Hi Ht].
        - intros b' Hb'. rewrite Hb in Hb'. injection Hb' as <-. lia.
        - split; [exact Hi|]. split; [exact Hloc|].
          rewrite Ht, Hnew. do 3 f_equal. lia. }
      destruct (Z.eqb_spec r NULL) as [->|Hne'].
      * apply wp_ret. exists b, q, b2. split; [assumption|]. split; [assumption|].
        split; [assumption|]. split; [assumption|]. split; [auto|].
        intros; contradiction.
      * destruct Hr as [-> | ->]; [contradiction|].
        pose proof (relocated_lookup _ _ _ _ _ Hrel) as Hb2.
        eapply wp_mono; [apply (IH q w2 b2 Hne' Hb2)|].
        intros r' w3 (b2' & q' & b3 & _ & Hb2' & Hrel' & Hok' & Hend).
        rewrite Hb2 in Hb2'. injection Hb2' as <-.
        exists b, q', b3. split; [assumption|]. split; [assumption|].
        split; [eapply relocated_trans; eassumption|]. split; [auto|].
        destruct r' as [h|h].
        -- destruct Hend as [Hh Hend]. split; [exact Hh|].
           intros Hh' Hinv. destruct (Hstep' Hne' Hinv) as (Hi2 & Hf & Ht2).
           destruct (Hend Hh' Hi2) as [Hi3 Hrs]. split; [exact Hi3|].
           cbn [restart_replace_all]. rewrite Hf, <- Ht2. exact Hrs.
        -- destruct Hend as [Hh Hend]. split; [exact Hh|].
           intros Hinv. destruct (Hstep' Hne' Hinv) as (Hi2 & Hf & Ht2).
           destruct (Hend Hi2) as [Hi3 Hrs]. split; [exact Hi3|].
           cbn [restart_replace_all]. rewrite Hf, <- Ht2. exact Hrs.
Qed.

End ReplaceLoop.

Section ReplaceSpecs.

Lemma take_strlen src n s :
  c_str src = Some s -> n = Z.of_nat (length s) -> take (Z.to_nat n) src = s.
Proof.
  intros Hs ->. destruct (c_str_take _ _ Hs) as [Ht _].
  rewrite Nat2Z.id.
  replace (take (length s) src) with (take (length s) (take (length s + 1) src))
    by (rewrite take_take; f_equal; lia).
  rewrite Ht. apply take_app_length.
Qed.

Lemma dstr_replace_all_spec fuel p substr new_str w b :
  p <> NULL -> heap w !! p = Some b ->
  wp (dstr_replace_all fuel p substr new_str) w (fun r w' =>
    exists sub new, c_str substr = Some sub /\ c_str new_str = Some new /\
      loop_post strstr sub new p fuel w r w').
Proof.
  intros Hp Hb. unfold dstr_replace_all. wp_go.
  destruct (strlen_Some _ _ H) as (sub & Hsub & Hsl & _).
  destruct (strlen_Some _ _ H0) as (new & Hnew & Hnl & _).
  apply wp_intro. intros r w'. rewrite dstr_replace_all_loop_eq. intros Hrun.
  exists sub, new. split; [assumption|]. split; [assumption|].
  exact (wp_elim _ _ _ _ _
           (replace_loop_spec dstr_find strstr substr new_str sub new x x0
              (fun p w => dstr_find_spec p substr w) strstr_bound Hsub Hsl (take_strlen _ _ _ Hnew Hnl)
              fuel p w b Hp Hb) Hrun).
Qed.

Lemma dstr_replace_all_case_spec fuel p substr new_str w b :
  p <> NULL -> heap w !! p = Some b ->
  wp (dstr_replace_all_case fuel p substr new_str) w (fun r w' =>
    exists sub new, c_str substr = Some sub /\ c_str new_str = Some new /\
      loop_post _da_strcasestr sub new p fuel w r w').
Proof.
  intros Hp Hb. unfold dstr_replace_all_case. wp_go.
  destruct (strlen_Some _ _ H) as (sub & Hsub & Hsl & _).
  destruct (strlen_Some _ _ H0) as (new & Hnew & Hnl & _).
  apply wp_intro. intros r w'. rewrite dstr_replace_all_case_loop_eq. intros Hrun.
  exists sub, new. split; [assumption|]. split; [assumption|].
  exact (wp_elim _ _ _ _ _
           (replace_loop_spec dstr_find_case _da_strcasestr substr new_str sub new
              x x0 (fun p w => dstr_find_case_spec p substr w) _da_strcasestr_bound Hsub Hsl
              (take_strlen _ _ _ Hnew Hnl) fuel p w b Hp Hb) Hrun).
Qed.

End ReplaceSpecs.

Section Trim.
Variable fn_last_byte : mem_fn -> Z.
Implicit Types (w : world Z) (p q d : addr) (b : _darray Z).

Lemma count_space_bound l n :
  count_space l = Some n -> 0 <= n < Z.of_nat (length l).
Proof.
  revert n. induction l as [|c l IH]; intros n; cbn [count_space]; [discriminate|].
  destruct (isspace c).
  - destruct (count_space l) as [m|]; [|discriminate]. intros [= <-].
    specialize (IH m eq_refl). cbn [length]. lia.
  - intros [= <-]. cbn [length]. lia.
Qed.

Lemma count_space_app_zero t rest :
  count_space (t ++ 0 :: rest) = count_space (t ++ [0]).
Proof.
  induction t as [|c t IH]; [reflexivity|]. cbn. rewrite IH. reflexivity.
Qed.

Lemma dstr_data b :
  dstr_inv b ->
  _data b = dstr_text b ++ 0 :: drop (Z.to_nat (_length b)) (_data b).
Proof.
  intros Hinv. destruct (dstr_inv_elems _ Hinv) as (_ & He & _).
  rewrite <- (take_drop (Z.to_nat (_length b)) (_data b)) at 1.
  fold (elems b). rewrite He, <- app_assoc. reflexivity.
Qed.

Lemma count_space_spec l : forall n,
  count_space l = Some n ->
  exists k : nat, n = Z.of_nat k /\ blank (take k l) /\
    exists c, l !! k = Some c /\ isspace c = false.
Proof.
  induction l as [|c l IH]; intros n; cbn [count_space]; [discriminate|].
  destruct (isspace c) eqn:Ec.
  - destruct (count_space l) as [m|]; [|discriminate]. intros [= <-].
    destruct (IH m eq_refl) as (k & -> & Hb & c' & Hc' & Hs).
    exists (S k). split; [lia|]. split; [constructor; assumption|]. eauto.
  - intros [= <-]. exists O. split; [reflexivity|]. split; [constructor|]. eauto.
Qed.


Lemma count_space_Some l :
  Exists (fun c => isspace c = false) l -> exists n, count_space l = Some n.
Proof.
  induction 1 as [c l Hc|c l _ [n IH]]; cbn [count_space].
  - rewrite Hc. eauto.
  - rewrite IH. destruct (isspace c); eauto.
Qed.


(** The dstring after [da_remove_arr(dstr, 0, n)], [n] bytes of its text. *)
Lemma trim_front b (k : nat) :
  dstr_inv b -> (k <= length (dstr_text b))%nat ->
  dstr_inv (blk_remove_arr 0 (Z.of_nat k) b) /\
  dstr_text (blk_remove_arr 0 (Z.of_nat k) b) = drop k (dstr_text b) /\
  _capacity (blk_remove_arr 0 (Z.of_nat k) b) = _capacity b.
Proof.
  intros Hinv Hk. pose proof Hinv as (Hok & Hge1 & _).
  destruct (dstr_inv_elems _ Hinv) as (Hf & He & Hlt).
  set (b1 := blk_remove_arr 0 (Z.of_nat k) b).
  destruct (elems_remove_arr b 0 (Z.of_nat k) Hf) as (Hl1 & He1 & Hd1); [lia|lia|lia|].
  fold b1 in Hl1, He1, Hd1.
  assert (Hok1 : block_ok b1).
  { apply block_ok_remove_arr; [assumption|].
    destruct Hf as [Hf Hm]. unfold can_move.
    assert (E2 : wrap (0 + Z.of_nat k) = Z.of_nat k) by wrap_lia.
    assert (E3 : wrap (_length b - 0 - Z.of_nat k) = _length b - Z.of_nat k) by wrap_lia.
    rewrite E2, E3. lia. }
  destruct (dstr_inv_intro b1 (drop k (dstr_text b)) Hok1) as [Hinv1 Ht1].
  - rewrite Hl1, Hd1. destruct Hf. lia.
  - rewrite He1, He. cbn [take app]. rewrite Z.add_0_l, Nat2Z.id.
    apply drop_app_le. lia.
  - split; [exact Hinv1|]. split; [exact Ht1|]. reflexivity.
Qed.


(** The dstring after [da_remove_arr(dstr, dstr_length(dstr)-n, n)]. *)
Lemma trim_back b (k : nat) :
  dstr_inv b -> (k <= length (dstr_text b))%nat ->
  dstr_inv (blk_remove_arr (_length b - 1 - Z.of_nat k) (Z.of_nat k) b) /\
  dstr_text (blk_remove_arr (_length b - 1 - Z.of_nat k) (Z.of_nat k) b)
  = take (length (dstr_text b) - k) (dstr_text b) /\
  _capacity (blk_remove_arr (_length b - 1 - Z.of_nat k) (Z.of_nat k) b) = _capacity b.
Proof.
  intros Hinv Hk. pose proof Hinv as (Hok & Hge1 & _).
  destruct (dstr_inv_elems _ Hinv) as (Hf & He & Hlt).
  set (i := _length b - 1 - Z.of_nat k).
  set (b1 := blk_remove_arr i (Z.of_nat k) b).
  destruct (elems_remove_arr b i (Z.of_nat k) Hf) as (Hl1 & He1 & Hd1);
    [unfold i; lia|lia|unfold i; lia|].
  fold b1 in Hl1, He1, Hd1.
  assert (Hok1 : block_ok b1).
  { apply block_ok_remove_arr; [assumption|].
    destruct Hf as [Hf Hm]. unfold can_move.
    assert (E2 : wrap (i + Z.of_nat k) = i + Z.of_nat k) by (unfold i; wrap_lia).
    assert (E3 : wrap (_length b - i - Z.of_nat k) = _length b - i - Z.of_nat k)
      by (unfold i; wrap_lia).
    rewrite E2, E3. unfold i. lia. }
  destruct (dstr_inv_intro b1 (take (length (dstr_text b) - k) (dstr_text b)) Hok1)
    as [Hinv1 Ht1].
  - rewrite Hl1, Hd1. destruct Hf. lia.
  - rewrite He1, He.
    replace (Z.to_nat (i + Z.of_nat k)) with (length (dstr_text b)) by (unfold i; lia).
    rewrite drop_app_length, take_app_le by (unfold i; lia).
    f_equal. f_equal. unfold i. lia.
  - split; [exact Hinv1|]. split; [exact Ht1|]. reflexivity.
Qed.


Lemma blk_remove_arr_nothing b i :
  fits b -> 0 <= i <= _length b -> blk_remove_arr i 0 b = b.
Proof.
  intros [Hf Hm] Hi. unfold blk_remove_arr.
  assert (E1 : wrap (_length b - 0) = _length b) by wrap_lia.
  assert (E2 : wrap (i + 0) = i) by wrap_lia.
  assert (E3 : wrap (_length b - i - 0) = _length b - i) by wrap_lia.
  rewrite E1, E2, E3. unfold blit.
  rewrite length_take, length_drop.
  replace (Z.to_nat i + Z.to_nat (_length b - i) `min` (length (_data b) - Z.to_nat i))%nat
    with (Z.to_nat (_length b)) by lia.
  rewrite app_assoc, take_take_drop.
  replace (Z.to_nat i + Z.to_nat (_length b - i))%nat with (Z.to_nat (_length b)) by lia.
  rewrite take_drop. destruct b. reflexivity.
Qed.

Lemma count_space_app l r n :
  count_space l = Some n -> count_space (l ++ r) = Some n.
Proof.
  revert n. induction l as [|c l IH]; intros n; cbn [count_space app]; [discriminate|].
  destruct (isspace c); [|auto].
  destruct (count_space l) as [m|]; [|discriminate].
  intros [= <-]. rewrite (IH m eq_refl). reflexivity.
Qed.

(** The backward scan of a text that starts with a byte that is not
    whitespace stops in the text, whatever is in front of it. *)
Lemma count_space_back_text front c t :
  isspace c = false ->
  exists k2 : nat, (k2 < length (c :: t))%nat /\
    count_space (rev (c :: t)) = Some (Z.of_nat k2) /\
    count_space (rev (c :: t) ++ front) = Some (Z.of_nat k2).
Proof.
  intros Hc.
  destruct (count_space_Some (rev (c :: t))) as [n2 Hn2].
  { apply Exists_rev. left. exact Hc. }
  pose proof (count_space_bound _ _ Hn2) as Hb. rewrite length_rev in Hb.
  exists (Z.to_nat n2). rewrite Z2Nat.id by lia.
  split; [lia|]. split; [exact Hn2|]. apply count_space_app. exact Hn2.
Qed.

Lemma dstr_trim_spec p w :
  wp (dstr_trim fn_last_byte p) w (fun r w' =>
    r = p /\
    dstr_post p True
      (fun t t' => Exists (fun c => isspace c = false) t -> trimmed t t') w r w').
Proof.
  unfold dstr_trim, dstr_length, read_front. wp_go.
  rename x into n. rename H1 into Hn.
  wp_apply da_remove_arr_spec. intros u w1 (b0 & _ & Hb0 & Hmv & ->).
  heap_simpl. clear u.
  wp_go. rename x into n2.
  wp_apply da_remove_arr_spec. intros u w2 (b0 & _ & Hb0 & Hmv2 & ->).
  heap_simpl. clear u. apply wp_ret. split; [reflexivity|].
  set (b1 := blk_remove_arr 0 n b) in *.
  exists b, p. eexists. split; [assumption|]. split; [assumption|].
  split; [apply relocated_put; assumption|]. split; [auto|].
  split; [intros Hok; apply block_ok_remove_arr; [apply block_ok_remove_arr|];
          assumption|].
  intros _ Hinv _.
  destruct (dstr_inv_elems _ Hinv) as (Hf & He & Hlt).
  assert (Hn' : count_space (dstr_text b ++ [0]) = Some n).
  { rewrite <- Hn, (dstr_data _ Hinv) at 1. symmetry. apply count_space_app_zero. }
  destruct (count_space_spec _ _ Hn') as (k & -> & Hbk & c & Hc & Hsc).
  assert (Hk : (k <= length (dstr_text b))%nat).
  { pose proof (lookup_lt_Some _ _ _ Hc) as Hk. rewrite length_app in Hk.
    cbn [length] in Hk. lia. }
  destruct (trim_front b k Hinv Hk) as (Hinv1 & Ht1 & _). fold b1 in Hinv1, Ht1.
  destruct (dstr_inv_elems _ Hinv1) as (Hf1 & _ & Hlt1).
  pose proof Hinv1 as (_ & Hge1 & _). pose proof Hf1 as [Hf1a Hf1b].
  assert (E1 : wrap (_length b1 - 1) = _length b1 - 1) by wrap_lia.
  match goal with
  | Hcs : count_space_back _ (_data b1) _ = Some n2 |- _ =>
      unfold count_space_back in Hcs; rewrite E1 in Hcs;
      destruct (Z.leb_spec (-1) (_length b1 - 1 - 1)); [|lia];
      cbn [andb] in Hcs;
      destruct (Z.ltb_spec (_length b1 - 1 - 1) (Z.of_nat (length (_data b1))));
        [|discriminate];
      replace (Z.to_nat (_length b1 - 1 - 1 + 1))
        with (Z.to_nat (_length b1 - 1)) in Hcs by lia;
      fold (dstr_text b1) in Hcs; rewrite Ht1 in Hcs; rename Hcs into Hn2
  end.
  destruct (Nat.eq_dec k (length (dstr_text b))) as [Hall|Hpart].
  - (* the text was whitespace only: it is empty now *)
    subst k. rewrite take_app_length in Hbk.
    assert (Hl1 : _length b1 = 1).
    { rewrite Ht1, length_drop in Hlt1. lia. }
    split.
    2:{ intros Hex. apply Exists_exists in Hex as (x & Hx & Hsx).
        pose proof (proj1 (Forall_forall _ _) Hbk x Hx) as Hsx'. cbn in Hsx'.
        congruence. }
    rewrite drop_all in Hn2. cbn [rev app] in Hn2.
    pose proof (count_space_bound _ _ Hn2) as Hn2b. cbn [length] in Hn2b.
    assert (n2 = 0) by lia. subst n2.
    rewrite E1, Hl1.
    replace (wrap (1 - 1 - 0)) with 0 by wrap_lia.
    rewrite (blk_remove_arr_nothing b1 0 Hf1) by lia. exact Hinv1.
  - (* the scan for trailing whitespace stops in the text *)
    assert (Hkt : (k < length (dstr_text b))%nat) by lia.
    rewrite lookup_app_l in Hc by lia.
    rewrite (drop_S _ _ _ Hc) in Hn2, Ht1.
    destruct (count_space_back_text
                [fn_last_byte (free_f (_mem_funcs b1))]
                c (drop (S k) (dstr_text b)) Hsc) as (k2 & Hk2 & Hk2a & Hk2b).
    assert (n2 = Z.of_nat k2) by congruence. subst n2.
    rewrite <- (drop_S _ _ _ Hc) in Hk2, Hk2a, Ht1.
    rewrite <- Ht1 in Hk2.
    destruct (trim_back b1 k2 Hinv1 ltac:(lia)) as (Hinv2 & Ht2 & _).
    rewrite E1.
    assert (E2 : wrap (_length b1 - 1 - Z.of_nat k2) = _length b1 - 1 - Z.of_nat k2)
      by wrap_lia.
    rewrite E2. split; [exact Hinv2|].
    intros _. exists (Z.of_nat k), (Z.of_nat k2). rewrite !Nat2Z.id.
    split; [exact Hn'|]. split; [exact Hk2a|].
    rewrite Ht2, Ht1, length_drop. f_equal. lia.
Qed.

End Trim.

Section Getdelim.

Lemma dstr_post_trans p (P1 P2 : Prop) (R1 R2 : list Z -> list Z -> Prop)
    w q w1 r w2 :
  dstr_post p P1 R1 w q w1 -> q <> NULL ->
  dstr_post q P2 R2 w1 r w2 ->
  dstr_post p (P1 /\ P2) (fun t t2 => exists t1, R1 t t1 /\ R2 t1 t2) w r w2.
Proof.
  intros (b & q1 & b1 & Hp & Hb & Hrel1 & Hq & Hok1 & H1) Hq0
         (b1' & q2 & b2 & _ & Hb1' & Hrel2 & Hr & Hok2 & H2).
  destruct Hq as [Hq|Hq]; [contradiction|]. subst q1.
  rewrite (relocated_lookup _ _ _ _ _ Hrel1) in Hb1'. injection Hb1' as <-.
  exists b, q2, b2. split; [assumption|]. split; [assumption|].
  split; [eapply relocated_trans; eassumption|]. split; [assumption|].
  split; [auto|]. intros Hr' Hinv [HP1 HP2].
  destruct (H1 Hq0 Hinv HP1) as [Hi1 HR1].
  destruct (H2 Hr' Hi1 HP2) as [Hi2 HR2]. split; [exact Hi2|]. eauto.
Qed.

Lemma dstr_post_refl p (R : list Z -> list Z -> Prop) w b :
  p <> NULL -> heap w !! p = Some b -> (forall t, R t t) ->
  dstr_post p True R w p w.
Proof.
  intros Hp Hb HR. exists b, p, b. split; [assumption|]. split; [assumption|].
  split; [apply relocated_same; assumption|]. split; [auto|]. split; [auto|].
  intros _ Hinv _. auto.
Qed.

Lemma dstr_post_null p (P : Prop) R w r w' :
  dstr_post p P R w r w' -> forall (P' : Prop) R', dstr_post p P' R' w NULL w'.
Proof.
  intros (b & q & b' & Hp & Hb & Hrel & _ & Hok & _) P' R'.
  exists b, q, b'. split; [assumption|]. split; [assumption|].
  split; [assumption|]. split; [auto|]. split; [assumption|].
  intros; contradiction.
Qed.

Lemma dstr_post_mono p (P P' : Prop) (R R' : list Z -> list Z -> Prop) w r w' :
  dstr_post p P R w r w' -> (P' -> P) -> (forall t t', R t t' -> R' t t') ->
  dstr_post p P' R' w r w'.
Proof.
  intros (b & q & b' & Hp & Hb & Hrel & Hr & Hok & H) HP HR.
  exists b, q, b'. repeat (split; [assumption|]).
  intros Hr' Hinv HP'. destruct (H Hr' Hinv (HP HP')). auto.
Qed.

Lemma dstr_getdelim_loop_spec delim stream :
  forall p w b, p <> NULL -> heap w !! p = Some b ->
  wp (dstr_getdelim_loop p delim stream) w (getdelim_post p delim stream w).
Proof.
  induction stream as [|c rest IH]; intros p w b Hp Hb;
    unfold getdelim_post; cbn [dstr_getdelim_loop read_until].
  - destruct (negb (EOF =? delim)); apply wp_ret; cbn [fst snd].
    + split; [|auto]. eapply dstr_post_failed; eauto.
    + split; [|discriminate]. apply (dstr_post_refl _ _ _ b); auto.
      intros t. exists []. split; [reflexivity|]. rewrite app_nil_r. reflexivity.
  - destruct (negb (c =? delim)).
    + destruct (negb (delim =? EOF) && (c =? EOF)).
      * apply wp_ret. cbn [fst snd]. split; [|auto].
        eapply dstr_post_failed; eauto.
      * wp_apply dstr_concat_char_spec. intros q w1 Hpost.
        destruct (Z.eqb_spec q NULL) as [->|Hq].
        -- apply wp_ret. cbn [fst snd]. split; [|auto].
           apply (dstr_post_null _ _ _ _ _ _ Hpost).
        -- pose proof Hpost as (b0 & q' & b1 & _ & _ & Hrel & Hqq & _).
           destruct Hqq as [Hqq|Hqq]; [contradiction|]. subst q'.
           eapply wp_mono;
             [apply (IH q w1 b1 Hq (relocated_lookup _ _ _ _ _ Hrel))|].
           intros [r rest'] w2 [Hpost2 Hnone]. cbn [fst snd] in *. split.
           ++ eapply dstr_post_mono;
                [exact (dstr_post_trans _ _ _ _ _ _ _ _ _ _ Hpost Hq Hpost2)
                |tauto|].
              cbn beta. intros t t' (t1 & -> & s & Hs & ->).
                 exists (to_char c :: s). rewrite Hs. split; [reflexivity|].
                 rewrite <- app_assoc. reflexivity.
           ++ destruct (read_until delim rest) as [[t r']|];
                [discriminate|auto].
    + apply wp_ret. cbn [fst snd]. split; [|discriminate].
      apply (dstr_post_refl _ _ _ b); auto.
      intros t. exists []. split; [reflexivity|]. rewrite app_nil_r. reflexivity.
Qed.

Lemma dstr_getdelim_spec p delim stream w :
  wp (dstr_getdelim p delim stream) w (fun x w' =>
    dstr_post p True
      (fun _ t' => read_until delim stream = Some (t', snd x)) w (fst x) w' /\
    (read_until delim stream = None -> fst x = NULL)).
Proof.
  unfold dstr_getdelim. wp_apply dstr_reassign_empty_spec. intros q w1 Hpost.
  destruct (Z.eqb_spec q NULL) as [->|Hq].
  - apply wp_ret. cbn [fst snd]. split; [|auto].
    apply (dstr_post_null _ _ _ _ _ _ Hpost).
  - pose proof Hpost as (b0 & q' & b1 & _ & _ & Hrel & Hqq & _).
    destruct Hqq as [Hqq|Hqq]; [contradiction|]. subst q'.
    eapply wp_mono;
      [apply (dstr_getdelim_loop_spec delim stream q w1 b1 Hq
                (relocated_lookup _ _ _ _ _ Hrel))|].
    intros [r rest'] w2 [Hpost2 Hnone]. cbn [fst snd] in *. split; [|exact Hnone].
    eapply dstr_post_mono;
      [exact (dstr_post_trans _ _ _ _ _ _ _ _ _ _ Hpost Hq Hpost2)|tauto|].
    cbn beta. intros t t' (t1 & -> & s & Hs & ->). exact Hs.
Qed.

Lemma dstr_getline_spec p stream w :
  wp (dstr_getline p stream) w (fun x w' =>
    dstr_post p True
      (fun _ t' => read_until 10 stream = Some (t', snd x)) w (fst x) w' /\
    (read_until 10 stream = None -> fst x = NULL)).
Proof. apply dstr_getdelim_spec. Qed.

End Getdelim.

(* ===================================================================== *)
(** * Sequences of calls                                                 *)
(* ===================================================================== *)

Section CallPost.
Context {A : Type}.
Implicit Types (w : world A) (p q r : addr) (b : _darray A).

Lemma heap_ok_lookup w p b : heap_ok w -> heap w !! p = Some b -> block_ok b.
Proof. intros Hw Hb. exact (map_Forall_lookup_1 _ _ _ _ Hw Hb). Qed.

Lemma heap_ok_eq w w' : heap w' = heap w -> heap_ok w -> heap_ok w'.
Proof. unfold heap_ok. intros ->. auto. Qed.

Lemma heap_ok_put w p b' : heap_ok w -> block_ok b' -> heap_ok (put w p b').
Proof. intros Hw Hb. apply map_Forall_insert_2; assumption. Qed.

Lemma call_post_failed w w' : heap w' = heap w -> call_post w (Some NULL) w'.
Proof.
  intros Hh. split; [apply heap_ok_eq; assumption|].
  intros h [= <-] Hne. contradiction.
Qed.

Lemma call_post_relocated w p b w' q b' r :
  heap w !! p = Some b -> relocated w p w' q b' -> (block_ok b -> block_ok b') ->
  r = NULL \/ r = q ->
  call_post w (Some r) w'.
Proof.
  intros Hb Hrel Hok Hr. split.
  - intros Hw. apply (relocated_heap_ok w p w' q b' Hw); [|exact Hrel].
    apply Hok. exact (heap_ok_lookup _ _ _ Hw Hb).
  - intros h [= <-] Hne. destruct Hr as [->| ->]; [contradiction|].
    rewrite (relocated_lookup _ _ _ _ _ Hrel). eauto.
Qed.

Lemma call_post_put w p b b' :
  heap w !! p = Some b -> (block_ok b -> block_ok b') ->
  call_post w None (put w p b').
Proof.
  intros Hb Hok. split; [|discriminate].
  intros Hw. apply heap_ok_put; [assumption|].
  apply Hok. exact (heap_ok_lookup _ _ _ Hw Hb).
Qed.

Lemma call_post_alloc_ok w r w' : alloc_ok w r w' -> call_post w (Some r) w'.
Proof.
  intros [[-> Hh]|(Hr & Hfree & b' & Hh & Hok)].
  - apply call_post_failed. assumption.
  - split.
    + intros Hw. unfold heap_ok. rewrite Hh. apply map_Forall_insert_2; auto.
    + intros h [= <-] _. rewrite Hh, lookup_insert_eq. eauto.
Qed.

Lemma alloc_post_ok mf n s c w r w' :
  (heap_ok w -> is_size_t n /\ n <= c < SIZE_MOD) -> is_size_t s ->
  alloc_post mf n s c w r w' -> alloc_ok w r w'.
Proof.
  intros Hn Hs [(-> & Hh & _)|(Hr & Hfree & fill & e & Hsz & _ & _ & Hh)].
  - left. auto.
  - right. split; [assumption|]. split; [assumption|]. eexists.
    split; [exact Hh|]. intros Hw. destruct (Hn Hw).
    apply block_ok_fresh; assumption.
Qed.

Lemma resize_post_ok p n c w r w' :
  0 <= n <= c -> c < SIZE_MOD ->
  resize_post p n c w r w' -> call_post w (Some r) w'.
Proof.
  intros Hn Hc (b & Hp & Hb & [(-> & Hh & _)|(fill & e & Hsz & _ & _ & Hrel)]).
  - apply call_post_failed. assumption.
  - apply (call_post_relocated _ _ _ _ _ _ _ Hb Hrel); [|auto].
    intros Hok. apply block_ok_resized; assumption.
Qed.

Lemma wp_returns_handle (c : M A addr) w :
  wp c w (fun r w' => call_post w (Some r) w') ->
  wp (returns_handle c) w (call_post w).
Proof. intros H. unfold returns_handle. wp_apply H. intros r w' Hr. exact Hr. Qed.

Lemma wp_returns_other {X} (c : M A X) w :
  wp c w (fun _ w' => call_post w None w') ->
  wp (returns_other c) w (call_post w).
Proof. intros H. unfold returns_other. wp_apply H. intros r w' Hr. exact Hr. Qed.

Lemma da_alloc_ok n s w :
  (heap_ok w -> is_size_t n) -> is_size_t s -> wp (da_alloc n s) w (alloc_ok w).
Proof.
  intros Hn Hs. eapply wp_mono; [apply da_alloc_spec|].
  intros r w' (c & Hc & Hpost).
  apply (alloc_post_ok _ _ _ _ _ _ _) with (3 := Hpost); [|exact Hs].
  intros Hw. destruct (Hn Hw) as [Hn0 Hn1].
  destruct (new_capacity_ge _ _ Hn0 Hc) as [Hcn _]. split; [split|]; assumption.
Qed.

Lemma alloc_ok_put w r w1 b1 b2 :
  alloc_ok w r w1 -> r <> NULL -> heap w1 !! r = Some b1 ->
  (block_ok b1 -> block_ok b2) ->
  alloc_ok w r (put w1 r b2).
Proof.
  intros [[-> _]|(_ & Hfree & b' & Hh & Hok)] Hr Hb1 Hok2; [contradiction|].
  rewrite Hh, lookup_insert_eq in Hb1. injection Hb1 as <-.
  right. split; [assumption|]. split; [assumption|]. exists b2. split; [|auto].
  cbn. rewrite Hh. apply insert_insert_eq.
Qed.

End CallPost.

Section DstrAlloc.
Implicit Types (w : world Z) (p q r : addr) (b : _darray Z).

Lemma dstr_alloc_empty_ok w : wp dstr_alloc_empty w (alloc_ok w).
Proof.
  unfold dstr_alloc_empty.
  wp_apply (da_alloc_ok 1 1);
    [intros _; split; unfold SIZE_MOD; lia|split; unfold SIZE_MOD; lia|].
  intros r w1 Hal. destruct (Z.eqb_spec r NULL) as [->|Hr].
  - apply wp_ret. exact Hal.
  - wp_go. apply (alloc_ok_put _ _ _ b); auto.
    intros Hok. apply block_ok_upd_data; [assumption|]. apply length_insert.
Qed.

Lemma alloc_ok_memcpy w r w1 (src : list Z) n :
  alloc_ok w r w1 -> r <> NULL ->
  wp (memcpy r 0 src n ;; ret r) w1 (alloc_ok w).
Proof.
  intros Hal Hr. wp_go. apply (alloc_ok_put _ _ _ b); auto.
  intros Hok. apply block_ok_upd_data; [assumption|].
  apply length_blit; rewrite ?length_take; lia.
Qed.

Lemma dstr_alloc_cstr_ok src w : wp (dstr_alloc_cstr src) w (alloc_ok w).
Proof.
  unfold dstr_alloc_cstr. wp_go.
  wp_apply (da_alloc_ok (wrap (x + 1)) 1);
    [intros _; unfold is_size_t; wrap_lia|split; unfold SIZE_MOD; lia|].
  intros r w1 Hal. destruct (Z.eqb_spec r NULL) as [->|Hr].
  - apply wp_ret. exact Hal.
  - apply alloc_ok_memcpy; assumption.
Qed.

Lemma dstr_alloc_dstr_ok src w : wp (dstr_alloc_dstr src) w (alloc_ok w).
Proof.
  unfold dstr_alloc_dstr. wp_go.
  wp_apply (da_alloc_ok (_length b) 1);
    [intros Hw; destruct (heap_ok_lookup _ _ _ Hw H0) as (? & ? & ? & ?);
     split; lia
    |split; unfold SIZE_MOD; lia|].
  intros r w1 Hal. destruct (Z.eqb_spec r NULL) as [->|Hr].
  - apply wp_ret. exact Hal.
  - wp_prim. wp_prim. apply alloc_ok_memcpy; assumption.
Qed.

Lemma dstr_alloc_format_ok rendered w :
  wp (dstr_alloc_format rendered) w (alloc_ok w).
Proof.
  unfold dstr_alloc_format. wp_go.
  destruct (vsnprintf_Some _ _ H) as (Hn & Hmax & _).
  wp_apply (da_alloc_ok (x + 1) 1);
    [intros _; split; lia|split; unfold SIZE_MOD; lia|].
  intros r w1 Hal. destruct (Z.eqb_spec r NULL) as [->|Hr].
  - apply wp_ret. exact Hal.
  - apply alloc_ok_memcpy; assumption.
Qed.

End DstrAlloc.

Section ExecSpec.
Variable fn_last_byte : mem_fn -> Z.

Lemma call_post_dstr p (P : Prop) R (w : world Z) r w' :
  dstr_post p P R w r w' -> call_post w (Some r) w'.
Proof.
  intros (b & q & b' & Hp & Hb & Hrel & Hr & Hok & _).
  exact (call_post_relocated _ _ _ _ _ _ _ Hb Hrel Hok Hr).
Qed.

Lemma replace_loop_block find F substr new_str sl nl fuel p (w : world Z) h w' :
  (forall p w, wp (find p substr) w (find_post F p substr w)) ->
  replace_loop find fuel p substr new_str sl nl w = Some (Returned h, w') ->
  p <> NULL /\ exists b, heap w !! p = Some b.
Proof.
  intros Hfind. destruct fuel as [|fuel]; cbn [replace_loop]; [discriminate|].
  unfold bind at 1. pose proof (Hfind p w) as Hf. unfold wp in Hf.
  destruct (find p substr w) as [[loc w1]|]; [|discriminate].
  destruct Hf as (_ & b & _ & _ & Hp & Hb & _). eauto.
Qed.

Lemma wp_loop_end (c : M Z loop_end) (w : world Z) :
  (forall h w', c w = Some (Returned h, w') -> call_post w (Some h) w') ->
  wp (returns_loop_end c) w (call_post w).
Proof.
  intros H. unfold returns_loop_end. apply wp_bind, wp_intro.
  intros [h|h] w' Hrun; [apply wp_ret; auto|exact I].
Qed.

Lemma call_post_loop F sub new p fuel (w : world Z) h w' :
  loop_post F sub new p fuel w (Returned h) w' -> call_post w (Some h) w'.
Proof.
  intros (b & q & b' & Hp & Hb & Hrel & Hok & Hr & _).
  exact (call_post_relocated _ _ _ _ _ _ _ Hb Hrel Hok Hr).
Qed.

Lemma dstr_replace_all_block fuel d sub new (w : world Z) h w' :
  dstr_replace_all fuel d sub new w = Some (Returned h, w') ->
  d <> NULL /\ exists b, heap w !! d = Some b.
Proof.
  unfold dstr_replace_all, bind, lift.
  destruct (strlen sub); [|discriminate]. destruct (strlen new); [|discriminate].
  rewrite dstr_replace_all_loop_eq.
  apply replace_loop_block with (F := strstr). intros p0 w0.
  apply dstr_find_spec.
Qed.

Lemma dstr_replace_all_case_block fuel d sub new (w : world Z) h w' :
  dstr_replace_all_case fuel d sub new w = Some (Returned h, w') ->
  d <> NULL /\ exists b, heap w !! d = Some b.
Proof.
  unfold dstr_replace_all_case, bind, lift.
  destruct (strlen sub); [|discriminate]. destruct (strlen new); [|discriminate].
  rewrite dstr_replace_all_case_loop_eq.
  apply replace_loop_block with (F := _da_strcasestr). intros p0 w0.
  apply dstr_find_case_spec.
Qed.

Lemma dstr_replace_all_ok fuel d sub new (w : world Z) :
  wp (returns_loop_end (dstr_replace_all fuel d sub new)) w (call_post w).
Proof.
  apply wp_loop_end. intros h w' Hrun.
  destruct (dstr_replace_all_block _ _ _ _ _ _ _ Hrun) as [Hd [b Hb]].
  pose proof (wp_elim _ _ _ _ _ (dstr_replace_all_spec fuel d sub new w b Hd Hb) Hrun)
    as (s1 & s2 & _ & _ & Hpost).
  exact (call_post_loop _ _ _ _ _ _ _ _ Hpost).
Qed.

Lemma dstr_replace_all_case_ok fuel d sub new (w : world Z) :
  wp (returns_loop_end (dstr_replace_all_case fuel d sub new)) w (call_post w).
Proof.
  apply wp_loop_end. intros h w' Hrun.
  destruct (dstr_replace_all_case_block _ _ _ _ _ _ _ Hrun) as [Hd [b Hb]].
  pose proof (wp_elim _ _ _ _ _
                (dstr_replace_all_case_spec fuel d sub new w b Hd Hb) Hrun)
    as (s1 & s2 & _ & _ & Hpost).
  exact (call_post_loop _ _ _ _ _ _ _ _ Hpost).
Qed.

Tactic Notation "handle_with" open_constr(lem) :=
  apply wp_returns_handle; eapply wp_mono; [apply lem|]; cbv beta.
Tactic Notation "other_with" open_constr(lem) :=
  apply wp_returns_other; eapply wp_mono; [apply lem|]; cbv beta.

Lemma exec_spec {A} (c : call A) (w : world A) :
  well_typed c -> wp (exec fn_last_byte c) w (call_post w).
Proof.
  destruct c as [A c|c]; destruct c;
    cbn [exec exec_da exec_dstr well_typed well_typed_da]; intros Hwt.
  - destruct Hwt. handle_with da_alloc_ok; auto using call_post_alloc_ok.
  - destruct Hwt as [Hn Hs]. handle_with da_alloc_exact_spec.
    intros r w' Hpost. apply call_post_alloc_ok.
    apply (alloc_post_ok _ _ _ _ _ _ _) with (3 := Hpost); [|exact Hs].
    intros _. destruct Hn. split; [split|]; lia.
  - destruct Hwt as [Hn Hs]. handle_with da_alloc_custom_spec.
    intros r w' (c & Hc & Hpost). apply call_post_alloc_ok.
    apply (alloc_post_ok _ _ _ _ _ _ _) with (3 := Hpost); [|exact Hs].
    intros _. destruct Hn as [Hn0 Hn1].
    destruct (new_capacity_ge _ _ Hn0 Hc) as [Hcn _]. split; [split|]; assumption.
  - destruct Hwt as [Hn Hs]. handle_with da_alloc_exact_custom_spec.
    intros r w' Hpost. apply call_post_alloc_ok.
    apply (alloc_post_ok _ _ _ _ _ _ _) with (3 := Hpost); [|exact Hs].
    intros _. destruct Hn. split; [split|]; lia.
  - other_with da_free_spec. intros _ w' (b & Hp & Hb & Hh & _).
    split; [|discriminate]. unfold heap_ok. rewrite Hh. apply map_Forall_delete.
  - handle_with da_resize_spec. intros r w' (c & Hc & Hpost).
    destruct Hwt as [Hn0 Hn1]. destruct (new_capacity_ge _ _ Hn0 Hc) as [Hcn _].
    apply (resize_post_ok _ _ _ _ _ _) with (3 := Hpost); lia.
  - handle_with da_resize_exact_spec. intros r w' Hpost. destruct Hwt.
    apply (resize_post_ok _ _ _ _ _ _) with (3 := Hpost); lia.
  - handle_with da_reserve_spec'.
    intros r w' (b & Hp & Hb & [[-> Hh]|(b1 & Hrel & Hres)]).
    + apply call_post_failed. assumption.
    + apply (call_post_relocated _ _ _ _ _ _ _ Hb Hrel); [|auto].
      apply (block_ok_reserved _ _ _ Hres).
  - handle_with _da_push_spec.
    intros r w' (b & Hp & Hb & [(-> & Hh & _)|(b1 & Hb1 & Hfit & Hrel)]).
    + apply call_post_failed. assumption.
    + apply (call_post_relocated _ _ _ _ _ _ _ Hb Hrel); [|auto].
      intros Hok. apply block_ok_push; [|assumption].
      destruct Hb1 as [[_ Hres]|[_ ->]]; [|assumption].
      apply (block_ok_reserved _ _ _ Hres Hok).
  - other_with _da_pop_spec. intros v w' (b & Hp & Hb & Hv & ->).
    apply (call_post_put _ _ _ _ Hb). intros Hok. apply (block_ok_pop _ v); assumption.
  - handle_with _da_insert_spec.
    intros r w' (b & Hp & Hb & b1 & Hb1 & Hmv & Hrel).
    apply (call_post_relocated _ _ _ _ _ _ _ Hb Hrel); [|auto].
    intros Hok. apply block_ok_insert; [|assumption].
    destruct Hb1 as [[_ Hres]|[_ ->]]; [|assumption].
    apply (block_ok_reserved _ _ _ Hres Hok).
  - handle_with da_insert_arr_spec.
    intros r w' (b & Hp & Hb & [[-> Hh]|(b1 & Hres & Hmv & Hn & Hin & Hrel)]).
    + apply call_post_failed. assumption.
    + apply (call_post_relocated _ _ _ _ _ _ _ Hb Hrel); [|auto].
      intros Hok. apply block_ok_insert_arr; auto.
      apply (block_ok_reserved _ _ _ Hres Hok).
  - other_with _da_remove_spec. intros v w' (b & Hp & Hb & _ & _ & Hmv & ->).
    apply (call_post_put _ _ _ _ Hb). intros Hok. apply block_ok_remove; assumption.
  - other_with da_remove_arr_spec. intros v w' (b & Hp & Hb & Hmv & ->).
    apply (call_post_put _ _ _ _ Hb). intros Hok.
    apply block_ok_remove_arr; assumption.
  - handle_with da_concat_spec.
    intros r w' (b & Hp & Hb & [[-> Hh]|(b1 & Hres & Hn & Hl & Hfit & Hrel)]).
    + apply call_post_failed. assumption.
    + apply (call_post_relocated _ _ _ _ _ _ _ Hb Hrel); [|auto].
      intros Hok. destruct (reserved_props _ _ _ Hres) as (Hl1 & _).
      apply block_ok_concat; [|assumption|rewrite Hl1; assumption].
      apply (block_ok_reserved _ _ _ Hres Hok).
  - handle_with dstr_alloc_empty_ok. auto using call_post_alloc_ok.
  - handle_with dstr_alloc_cstr_ok. auto using call_post_alloc_ok.
  - handle_with dstr_alloc_dstr_ok. auto using call_post_alloc_ok.
  - handle_with dstr_alloc_format_ok. auto using call_post_alloc_ok.
  - handle_with dstr_reassign_empty_spec. eauto using call_post_dstr.
  - handle_with dstr_reassign_cstr_spec. eauto using call_post_dstr.
  - handle_with dstr_reassign_dstr_spec. eauto using call_post_dstr.
  - handle_with dstr_reassign_format_spec. eauto using call_post_dstr.
  - handle_with dstr_concat_char_spec. eauto using call_post_dstr.
  - handle_with dstr_concat_cstr_spec. eauto using call_post_dstr.
  - handle_with dstr_concat_dstr_spec. eauto using call_post_dstr.
  - handle_with dstr_concat_format_spec. eauto using call_post_dstr.
  - apply dstr_replace_all_ok.
  - apply dstr_replace_all_case_ok.
  - wp_apply dstr_getdelim_spec. intros x w' [Hpost _]. apply wp_ret.
    exact (call_post_dstr _ _ _ _ _ _ Hpost).
  - unfold dstr_getline. wp_apply dstr_getdelim_spec. intros x w' [Hpost _].
    apply wp_ret. exact (call_post_dstr _ _ _ _ _ _ Hpost).
  - handle_with (dstr_trim_spec fn_last_byte). intros r w' [_ Hpost].
    exact (call_post_dstr _ _ _ _ _ _ Hpost).
Qed.

Lemma run_spec {A} (cs : list (call A)) :
  Forall well_typed cs ->
  forall w, wp (run fn_last_byte cs) w (fun _ w' => heap_ok w -> heap_ok w').
Proof.
  induction 1 as [|c cs Hc Hcs IH]; intros w; cbn [run].
  - apply wp_ret. auto.
  - wp_apply (exec_spec c w Hc). intros r w1 [Hok _].
    eapply wp_mono; [apply IH|]. cbv beta. auto.
Qed.

End ExecSpec.

(* ---------------- C8 ---------------- *)

Section Elim.

Lemma returns_handle_inv {A} (c : M A addr) w r w' :
  returns_handle c w = Some (Some r, w') -> c w = Some (r, w').
Proof.
  unfold returns_handle, bind, ret. destruct (c w) as [[h w1]|]; [|discriminate].
  intros [= <- <-]. reflexivity.
Qed.

Lemma returns_loop_end_inv (c : M Z loop_end) w r w' :
  returns_loop_end c w = Some (Some r, w') -> c w = Some (Returned r, w').
Proof.
  unfold returns_loop_end, bind, ret, undefined.
  destruct (c w) as [[[h|h] w1]|]; try discriminate.
  intros [= <- <-]. reflexivity.
Qed.

Lemma dstr_post_elim p (P : Prop) R (w : world Z) r w' b :
  dstr_post p P R w r w' -> heap w !! p = Some b -> dstr_inv b -> P -> r <> NULL ->
  exists b', heap w' !! r = Some b' /\ dstr_inv b' /\
             R (dstr_text b) (dstr_text b').
Proof.
  intros (b0 & q & b' & Hp & Hb0 & Hrel & Hr & _ & H) Hb Hinv HP Hne.
  rewrite Hb in Hb0. injection Hb0 as <-.
  destruct Hr as [Hr|Hr]; [contradiction|]. subst q.
  exists b'. split; [exact (relocated_lookup _ _ _ _ _ Hrel)|]. auto.
Qed.

Lemma dstr_length_eq (w : world Z) p b :
  p <> NULL -> heap w !! p = Some b -> dstr_inv b ->
  dstr_length p w = Some (Z.of_nat (length (dstr_text b)), w) /\
  Z.of_nat (length (dstr_text b)) = _length b - 1.
Proof.
  intros Hp Hb Hinv. destruct (dstr_inv_elems _ Hinv) as ([Hf Hmax] & _ & Hl).
  destruct Hinv as (_ & Hge1 & _).
  split; [|exact Hl]. unfold dstr_length, da_length.
  rewrite (bind_eq _ _ w (_length b) w) by (exact (get_eq _length w p b Hp Hb)).
  unfold ret. rewrite Hl. do 2 f_equal. wrap_lia.
Qed.

End Elim.

(** C8 (as the code has it): a text operation (append, replace, reassign,
    trim) that is applied to a dstring and returns a handle returns the
    handle of a dstring: its length is at least 1, the byte at index
    [length - 1] is zero, and [dstr_length] is [length - 1], the number of
    bytes in front of that terminator.  A source dstring is a dstring, and
    for [dstr_reassign_dstr] it is another one than the target. *)
Theorem dstr_terminator_invariant (fn_last_byte : mem_fn -> Z)
    (c : dstr_call) (d : addr) (w w' : world Z) (b : _darray Z) (r : addr) :
  text_op c = Some d -> text_op_pre w c ->
  heap w !! d = Some b -> dstr_inv b ->
  exec_dstr fn_last_byte c w = Some (Some r, w') -> r <> NULL ->
  exists b', heap w' !! r = Some b' /\
    1 <= _length b' <= _capacity b' /\
    _data b' !! Z.to_nat (_length b' - 1) = Some 0 /\
    dstr_length r w' = Some (_length b' - 1, w') /\
    Z.of_nat (length (dstr_text b')) = _length b' - 1.
Proof.
  intros Hop Hpre Hb Hinv Hrun Hr.
  assert (Hpost : exists b', heap w' !! r = Some b' /\ dstr_inv b').
  { destruct c; cbn [text_op] in Hop; try discriminate; injection Hop as ->;
      cbn [exec_dstr text_op_pre] in Hrun, Hpre;
      try (apply returns_handle_inv in Hrun).
    - destruct (dstr_post_elim _ _ _ _ _ _ _
                  (wp_elim _ _ _ _ _ (dstr_reassign_empty_spec d w) Hrun)
                  Hb Hinv I Hr) as (b' & ? & ? & _); eauto.
    - destruct (dstr_post_elim _ _ _ _ _ _ _
                  (wp_elim _ _ _ _ _ (dstr_reassign_cstr_spec d src w) Hrun)
                  Hb Hinv I Hr) as (b' & ? & ? & _); eauto.
    - destruct (dstr_post_elim _ _ _ _ _ _ _
                  (wp_elim _ _ _ _ _ (dstr_reassign_dstr_spec d src w) Hrun)
                  Hb Hinv Hpre Hr) as (b' & ? & ? & _); eauto.
    - destruct (dstr_post_elim _ _ _ _ _ _ _
                  (wp_elim _ _ _ _ _ (dstr_reassign_format_spec d rendered w) Hrun)
                  Hb Hinv I Hr) as (b' & ? & ? & _); eauto.
    - destruct (dstr_post_elim _ _ _ _ _ _ _
                  (wp_elim _ _ _ _ _ (dstr_concat_char_spec d c w) Hrun)
                  Hb Hinv I Hr) as (b' & ? & ? & _); eauto.
    - destruct (dstr_post_elim _ _ _ _ _ _ _
                  (wp_elim _ _ _ _ _ (dstr_concat_cstr_spec d src w) Hrun)
                  Hb Hinv I Hr) as (b' & ? & ? & _); eauto.
    - destruct (dstr_post_elim _ _ _ _ _ _ _
                  (wp_elim _ _ _ _ _ (dstr_concat_dstr_spec d src w) Hrun)
                  Hb Hinv Hpre Hr) as (b' & ? & ? & _); eauto.
    - destruct (dstr_post_elim _ _ _ _ _ _ _
                  (wp_elim _ _ _ _ _ (dstr_concat_format_spec d rendered w) Hrun)
                  Hb Hinv I Hr) as (b' & ? & ? & _); eauto.
    - apply returns_loop_end_inv in Hrun.
      destruct (dstr_replace_all_block _ _ _ _ _ _ _ Hrun) as [Hd _].
      destruct (wp_elim _ _ _ _ _
                  (dstr_replace_all_spec fuel d substr new_str w b Hd Hb) Hrun)
        as (s1 & s2 & _ & _ & b0 & q & b' & _ & Hb0 & Hrel & _ & Hq & H).
      rewrite Hb in Hb0. injection Hb0 as <-.
      destruct Hq as [Hq|Hq]; [contradiction|]. subst q.
      exists b'. split; [exact (relocated_lookup _ _ _ _ _ Hrel)|].
      apply (H Hr Hinv).
    - apply returns_loop_end_inv in Hrun.
      destruct (dstr_replace_all_case_block _ _ _ _ _ _ _ Hrun) as [Hd _].
      destruct (wp_elim _ _ _ _ _
                  (dstr_replace_all_case_spec fuel d substr new_str w b Hd Hb) Hrun)
        as (s1 & s2 & _ & _ & b0 & q & b' & _ & Hb0 & Hrel & _ & Hq & H).
      rewrite Hb in Hb0. injection Hb0 as <-.
      destruct Hq as [Hq|Hq]; [contradiction|]. subst q.
      exists b'. split; [exact (relocated_lookup _ _ _ _ _ Hrel)|].
      apply (H Hr Hinv).
    - destruct (wp_elim _ _ _ _ _ (dstr_trim_spec fn_last_byte d w) Hrun)
        as [_ Hpost].
      destruct (dstr_post_elim _ _ _ _ _ _ _ Hpost Hb Hinv I Hr)
        as (b' & ? & ? & _); eauto. }
  destruct Hpost as (b' & Hb' & Hinv').
  destruct (dstr_length_eq w' r b' Hr Hb' Hinv') as [Hlen Hl].
  pose proof Hinv' as ((_ & Hcap & _) & Hge1 & Hterm).
  exists b'. split; [assumption|]. split; [lia|]. split; [assumption|].
  split; [rewrite <- Hl; exact Hlen|exact Hl].
Qed.

Lemma dstr_terminator_invariant_witness :
  exists b', heap (demo_dstr_world "hello"%string) !! 8 = Some b' /\
    1 <= _length b' <= _capacity b' /\
    _data b' !! Z.to_nat (_length b' - 1) = Some 0 /\
    dstr_length 8 (demo_dstr_world "hello"%string) = Some (_length b' - 1, demo_dstr_world "hello") /\
    Z.of_nat (length (dstr_text b')) = _length b' - 1.
Proof.
  apply (dstr_terminator_invariant demo_fn_last_byte
           (Call_dstr_concat_cstr 8 (literal (bytes "lo"%string))) 8
           (demo_dstr_world "hel"%string) (demo_dstr_world "hello"%string)
           (demo_dstr (bytes "hel"%string) 10) 8).
  - reflexivity.
  - exact I.
  - vm_compute. reflexivity.
  - unfold dstr_inv, block_ok. repeat split; vm_compute; congruence.
  - vm_compute. reflexivity.
  - discriminate.
Defined.

(** C8, counterexample: [dstr_reassign_dstr(d, d)].  The length of the
    target is set to 0 before the length of the source is read, so nothing
    is appended: the call returns its handle, and the dstring is left with
    length 0, without the terminator the length is to count. *)
Lemma dstr_reassign_dstr_self_drops_terminator :
  exists w' b',
    heap (demo_dstr_world "ab") !! 8 = Some (demo_dstr (bytes "ab") 10) /\
    dstr_inv (demo_dstr (bytes "ab") 10) /\
    text_op (Call_dstr_reassign_dstr 8 8) = Some 8 /\
    exec_dstr demo_fn_last_byte (Call_dstr_reassign_dstr 8 8) (demo_dstr_world "ab")
      = Some (Some 8, w') /\
    8 <> NULL /\
    heap w' !! 8 = Some b' /\ _length b' = 0 /\
    ~ (1 <= _length b') /\
    dstr_length 8 w' = Some (SIZE_MAX, w').
Proof.
  eexists _, _. split; [vm_compute; reflexivity|].
  split; [unfold dstr_inv, block_ok; repeat split; vm_compute; congruence|].
  split; [reflexivity|]. split; [vm_compute; reflexivity|].
  split; [discriminate|]. split; [vm_compute; reflexivity|].
  split; [reflexivity|]. split; [cbn; lia|]. vm_compute. reflexivity.
Qed.

(* ===================================================================== *)
(** * Replacing, reading, and sequences of calls                         *)
(* ===================================================================== *)

(* ---------------- C1 ---------------- *)

Lemma restart_replace_all_done find fuel text sub new text' :
  restart_replace_all find fuel text sub new = Some text' ->
  find text' sub = None.
Proof.
  revert text. induction fuel as [|fuel IH]; intros text; cbn; [discriminate|].
  destruct (find text sub) as [loc|] eqn:E; [apply IH|].
  intros [= <-]. exact E.
Qed.

(** A replacement that contains the target is found again: the loop does not
    end, whatever the number of iterations. *)
Lemma restart_replace_all_diverges fuel n :
  restart_replace_all (text_find strstr) fuel (replicate (S n) 97) [97] [97; 97]
  = None.
Proof.
  revert n. induction fuel as [|fuel IH]; intros n; [reflexivity|].
  cbn [restart_replace_all]. unfold text_find.
  replace (strstr (c_prefix (replicate (S n) 97)) [97]) with (Some 0)
    by reflexivity.
  exact (IH (S n)).
Qed.

Lemma loop_post_replaced F substr new_str sub new d fuel w b r w' :
  c_str substr = Some sub -> c_str new_str = Some new ->
  heap w !! d = Some b -> dstr_inv b ->
  loop_post F sub new d fuel w r w' -> replaced F substr new_str fuel b r w'.
Proof.
  intros Hsub Hnew Hb Hinv (b0 & q & b' & _ & Hb0 & Hrel & _ & Hend).
  rewrite Hb in Hb0. injection Hb0 as <-.
  pose proof (relocated_lookup _ _ _ _ _ Hrel) as Hq.
  exists sub, new. split; [assumption|]. split; [assumption|].
  destruct r as [h|h].
  - destruct Hend as [Hh Hend]. intros Hne.
    destruct Hh as [Hh|Hh]; [contradiction|]. subst q.
    destruct (Hend Hne Hinv) as [Hinv' Hres].
    exists b'. split; [assumption|]. split; [assumption|]. split; [assumption|].
    exact (restart_replace_all_done _ _ _ _ _ _ Hres).
  - destruct Hend as [Hh Hend]. subst q. destruct (Hend Hinv) as [Hinv' Hres].
    exists b'. auto.
Qed.

(** With "a" replaced by "aa", [dstr_replace_all] returns no handle, however
    many iterations it is given. *)
Lemma dstr_replace_all_never_returns fuel h w' :
  dstr_replace_all fuel 8 (literal (bytes "a")) (literal (bytes "aa"))
    (demo_dstr_world "a") = Some (Returned h, w') ->
  h = NULL.
Proof.
  intros Hrun. destruct (Z.eq_dec h NULL) as [|Hne]; [assumption|exfalso].
  assert (Hb : heap (demo_dstr_world "a") !! 8 = Some (demo_dstr (bytes "a") 10))
    by (vm_compute; reflexivity).
  assert (Hinv : dstr_inv (demo_dstr (bytes "a") 10))
    by (unfold dstr_inv, block_ok; repeat split; vm_compute; congruence).
  destruct (wp_elim _ _ _ _ _
              (dstr_replace_all_spec fuel 8 _ _ _ _ ltac:(discriminate) Hb) Hrun)
    as (sub & new & Hsub & Hnew & b0 & q & b' & _ & Hb0 & _ & _ & _ & Hend).
  pose proof (eq_trans (eq_sym Hb0) Hb) as E. injection E as ->.
  injection Hsub as <-. injection Hnew as <-.
  destruct (Hend Hne Hinv) as [_ Hres].
  change (dstr_text (demo_dstr (bytes "a") 10)) with (replicate 1 97) in Hres.
  change (bytes "a") with [97] in Hres. change (bytes "aa") with [97; 97] in Hres.
  rewrite restart_replace_all_diverges in Hres. discriminate.
Qed.

(** C1, the code at two inputs.  The documentation of [dstr_replace_all]
    says it replaces all occurrences of [substr] in [dstr] with [new_str];
    one pass from left to right that resumes behind the inserted text
    ([spec_replace_all]) turns "aab", with "ab" replaced by "b", into "ab",
    and "a", with "a" replaced by "aa", into "aa".  The code searches from
    the start of the text again after every replacement: in "aab" the text
    inserted at offset 1 is matched again together with the byte in front of
    it and the result is "b", and with "a" replaced by "aa" the loop is
    still running after any number of iterations (three here, with the text
    "aaaa"). *)
Lemma dstr_replace_all_rescans_inserted_text :
  (exists w' b',
     dstr_replace_all 3 8 (literal (bytes "ab")) (literal (bytes "b"))
       (demo_dstr_world "aab") = Some (Returned 8, w') /\
     heap w' !! 8 = Some b' /\ dstr_text b' = bytes "b" /\
     spec_replace_all 3 (bytes "aab") (bytes "ab") (bytes "b") = bytes "ab") /\
  (exists w' b',
     dstr_replace_all 3 8 (literal (bytes "a")) (literal (bytes "aa"))
       (demo_dstr_world "a") = Some (Running 8, w') /\
     heap w' !! 8 = Some b' /\ dstr_text b' = bytes "aaaa" /\
     spec_replace_all 3 (bytes "a") (bytes "a") (bytes "aa") = bytes "aa").
Proof.
  split; eexists _, _.
  - split; [vm_compute; reflexivity|]. split; [vm_compute; reflexivity|].
    split; vm_compute; reflexivity.
  - split; [vm_compute; reflexivity|]. split; [vm_compute; reflexivity|].
    split; vm_compute; reflexivity.
Qed.

(** The replace loop as the code has it: [dstr_replace_all] and
    [dstr_replace_all_case] replace the first occurrence found by a search
    from the start of the text, and search again from the start of the text
    after every replacement; when they return a handle no occurrence is left in the
    text, and they are still running after [fuel] iterations exactly when
    that many restarts do not exhaust the occurrences. *)
Theorem dstr_replace_all_restarts_search (F : list Z -> list Z -> option Z)
    (fuel : nat) (d : addr) (substr new_str : list Z) (w w' : world Z)
    (b : _darray Z) (r : loop_end) :
  d <> NULL -> heap w !! d = Some b -> dstr_inv b ->
  (F = strstr /\ dstr_replace_all fuel d substr new_str w = Some (r, w')) \/
  (F = _da_strcasestr /\
   dstr_replace_all_case fuel d substr new_str w = Some (r, w')) ->
  replaced F substr new_str fuel b r w'.
Proof.
  intros Hd Hb Hinv [[-> Hrun]|[-> Hrun]].
  - destruct (wp_elim _ _ _ _ _
                (dstr_replace_all_spec fuel d substr new_str w b Hd Hb) Hrun)
      as (sub & new & Hsub & Hnew & Hpost).
    exact (loop_post_replaced _ _ _ _ _ _ _ _ _ _ _ Hsub Hnew Hb Hinv Hpost).
  - destruct (wp_elim _ _ _ _ _
                (dstr_replace_all_case_spec fuel d substr new_str w b Hd Hb) Hrun)
      as (sub & new & Hsub & Hnew & Hpost).
    exact (loop_post_replaced _ _ _ _ _ _ _ _ _ _ _ Hsub Hnew Hb Hinv Hpost).
Qed.

Lemma dstr_replace_all_restarts_search_witness :
  replaced strstr (literal (bytes "ab")) (literal (bytes "b")) 3
    (demo_dstr (bytes "aab") 10) (Returned 8)
    (world_after (dstr_replace_all 3 8 (literal (bytes "ab")) (literal (bytes "b")))
       (demo_dstr_world "aab")).
Proof.
  apply (dstr_replace_all_restarts_search strstr 3 8 (literal (bytes "ab"))
           (literal (bytes "b")) (demo_dstr_world "aab")).
  - discriminate.
  - vm_compute. reflexivity.
  - unfold dstr_inv, block_ok. repeat split; vm_compute; congruence.
  - left. split; [reflexivity|]. vm_compute. reflexivity.
Defined.

(* ---------------- C9 ---------------- *)

Section ReadUntil.

Lemma to_char_byte c : is_byte c -> to_char c = c.
Proof. intros H. unfold to_char. apply Z.mod_small. exact H. Qed.

Lemma read_until_found delim pre post :
  Forall is_byte pre -> delim ∉ pre ->
  read_until delim (pre ++ delim :: post) = Some (pre, post).
Proof.
  induction 1 as [|c pre Hc Hpre IH]; intros Hnot; cbn [app read_until].
  - rewrite Z.eqb_refl. reflexivity.
  - apply not_elem_of_cons in Hnot as [Hne Hnot].
    destruct (Z.eqb_spec c delim) as [E|_]; [congruence|]. cbn [negb].
    unfold EOF. destruct (Z.eqb_spec c (-1)) as [E|_]; [unfold is_byte in Hc; lia|].
    rewrite andb_false_r, (IH Hnot), (to_char_byte _ Hc). reflexivity.
Qed.

Lemma read_until_eof stream :
  Forall is_byte stream -> read_until EOF stream = Some (stream, []).
Proof.
  induction 1 as [|c s Hc Hs IH]; cbn [read_until]; [reflexivity|].
  unfold EOF in *. destruct (Z.eqb_spec c (-1)) as [E|_]; [unfold is_byte in Hc; lia|].
  cbn. rewrite IH, (to_char_byte _ Hc). reflexivity.
Qed.

Lemma read_until_missing delim stream :
  delim <> EOF -> delim ∉ stream -> read_until delim stream = None.
Proof.
  intros Hd. induction stream as [|c s IH]; intros Hnot; cbn [read_until].
  - destruct (Z.eqb_spec EOF delim); [congruence|reflexivity].
  - apply not_elem_of_cons in Hnot as [Hne Hnot].
    destruct (Z.eqb_spec c delim) as [E|_]; [congruence|]. cbn [negb].
    destruct (negb (delim =? EOF) && (c =? EOF)); [reflexivity|].
    rewrite (IH Hnot). reflexivity.
Qed.

End ReadUntil.

(** Runs that do not need the allocator. *)

Section Room.
Context {A : Type}.
Implicit Types (w : world A) (p q : addr) (b : _darray A).

Lemma set_data_eq w p b d :
  p <> NULL -> heap w !! p = Some b ->
  set_data p d w = Some (tt, put w p (upd_data d b)).
Proof.
  intros Hp Hb. unfold set_data.
  rewrite (bind_eq _ _ w _ w) by (exact (deref_eq w p b Hp Hb)). reflexivity.
Qed.

Lemma memmove_eq w p b dst src n :
  p <> NULL -> heap w !! p = Some b -> can_move b dst src n ->
  memmove p dst src n w
  = Some (tt, put w p (upd_data (blit (_data b) dst
                          (take (Z.to_nat n) (drop (Z.to_nat src) (_data b)))) b)).
Proof.
  intros Hp Hb (H1 & H2 & H3 & H4 & H5). unfold memmove.
  rewrite (bind_eq _ _ w _ w) by (exact (deref_eq w p b Hp Hb)).
  destruct (Z.leb_spec 0 dst); [|lia]. destruct (Z.leb_spec 0 src); [|lia].
  destruct (Z.leb_spec 0 n); [|lia].
  destruct (Z.leb_spec (dst + n) (Z.of_nat (length (_data b)))); [|lia].
  destruct (Z.leb_spec (src + n) (Z.of_nat (length (_data b)))); [|lia].
  cbn [andb]. apply set_data_eq; assumption.
Qed.

Lemma memcpy_eq w p b dst (src : list A) n :
  p <> NULL -> heap w !! p = Some b ->
  0 <= dst -> 0 <= n <= Z.of_nat (length src) ->
  dst + n <= Z.of_nat (length (_data b)) ->
  memcpy p dst src n w
  = Some (tt, put w p (upd_data (blit (_data b) dst (take (Z.to_nat n) src)) b)).
Proof.
  intros Hp Hb H1 H2 H3. unfold memcpy.
  rewrite (bind_eq _ _ w _ w) by (exact (deref_eq w p b Hp Hb)).
  destruct (Z.leb_spec 0 dst); [|lia]. destruct (Z.leb_spec 0 n); [|lia].
  destruct (Z.leb_spec n (Z.of_nat (length src))); [|lia].
  destruct (Z.leb_spec (dst + n) (Z.of_nat (length (_data b)))); [|lia].
  cbn [andb]. apply set_data_eq; assumption.
Qed.

Lemma poke_eq w p b i v :
  p <> NULL -> heap w !! p = Some b ->
  0 <= i < Z.of_nat (length (_data b)) ->
  poke p i v w = Some (tt, put w p (upd_data (<[Z.to_nat i := v]> (_data b)) b)).
Proof.
  intros Hp Hb Hi. unfold poke.
  rewrite (bind_eq _ _ w _ w) by (exact (deref_eq w p b Hp Hb)).
  destruct (Z.leb_spec 0 i); [|lia].
  destruct (Z.ltb_spec i (Z.of_nat (length (_data b)))); [|lia].
  cbn [andb]. apply set_data_eq; assumption.
Qed.

Lemma _da_move_and_insert_eq w p b i v :
  p <> NULL -> heap w !! p = Some b ->
  can_move b (i + 1) i (wrap (_length b - i)) ->
  _da_move_and_insert p i v w = Some (tt, put w p (blk_insert i v b)).
Proof.
  intros Hp Hb Hmv. pose proof Hmv as (H1 & H2 & H3 & H4 & H5).
  unfold _da_move_and_insert.
  rewrite (bind_eq _ _ w _ w) by (exact (get_eq _length w p b Hp Hb)).
  rewrite (bind_eq _ _ w _ _) by (exact (memmove_eq w p b _ _ _ Hp Hb Hmv)).
  rewrite (bind_eq _ _ _ _ _)
    by (apply (poke_eq _ p _ i v Hp (lookup_put _ _ _)); cbn [_data upd_data];
        rewrite length_blit_move by lia; lia).
  rewrite put_put.
  rewrite (bind_eq _ _ _ _ _) by (exact (get_eq _length _ p _ Hp (lookup_put _ _ _))).
  rewrite (set_length_eq _ p _ _ Hp (lookup_put _ _ _)), put_put. reflexivity.
Qed.

Lemma _da_insert_room w p b i v :
  p <> NULL -> heap w !! p = Some b -> _length b <> _capacity b ->
  can_move b (i + 1) i (wrap (_length b - i)) ->
  _da_insert p i v w = Some (p, put w p (blk_insert i v b)).
Proof.
  intros Hp Hb Hne Hmv. unfold _da_insert.
  rewrite (bind_eq _ _ w _ w) by (exact (get_eq _length w p b Hp Hb)).
  rewrite (bind_eq _ _ w _ w) by (exact (get_eq _capacity w p b Hp Hb)).
  destruct (Z.eqb_spec (_length b) (_capacity b)); [contradiction|].
  rewrite (bind_eq _ _ w _ _) by (exact (_da_move_and_insert_eq w p b i v Hp Hb Hmv)).
  reflexivity.
Qed.

Lemma da_concat_room w p b (src : list A) n :
  p <> NULL -> heap w !! p = Some b ->
  wrap (_length b + n) <= _capacity b ->
  0 <= _length b -> 0 <= n <= Z.of_nat (length src) ->
  _length b + n <= Z.of_nat (length (_data b)) ->
  da_concat p src n w = Some (p, put w p (blk_concat src n b)).
Proof.
  intros Hp Hb Hcap Hl Hn Hfit. unfold da_concat.
  rewrite (bind_eq _ _ w _ w) by (exact (get_eq _length w p b Hp Hb)).
  rewrite (bind_eq _ _ w _ w) by (exact (da_reserve_noop w p b n Hp Hb Hcap)).
  destruct (Z.eqb_spec p NULL); [contradiction|].
  rewrite (bind_eq _ _ w _ _) by (apply (memcpy_eq w p b); assumption || lia).
  rewrite (bind_eq _ _ _ _ _) by (exact (get_eq _length _ p _ Hp (lookup_put _ _ _))).
  rewrite (bind_eq _ _ _ _ _) by (exact (set_length_eq _ p _ _ Hp (lookup_put _ _ _))).
  rewrite put_put. reflexivity.
Qed.

End Room.

Section GetdelimRoom.
Implicit Types (w : world Z) (p q d : addr) (b : _darray Z).

Lemma dstr_concat_char_room d c w b t cap :
  d <> NULL -> heap w !! d = Some b -> dstr_with t cap b ->
  Z.of_nat (length t) + 2 <= cap ->
  exists b', dstr_concat_char d c w = Some (d, put w d b') /\
             dstr_with (t ++ [c]) cap b'.
Proof.
  intros Hd Hb (Hinv & Hfull & Ht & Hcap) Hroom.
  pose proof Hinv as (Hok & Hge1 & _). pose proof Hok as (? & ? & ? & ?).
  destruct (dstr_inv_elems _ Hinv) as ([Hf Hmax] & He & Hl).
  rewrite Ht in Hl, He. unfold block_full in Hfull.
  assert (E1 : wrap (_length b - 1) = _length b - 1) by wrap_lia.
  assert (E2 : wrap (_length b - (_length b - 1)) = 1) by wrap_lia.
  assert (Hmv : can_move b (_length b - 1 + 1) (_length b - 1)
                  (wrap (_length b - (_length b - 1))))
    by (unfold can_move; rewrite E2; lia).
  exists (blk_insert (_length b - 1) c b). split.
  - unfold dstr_concat_char.
    rewrite (bind_eq _ _ w _ w) by (exact (get_eq _length w d b Hd Hb)).
    rewrite E1. apply _da_insert_room; [assumption..|lia|exact Hmv].
  - destruct (elems_insert b (_length b - 1) c) as (Hl' & He' & Hd'); [lia..|].
    rewrite He in He'.
    rewrite take_app_length', drop_app_length' in He' by lia.
    destruct (dstr_inv_intro (blk_insert (_length b - 1) c b) (t ++ [c]))
      as [Hinv' Ht'].
    + apply block_ok_insert; assumption.
    + rewrite Hl', Hd'. lia.
    + rewrite He', <- app_assoc. reflexivity.
    + split; [exact Hinv'|]. split; [|split; [exact Ht'|exact Hcap]].
      unfold block_full. rewrite Hd'. exact Hfull.
Qed.

Lemma dstr_reassign_empty_room d w b :
  d <> NULL -> heap w !! d = Some b -> dstr_inv b -> block_full b ->
  exists b', dstr_reassign_empty d w = Some (d, put w d b') /\
             dstr_with [] (_capacity b) b'.
Proof.
  intros Hd Hb Hinv Hfull.
  pose proof Hinv as (Hok & Hge1 & _). pose proof Hok as (? & ? & ? & ?).
  unfold block_full in Hfull.
  set (b0 := upd_length 0 b).
  assert (E : wrap (0 + 1) = 1) by reflexivity.
  exists (blk_concat (literal []) 1 b0). split.
  - unfold dstr_reassign_empty.
    rewrite (bind_eq _ _ w _ _) by (exact (set_length_eq w d b 0 Hd Hb)).
    rewrite (da_concat_room _ d b0 (literal []) 1 Hd (lookup_put _ _ _));
      [rewrite put_put; reflexivity|..]; cbn; lia.
  - assert (Hok0 : block_ok b0) by (unfold block_ok; cbn; lia).
    destruct (elems_concat b0 (literal []) 1) as (Hl' & He' & Hd'); [cbn; lia..|].
    destruct (dstr_inv_intro (blk_concat (literal []) 1 b0) []) as [Hinv' Ht'].
    + apply block_ok_concat; cbn; [exact Hok0|lia|lia].
    + rewrite Hl', Hd'. cbn. lia.
    + rewrite He'. reflexivity.
    + split; [exact Hinv'|]. split; [|split; [exact Ht'|reflexivity]].
      unfold block_full. rewrite Hd'. exact Hfull.
Qed.

Lemma dstr_getdelim_loop_room delim stream :
  forall d w b t cap,
  d <> NULL -> heap w !! d = Some b -> dstr_with t cap b ->
  Z.of_nat (length t) + Z.of_nat (length stream) + 1 <= cap ->
  exists r rest w',
    dstr_getdelim_loop d delim stream w = Some ((r, rest), w') /\
    match read_until delim stream with
    | None => r = NULL
    | Some (s, rest') =>
        r = d /\ rest = rest' /\
        exists b', heap w' !! d = Some b' /\ dstr_with (t ++ s) cap b'
    end.
Proof.
  induction stream as [|c stream IH]; intros d w b t cap Hd Hb Hwith Hroom;
    cbn [dstr_getdelim_loop read_until].
  - destruct (negb (EOF =? delim)).
    + exists NULL, [], w. split; reflexivity.
    + exists d, [], w. split; [reflexivity|]. split; [reflexivity|].
      split; [reflexivity|]. exists b. rewrite app_nil_r. auto.
  - destruct (negb (c =? delim)).
    + destruct (negb (delim =? EOF) && (c =? EOF)).
      * exists NULL, stream, w. split; reflexivity.
      * cbn [length] in Hroom.
        destruct (dstr_concat_char_room d (to_char c) w b t cap Hd Hb Hwith)
          as (b1 & Hrun & Hwith1); [lia|].
        destruct (IH d (put w d b1) b1 (t ++ [to_char c]) cap Hd
                    (lookup_put _ _ _) Hwith1)
          as (r & rest & w' & Hloop & Hres);
          [rewrite length_app; cbn [length]; lia|].
        exists r, rest, w'. split.
        -- rewrite (bind_eq _ _ w _ _) by exact Hrun.
           destruct (Z.eqb_spec d NULL); [contradiction|]. exact Hloop.
        -- destruct (read_until delim stream) as [[s rest']|]; [|exact Hres].
           rewrite <- app_assoc in Hres. exact Hres.
    + exists d, stream, w. split; [reflexivity|]. split; [reflexivity|].
      split; [reflexivity|]. exists b. rewrite app_nil_r. auto.
Qed.

Lemma dstr_getdelim_room d delim stream w b :
  d <> NULL -> heap w !! d = Some b -> dstr_inv b -> block_full b ->
  Z.of_nat (length stream) + 1 <= _capacity b ->
  exists r rest w',
    dstr_getdelim d delim stream w = Some ((r, rest), w') /\
    match read_until delim stream with
    | None => r = NULL
    | Some (s, rest') =>
        r = d /\ rest = rest' /\
        exists b', heap w' !! d = Some b' /\ dstr_with s (_capacity b) b'
    end.
Proof.
  intros Hd Hb Hinv Hfull Hroom.
  destruct (dstr_reassign_empty_room d w b Hd Hb Hinv Hfull) as (b0 & Hrun & Hwith).
  destruct (dstr_getdelim_loop_room delim stream d (put w d b0) b0 [] (_capacity b)
              Hd (lookup_put _ _ _) Hwith)
    as (r & rest & w' & Hloop & Hres); [cbn [length]; lia|].
  exists r, rest, w'. split; [|exact Hres].
  unfold dstr_getdelim. rewrite (bind_eq _ _ w _ _) by exact Hrun.
  destruct (Z.eqb_spec d NULL); [contradiction|]. exact Hloop.
Qed.

Lemma read_until_None delim stream :
  Forall is_byte stream -> read_until delim stream = None ->
  (delim ∉ stream) /\ delim <> EOF.
Proof.
  induction 1 as [|c s Hc Hs IH]; cbn [read_until].
  - destruct (Z.eqb_spec EOF delim); [discriminate|]. intros _.
    split; [apply not_elem_of_nil|congruence].
  - destruct (Z.eqb_spec c delim) as [E|Hne]; [discriminate|]. cbn [negb].
    unfold EOF in *.
    destruct (Z.eqb_spec c (-1)); [unfold is_byte in Hc; lia|].
    rewrite andb_false_r.
    destruct (read_until delim s) as [[t r]|]; [discriminate|]. intros _.
    destruct (IH eq_refl) as [Hnot Hd]. split; [|exact Hd].
    apply not_elem_of_cons. split; [congruence|exact Hnot].
Qed.

End GetdelimRoom.

(** C9: [dstr_getdelim] on a dstring and a stream of bytes.  Whenever it
    returns: if the delimiter is in the stream and the result is a handle,
    the dstring holds the bytes in front of the first delimiter (whatever it
    held before) and the stream is left behind that delimiter; if the
    delimiter is not in the stream and is not [EOF], the result is [NULL];
    if the delimiter is [EOF] and the result is a handle, the dstring holds
    the whole stream.  When the block of the dstring has room for the stream
    (no reallocation is needed) the function does return, and it returns the
    handle unless the stream ends before a delimiter other than [EOF] is
    seen.  [dstr_getline] is [dstr_getdelim] with the newline as
    delimiter. *)
Theorem dstr_getdelim_reads (d : addr) (delim : Z) (stream : list Z)
    (w : world Z) (b : _darray Z) :
  d <> NULL -> heap w !! d = Some b -> dstr_inv b -> Forall is_byte stream ->
  (forall r rest w',
     dstr_getdelim d delim stream w = Some ((r, rest), w') ->
     (forall pre post,
        stream = pre ++ delim :: post -> delim ∉ pre -> r <> NULL ->
        rest = post /\
        exists b', heap w' !! r = Some b' /\ dstr_inv b' /\ dstr_text b' = pre) /\
     (delim ∉ stream -> delim <> EOF -> r = NULL) /\
     (delim = EOF -> r <> NULL ->
        rest = [] /\
        exists b', heap w' !! r = Some b' /\ dstr_inv b' /\
                   dstr_text b' = stream)) /\
  (block_full b -> Z.of_nat (length stream) + 1 <= _capacity b ->
   exists r rest w',
     dstr_getdelim d delim stream w = Some ((r, rest), w') /\
     (r = d \/ (r = NULL /\ (delim ∉ stream) /\ delim <> EOF))) /\
  dstr_getline d stream w = dstr_getdelim d 10 stream w.
Proof.
  intros Hd Hb Hinv Hbytes. split; [|split; [|reflexivity]].
  - intros r rest w' Hrun.
    destruct (wp_elim _ _ _ _ _ (dstr_getdelim_spec d delim stream w) Hrun)
      as [Hpost Hnone]. cbn [fst snd] in *.
    assert (Hread : r <> NULL ->
              exists b', heap w' !! r = Some b' /\ dstr_inv b' /\
                         read_until delim stream = Some (dstr_text b', rest)).
    { intros Hr. exact (dstr_post_elim _ _ _ _ _ _ _ Hpost Hb Hinv I Hr). }
    split; [|split].
    + intros pre post -> Hnot Hr. destruct (Hread Hr) as (b' & Hb' & Hinv' & Hru).
      rewrite read_until_found in Hru;
        [|apply Forall_app in Hbytes as [Hpre _]; exact Hpre|exact Hnot].
      injection Hru as Ht <-. split; [reflexivity|]. exists b'. auto.
    + intros Hnot Hdl. apply Hnone, read_until_missing; assumption.
    + intros -> Hr. destruct (Hread Hr) as (b' & Hb' & Hinv' & Hru).
      rewrite read_until_eof in Hru by assumption.
      injection Hru as Ht <-. split; [reflexivity|]. exists b'. auto.
  - intros Hfull Hroom.
    destruct (dstr_getdelim_room d delim stream w b Hd Hb Hinv Hfull Hroom)
      as (r & rest & w' & Hrun & Hres).
    exists r, rest, w'. split; [exact Hrun|].
    destruct (read_until delim stream) as [[s rest']|] eqn:Hru.
    + left. apply Hres.
    + right. split; [exact Hres|]. exact (read_until_None _ _ Hbytes Hru).
Qed.

Lemma dstr_getdelim_reads_witness :
  (forall r rest w',
     dstr_getdelim 8 44 (bytes "ab,cd") (demo_dstr_world "old")
       = Some ((r, rest), w') ->
     (forall pre post,
        bytes "ab,cd" = pre ++ 44 :: post -> 44 ∉ pre -> r <> NULL ->
        rest = post /\
        exists b', heap w' !! r = Some b' /\ dstr_inv b' /\ dstr_text b' = pre) /\
     (44 ∉ bytes "ab,cd" -> 44 <> EOF -> r = NULL) /\
     (44 = EOF -> r <> NULL ->
        rest = [] /\
        exists b', heap w' !! r = Some b' /\ dstr_inv b' /\
                   dstr_text b' = bytes "ab,cd")) /\
  (block_full (demo_dstr (bytes "old") 10) ->
   Z.of_nat (length (bytes "ab,cd")) + 1 <= _capacity (demo_dstr (bytes "old") 10) ->
   exists r rest w',
     dstr_getdelim 8 44 (bytes "ab,cd") (demo_dstr_world "old")
       = Some ((r, rest), w') /\
     (r = 8 \/ (r = NULL /\ (44 ∉ bytes "ab,cd") /\ 44 <> EOF))) /\
  dstr_getline 8 (bytes "ab,cd") (demo_dstr_world "old")
  = dstr_getdelim 8 10 (bytes "ab,cd") (demo_dstr_world "old").
Proof.
  apply (dstr_getdelim_reads 8 44 (bytes "ab,cd") (demo_dstr_world "old")
           (demo_dstr (bytes "old") 10)).
  - discriminate.
  - vm_compute. reflexivity.
  - unfold dstr_inv, block_ok. repeat split; vm_compute; congruence.
  - unfold is_byte. repeat constructor; vm_compute; congruence.
Defined.

(* ---------------- C4 ---------------- *)

Lemma da_length_capacity_eq {A} (w : world A) p b :
  p <> NULL -> heap w !! p = Some b ->
  da_length p w = Some (_length b, w) /\ da_capacity p w = Some (_capacity b, w).
Proof.
  intros Hp Hb. split.
  - exact (get_eq _length w p b Hp Hb).
  - exact (get_eq _capacity w p b Hp Hb).
Qed.

(** C4: from a state in which every instance has [length <= capacity], after
    any sequence of calls and one more call that returns a handle other than
    [NULL], [da_length] of that handle is at most its [da_capacity] (and
    every instance still has [length <= capacity]). *)
Theorem capacity_ge_length_after_every_call {A}
    (fn_last_byte : mem_fn -> Z) (cs : list (call A))
    (c : call A) (w0 w1 w2 : world A) (h : addr) :
  heap_ok w0 -> Forall well_typed cs -> well_typed c ->
  run fn_last_byte cs w0 = Some (tt, w1) ->
  exec fn_last_byte c w1 = Some (Some h, w2) -> h <> NULL ->
  heap_ok w2 /\
  exists len cap, da_length h w2 = Some (len, w2) /\
                  da_capacity h w2 = Some (cap, w2) /\ len <= cap.
Proof.
  intros Hw0 Hcs Hc Hrun Hexec Hh.
  pose proof (wp_elim _ _ _ _ _ (run_spec fn_last_byte cs Hcs w0) Hrun Hw0) as Hw1.
  destruct (wp_elim _ _ _ _ _ (exec_spec fn_last_byte c w1 Hc) Hexec) as [Hok Hin].
  pose proof (Hok Hw1) as Hw2. split; [exact Hw2|].
  destruct (Hin h eq_refl Hh) as [b Hb].
  destruct (da_length_capacity_eq w2 h b Hh Hb) as [Hl Hcap].
  exists (_length b), (_capacity b). split; [exact Hl|]. split; [exact Hcap|].
  destruct (heap_ok_lookup _ _ _ Hw2 Hb) as (_ & ? & _). lia.
Qed.

Lemma capacity_ge_length_after_every_call_witness :
  let w1 := world_after (run demo_fn_last_byte demo_calls) (World ∅ demo_script) in
  let w2 := world_after (exec demo_fn_last_byte
                           (Dstr (Call_dstr_alloc_cstr (literal (bytes "hello"))))) w1 in
  heap_ok w2 /\
  exists len cap, da_length 2 w2 = Some (len, w2) /\
                  da_capacity 2 w2 = Some (cap, w2) /\ len <= cap.
Proof.
  intros w1 w2.
  apply (capacity_ge_length_after_every_call demo_fn_last_byte demo_calls
           (Dstr (Call_dstr_alloc_cstr (literal (bytes "hello"))))
           (World ∅ demo_script) w1 w2 2).
  - apply map_Forall_empty.
  - unfold demo_calls, is_size_t, SIZE_MOD. repeat constructor; cbn; lia.
  - exact I.
  - vm_compute. reflexivity.
  - vm_compute. reflexivity.
  - discriminate.
Defined.

(* ===================================================================== *)
(** * Further properties of the code: X1 to X29                           *)
(* ===================================================================== *)

(* ===================================================================== *)
(** * Contents of a darray across the core operations                    *)
(* ===================================================================== *)

Section CoreContents.
Context {A : Type}.
Implicit Types (w : world A) (p q r : addr) (b : _darray A).

Lemma fits_reserved n b b1 :
  reserved n b b1 -> block_ok b -> fits b ->
  _length b <= Z.of_nat (length (_data b1)) -> fits b1 /\ elems b1 = elems b.
Proof.
  intros Hres Hok Hfit Hl.
  destruct (reserved_props _ _ _ Hres) as (Hlen & _ & _ & _ & _ & _ & _).
  split.
  - destruct Hfit as [Hf Hm]. split; rewrite Hlen; lia.
  - apply (elems_reserved n); assumption.
Qed.

(** What a successful [da_insert_arr] leaves. *)
Lemma da_insert_arr_result w w' p b i src n r :
  heap w !! p = Some b -> block_ok b -> fits b -> 0 <= i <= _length b ->
  da_insert_arr p i src n w = Some (r, w') -> r <> NULL ->
  exists b', relocated w p w' r b' /\ block_ok b' /\ fits b' /\
    0 <= n <= Z.of_nat (length src) /\
    _length b' = _length b + n /\
    elems b' = take (Z.to_nat i) (elems b) ++ take (Z.to_nat n) src
                 ++ drop (Z.to_nat i) (elems b) /\
    _elemsz b' = _elemsz b /\ _mem_funcs b' = _mem_funcs b /\
    _capacity b <= _capacity b'.
Proof.
  intros Hb Hok Hfit Hi Hrun Hr.
  destruct (wp_elim _ _ _ _ _ (da_insert_arr_spec p i src n w) Hrun)
    as (b0 & Hp & Hb0 & [(-> & _)|(b1 & Hres & Hmv & Hn & Hin & Hrel)]);
    [contradiction|].
  assert (b0 = b) by congruence. subst b0.
  destruct (reserved_props _ _ _ Hres) as (Hlen & Hsz & Hmf & _ & Hcap & Hok1 & _).
  specialize (Hok1 Hok).
  pose proof Hok1 as (He1 & Hl1 & Hc1 & Hs1).
  pose proof Hmv as (M1 & M2 & M3 & M4 & M5).
  assert (E2 : wrap (i + n) = i + n) by wrap_lia.
  assert (E3 : wrap (_length b1 - i) = _length b1 - i) by wrap_lia.
  rewrite E2, E3 in *.
  destruct (fits_reserved n b b1 Hres Hok Hfit ltac:(lia)) as [Hfit1 Hel].
  destruct (elems_insert_arr b1 i src n ltac:(lia) Hn ltac:(lia) ltac:(lia))
    as (L1 & L2 & L3).
  exists (blk_insert_arr i src n b1).
  split; [exact Hrel|]. split.
  { apply block_ok_insert_arr; [assumption|rewrite E2, E3; exact Hmv|assumption|assumption]. }
  split; [split; rewrite L1, ?L3; lia|].
  split; [assumption|]. split; [lia|]. split; [rewrite L2, Hel; reflexivity|].
  cbn. auto.
Qed.

(** What [da_remove_arr] does, and that it returns. *)
Lemma da_remove_arr_eq w p b i n :
  p <> NULL -> heap w !! p = Some b -> fits b ->
  0 <= i -> 0 <= n -> i + n <= _length b ->
  da_remove_arr p i n w = Some (tt, put w p (blk_remove_arr i n b)).
Proof.
  intros Hp Hb [Hf Hm] Hi Hn Hin.
  assert (E2 : wrap (i + n) = i + n) by wrap_lia.
  assert (E3 : wrap (_length b - i - n) = _length b - i - n) by wrap_lia.
  unfold da_remove_arr.
  rewrite (bind_eq _ _ w _ w) by (exact (get_eq _length w p b Hp Hb)).
  rewrite (bind_eq _ _ w _ _)
    by (apply (memmove_eq w p b); [assumption|assumption|unfold can_move; lia]).
  rewrite (bind_eq _ _ _ _ _)
    by (apply (get_eq _length); [assumption|apply lookup_put]).
  rewrite (set_length_eq _ p _ _ Hp (lookup_put _ _ _)).
  rewrite put_put. reflexivity.
Qed.

Lemma take_drop_insert_arr (E src' : list A) (i n : nat) :
  (i <= length E)%nat -> length src' = n ->
  take i (take i E ++ src' ++ drop i E)
    ++ drop (i + n) (take i E ++ src' ++ drop i E) = E.
Proof.
  intros Hi Hn.
  rewrite take_app_length' by (rewrite length_take; lia).
  rewrite app_assoc.
  rewrite drop_app_length' by (rewrite length_app, length_take; lia).
  apply take_drop.
Qed.

End CoreContents.



(** X2 (da_remove_arr).  da_remove_arr(darr, index, nelem) with index +
    nelem within the length always returns: the elements at index ..
    index+nelem-1 are gone and the ones behind them moved up, the length is
    reduced by nelem, and capacity, element size and memory functions are
    unchanged (the block is not reallocated). *)
Theorem da_remove_arr_removes {A} (w : world A) (p : addr) (b : _darray A)
    (i n : Z) :
  p <> NULL -> heap w !! p = Some b -> fits b ->
  0 <= i -> 0 <= n -> i + n <= _length b ->
  exists b', da_remove_arr p i n w = Some (tt, put w p b') /\
    _length b' = _length b - n /\
    elems b' = take (Z.to_nat i) (elems b) ++ drop (Z.to_nat (i + n)) (elems b) /\
    _capacity b' = _capacity b /\ _elemsz b' = _elemsz b /\
    _mem_funcs b' = _mem_funcs b.
Proof.
  intros Hp Hb Hfit Hi Hn Hin.
  exists (blk_remove_arr i n b).
  split; [apply da_remove_arr_eq; assumption|].
  destruct (elems_remove_arr b i n Hfit Hi Hn Hin) as (L1 & L2 & _).
  split; [assumption|]. split; [assumption|]. cbn. auto.
Qed.

Lemma da_remove_arr_removes_witness :
  exists b', da_remove_arr 8 1 2 demo_world = Some (tt, put demo_world 8 b') /\
    _length b' = 3 - 2 /\
    elems b' = take (Z.to_nat 1) (elems (demo_block 3 10 [7; 8; 9; 0; 0; 0; 0; 0; 0; 0]))
               ++ drop (Z.to_nat (1 + 2)) (elems (demo_block 3 10 [7; 8; 9; 0; 0; 0; 0; 0; 0; 0])) /\
    _capacity b' = 10 /\ _elemsz b' = 4 /\ _mem_funcs b' = DA_DEFAULT_MEM_FUNCS.
Proof.
  apply (da_remove_arr_removes demo_world 8
           (demo_block 3 10 [7; 8; 9; 0; 0; 0; 0; 0; 0; 0]) 1 2).
  - discriminate.
  - vm_compute. reflexivity.
  - unfold fits, SIZE_MOD. cbn. lia.
  - lia.
  - lia.
  - cbn. lia.
Defined.

(** X3 (da_insert_arr, da_remove_arr).  Removing with da_remove_arr(darr,
    index, nelem) the elements a successful da_insert_arr(darr, index, src,
    nelem) has just inserted gives back the original length and the original
    elements. *)
Theorem insert_arr_remove_arr_roundtrip {A} (w w1 : world A) (p r : addr)
    (b : _darray A) (i : Z) (src : list A) (n : Z) :
  heap w !! p = Some b -> block_ok b -> fits b -> 0 <= i <= _length b ->
  da_insert_arr p i src n w = Some (r, w1) -> r <> NULL ->
  exists b2, da_remove_arr r i n w1 = Some (tt, put w1 r b2) /\
    _length b2 = _length b /\ elems b2 = elems b.
Proof.
  intros Hb Hok Hfit Hi Hrun Hr.
  destruct (da_insert_arr_result w w1 p b i src n r Hb Hok Hfit Hi Hrun Hr)
    as (b' & Hrel & _ & Hfit' & Hn & Hl & He & _).
  pose proof (relocated_lookup _ _ _ _ _ Hrel) as Hb'.
  exists (blk_remove_arr i n b').
  split; [apply da_remove_arr_eq; auto; lia|].
  destruct (elems_remove_arr b' i n Hfit' ltac:(lia) ltac:(lia) ltac:(lia))
    as (L1 & L2 & _).
  split; [lia|]. rewrite L2, He.
  replace (Z.to_nat (i + n)) with (Z.to_nat i + Z.to_nat n)%nat by lia.
  apply take_drop_insert_arr.
  - rewrite length_elems by assumption. lia.
  - rewrite length_take. lia.
Qed.

Lemma insert_arr_remove_arr_roundtrip_witness :
  exists b2,
    da_remove_arr 8 1 2 (world_after (da_insert_arr 8 1 [1; 2] 2) demo_world)
      = Some (tt, put (world_after (da_insert_arr 8 1 [1; 2] 2) demo_world) 8 b2) /\
    _length b2 = 3 /\
    elems b2 = elems (demo_block 3 10 [7; 8; 9; 0; 0; 0; 0; 0; 0; 0]).
Proof.
  apply (insert_arr_remove_arr_roundtrip demo_world _ 8 8
           (demo_block 3 10 [7; 8; 9; 0; 0; 0; 0; 0; 0; 0]) 1 [1; 2] 2).
  - vm_compute. reflexivity.
  - unfold block_ok, SIZE_MOD. cbn. lia.
  - unfold fits, SIZE_MOD. cbn. lia.
  - cbn. lia.
  - vm_compute. reflexivity.
  - discriminate.
Defined.

Section CoreContents2.
Context {A : Type}.
Implicit Types (w : world A) (p q r : addr) (b : _darray A).

(** What a successful [_da_insert] leaves. *)
Lemma _da_insert_result w w' p b i v r :
  heap w !! p = Some b -> block_ok b -> fits b -> 0 <= i <= _length b ->
  _da_insert p i v w = Some (r, w') -> r <> NULL ->
  exists b', relocated w p w' r b' /\ block_ok b' /\ fits b' /\
    _length b' = _length b + 1 /\
    elems b' = take (Z.to_nat i) (elems b) ++ v :: drop (Z.to_nat i) (elems b) /\
    _elemsz b' = _elemsz b /\ _mem_funcs b' = _mem_funcs b.
Proof.
  intros Hb Hok Hfit Hi Hrun Hr.
  destruct (wp_elim _ _ _ _ _ (_da_insert_spec p i v w) Hrun)
    as (b0 & Hp & Hb0 & b1 & Hres & Hmv & Hrel).
  assert (b0 = b) by congruence. subst b0.
  pose proof Hmv as (M1 & M2 & M3 & M4 & M5).
  assert (Hb1 : _length b1 = _length b /\ block_ok b1 /\ _elemsz b1 = _elemsz b /\
                _mem_funcs b1 = _mem_funcs b /\
                (_length b <= Z.of_nat (length (_data b1)) ->
                 fits b1 /\ elems b1 = elems b)).
  { destruct Hres as [[_ Hres]|[_ ->]].
    - destruct (reserved_props _ _ _ Hres) as (? & ? & ? & _ & _ & Hok1 & _).
      split; [assumption|]. split; [auto|]. split; [assumption|].
      split; [assumption|]. intros. apply (fits_reserved 1 b b1); assumption.
    - auto 10. }
  destruct Hb1 as (Hl1 & Hok1 & Hsz & Hmf & Hel).
  pose proof Hok1 as (He1 & Hlc1 & Hc1 & Hs1).
  assert (E3 : wrap (_length b1 - i) = _length b1 - i) by wrap_lia.
  rewrite E3 in *.
  destruct (Hel ltac:(lia)) as [Hfit1 Hel1].
  destruct (elems_insert b1 i v ltac:(lia) ltac:(lia) ltac:(lia)) as (L1 & L2 & L3).
  exists (blk_insert i v b1).
  split; [exact Hrel|]. split.
  { apply block_ok_insert; [assumption|rewrite E3; exact Hmv]. }
  split; [split; rewrite L1, ?L3; lia|].
  split; [lia|]. split; [rewrite L2, Hel1; reflexivity|]. cbn. auto.
Qed.

Lemma blk_remove_as_arr b i :
  0 <= i -> i + 1 < SIZE_MOD -> blk_remove i b = blk_remove_arr i 1 b.
Proof.
  intros Hi Hm. unfold blk_remove, blk_remove_arr.
  assert (E : wrap (i + 1) = i + 1) by wrap_lia. rewrite E. reflexivity.
Qed.

Lemma lookup_elems b (i : Z) :
  0 <= i < _length b -> elems b !! Z.to_nat i = _data b !! Z.to_nat i.
Proof. intros Hi. unfold elems. apply lookup_take_lt. lia. Qed.

(** What [_da_remove] does, and that it returns. *)
Lemma _da_remove_eq w p b i v :
  p <> NULL -> heap w !! p = Some b -> fits b -> 0 <= i < _length b ->
  elems b !! Z.to_nat i = Some v ->
  _da_remove p i w = Some (v, put w p (blk_remove_arr i 1 b)).
Proof.
  intros Hp Hb [Hf Hm] Hi Hv. rewrite lookup_elems in Hv by assumption.
  assert (E3 : wrap (_length b - i - 1) = _length b - i - 1) by wrap_lia.
  unfold _da_remove, peek.
  rewrite (bind_eq _ _ w v w).
  2:{ rewrite (bind_eq _ _ w _ w) by (exact (deref_eq w p b Hp Hb)).
      destruct (Z.leb_spec 0 i); [|lia]. unfold lift. rewrite Hv. reflexivity. }
  rewrite (bind_eq _ _ w _ w) by (exact (get_eq _length w p b Hp Hb)).
  rewrite (bind_eq _ _ w _ _)
    by (apply (memmove_eq w p b); [assumption|assumption|unfold can_move; lia]).
  rewrite (bind_eq _ _ _ _ _)
    by (apply (get_eq _length); [assumption|apply lookup_put]).
  rewrite (bind_eq _ _ _ _ _)
    by (exact (set_length_eq _ p _ _ Hp (lookup_put _ _ _))).
  rewrite put_put. unfold ret. repeat f_equal.
  rewrite <- blk_remove_as_arr by lia. reflexivity.
Qed.

Lemma take_drop_insert (E : list A) (i : nat) v :
  (i <= length E)%nat ->
  (take i E ++ v :: drop i E) !! i = Some v /\
  take i (take i E ++ v :: drop i E) ++ drop (i + 1) (take i E ++ v :: drop i E) = E.
Proof.
  intros Hi. split.
  - rewrite lookup_app_r by (rewrite length_take; lia).
    rewrite length_take. replace (i - i `min` length E)%nat with O by lia. reflexivity.
  - apply (take_drop_insert_arr E [v] i 1); [assumption|reflexivity].
Qed.


(** A push into a block with room. *)
Lemma _da_push_room w p b v :
  p <> NULL -> heap w !! p = Some b ->
  _length b <> _capacity b -> 0 <= _length b < Z.of_nat (length (_data b)) ->
  _da_push p v w = Some (p, put w p (blk_push v b)).
Proof.
  intros Hp Hb Hne Hl. unfold _da_push.
  rewrite (bind_eq _ _ w _ w) by (exact (get_eq _length w p b Hp Hb)).
  rewrite (bind_eq _ _ w _ w) by (exact (get_eq _capacity w p b Hp Hb)).
  destruct (Z.eqb_spec (_length b) (_capacity b)); [contradiction|].
  rewrite (bind_eq _ _ w _ _) by (apply (poke_eq w p b); assumption).
  rewrite (bind_eq _ _ _ _ _)
    by (exact (set_length_eq _ p _ _ Hp (lookup_put _ _ _))).
  rewrite put_put. reflexivity.
Qed.

Lemma elems_push b v :
  0 <= _length b < Z.of_nat (length (_data b)) -> _length b + 1 < SIZE_MOD ->
  _length (blk_push v b) = _length b + 1 /\
  elems (blk_push v b) = elems b ++ [v] /\
  length (_data (blk_push v b)) = length (_data b).
Proof.
  intros Hl Hm. assert (E : wrap (_length b + 1) = _length b + 1) by wrap_lia.
  unfold elems, blk_push. cbn [_length _data upd_length upd_data]. rewrite E.
  split; [reflexivity|]. split; [|apply length_insert].
  replace (Z.to_nat (_length b + 1)) with (S (Z.to_nat (_length b))) by lia.
  rewrite (take_S_r _ _ v) by (apply list_lookup_insert_eq; lia).
  rewrite take_insert_ge by lia. reflexivity.
Qed.

(** Pushes that stay within the capacity. *)
Lemma push_all_room vs : forall w p b,
  p <> NULL -> heap w !! p = Some b -> block_full b -> 0 <= _length b ->
  _capacity b < SIZE_MOD ->
  _length b + Z.of_nat (length vs) <= _capacity b ->
  exists b', push_all p vs w = Some (p, put w p b') /\
    block_full b' /\ _capacity b' = _capacity b /\
    _length b' = _length b + Z.of_nat (length vs) /\
    elems b' = elems b ++ vs /\ _elemsz b' = _elemsz b /\
    _mem_funcs b' = _mem_funcs b.
Proof.
  induction vs as [|v vs IH]; intros w p b Hp Hb Hfull Hl Hcap Hroom.
  - exists b. cbn [push_all length]. unfold ret.
    split.
    { f_equal. f_equal. destruct w as [h a]. unfold put. cbn in *. f_equal.
      symmetry. apply insert_id. exact Hb. }
    rewrite app_nil_r. repeat split; auto; lia.
  - cbn [length] in Hroom. unfold block_full in Hfull.
    cbn [push_all].
    rewrite (bind_eq _ _ w _ _) by (apply (_da_push_room w p b v); auto; lia).
    destruct (Z.eqb_spec p NULL); [contradiction|].
    destruct (elems_push b v ltac:(lia) ltac:(lia)) as (L1 & L2 & L3).
    destruct (IH (put w p (blk_push v b)) p (blk_push v b) Hp (lookup_put _ _ _))
      as (b' & Hrun & Hfull' & Hcap' & Hl' & He' & Hsz' & Hmf').
    + unfold block_full. rewrite L3. cbn. exact Hfull.
    + lia.
    + cbn. exact Hcap.
    + rewrite L1. cbn [_capacity blk_push upd_length upd_data]. lia.
    + exists b'. rewrite Hrun, put_put.
      split; [reflexivity|]. split; [assumption|].
      split; [rewrite Hcap'; reflexivity|]. split; [cbn [length]; lia|].
      split; [rewrite He', L2, <- app_assoc; reflexivity|].
      split; [rewrite Hsz'; reflexivity|rewrite Hmf'; reflexivity].
Qed.

(** [da_pop] on a darray that is not empty. *)
Lemma _da_pop_last w p b :
  p <> NULL -> heap w !! p = Some b -> fits b -> 1 <= _length b ->
  exists v, last (elems b) = Some v /\
    _da_pop p w = Some (v, put w p (blk_pop b)) /\
    elems b = elems (blk_pop b) ++ [v] /\ _length (blk_pop b) = _length b - 1.
Proof.
  intros Hp Hb [Hf Hm] H1.
  assert (E : wrap (_length b - 1) = _length b - 1) by wrap_lia.
  assert (Hlt : (Z.to_nat (_length b - 1) < length (_data b))%nat) by lia.
  destruct (lookup_lt_is_Some_2 _ _ Hlt) as [v Hv].
  assert (Hel : elems b = elems (blk_pop b) ++ [v]).
  { unfold elems, blk_pop. cbn [_length _data upd_length]. rewrite E.
    replace (Z.to_nat (_length b)) with (S (Z.to_nat (_length b - 1))) by lia.
    apply take_S_r. exact Hv. }
  exists v. split; [rewrite Hel; apply last_snoc|].
  split; [apply _da_pop_eq; rewrite ?E; auto; lia|].
  split; [exact Hel|]. cbn. exact E.
Qed.

Lemma _da_pop_empty w p b :
  heap w !! p = Some b -> block_ok b -> _length b = 0 -> _da_pop p w = None.
Proof.
  intros Hb (He & Hl & Hc & Hs) H0. unfold _da_pop, da_length, bind, deref.
  destruct (Z.eqb_spec p NULL); [reflexivity|]. rewrite Hb.
  unfold ret, set_length, bind, deref.
  destruct (Z.eqb_spec p NULL); [reflexivity|]. rewrite Hb.
  unfold store, peek, bind, deref. cbn [heap].
  destruct (Z.eqb_spec p NULL); [reflexivity|]. rewrite lookup_insert_eq.
  rewrite H0. assert (E : wrap (0 - 1) = SIZE_MOD - 1) by (vm_compute; reflexivity).
  rewrite E. destruct (Z.leb_spec 0 (SIZE_MOD - 1)); [|reflexivity].
  unfold lift. cbn [_data upd_length].
  rewrite lookup_ge_None_2; [reflexivity|]. lia.
Qed.

End CoreContents2.

(** X4 (_da_insert, _da_move_and_insert, da_reserve).  When da_insert
    returns a handle (not NULL) for an index within the length, the darray
    behind that handle holds the old elements with the value inserted at the
    index and its length has grown by one; element size and memory functions
    are kept, and every other block of the heap is untouched. *)
Theorem da_insert_inserts {A} (w w' : world A) (p r : addr) (b : _darray A)
    (i : Z) (v : A) :
  heap w !! p = Some b -> block_ok b -> fits b -> 0 <= i <= _length b ->
  _da_insert p i v w = Some (r, w') -> r <> NULL ->
  exists b', heap w' !! r = Some b' /\
    _length b' = _length b + 1 /\
    elems b' = take (Z.to_nat i) (elems b) ++ v :: drop (Z.to_nat i) (elems b) /\
    _elemsz b' = _elemsz b /\ _mem_funcs b' = _mem_funcs b /\
    (forall k x, k <> p -> heap w !! k = Some x -> heap w' !! k = Some x).
Proof.
  intros Hb Hok Hfit Hi Hrun Hr.
  destruct (_da_insert_result w w' p b i v r Hb Hok Hfit Hi Hrun Hr)
    as (b' & Hrel & _ & _ & Hl & He & Hsz & Hmf).
  exists b'. split; [eapply relocated_lookup; exact Hrel|].
  repeat (split; [assumption|]).
  intros k x Hk Hx.
  destruct (relocated_frame _ _ _ _ _ k Hrel Hk) as [_ ->]; eauto.
Qed.

Lemma da_insert_inserts_witness :
  exists b', heap (world_after (_da_insert 8 1 5) demo_world) !! 8 = Some b' /\
    _length b' = 3 + 1 /\
    elems b' = take (Z.to_nat 1) (elems (demo_block 3 10 [7; 8; 9; 0; 0; 0; 0; 0; 0; 0]))
               ++ 5 :: drop (Z.to_nat 1) (elems (demo_block 3 10 [7; 8; 9; 0; 0; 0; 0; 0; 0; 0])) /\
    _elemsz b' = 4 /\ _mem_funcs b' = DA_DEFAULT_MEM_FUNCS /\
    (forall k x, k <> 8 -> heap demo_world !! k = Some x ->
       heap (world_after (_da_insert 8 1 5) demo_world) !! k = Some x).
Proof.
  apply (da_insert_inserts demo_world _ 8 8
           (demo_block 3 10 [7; 8; 9; 0; 0; 0; 0; 0; 0; 0]) 1 5).
  - vm_compute. reflexivity.
  - unfold block_ok, SIZE_MOD. cbn. lia.
  - unfold fits, SIZE_MOD. cbn. lia.
  - cbn. lia.
  - vm_compute. reflexivity.
  - discriminate.
Defined.

(** X5 (_da_remove).  da_remove(darr, index) with index below the length
    always returns the element at that index; afterwards the element is gone
    and the ones behind it moved up, the length is reduced by one, and
    capacity, element size and memory functions are unchanged. *)
Theorem da_remove_removes {A} (w : world A) (p : addr) (b : _darray A) (i : Z) :
  p <> NULL -> heap w !! p = Some b -> fits b -> 0 <= i < _length b ->
  exists v b', elems b !! Z.to_nat i = Some v /\
    _da_remove p i w = Some (v, put w p b') /\
    _length b' = _length b - 1 /\
    elems b' = take (Z.to_nat i) (elems b) ++ drop (Z.to_nat (i + 1)) (elems b) /\
    _capacity b' = _capacity b /\ _elemsz b' = _elemsz b /\
    _mem_funcs b' = _mem_funcs b.
Proof.
  intros Hp Hb Hfit Hi.
  assert (Hlt : (Z.to_nat i < length (elems b))%nat)
    by (rewrite length_elems by assumption; lia).
  destruct (lookup_lt_is_Some_2 _ _ Hlt) as [v Hv].
  exists v, (blk_remove_arr i 1 b). split; [exact Hv|].
  split; [apply _da_remove_eq; assumption|].
  destruct (elems_remove_arr b i 1 Hfit ltac:(lia) ltac:(lia) ltac:(lia))
    as (L1 & L2 & _).
  split; [assumption|]. split; [assumption|]. cbn. auto.
Qed.

Lemma da_remove_removes_witness :
  exists v b', elems (demo_block 3 10 [7; 8; 9; 0; 0; 0; 0; 0; 0; 0]) !! Z.to_nat 1 = Some v /\
    _da_remove 8 1 demo_world = Some (v, put demo_world 8 b') /\
    _length b' = 3 - 1 /\
    elems b' = take (Z.to_nat 1) (elems (demo_block 3 10 [7; 8; 9; 0; 0; 0; 0; 0; 0; 0]))
               ++ drop (Z.to_nat (1 + 1)) (elems (demo_block 3 10 [7; 8; 9; 0; 0; 0; 0; 0; 0; 0])) /\
    _capacity b' = 10 /\ _elemsz b' = 4 /\ _mem_funcs b' = DA_DEFAULT_MEM_FUNCS.
Proof.
  apply (da_remove_removes demo_world 8
           (demo_block 3 10 [7; 8; 9; 0; 0; 0; 0; 0; 0; 0]) 1).
  - discriminate.
  - vm_compute. reflexivity.
  - unfold fits, SIZE_MOD. cbn. lia.
  - cbn. lia.
Defined.

(** X6 (_da_insert, _da_move_and_insert, _da_remove).  da_remove at the
    index of a successful da_insert returns the inserted value and gives
    back the original length and the original elements. *)
Theorem insert_remove_roundtrip {A} (w w1 : world A) (p r : addr)
    (b : _darray A) (i : Z) (v : A) :
  heap w !! p = Some b -> block_ok b -> fits b -> 0 <= i <= _length b ->
  _da_insert p i v w = Some (r, w1) -> r <> NULL ->
  exists b2, _da_remove r i w1 = Some (v, put w1 r b2) /\
    _length b2 = _length b /\ elems b2 = elems b.
Proof.
  intros Hb Hok Hfit Hi Hrun Hr.
  destruct (_da_insert_result w w1 p b i v r Hb Hok Hfit Hi Hrun Hr)
    as (b' & Hrel & _ & Hfit' & Hl & He & _).
  pose proof (relocated_lookup _ _ _ _ _ Hrel) as Hb'.
  assert (Hlen : (Z.to_nat i <= length (elems b))%nat)
    by (rewrite length_elems by assumption; lia).
  destruct (take_drop_insert (elems b) (Z.to_nat i) v Hlen) as [Hv Hrest].
  exists (blk_remove_arr i 1 b').
  split; [apply _da_remove_eq; auto; [lia|rewrite He; exact Hv]|].
  destruct (elems_remove_arr b' i 1 Hfit' ltac:(lia) ltac:(lia) ltac:(lia))
    as (L1 & L2 & _).
  split; [lia|]. rewrite L2, He.
  replace (Z.to_nat (i + 1)) with (Z.to_nat i + 1)%nat by lia. exact Hrest.
Qed.

Lemma insert_remove_roundtrip_witness :
  exists b2,
    _da_remove 8 1 (world_after (_da_insert 8 1 5) demo_world)
      = Some (5, put (world_after (_da_insert 8 1 5) demo_world) 8 b2) /\
    _length b2 = 3 /\
    elems b2 = elems (demo_block 3 10 [7; 8; 9; 0; 0; 0; 0; 0; 0; 0]).
Proof.
  apply (insert_remove_roundtrip demo_world _ 8 8
           (demo_block 3 10 [7; 8; 9; 0; 0; 0; 0; 0; 0; 0]) 1 5).
  - vm_compute. reflexivity.
  - unfold block_ok, SIZE_MOD. cbn. lia.
  - unfold fits, SIZE_MOD. cbn. lia.
  - cbn. lia.
  - vm_compute. reflexivity.
  - discriminate.
Defined.



(** X8 (_da_pop).  On a darray with at least one element da_pop returns the
    last element and reduces the length by one, leaving the storage and the
    capacity as they are; on an empty darray it has no defined result (the
    length wraps around and the element read lies outside the block). *)
Theorem da_pop_returns_last {A} (w : world A) (p : addr) (b : _darray A) :
  p <> NULL -> heap w !! p = Some b -> block_ok b -> fits b ->
  (1 <= _length b ->
   exists v b', last (elems b) = Some v /\
     _da_pop p w = Some (v, put w p b') /\
     elems b = elems b' ++ [v] /\ _length b' = _length b - 1 /\
     _capacity b' = _capacity b /\ _data b' = _data b) /\
  (_length b = 0 -> _da_pop p w = None).
Proof.
  intros Hp Hb Hok Hfit. split.
  - intros H1. destruct (_da_pop_last w p b Hp Hb Hfit H1) as (v & Hl & Hrun & He & Hlen).
    exists v, (blk_pop b). repeat (split; [assumption|]). cbn. auto.
  - intros H0. apply (_da_pop_empty w p b); assumption.
Qed.

Lemma da_pop_returns_last_witness :
  (1 <= 3 ->
   exists v b', last (elems (demo_block 3 10 [7; 8; 9; 0; 0; 0; 0; 0; 0; 0])) = Some v /\
     _da_pop 8 demo_world = Some (v, put demo_world 8 b') /\
     elems (demo_block 3 10 [7; 8; 9; 0; 0; 0; 0; 0; 0; 0]) = elems b' ++ [v] /\
     _length b' = 3 - 1 /\ _capacity b' = 10 /\
     _data b' = [7; 8; 9; 0; 0; 0; 0; 0; 0; 0]) /\
  (3 = 0 -> _da_pop 8 demo_world = None).
Proof.
  apply (da_pop_returns_last demo_world 8
           (demo_block 3 10 [7; 8; 9; 0; 0; 0; 0; 0; 0; 0])).
  - discriminate.
  - vm_compute. reflexivity.
  - unfold block_ok, SIZE_MOD. cbn. lia.
  - unfold fits, SIZE_MOD. cbn. lia.
Defined.

Lemma da_reserve_reserved {A} (w w1 : world A) p b n r :
  heap w !! p = Some b -> da_reserve p n w = Some (r, w1) -> r <> NULL ->
  exists b1, relocated w p w1 r b1 /\ reserved n b b1.
Proof.
  intros Hb Hrun Hr.
  destruct (wp_elim _ _ _ _ _ (da_reserve_spec' p n w) Hrun)
    as (b0 & Hp & Hb0 & [[-> _]|(b1 & Hrel & Hres)]); [contradiction|].
  assert (b0 = b) by congruence. subst b0. eauto.
Qed.

(** X9 (da_reserve, _da_push).  On a darray whose block has room for its
    capacity, and for a count n such that neither length + n nor the size
    in bytes of the block da_reserve asks for overflows size_t: after a
    successful da_reserve(darr, n), up to n values can be pushed with
    da_push without any reallocation; every push returns the handle
    da_reserve returned, the capacity stays the same, and the values are
    appended in order to the elements the darray had. *)
Theorem reserved_pushes_keep_handle {A} (w w1 : world A) (p r : addr)
    (b : _darray A) (n : Z) (vs : list A) :
  heap w !! p = Some b -> block_ok b -> block_full b -> 0 < _elemsz b ->
  0 <= n -> _length b + n < SIZE_MOD ->
  (forall c, DA_NEW_CAPACITY_FROM_LENGTH (_length b + n) = Some c ->
             sizeof_darray + c * _elemsz b < SIZE_MOD) ->
  da_reserve p n w = Some (r, w1) -> r <> NULL ->
  Z.of_nat (length vs) <= n ->
  exists b1 b2, heap w1 !! r = Some b1 /\
    push_all r vs w1 = Some (r, put w1 r b2) /\
    _length b2 = _length b + Z.of_nat (length vs) /\
    elems b2 = elems b ++ vs /\
    _capacity b2 = _capacity b1 /\ _length b + n <= _capacity b1.
Proof.
  intros Hb Hok Hfull He Hn Hsum Hsize Hrun Hr Hvs.
  destruct (da_reserve_reserved w w1 p b n r Hb Hrun Hr) as (b1 & Hrel & Hres).
  pose proof (relocated_lookup _ _ _ _ _ Hrel) as Hb1.
  destruct (reserved_props _ _ _ Hres) as (Hlen & _ & _ & Hcap & _ & Hok1 & _).
  pose proof (Hok1 Hok) as (_ & Hl1 & Hc1 & _).
  pose proof Hok as (_ & Hl & Hcb & _).
  assert (E : wrap (_length b + n) = _length b + n) by wrap_lia.
  assert (Hfull1 : block_full b1).
  { apply (reserved_block_full n b b1 Hres Hfull He). intros Hlt.
    destruct Hres as [[-> Hle]|(_ & c & fill & Hc & _ & ->)]; [lia|].
    cbn. rewrite E in Hc. exact (Hsize c Hc). }
  assert (Hel : elems b1 = elems b).
  { apply (elems_reserved n b b1 Hres).
    - unfold block_full in Hfull. split; lia.
    - unfold block_full in Hfull1. lia. }
  destruct (push_all_room vs w1 r b1 Hr Hb1 Hfull1 ltac:(lia) Hc1 ltac:(lia))
    as (b2 & Hpush & _ & Hcap2 & Hl2 & He2 & _).
  exists b1, b2. split; [exact Hb1|]. split; [exact Hpush|]. split; [lia|].
  split; [rewrite He2, Hel; reflexivity|]. split; [exact Hcap2|lia].
Qed.

Lemma reserved_pushes_keep_handle_witness :
  exists b1 b2, heap demo_world_reserved !! 1 = Some b1 /\
    push_all 1 [1; 2; 3] demo_world_reserved
      = Some (1, put demo_world_reserved 1 b2) /\
    _length b2 = 3 + Z.of_nat (length [1; 2; 3]) /\
    elems b2 = elems (demo_block 3 10 [7; 8; 9; 0; 0; 0; 0; 0; 0; 0]) ++ [1; 2; 3] /\
    _capacity b2 = _capacity b1 /\ 3 + 9 <= _capacity b1.
Proof.
  apply (reserved_pushes_keep_handle demo_world demo_world_reserved 8 1
           (demo_block 3 10 [7; 8; 9; 0; 0; 0; 0; 0; 0; 0]) 9 [1; 2; 3]).
  - vm_compute. reflexivity.
  - unfold block_ok, SIZE_MOD. cbn. lia.
  - reflexivity.
  - cbn. lia.
  - lia.
  - unfold SIZE_MOD. cbn. lia.
  - intros c Hc. vm_compute in Hc. injection Hc as <-. vm_compute. reflexivity.
  - vm_compute. reflexivity.
  - discriminate.
  - cbn. lia.
Defined.

Lemma da_reserve_refused {A} (w : world A) p b n :
  p <> NULL -> heap w !! p = Some b -> next_answer_fails w ->
  0 <= _length b -> 0 <= n -> _capacity b < _length b + n < 2 ^ 48 ->
  exists w', da_reserve p n w = Some (NULL, w') /\ heap w' = heap w.
Proof.
  intros Hp Hb Hf Hlen Hn Hcap.
  assert (Hw : wrap (_length b + n) = _length b + n) by wrap_lia.
  destruct (failing_realloc w (realloc_f (_mem_funcs b)) p b
              (arr_size (if _length b + n <? 10 then 10
                         else 13 * (_length b + n) / 10) (_elemsz b)) Hp Hb Hf)
    as (w' & Hrun & Hh).
  exists w'. split; [|exact Hh]. unfold da_reserve.
  rewrite (bind_eq _ _ w _ w) by (exact (get_eq _length w p b Hp Hb)).
  rewrite (bind_eq _ _ w _ w) by (exact (get_eq _capacity w p b Hp Hb)).
  rewrite Hw. destruct (Z.leb_spec (_length b + n) (_capacity b)); [lia|].
  rewrite (bind_eq _ _ w _ w)
    by (unfold lift; rewrite new_capacity_closed by lia; reflexivity).
  rewrite (bind_eq _ _ w _ w) by (exact (get_eq _elemsz w p b Hp Hb)).
  rewrite (bind_eq _ _ w _ w) by (exact (deref_eq w p b Hp Hb)).
  rewrite (bind_eq _ _ w _ w') by exact Hrun. reflexivity.
Qed.

(** [_da_insert] when the block is full and the allocator refuses: the value
    is stored through the [NULL] that [da_reserve] returned. *)
Lemma _da_insert_refused {A} (w : world A) p b i (v : A) :
  p <> NULL -> heap w !! p = Some b -> next_answer_fails w ->
  0 <= _length b -> _length b = _capacity b -> _length b + 1 < 2 ^ 48 ->
  _da_insert p i v w = None.
Proof.
  intros Hp Hb Hf Hlen Hfull Hmax.
  assert (Hc1 : _capacity b < _length b + 1 < 2 ^ 48) by (split; [lia|exact Hmax]).
  destruct (da_reserve_refused w p b 1 Hp Hb Hf Hlen ltac:(lia) Hc1) as (w' & Hrun & Hh).
  unfold _da_insert.
  rewrite (bind_eq _ _ w _ w) by (exact (get_eq _length w p b Hp Hb)).
  rewrite (bind_eq _ _ w _ w) by (exact (get_eq _capacity w p b Hp Hb)).
  destruct (Z.eqb_spec (_length b) (_capacity b)); [|contradiction].
  rewrite (bind_eq _ _ w _ w') by exact Hrun. reflexivity.
Qed.

(** X10 (_da_push, _da_insert, da_insert_arr, da_concat, da_reserve).
    Whenever da_push, da_insert_arr or da_concat returns NULL, the heap is
    exactly as it was before the call, so the darray is intact under its
    old handle; and when the capacity does not suffice and the allocator
    refuses, each of the three does return NULL.  da_insert is different:
    it never returns NULL, and when its reallocation fails it has no
    defined result, because of the three statements of
    _da_move_and_insert only the memmove is guarded by the NULL test and
    the value is stored through the NULL handle. *)
Theorem failed_growth_leaves_darray {A} (w : world A) (p : addr) (b : _darray A)
    (v : A) (i : Z) (src : list A) (n : Z) :
  p <> NULL -> heap w !! p = Some b ->
  (forall w',
     _da_push p v w = Some (NULL, w') \/
     da_insert_arr p i src n w = Some (NULL, w') \/
     da_concat p src n w = Some (NULL, w') ->
     heap w' = heap w) /\
  (forall r w', _da_insert p i v w = Some (r, w') -> r <> NULL) /\
  (next_answer_fails w -> 0 <= _length b ->
   (_length b = _capacity b -> _length b + 1 < 2 ^ 48 ->
    (exists w', _da_push p v w = Some (NULL, w') /\ heap w' = heap w) /\
    _da_insert p i v w = None) /\
   (0 <= n -> _capacity b < _length b + n < 2 ^ 48 ->
    (exists w', da_insert_arr p i src n w = Some (NULL, w') /\ heap w' = heap w) /\
    (exists w', da_concat p src n w = Some (NULL, w') /\ heap w' = heap w))).
Proof.
  intros Hp Hb. split; [|split].
  - intros w' [Hrun|[Hrun|Hrun]].
    + destruct (wp_elim _ _ _ _ _ (_da_push_spec p v w) Hrun)
        as (b0 & _ & _ & [(_ & Hh & _)|(b1 & _ & _ & (Hq & _))]); [exact Hh|].
      contradiction.
    + destruct (wp_elim _ _ _ _ _ (da_insert_arr_spec p i src n w) Hrun)
        as (b0 & _ & _ & [(_ & Hh)|(b1 & _ & _ & _ & _ & (Hq & _))]); [exact Hh|].
      contradiction.
    + destruct (wp_elim _ _ _ _ _ (da_concat_spec p src n w) Hrun)
        as (b0 & _ & _ & [(_ & Hh)|(b1 & _ & _ & _ & _ & (Hq & _))]); [exact Hh|].
      contradiction.
  - intros r w' Hrun.
    destruct (wp_elim _ _ _ _ _ (_da_insert_spec p i v w) Hrun)
      as (b0 & _ & _ & b1 & _ & _ & (Hq & _)).
    exact Hq.
  - intros Hf Hlen. split.
    + intros Hfull Hmax.
      assert (Hc1 : _capacity b < _length b + 1 < 2 ^ 48) by (split; [lia|exact Hmax]).
      destruct (da_reserve_refused w p b 1 Hp Hb Hf Hlen ltac:(lia) Hc1) as (w' & Hrun & Hh).
      split.
      * exists w'. split; [|exact Hh]. unfold _da_push.
        rewrite (bind_eq _ _ w _ w) by (exact (get_eq _length w p b Hp Hb)).
        rewrite (bind_eq _ _ w _ w) by (exact (get_eq _capacity w p b Hp Hb)).
        destruct (Z.eqb_spec (_length b) (_capacity b)); [|contradiction].
        rewrite (bind_eq _ _ w _ w') by exact Hrun. reflexivity.
      * apply (_da_insert_refused w p b); assumption.
    + intros Hn Hcap.
      destruct (da_reserve_refused w p b n Hp Hb Hf Hlen Hn Hcap) as (w' & Hrun & Hh).
      split; exists w'; (split; [|exact Hh]).
      * unfold da_insert_arr.
        rewrite (bind_eq _ _ w _ w') by exact Hrun. reflexivity.
      * unfold da_concat.
        rewrite (bind_eq _ _ w _ w) by (exact (get_eq _length w p b Hp Hb)).
        rewrite (bind_eq _ _ w _ w') by exact Hrun. reflexivity.
Qed.

Lemma failed_growth_leaves_darray_witness :
  (exists w', _da_push 8 5 demo_world_full = Some (NULL, w') /\
              heap w' = heap demo_world_full) /\
  _da_insert 8 1 5 demo_world_full = None /\
  (exists w', da_insert_arr 8 1 [1; 2] 2 demo_world_full = Some (NULL, w') /\
              heap w' = heap demo_world_full) /\
  (exists w', da_concat 8 [1; 2] 2 demo_world_full = Some (NULL, w') /\
              heap w' = heap demo_world_full).
Proof.
  assert (Hf : next_answer_fails demo_world_full) by (left; reflexivity).
  destruct (failed_growth_leaves_darray demo_world_full 8 (demo_block 3 3 [7; 8; 9])
              5 1 [1; 2] 2 ltac:(discriminate) eq_refl) as (_ & _ & H).
  destruct (H Hf ltac:(cbn; lia)) as [H1 H2].
  destruct (H1 eq_refl ltac:(cbn; lia)) as [Hpush Hins].
  destruct (H2 ltac:(lia) ltac:(cbn; lia)) as [Harr Hcat].
  split; [exact Hpush|]. split; [exact Hins|]. split; [exact Harr|exact Hcat].
Defined.

Section Loops.
Context {A : Type}.
Implicit Types (w : world A) (p q r : addr) (b : _darray A).

Lemma put_id w p b : heap w !! p = Some b -> put w p b = w.
Proof.
  intros Hb. destruct w as [h a]. unfold put. cbn in *. f_equal.
  apply insert_id. exact Hb.
Qed.

Lemma upd_data_id b : upd_data (_data b) b = b.
Proof. destruct b. reflexivity. Qed.

Lemma upd_data_upd_data b d d' : upd_data d' (upd_data d b) = upd_data d' b.
Proof. reflexivity. Qed.

(** The slots [k .. k+n-1] of a block overwritten by [v]. *)
Lemma _da_fill_loop_eq v n : forall w p b (k : Z),
  p <> NULL -> heap w !! p = Some b -> 0 <= k ->
  k + Z.of_nat n <= Z.of_nat (length (_data b)) ->
  _da_fill_loop p v k n w
  = Some (tt, put w p (upd_data (take (Z.to_nat k) (_data b) ++ replicate n v
                                   ++ drop (Z.to_nat k + n) (_data b)) b)).
Proof.
  induction n as [|n IH]; intros w p b k Hp Hb Hk Hfit.
  - cbn [_da_fill_loop replicate app]. rewrite Nat.add_0_r, take_drop, upd_data_id.
    rewrite put_id by assumption. reflexivity.
  - cbn [_da_fill_loop].
    rewrite (bind_eq _ _ w _ _) by (apply (poke_eq w p b); [assumption|assumption|lia]).
    rewrite (IH _ p _ (k + 1) Hp (lookup_put _ _ _)); [|lia|].
    2:{ cbn [_data upd_data]. rewrite length_insert. lia. }
    rewrite put_put. cbn [_data upd_data]. rewrite upd_data_upd_data.
    do 3 f_equal.
    replace (Z.to_nat (k + 1)) with (S (Z.to_nat k)) by lia.
    rewrite (take_S_r _ _ v) by (apply list_lookup_insert_eq; lia).
    rewrite take_insert_ge by lia.
    rewrite drop_insert_lt by lia.
    rewrite <- app_assoc. cbn [replicate app].
    replace (S (Z.to_nat k) + n)%nat with (Z.to_nat k + S n)%nat by lia.
    reflexivity.
Qed.

(** Loop rule of [_da_foreach]: an invariant of the loop body holds at the
    end, and the loop returns. *)
Lemma _da_foreach_loop_inv {L} (body : Z -> L -> M A L)
    (I : Z -> L -> world A -> Prop) n : forall k s w,
  (forall j s w, k <= j < k + Z.of_nat n -> I j s w ->
     exists s' w', body j s w = Some (s', w') /\ I (j + 1) s' w') ->
  I k s w ->
  exists s' w', _da_foreach_loop body k n s w = Some (s', w') /\
                I (k + Z.of_nat n) s' w'.
Proof.
  induction n as [|n IH]; intros k s w Hbody HI.
  - exists s, w. rewrite Z.add_0_r. split; [reflexivity|exact HI].
  - destruct (Hbody k s w ltac:(lia) HI) as (s1 & w1 & Hrun & HI1).
    destruct (IH (k + 1) s1 w1) as (s' & w' & Hloop & HI').
    + intros j s0 w0 Hj. apply Hbody. lia.
    + exact HI1.
    + exists s', w'. cbn [_da_foreach_loop].
      rewrite (bind_eq _ _ w _ _ Hrun).
      split; [exact Hloop|]. replace (k + Z.of_nat (S n)) with (k + 1 + Z.of_nat n) by lia.
      exact HI'.
Qed.

Lemma peek_eq w p b i v :
  p <> NULL -> heap w !! p = Some b -> 0 <= i ->
  _data b !! Z.to_nat i = Some v -> peek p i w = Some (v, w).
Proof.
  intros Hp Hb Hi Hv. unfold peek.
  rewrite (bind_eq _ _ w _ w) by (exact (deref_eq w p b Hp Hb)).
  destruct (Z.leb_spec 0 i); [|lia]. unfold lift. rewrite Hv. reflexivity.
Qed.

(** A body that reads the element and updates the local state. *)
Lemma _da_foreach_fold {L} (f : L -> A -> L) w p b (s0 : L) :
  p <> NULL -> heap w !! p = Some b -> fits b ->
  _da_foreach p (fun i s => v <- peek p i ;; ret (f s v)) s0 w
  = Some (fold_left f (elems b) s0, w).
Proof.
  intros Hp Hb [Hf Hm]. unfold _da_foreach.
  rewrite (bind_eq _ _ w _ w) by (exact (get_eq _length w p b Hp Hb)).
  destruct (_da_foreach_loop_inv (fun i s => v <- peek p i ;; ret (f s v))
              (fun j s w' => w' = w /\ 0 <= j <= _length b /\
                             s = fold_left f (take (Z.to_nat j) (_data b)) s0)
              (Z.to_nat (_length b)) 0 s0 w) as (s' & w' & Hrun & -> & _ & ->).
  - intros j s w0 Hj (-> & Hj' & ->).
    assert (Hlt : (Z.to_nat j < length (_data b))%nat) by lia.
    destruct (lookup_lt_is_Some_2 _ _ Hlt) as [v Hv].
    exists (f (fold_left f (take (Z.to_nat j) (_data b)) s0) v), w.
    split.
    + rewrite (bind_eq _ _ w v w) by (apply (peek_eq w p b); auto; lia). reflexivity.
    + split; [reflexivity|]. split; [lia|].
      replace (Z.to_nat (j + 1)) with (S (Z.to_nat j)) by lia.
      rewrite (take_S_r _ _ v Hv), fold_left_app. reflexivity.
  - split; [reflexivity|]. split; [lia|]. reflexivity.
  - rewrite Hrun. unfold elems. repeat f_equal. lia.
Qed.

(** A body that assigns to the element it points to. *)
Lemma _da_foreach_map (f : A -> A) w p b :
  p <> NULL -> heap w !! p = Some b -> fits b ->
  _da_foreach p (fun i (_ : unit) => v <- peek p i ;; poke p i (f v)) tt w
  = Some (tt, put w p (upd_data (map f (elems b)
                                   ++ drop (Z.to_nat (_length b)) (_data b)) b)).
Proof.
  intros Hp Hb [Hf Hm]. unfold _da_foreach.
  rewrite (bind_eq _ _ w _ w) by (exact (get_eq _length w p b Hp Hb)).
  destruct (_da_foreach_loop_inv
              (fun i (_ : unit) => v <- peek p i ;; poke p i (f v))
              (fun j _ w' => 0 <= j <= _length b /\
                 w' = put w p (upd_data (map f (take (Z.to_nat j) (_data b))
                                           ++ drop (Z.to_nat j) (_data b)) b))
              (Z.to_nat (_length b)) 0 tt w) as (s' & w' & Hrun & _ & ->).
  - intros j s w0 Hj (Hj' & ->).
    assert (Hlt : (Z.to_nat j < length (_data b))%nat) by lia.
    destruct (lookup_lt_is_Some_2 _ _ Hlt) as [v Hv].
    set (d := map f (take (Z.to_nat j) (_data b)) ++ drop (Z.to_nat j) (_data b)).
    assert (Hd : d !! Z.to_nat j = Some v).
    { unfold d. rewrite lookup_app_r by (rewrite length_map, length_take; lia).
      rewrite length_map, length_take, lookup_drop.
      rewrite <- Hv. f_equal. lia. }
    assert (Hdl : length d = length (_data b)).
    { unfold d. rewrite length_app, length_map, length_take, length_drop. lia. }
    exists tt. eexists. split.
    + rewrite (bind_eq _ _ _ v _)
        by (apply (peek_eq _ p (upd_data d b)); auto using lookup_put; lia).
      apply (poke_eq _ p (upd_data d b)); [assumption|apply lookup_put|].
      cbn [_data upd_data]. lia.
    + split; [lia|]. rewrite put_put. cbn [_data upd_data].
      rewrite upd_data_upd_data. do 2 f_equal.
      replace (Z.to_nat (j + 1)) with (S (Z.to_nat j)) by lia.
      rewrite (take_S_r _ _ v Hv), map_app. cbn [map].
      unfold d. rewrite insert_app_r_alt by (rewrite length_map, length_take; lia).
      rewrite length_map, length_take.
      replace (Z.to_nat j - Z.to_nat j `min` length (_data b))%nat with O by lia.
      rewrite (drop_S _ v _ Hv). cbn. rewrite <- app_assoc. reflexivity.
  - split; [lia|]. change (Z.to_nat 0) with O. rewrite take_0, drop_0.
    cbn [map app]. rewrite upd_data_id.
    rewrite put_id by assumption. reflexivity.
  - rewrite Hrun. replace (0 + Z.of_nat (Z.to_nat (_length b))) with (_length b) by lia.
    destruct s'. reflexivity.
Qed.

End Loops.

(** X11 (_da_fill).  da_fill always returns and sets each of the length
    elements of the darray to the value; length, capacity and the slots
    behind the length are unchanged (on an empty darray nothing is written). *)
Theorem da_fill_fills {A} (w : world A) (p : addr) (b : _darray A) (v : A) :
  p <> NULL -> heap w !! p = Some b -> fits b ->
  exists b', _da_fill p v w = Some (tt, put w p b') /\
    elems b' = replicate (Z.to_nat (_length b)) v /\
    _length b' = _length b /\ _capacity b' = _capacity b /\
    drop (Z.to_nat (_length b)) (_data b') = drop (Z.to_nat (_length b)) (_data b).
Proof.
  intros Hp Hb [Hf Hm].
  exists (upd_data (replicate (Z.to_nat (_length b)) v
                      ++ drop (Z.to_nat (_length b)) (_data b)) b).
  split.
  - unfold _da_fill.
    rewrite (bind_eq _ _ w _ w) by (exact (get_eq _length w p b Hp Hb)).
    rewrite (_da_fill_loop_eq v _ w p b 0) by (assumption || lia).
    change (Z.to_nat 0) with O. rewrite take_0. reflexivity.
  - unfold elems. cbn [_length _capacity _data upd_data].
    split; [|split; [reflexivity|split; [reflexivity|]]].
    + apply take_app_length'. rewrite length_replicate. reflexivity.
    + apply drop_app_length'. rewrite length_replicate. reflexivity.
Qed.

Lemma da_fill_fills_witness :
  exists b', _da_fill 8 5 demo_world = Some (tt, put demo_world 8 b') /\
    elems b' = replicate (Z.to_nat 3) 5 /\
    _length b' = 3 /\ _capacity b' = 10 /\
    drop (Z.to_nat 3) (_data b') = drop (Z.to_nat 3) [7; 8; 9; 0; 0; 0; 0; 0; 0; 0].
Proof.
  apply (da_fill_fills demo_world 8 (demo_block 3 10 [7; 8; 9; 0; 0; 0; 0; 0; 0; 0]) 5).
  - discriminate.
  - vm_compute. reflexivity.
  - unfold fits, SIZE_MOD. cbn. lia.
Defined.

(** X12 (_da_foreach).  A da_foreach loop visits the elements from index 0
    to length-1, each exactly once and in order: a body that accumulates the
    elements computes their left fold, and a body that overwrites the
    current element with g of it maps g over the elements, leaving length,
    capacity and the slots behind the length unchanged. *)
Theorem da_foreach_visits_in_order {A L} (w : world A) (p : addr) (b : _darray A)
    (f : L -> A -> L) (g : A -> A) (s0 : L) :
  p <> NULL -> heap w !! p = Some b -> fits b ->
  _da_foreach p (fun i s => v <- peek p i ;; ret (f s v)) s0 w
    = Some (fold_left f (elems b) s0, w) /\
  exists b', _da_foreach p (fun i (_ : unit) => v <- peek p i ;; poke p i (g v)) tt w
             = Some (tt, put w p b') /\
    elems b' = map g (elems b) /\ _length b' = _length b /\
    _capacity b' = _capacity b /\
    drop (Z.to_nat (_length b)) (_data b') = drop (Z.to_nat (_length b)) (_data b).
Proof.
  intros Hp Hb Hfit. split; [exact (_da_foreach_fold f w p b s0 Hp Hb Hfit)|].
  eexists. split; [exact (_da_foreach_map g w p b Hp Hb Hfit)|].
  assert (Hl : length (map g (elems b)) = Z.to_nat (_length b))
    by (rewrite length_map; apply length_elems; assumption).
  unfold elems at 1. cbn [_length _capacity _data upd_data].
  split; [apply take_app_length'; symmetry; exact Hl|].
  split; [reflexivity|]. split; [reflexivity|].
  apply drop_app_length'. symmetry. exact Hl.
Qed.

Lemma da_foreach_visits_in_order_witness :
  _da_foreach 8 (fun i s => v <- peek 8 i ;; ret (s + v)) 0 demo_world
    = Some (fold_left Z.add (elems (demo_block 3 10 [7; 8; 9; 0; 0; 0; 0; 0; 0; 0])) 0,
            demo_world) /\
  exists b', _da_foreach 8 (fun i (_ : unit) => v <- peek 8 i ;; poke 8 i (Z.succ v)) tt
               demo_world
             = Some (tt, put demo_world 8 b') /\
    elems b' = map Z.succ (elems (demo_block 3 10 [7; 8; 9; 0; 0; 0; 0; 0; 0; 0])) /\
    _length b' = 3 /\ _capacity b' = 10 /\
    drop (Z.to_nat 3) (_data b') = drop (Z.to_nat 3) [7; 8; 9; 0; 0; 0; 0; 0; 0; 0].
Proof.
  apply (da_foreach_visits_in_order demo_world 8
           (demo_block 3 10 [7; 8; 9; 0; 0; 0; 0; 0; 0; 0]) Z.add Z.succ 0).
  - discriminate.
  - vm_compute. reflexivity.
  - unfold fits, SIZE_MOD. cbn. lia.
Defined.

Section Swap.
Implicit Types (w : world (list Z)) (p : addr) (b : _darray (list Z)).

Lemma byte_offset sz idx j :
  0 < sz -> 0 <= idx -> 0 <= j < sz ->
  (idx * sz + j) / sz = idx /\ (idx * sz + j) mod sz = j.
Proof.
  intros Hsz Hidx Hj.
  rewrite Z.add_comm, Z.div_add, Z.mod_add by lia.
  rewrite Z.div_small, Z.mod_small by lia. lia.
Qed.

Lemma peek_byte_eq w p b (idx j : Z) e v :
  p <> NULL -> heap w !! p = Some b -> 0 < _elemsz b ->
  0 <= idx -> 0 <= j < _elemsz b ->
  _data b !! Z.to_nat idx = Some e -> e !! Z.to_nat j = Some v ->
  peek_byte p (idx * _elemsz b + j) w = Some (v, w).
Proof.
  intros Hp Hb Hsz Hidx Hj He Hv. unfold peek_byte.
  rewrite (bind_eq _ _ w _ w) by (exact (deref_eq w p b Hp Hb)).
  destruct (byte_offset (_elemsz b) idx j Hsz Hidx Hj) as [-> ->].
  destruct (Z.ltb_spec 0 (_elemsz b)); [|lia].
  destruct (Z.leb_spec 0 (idx * _elemsz b + j)); [|nia].
  cbn [andb]. rewrite He. unfold lift. rewrite Hv. reflexivity.
Qed.

Lemma poke_byte_eq w p b (idx j : Z) e v :
  p <> NULL -> heap w !! p = Some b -> 0 < _elemsz b ->
  0 <= idx -> 0 <= j < _elemsz b ->
  _data b !! Z.to_nat idx = Some e -> j < Z.of_nat (length e) ->
  poke_byte p (idx * _elemsz b + j) v w
  = Some (tt, put w p (upd_data (<[Z.to_nat idx := <[Z.to_nat j := v]> e]> (_data b)) b)).
Proof.
  intros Hp Hb Hsz Hidx Hj He Hl. unfold poke_byte.
  rewrite (bind_eq _ _ w _ w) by (exact (deref_eq w p b Hp Hb)).
  destruct (byte_offset (_elemsz b) idx j Hsz Hidx Hj) as [-> ->].
  destruct (Z.ltb_spec 0 (_elemsz b)); [|lia].
  destruct (Z.leb_spec 0 (idx * _elemsz b + j)); [|nia].
  cbn [andb]. rewrite He.
  destruct (Z.ltb_spec j (Z.of_nat (length e))); [|lia].
  unfold set_data.
  rewrite (bind_eq _ _ w _ w) by (exact (deref_eq w p b Hp Hb)). reflexivity.
Qed.

Lemma mix_0 x y : mix 0 x y = x.
Proof. unfold mix. rewrite take_0, drop_0. reflexivity. Qed.

Lemma mix_all n x y : n = length x -> n = length y -> mix n x y = y.
Proof.
  intros -> E. unfold mix. rewrite drop_all, E, firstn_all, app_nil_r. reflexivity.
Qed.

Lemma length_mix j x y : length x = length y -> length (mix j x y) = length x.
Proof. intros E. unfold mix. rewrite length_app, length_take, length_drop. lia. Qed.

Lemma mix_lookup j x y :
  length x = length y -> (j < length x)%nat -> mix j x y !! j = x !! j.
Proof.
  intros E Hj. unfold mix. rewrite lookup_app_r by (rewrite length_take; lia).
  rewrite length_take, lookup_drop. f_equal. lia.
Qed.

Lemma mix_step j x y yj :
  length x = length y -> y !! j = Some yj ->
  <[j := yj]> (mix j x y) = mix (S j) x y.
Proof.
  intros E Hy. pose proof (lookup_lt_Some _ _ _ Hy) as Hj.
  assert (Hlt : (j < length x)%nat) by lia.
  destruct (lookup_lt_is_Some_2 _ _ Hlt) as [xj Hx].
  unfold mix. rewrite insert_app_r_alt by (rewrite length_take; lia).
  rewrite length_take. replace (j - j `min` length y)%nat with O by lia.
  rewrite (drop_S _ _ _ Hx). cbn [insert list_insert].
  rewrite (take_S_r _ _ _ Hy), <- app_assoc. reflexivity.
Qed.

Section Distinct.
Variables (p : addr) (b0 : _darray (list Z)) (ia ib : nat) (ea eb : list Z).
Hypothesis Hp : p <> NULL.
Hypothesis Hsz : 0 < _elemsz b0.
Hypothesis Hne : ia <> ib.
Hypothesis Ha : _data b0 !! ia = Some ea.
Hypothesis Hb : _data b0 !! ib = Some eb.
Hypothesis Hla : Z.of_nat (length ea) = _elemsz b0.
Hypothesis Hlb : Z.of_nat (length eb) = _elemsz b0.

Lemma swapping_lookup_a j : swapping b0 ia ib ea eb j !! ia = Some (mix j ea eb).
Proof.
  unfold swapping. apply list_lookup_insert_eq. rewrite length_insert.
  apply (lookup_lt_Some _ _ _ Ha).
Qed.

Lemma swapping_lookup_b j : swapping b0 ia ib ea eb j !! ib = Some (mix j eb ea).
Proof.
  unfold swapping. rewrite list_lookup_insert_ne by assumption.
  apply list_lookup_insert_eq. apply (lookup_lt_Some _ _ _ Hb).
Qed.

Lemma _da_memswap_loop_distinct n : forall (j : nat) w,
  (j + n)%nat = length ea ->
  heap w !! p = Some (upd_data (swapping b0 ia ib ea eb j) b0) ->
  _da_memswap_loop p (Z.of_nat ia * _elemsz b0) (Z.of_nat ib * _elemsz b0)
    (Z.of_nat j) n w
  = Some (tt, put w p (upd_data (swapping b0 ia ib ea eb (length ea)) b0)).
Proof.
  assert (Hlen : length ea = length eb) by lia.
  induction n as [|n IH]; intros j w Hj Hw.
  - cbn [_da_memswap_loop]. rewrite Nat.add_0_r in Hj. subst j.
    rewrite put_id by assumption. reflexivity.
  - cbn [_da_memswap_loop].
    assert (Hlt : (j < length ea)%nat) by lia.
    destruct (lookup_lt_is_Some_2 ea j Hlt) as [xa Hxa].
    destruct (lookup_lt_is_Some_2 eb j ltac:(lia)) as [xb Hxb].
    set (b1 := upd_data (swapping b0 ia ib ea eb j) b0) in *.
    assert (He1 : _elemsz b1 = _elemsz b0) by reflexivity.
    rewrite <- He1.
    rewrite (bind_eq _ _ w xa w).
    2:{ apply (peek_byte_eq w p b1 (Z.of_nat ia) (Z.of_nat j) (mix j ea eb));
          try assumption; try lia.
        - rewrite Nat2Z.id. apply swapping_lookup_a.
        - rewrite Nat2Z.id, mix_lookup by lia. exact Hxa. }
    rewrite (bind_eq _ _ w xb w).
    2:{ apply (peek_byte_eq w p b1 (Z.of_nat ib) (Z.of_nat j) (mix j eb ea));
          try assumption; try lia.
        - rewrite Nat2Z.id. apply swapping_lookup_b.
        - rewrite Nat2Z.id, mix_lookup by lia. exact Hxb. }
    erewrite (bind_eq _ _ w tt _).
    2:{ apply (poke_byte_eq w p b1 (Z.of_nat ia) (Z.of_nat j) (mix j ea eb));
          try assumption; try lia.
        - rewrite Nat2Z.id. apply swapping_lookup_a.
        - rewrite length_mix by lia. lia. }
    rewrite !Nat2Z.id. rewrite (mix_step j ea eb xb Hlen Hxb).
    cbn [_data upd_data b1]. unfold swapping at 1. rewrite list_insert_insert_eq.
    set (d1 := <[ia := mix (S j) ea eb]> (<[ib := mix j eb ea]> (_data b0))).
    set (b2 := upd_data d1 b1).
    assert (He2 : _elemsz b2 = _elemsz b1) by reflexivity.
    rewrite <- He2.
    erewrite (bind_eq _ _ _ tt _).
    2:{ apply (poke_byte_eq _ p b2 (Z.of_nat ib) (Z.of_nat j) (mix j eb ea));
          try assumption; try lia.
        - apply lookup_put.
        - rewrite Nat2Z.id. cbn [_data b2 upd_data]. unfold d1.
          rewrite list_lookup_insert_ne by assumption.
          apply list_lookup_insert_eq. apply (lookup_lt_Some _ _ _ Hb).
        - rewrite length_mix by lia. lia. }
    rewrite put_put, !Nat2Z.id.
    rewrite (mix_step j eb ea xa (eq_sym Hlen) Hxa).
    cbn [_data upd_data b2]. unfold d1.
    rewrite (list_insert_insert_ne _ ib ia) by auto. rewrite list_insert_insert_eq.
    fold (swapping b0 ia ib ea eb (S j)).
    replace (Z.of_nat j + 1) with (Z.of_nat (S j)) by lia.
    rewrite He2, He1.
    rewrite (IH (S j)); [rewrite put_put; reflexivity|lia|apply lookup_put].
Qed.

End Distinct.

(** Swapping an element with itself: the loop rewrites every byte with its
    own value. *)
Lemma _da_memswap_loop_same p b (ia : nat) e n : forall (j : nat) w,
  p <> NULL -> 0 < _elemsz b -> _data b !! ia = Some e ->
  Z.of_nat (length e) = _elemsz b ->
  (j + n)%nat = length e ->
  heap w !! p = Some b ->
  _da_memswap_loop p (Z.of_nat ia * _elemsz b) (Z.of_nat ia * _elemsz b)
    (Z.of_nat j) n w = Some (tt, w).
Proof.
  induction n as [|n IH]; intros j w Hp Hsz He Hl Hj Hw; [reflexivity|].
  cbn [_da_memswap_loop].
  assert (Hlt : (j < length e)%nat) by lia.
  destruct (lookup_lt_is_Some_2 e j Hlt) as [x Hx].
  assert (Hpeek : peek_byte p (Z.of_nat ia * _elemsz b + Z.of_nat j) w = Some (x, w)).
  { apply (peek_byte_eq w p b (Z.of_nat ia) (Z.of_nat j) e); try assumption; try lia.
    - rewrite Nat2Z.id. exact He.
    - rewrite Nat2Z.id. exact Hx. }
  assert (Hpoke : poke_byte p (Z.of_nat ia * _elemsz b + Z.of_nat j) x w = Some (tt, w)).
  { rewrite (poke_byte_eq w p b (Z.of_nat ia) (Z.of_nat j) e); try assumption; try lia.
    - rewrite !Nat2Z.id, (list_insert_id e j x Hx), (list_insert_id _ ia e He).
      rewrite upd_data_id, put_id by assumption. reflexivity.
    - rewrite Nat2Z.id. exact He. }
  rewrite (bind_eq _ _ w x w Hpeek), (bind_eq _ _ w x w Hpeek).
  rewrite (bind_eq _ _ w tt w Hpoke), (bind_eq _ _ w tt w Hpoke).
  replace (Z.of_nat j + 1) with (Z.of_nat (S j)) by lia.
  apply IH; auto. lia.
Qed.

End Swap.

(** What [da_swap] does, and that it returns. *)
Lemma da_swap_eq (w : world (list Z)) (p : addr) (b : _darray (list Z))
    (index_a index_b : Z) (ea eb : list Z) :
  p <> NULL -> heap w !! p = Some b -> bytes_ok b ->
  0 <= index_a -> 0 <= index_b ->
  _data b !! Z.to_nat index_a = Some ea -> _data b !! Z.to_nat index_b = Some eb ->
  da_swap p index_a index_b w
  = Some (tt, put w p (upd_data (<[Z.to_nat index_a := eb]>
                                   (<[Z.to_nat index_b := ea]> (_data b))) b)).
Proof.
  intros Hp Hb (Hsz & Hall & Hmax) Ha Hbi Hea Heb.
  pose proof (lookup_lt_Some _ _ _ Hea) as Hlta.
  pose proof (lookup_lt_Some _ _ _ Heb) as Hltb.
  assert (Hla : Z.of_nat (length ea) = _elemsz b)
    by (exact (proj1 (Forall_lookup _ _) Hall _ _ Hea)).
  assert (Hlb : Z.of_nat (length eb) = _elemsz b)
    by (exact (proj1 (Forall_lookup _ _) Hall _ _ Heb)).
  unfold da_swap.
  rewrite (bind_eq _ _ w _ w) by (exact (get_eq _elemsz w p b Hp Hb)).
  assert (Ea : wrap (index_a * _elemsz b) = Z.of_nat (Z.to_nat index_a) * _elemsz b).
  { rewrite Z2Nat.id by lia. unfold wrap. apply Z.mod_small. nia. }
  assert (Eb : wrap (index_b * _elemsz b) = Z.of_nat (Z.to_nat index_b) * _elemsz b).
  { rewrite Z2Nat.id by lia. unfold wrap. apply Z.mod_small. nia. }
  rewrite Ea, Eb. unfold _da_memswap.
  change 0 with (Z.of_nat 0).
  replace (Z.to_nat (_elemsz b)) with (length ea) by lia.
  destruct (Nat.eq_dec (Z.to_nat index_a) (Z.to_nat index_b)) as [E|Hne].
  - rewrite <- E in *. assert (eb = ea) by congruence. subst eb.
    rewrite (_da_memswap_loop_same p b (Z.to_nat index_a) ea (length ea) 0 w);
      try assumption; try lia.
    rewrite list_insert_insert_eq, (list_insert_id _ _ ea Hea), upd_data_id.
    rewrite put_id by assumption. reflexivity.
  - rewrite (_da_memswap_loop_distinct p b (Z.to_nat index_a) (Z.to_nat index_b)
               ea eb Hp Hsz Hne Hea Heb Hla Hlb (length ea) 0 w); [| lia |].
    + unfold swapping. rewrite !mix_all by lia. reflexivity.
    + unfold swapping. rewrite !mix_0.
      rewrite (list_insert_id _ (Z.to_nat index_b) eb Heb).
      rewrite (list_insert_id _ (Z.to_nat index_a) ea Hea).
      rewrite upd_data_id. exact Hb.
Qed.

Lemma bytes_ok_swapped (b : _darray (list Z)) (ia ib : nat) (ea eb : list Z) :
  bytes_ok b -> _data b !! ia = Some ea -> _data b !! ib = Some eb ->
  bytes_ok (upd_data (<[ia := eb]> (<[ib := ea]> (_data b))) b).
Proof.
  intros (Hsz & Hall & Hmax) Ha Hb. unfold bytes_ok. cbn [_elemsz _data upd_data].
  split; [exact Hsz|]. split.
  - apply Forall_insert; [apply Forall_insert; [exact Hall|]|].
    + exact (proj1 (Forall_lookup _ _) Hall _ _ Ha).
    + exact (proj1 (Forall_lookup _ _) Hall _ _ Hb).
  - rewrite !length_insert. exact Hmax.
Qed.

Lemma swapped_back {X} (d : list X) (ia ib : nat) (ea eb : X) :
  d !! ia = Some ea -> d !! ib = Some eb ->
  <[ia := ea]> (<[ib := eb]> (<[ia := eb]> (<[ib := ea]> d))) = d.
Proof.
  intros Ha Hb. destruct (Nat.eq_dec ia ib) as [<-|Hne].
  - assert (eb = ea) by congruence. subst eb.
    rewrite !list_insert_insert_eq. apply list_insert_id. exact Ha.
  - rewrite (list_insert_insert_ne _ ib ia) by auto.
    rewrite !list_insert_insert_eq.
    rewrite (list_insert_id _ ib eb Hb). apply list_insert_id. exact Ha.
Qed.

(** X13 (da_swap, _da_memswap).  da_swap(darr, index_a, index_b) on two
    indices inside the block always returns and exchanges the two elements
    byte by byte; every other element and the header (length, capacity,
    element size) are unchanged, swapping an element with itself changes
    nothing, and a second da_swap with the same indices restores the
    original state. *)
Theorem da_swap_exchanges (w : world (list Z)) (p : addr) (b : _darray (list Z))
    (index_a index_b : Z) (ea eb : list Z) :
  p <> NULL -> heap w !! p = Some b -> bytes_ok b ->
  0 <= index_a -> 0 <= index_b ->
  _data b !! Z.to_nat index_a = Some ea -> _data b !! Z.to_nat index_b = Some eb ->
  exists b', da_swap p index_a index_b w = Some (tt, put w p b') /\
    _data b' !! Z.to_nat index_a = Some eb /\
    _data b' !! Z.to_nat index_b = Some ea /\
    (forall k : nat, k <> Z.to_nat index_a -> k <> Z.to_nat index_b ->
       _data b' !! k = _data b !! k) /\
    _length b' = _length b /\ _capacity b' = _capacity b /\
    _elemsz b' = _elemsz b /\
    da_swap p index_a index_b (put w p b') = Some (tt, w).
Proof.
  intros Hp Hb Hok Ha Hbi Hea Heb.
  pose proof (lookup_lt_Some _ _ _ Hea) as Hlta.
  pose proof (lookup_lt_Some _ _ _ Heb) as Hltb.
  set (d' := <[Z.to_nat index_a := eb]> (<[Z.to_nat index_b := ea]> (_data b))).
  assert (Ha' : d' !! Z.to_nat index_a = Some eb).
  { unfold d'. apply list_lookup_insert_eq. rewrite length_insert. exact Hlta. }
  assert (Hb' : d' !! Z.to_nat index_b = Some ea).
  { unfold d'. destruct (Nat.eq_dec (Z.to_nat index_a) (Z.to_nat index_b)) as [E|Hne].
    - rewrite E in *. assert (eb = ea) by congruence. subst eb.
      apply list_lookup_insert_eq. rewrite length_insert. exact Hltb.
    - rewrite list_lookup_insert_ne by assumption.
      apply list_lookup_insert_eq. exact Hltb. }
  exists (upd_data d' b).
  split; [apply da_swap_eq; assumption|].
  split; [exact Ha'|]. split; [exact Hb'|]. split.
  { intros k Hka Hkb. cbn [_data upd_data]. unfold d'.
    rewrite !list_lookup_insert_ne by auto. reflexivity. }
  do 3 (split; [reflexivity|]).
  rewrite (da_swap_eq (put w p (upd_data d' b)) p (upd_data d' b) index_a index_b eb ea);
    try assumption; try apply lookup_put.
  - rewrite put_put, upd_data_upd_data. cbn [_data upd_data]. unfold d'.
    rewrite (swapped_back _ _ _ ea eb Hea Heb), upd_data_id.
    rewrite put_id by assumption. reflexivity.
  - apply bytes_ok_swapped; assumption.
Qed.

Lemma da_swap_exchanges_witness :
  exists b', da_swap 8 0 2 demo_bytes_world = Some (tt, put demo_bytes_world 8 b') /\
    _data b' !! Z.to_nat 0 = Some [5; 6] /\
    _data b' !! Z.to_nat 2 = Some [1; 2] /\
    (forall k : nat, k <> Z.to_nat 0 -> k <> Z.to_nat 2 ->
       _data b' !! k = [[1; 2]; [3; 4]; [5; 6]; [0; 0]] !! k) /\
    _length b' = 3 /\ _capacity b' = 4 /\ _elemsz b' = 2 /\
    da_swap 8 0 2 (put demo_bytes_world 8 b') = Some (tt, demo_bytes_world).
Proof.
  apply (da_swap_exchanges demo_bytes_world 8
           (Build_darray 2 3 4 DA_DEFAULT_MEM_FUNCS [[1; 2]; [3; 4]; [5; 6]; [0; 0]])
           0 2 [1; 2] [5; 6]).
  - discriminate.
  - vm_compute. reflexivity.
  - unfold bytes_ok, SIZE_MOD. cbn. split; [lia|]. split; [|lia].
    repeat constructor.
  - lia.
  - lia.
  - reflexivity.
  - reflexivity.
Defined.

Section DstrAllocText.
Implicit Types (w : world Z) (p q r : addr) (b : _darray Z).

Lemma new_dstr_intro mf t w r w' b' :
  r <> NULL -> heap w !! r = None -> heap w' = <[r := b']> (heap w) ->
  dstr_inv b' -> dstr_text b' = t -> _mem_funcs b' = mf -> _elemsz b' = 1 ->
  new_dstr mf t w r w'.
Proof.
  intros Hr Hfree Hh Hinv Ht Hmf He. right.
  assert (Hb' : heap w' !! r = Some b') by (rewrite Hh; apply lookup_insert_eq).
  split; [assumption|]. split; [assumption|]. exists b'.
  split; [assumption|]. split; [split; [assumption|]; eauto|].
  split; [assumption|]. split; [assumption|].
  destruct (dstr_length_eq w' r b' Hr Hb' Hinv) as [E _]. rewrite <- Ht. exact E.
Qed.

Lemma fresh_block_ok mf n c fill :
  0 <= n -> n <= c < SIZE_MOD -> sizeof_darray <= arr_size c 1 ->
  block_ok (fresh_block mf n 1 c fill : _darray Z).
Proof.
  intros Hn Hc Hsz. apply block_ok_fresh; try assumption.
  - split; lia.
  - split; unfold SIZE_MOD; lia.
Qed.

Lemma new_dstr_memcpy mf n c w r w1 src t :
  alloc_post mf n 1 c w r w1 -> r <> NULL -> n <= c < SIZE_MOD ->
  take (Z.to_nat n) src = t ++ [0] -> n = Z.of_nat (length t) + 1 ->
  wp (memcpy r 0 src n ;; ret r) w1 (new_dstr mf t w).
Proof.
  intros [(-> & _)|(_ & Hfree & fill & e & Hsz & _ & _ & Hh)] Hr Hc Htake Hn;
    [contradiction|].
  wp_go.
  set (fb := fresh_block mf n 1 c fill : _darray Z) in *.
  assert (Hok : block_ok fb) by (apply fresh_block_ok; [lia|assumption|assumption]).
  assert (Hlen : Z.of_nat (length (t ++ [0])) = n)
    by (rewrite length_app; cbn [length]; lia).
  destruct (dstr_overwritten fb 0 t Hok) as [Hinv Ht]; [lia|lia|].
  assert (Eb : upd_data (blit (_data fb) 0 (take (Z.to_nat n) src)) fb
               = overwritten 0 (t ++ [0]) fb).
  { unfold overwritten. rewrite Htake, Hlen. reflexivity. }
  rewrite Eb.
  apply (new_dstr_intro mf t w r _ (overwritten 0 (t ++ [0]) fb)); auto.
  cbn. rewrite Hh. apply insert_insert_eq.
Qed.

Lemma dstr_alloc_cstr_custom_spec mf src t w :
  c_str src = Some t ->
  wp (dstr_alloc_cstr_custom mf src) w (new_dstr mf t w).
Proof.
  intros Ht. unfold dstr_alloc_cstr_custom. wp_go.
  destruct (strlen_Some _ _ H) as (s & Hs & Hn & Hmax & Htake & _).
  assert (s = t) by congruence. subst s.
  assert (E : wrap (x + 1) = x + 1) by wrap_lia. rewrite E.
  wp_apply da_alloc_custom_spec. intros r w1 (c & Hc & Hpost).
  assert (Hcn : (x + 1) <= c < SIZE_MOD)
    by (refine (proj1 (new_capacity_ge (x + 1) c _ Hc)); lia).
  destruct (Z.eqb_spec r NULL) as [->|Hr].
  - apply wp_ret. left. split; [reflexivity|].
    destruct Hpost as [(_ & Hh & _)|(Hr & _)]; [exact Hh|contradiction].
  - apply (new_dstr_memcpy mf (x + 1) c); auto. lia.
Qed.

Lemma dstr_alloc_format_custom_spec mf rendered w :
  wp (dstr_alloc_format_custom mf rendered) w (new_dstr mf rendered w).
Proof.
  unfold dstr_alloc_format_custom. wp_go.
  destruct (vsnprintf_Some _ _ H) as (Hn & Hmax & Htake & _).
  wp_apply da_alloc_custom_spec. intros r w1 (c & Hc & Hpost).
  assert (Hcn : (x + 1) <= c < SIZE_MOD)
    by (refine (proj1 (new_capacity_ge (x + 1) c _ Hc)); lia).
  destruct (Z.eqb_spec r NULL) as [->|Hr].
  - apply wp_ret. left. split; [reflexivity|].
    destruct Hpost as [(_ & Hh & _)|(Hr & _)]; [exact Hh|contradiction].
  - apply (new_dstr_memcpy mf (x + 1) c); auto. lia.
Qed.

Lemma dstr_alloc_dstr_custom_spec mf src t w :
  has_text w src t ->
  wp (dstr_alloc_dstr_custom mf src) w (new_dstr mf t w).
Proof.
  intros (Hsrc & bs & Hbs & Hinv & Ht). unfold dstr_alloc_dstr_custom.
  wp_go.
  destruct (dstr_inv_elems _ Hinv) as ([Hf Hmax] & Hel & Hlen).

  wp_apply da_alloc_custom_spec. intros r w1 (c & Hc & Hpost).
  assert (Hcn : _length bs <= c < SIZE_MOD)
    by (refine (proj1 (new_capacity_ge (_length bs) c _ Hc)); lia).
  destruct (Z.eqb_spec r NULL) as [->|Hr].
  - apply wp_ret. left. split; [reflexivity|].
    destruct Hpost as [(_ & Hh & _)|(Hr & _)]; [exact Hh|contradiction].
  - wp_prim. wp_prim.
    match goal with H : heap w1 !! src = Some ?b0 |- _ =>
      assert (b0 = bs);
      [destruct Hpost as [(-> & _)|(_ & Hfree & fill & e & _ & _ & _ & Hh)];
         [contradiction|];
       rewrite Hh, lookup_insert_ne in H by congruence; congruence
      |subst b0]
    end.
    apply (new_dstr_memcpy mf (_length bs) c); auto; [|rewrite <- Ht; lia].
    fold (elems bs). rewrite Hel, Ht. reflexivity.
Qed.

Lemma dstr_alloc_empty_custom_spec mf w :
  wp (dstr_alloc_empty_custom mf) w (new_dstr mf [] w).
Proof.
  unfold dstr_alloc_empty_custom.
  wp_apply da_alloc_custom_spec. intros r w1 (c & Hc & Hpost).
  assert (Hcn : 1 <= c < SIZE_MOD)
    by (refine (proj1 (new_capacity_ge 1 c _ Hc)); lia).
  destruct (Z.eqb_spec r NULL) as [->|Hr].
  - apply wp_ret. left. split; [reflexivity|].
    destruct Hpost as [(_ & Hh & _)|(Hr & _)]; [exact Hh|contradiction].
  - destruct Hpost as [(-> & _)|(_ & Hfree & fill & e & Hsz & _ & _ & Hh)];
      [contradiction|].
    wp_go.
    set (fb := fresh_block mf 1 1 c fill : _darray Z) in *.
    assert (Hok : block_ok fb) by (apply fresh_block_ok; [lia|assumption|assumption]).
    set (b' := upd_data (<[Z.to_nat 0 := 0]> (_data fb)) fb).
    destruct (dstr_inv_intro b' []) as [Hinv Ht].
    + apply block_ok_upd_data; [assumption|]. apply length_insert.
    + unfold b'. cbn [_length _data upd_data fb fresh_block]. rewrite length_insert.
      cbn [_data fb fresh_block] in H1. lia.
    + unfold elems, b'. cbn [_length _data upd_data fb fresh_block app].
      change (Z.to_nat 1) with 1%nat. change (Z.to_nat 0) with 0%nat.
      cbn [_data fb fresh_block] in H1.
      destruct (resize_data _ _ _) as [|x0 rest]; [cbn in H1; lia|]. reflexivity.
    + apply (new_dstr_intro mf [] w r _ b'); auto.
      cbn. rewrite Hh. apply insert_insert_eq.
Qed.

End DstrAllocText.

(** X14 (dstr_alloc_empty, dstr_alloc_cstr, dstr_alloc_dstr,
    dstr_alloc_format, dstr_alloc_empty_custom, dstr_alloc_cstr_custom,
    dstr_alloc_dstr_custom, dstr_alloc_format_custom, dstr_length).  Each of
    the eight dstr_alloc functions (empty, cstr, dstr, format and their
    _custom variants) either returns NULL and leaves the heap unchanged, or
    returns a fresh handle to a dstring of element size 1 with the given
    memory functions whose text is the requested one (empty, the C string,
    the text of the source dstring, the rendered format) and whose
    dstr_length is the length of that text; no other block changes. *)
Theorem dstr_alloc_makes_dstring (mf : da_mem_funcs) (src : list Z) (p : addr)
    (rendered t : list Z) (w : world Z) (r : addr) (w' : world Z) :
  (dstr_alloc_empty w = Some (r, w') /\ mf = DA_DEFAULT_MEM_FUNCS /\ t = []) \/
  (dstr_alloc_empty_custom mf w = Some (r, w') /\ t = []) \/
  (dstr_alloc_cstr src w = Some (r, w') /\ mf = DA_DEFAULT_MEM_FUNCS /\
   c_str src = Some t) \/
  (dstr_alloc_cstr_custom mf src w = Some (r, w') /\ c_str src = Some t) \/
  (dstr_alloc_dstr p w = Some (r, w') /\ mf = DA_DEFAULT_MEM_FUNCS /\
   has_text w p t) \/
  (dstr_alloc_dstr_custom mf p w = Some (r, w') /\ has_text w p t) \/
  (dstr_alloc_format rendered w = Some (r, w') /\ mf = DA_DEFAULT_MEM_FUNCS /\
   t = rendered) \/
  (dstr_alloc_format_custom mf rendered w = Some (r, w') /\ t = rendered) ->
  new_dstr mf t w r w'.
Proof.
  intros [(Hrun & -> & ->)|[(Hrun & ->)|[(Hrun & -> & Ht)|[(Hrun & Ht)|
          [(Hrun & -> & Ht)|[(Hrun & Ht)|[(Hrun & -> & ->)|(Hrun & ->)]]]]]]].
  - exact (wp_elim _ _ _ _ _ (dstr_alloc_empty_custom_spec DA_DEFAULT_MEM_FUNCS w) Hrun).
  - exact (wp_elim _ _ _ _ _ (dstr_alloc_empty_custom_spec mf w) Hrun).
  - exact (wp_elim _ _ _ _ _
             (dstr_alloc_cstr_custom_spec DA_DEFAULT_MEM_FUNCS src t w Ht) Hrun).
  - exact (wp_elim _ _ _ _ _ (dstr_alloc_cstr_custom_spec mf src t w Ht) Hrun).
  - exact (wp_elim _ _ _ _ _
             (dstr_alloc_dstr_custom_spec DA_DEFAULT_MEM_FUNCS p t w Ht) Hrun).
  - exact (wp_elim _ _ _ _ _ (dstr_alloc_dstr_custom_spec mf p t w Ht) Hrun).
  - exact (wp_elim _ _ _ _ _
             (dstr_alloc_format_custom_spec DA_DEFAULT_MEM_FUNCS rendered w) Hrun).
  - exact (wp_elim _ _ _ _ _ (dstr_alloc_format_custom_spec mf rendered w) Hrun).
Qed.

Lemma dstr_alloc_makes_dstring_witness :
  new_dstr DA_DEFAULT_MEM_FUNCS (bytes "abc") demo_alloc_world 1
    (world_after (dstr_alloc_cstr (literal (bytes "abc"))) demo_alloc_world).
Proof.
  apply (dstr_alloc_makes_dstring DA_DEFAULT_MEM_FUNCS (literal (bytes "abc")) 0 []
           (bytes "abc") demo_alloc_world 1).
  right. right. left. split; [vm_compute; reflexivity|].
  split; [reflexivity|]. vm_compute. reflexivity.
Defined.

Section DstrText.
Implicit Types (w : world Z) (p q r d : addr) (b : _darray Z).

Lemma dstr_post_now_text p (P : Prop) R (w : world Z) r w' b :
  dstr_post p P R w r w' -> heap w !! p = Some b -> dstr_inv b -> P -> r <> NULL ->
  exists t', R (dstr_text b) t' /\ now_text w p w' r t'.
Proof.
  intros (b0 & q & b' & Hp & Hb0 & Hrel & Hr & _ & H) Hb Hinv HP Hne.
  rewrite Hb in Hb0. injection Hb0 as <-.
  destruct Hr as [Hr|Hr]; [contradiction|]. subst q.
  destruct (H Hne Hinv HP) as [Hinv' HR].
  pose proof (relocated_lookup _ _ _ _ _ Hrel) as Hb'.
  exists (dstr_text b'). split; [exact HR|]. split; [|split].
  - split; [assumption|]. eauto.
  - exact (proj1 (dstr_length_eq w' r b' Hne Hb' Hinv')).
  - intros k x Hk Hx.
    destruct (relocated_frame _ _ _ _ _ k Hrel Hk) as [_ ->]; eauto.
Qed.

(** The appending functions return [NULL] before they have written
    anything. *)
Lemma dstr_concat_cstr_null p src w :
  wp (dstr_concat_cstr p src) w (fun r w' => r = NULL -> heap w' = heap w).
Proof.
  unfold dstr_concat_cstr, dstr_length. wp_go.
  wp_apply da_reserve_spec'.
  intros r w1 (b' & _ & Hb' & [[-> Hh]|(b1 & Hrel & Hres)]).
  - wp_go; auto.
  - pose proof Hrel as (Hr & _ & _). wp_go; contradiction.
Qed.

Lemma dstr_concat_format_null p rendered w :
  wp (dstr_concat_format p rendered) w (fun r w' => r = NULL -> heap w' = heap w).
Proof.
  unfold dstr_concat_format, dstr_length. wp_go.
  wp_apply da_reserve_spec'.
  intros r w1 (b' & _ & Hb' & [[-> Hh]|(b1 & Hrel & Hres)]).
  - wp_go; auto.
  - pose proof Hrel as (Hr & _ & _). wp_go; contradiction.
Qed.

Lemma dstr_concat_dstr_null p src w :
  wp (dstr_concat_dstr p src) w (fun r w' => r = NULL -> heap w' = heap w).
Proof.
  unfold dstr_concat_dstr, dstr_length. wp_go.
  wp_apply da_reserve_spec'.
  intros r w1 (b' & _ & Hb' & [[-> Hh]|(b1 & Hrel & Hres)]).
  - wp_go; auto.
  - pose proof Hrel as (Hr & _ & _). wp_prim. wp_prim; wp_go; contradiction.
Qed.

(** [dstr_concat_char] is [da_insert] in front of the terminator: it
    returns no [NULL], and has no result when its reallocation fails. *)
Lemma dstr_concat_char_handle p c w r w' :
  dstr_concat_char p c w = Some (r, w') -> r <> NULL.
Proof.
  intros Hrun. revert Hrun. unfold dstr_concat_char, bind.
  destruct (da_length p w) as [[len w0]|]; [|discriminate].
  intros Hrun.
  destruct (wp_elim _ _ _ _ _ (_da_insert_spec p (wrap (len - 1)) c w0) Hrun)
    as (b0 & _ & _ & b1 & _ & _ & (Hq & _)).
  exact Hq.
Qed.

Lemma dstr_concat_char_refused p c w b :
  p <> NULL -> heap w !! p = Some b -> next_answer_fails w ->
  0 <= _length b -> _length b = _capacity b -> _length b + 1 < 2 ^ 48 ->
  dstr_concat_char p c w = None.
Proof.
  intros Hp Hb Hf Hlen Hfull Hmax. unfold dstr_concat_char.
  rewrite (bind_eq _ _ w _ w) by (exact (get_eq _length w p b Hp Hb)).
  apply (_da_insert_refused w p b); assumption.
Qed.

(** The reassigning functions reset the length before they reserve. *)
Lemma dstr_reassign_cstr_null p src w :
  wp (dstr_reassign_cstr p src) w (fun r w' =>
    r = NULL -> exists b, heap w !! p = Some b /\
                          heap w' = <[p := upd_length 0 b]> (heap w)).
Proof.
  unfold dstr_reassign_cstr. wp_go. wp_apply da_concat_spec.
  intros r w1 (b' & _ & _ & [(_ & Hh)|(b1 & _ & _ & _ & _ & (Hr & _))]).
  - intros _. exists b. split; [assumption|]. rewrite Hh. reflexivity.
  - intros ->. contradiction.
Qed.

Lemma dstr_reassign_empty_null p w :
  wp (dstr_reassign_empty p) w (fun r w' =>
    r = NULL -> exists b, heap w !! p = Some b /\
                          heap w' = <[p := upd_length 0 b]> (heap w)).
Proof.
  unfold dstr_reassign_empty. wp_go. wp_apply da_concat_spec.
  intros r w1 (b' & _ & _ & [(_ & Hh)|(b1 & _ & _ & _ & _ & (Hr & _))]).
  - intros _. exists b. split; [assumption|]. rewrite Hh. reflexivity.
  - intros ->. contradiction.
Qed.

Lemma dstr_reassign_dstr_null p src w :
  wp (dstr_reassign_dstr p src) w (fun r w' =>
    r = NULL -> exists b, heap w !! p = Some b /\
                          heap w' = <[p := upd_length 0 b]> (heap w)).
Proof.
  unfold dstr_reassign_dstr. wp_go. wp_apply da_concat_spec.
  intros r w1 (b' & _ & _ & [(_ & Hh)|(b1 & _ & _ & _ & _ & (Hr & _))]).
  - intros _. exists b. split; [assumption|]. rewrite Hh. reflexivity.
  - intros ->. contradiction.
Qed.

Lemma dstr_reassign_format_null p rendered w :
  wp (dstr_reassign_format p rendered) w (fun r w' =>
    r = NULL -> exists b, heap w !! p = Some b /\
                          heap w' = <[p := upd_length 0 b]> (heap w)).
Proof.
  unfold dstr_reassign_format. wp_go. wp_apply da_reserve_spec'.
  intros r w1 (b' & _ & _ & [[-> Hh]|(b1 & Hrel & Hres)]).
  - wp_go; intros _; exists b. split; [assumption|]. rewrite Hh. reflexivity.
  - pose proof Hrel as (Hr & _ & _). wp_go; contradiction.
Qed.

End DstrText.

(** X15 (dstr_concat_char, dstr_concat_cstr, dstr_concat_dstr,
    dstr_concat_format, dstr_length).  For dstr_concat_char,
    dstr_concat_cstr, dstr_concat_dstr and dstr_concat_format on a dstring:
    a non-NULL result is a dstring whose text is the old text followed by
    the appended text (the character, the C string, the text of the source
    dstring, the rendered format), with dstr_length equal to its length and
    all other blocks untouched.  A NULL result comes from dstr_concat_cstr,
    dstr_concat_dstr or dstr_concat_format only, and leaves the heap
    unchanged; dstr_concat_char, which is da_insert in front of the
    terminator, never returns NULL and has no defined result when the
    block is full and the allocator refuses. *)
Theorem dstr_concat_appends (d : addr) (c : Z) (src : list Z) (p : addr)
    (rendered t : list Z) (w : world Z) (r : addr) (w' : world Z) (b : _darray Z) :
  heap w !! d = Some b -> dstr_inv b ->
  (dstr_concat_char d c w = Some (r, w') /\ t = [c]) \/
  (dstr_concat_cstr d src w = Some (r, w') /\ c_str src = Some t) \/
  (dstr_concat_dstr d p w = Some (r, w') /\ has_text w p t) \/
  (dstr_concat_format d rendered w = Some (r, w') /\ t = rendered) ->
  (r <> NULL -> now_text w d w' r (dstr_text b ++ t)) /\
  (r = NULL ->
   dstr_concat_char d c w <> Some (r, w') /\ heap w' = heap w) /\
  (next_answer_fails w -> _length b = _capacity b -> _length b + 1 < 2 ^ 48 ->
   dstr_concat_char d c w = None).
Proof.
  intros Hb Hinv Hruns.
  assert (Hd : d <> NULL).
  { destruct Hruns as [(Hrun & _)|[(Hrun & _)|[(Hrun & _)|(Hrun & _)]]].
    - destruct (wp_elim _ _ _ _ _ (dstr_concat_char_spec d c w) Hrun)
        as (_ & _ & _ & ? & _); assumption.
    - destruct (wp_elim _ _ _ _ _ (dstr_concat_cstr_spec d src w) Hrun)
        as (_ & _ & _ & ? & _); assumption.
    - destruct (wp_elim _ _ _ _ _ (dstr_concat_dstr_spec d p w) Hrun)
        as (_ & _ & _ & ? & _); assumption.
    - destruct (wp_elim _ _ _ _ _ (dstr_concat_format_spec d rendered w) Hrun)
        as (_ & _ & _ & ? & _); assumption. }
  split; [|split].
  - intros Hr.
    destruct Hruns as [(Hrun & ->)|[(Hrun & Ht)|[(Hrun & Ht)|(Hrun & ->)]]].
    + destruct (dstr_post_now_text _ _ _ _ _ _ _
                  (wp_elim _ _ _ _ _ (dstr_concat_char_spec d c w) Hrun) Hb Hinv I Hr)
        as (t' & -> & Hnow). exact Hnow.
    + destruct (dstr_post_now_text _ _ _ _ _ _ _
                  (wp_elim _ _ _ _ _ (dstr_concat_cstr_spec d src w) Hrun) Hb Hinv I Hr)
        as (t' & (s & Hs & ->) & Hnow).
      assert (s = t) by congruence. subst s. exact Hnow.
    + destruct Ht as (Hp & bs & Hbs & Hinvs & <-).
      assert (Hpre : is_dstr w p) by (split; [assumption|]; eauto).
      destruct (dstr_post_now_text _ _ _ _ _ _ _
                  (wp_elim _ _ _ _ _ (dstr_concat_dstr_spec d p w) Hrun) Hb Hinv Hpre Hr)
        as (t' & Ht' & Hnow).
      rewrite (Ht' bs Hbs) in Hnow. exact Hnow.
    + destruct (dstr_post_now_text _ _ _ _ _ _ _
                  (wp_elim _ _ _ _ _ (dstr_concat_format_spec d rendered w) Hrun)
                  Hb Hinv I Hr)
        as (t' & -> & Hnow). exact Hnow.
  - intros Hr. split.
    + intros Hrun. exact (dstr_concat_char_handle d c w r w' Hrun Hr).
    + destruct Hruns as [(Hrun & _)|[(Hrun & _)|[(Hrun & _)|(Hrun & _)]]].
      * destruct (dstr_concat_char_handle d c w r w' Hrun Hr).
      * exact (wp_elim _ _ _ _ _ (dstr_concat_cstr_null d src w) Hrun Hr).
      * exact (wp_elim _ _ _ _ _ (dstr_concat_dstr_null d p w) Hrun Hr).
      * exact (wp_elim _ _ _ _ _ (dstr_concat_format_null d rendered w) Hrun Hr).
  - intros Hf Hfull Hmax. pose proof Hinv as (_ & Hge1 & _).
    apply (dstr_concat_char_refused d c w b); auto. lia.
Qed.

Lemma dstr_concat_appends_witness :
  now_text (demo_dstr_world "ab") 8
    (world_after (dstr_concat_cstr 8 (literal (bytes "cd"))) (demo_dstr_world "ab")) 8
    (dstr_text (demo_dstr (bytes "ab") 10) ++ bytes "cd") /\
  (dstr_concat_cstr 8 (literal (bytes "cd")) demo_dstr_full
   = Some (NULL, world_after (dstr_concat_cstr 8 (literal (bytes "cd"))) demo_dstr_full) /\
   heap (world_after (dstr_concat_cstr 8 (literal (bytes "cd"))) demo_dstr_full)
   = heap demo_dstr_full) /\
  dstr_concat_char 8 99 demo_dstr_full = None.
Proof.
  split; [|split; [split|]].
  - apply (dstr_concat_appends 8 0 (literal (bytes "cd")) 0 [] (bytes "cd")
             (demo_dstr_world "ab") 8 _ (demo_dstr (bytes "ab") 10)).
    + vm_compute. reflexivity.
    + unfold dstr_inv, block_ok. repeat split; vm_compute; congruence.
    + right. left. split; vm_compute; reflexivity.
    + discriminate.
  - vm_compute. reflexivity.
  - apply (dstr_concat_appends 8 99 (literal (bytes "cd")) 0 [] (bytes "cd")
             demo_dstr_full NULL _ (demo_dstr (bytes "ab") 3)).
    + vm_compute. reflexivity.
    + unfold dstr_inv, block_ok. repeat split; vm_compute; congruence.
    + right. left. split; vm_compute; reflexivity.
    + reflexivity.
  - apply (dstr_concat_appends 8 99 (literal (bytes "cd")) 0 [] (bytes "cd")
             demo_dstr_full NULL
             (world_after (dstr_concat_cstr 8 (literal (bytes "cd"))) demo_dstr_full)
             (demo_dstr (bytes "ab") 3)).
    + vm_compute. reflexivity.
    + unfold dstr_inv, block_ok. repeat split; vm_compute; congruence.
    + right. left. split; vm_compute; reflexivity.
    + left. reflexivity.
    + reflexivity.
    + vm_compute. reflexivity.
Defined.

(** X16 (dstr_reassign_empty, dstr_reassign_cstr, dstr_reassign_dstr,
    dstr_reassign_format, dstr_length).  For dstr_reassign_empty,
    dstr_reassign_cstr, dstr_reassign_dstr (from another dstring) and
    dstr_reassign_format on a dstring: a non-NULL result is a dstring whose
    text is exactly the new text (empty, the C string, the text of the
    source dstring, the rendered format), with dstr_length equal to its
    length and all other blocks untouched. *)
Theorem dstr_reassign_sets_text (d : addr) (src : list Z) (p : addr)
    (rendered t : list Z) (w : world Z) (r : addr) (w' : world Z) (b : _darray Z) :
  heap w !! d = Some b -> dstr_inv b ->
  (dstr_reassign_empty d w = Some (r, w') /\ t = []) \/
  (dstr_reassign_cstr d src w = Some (r, w') /\ c_str src = Some t) \/
  (dstr_reassign_dstr d p w = Some (r, w') /\ p <> d /\ has_text w p t) \/
  (dstr_reassign_format d rendered w = Some (r, w') /\ t = rendered) ->
  r <> NULL -> now_text w d w' r t.
Proof.
  intros Hb Hinv [(Hrun & ->)|[(Hrun & Ht)|[(Hrun & Hpd & Ht)|(Hrun & ->)]]] Hr.
  - destruct (dstr_post_now_text _ _ _ _ _ _ _
                (wp_elim _ _ _ _ _ (dstr_reassign_empty_spec d w) Hrun) Hb Hinv I Hr)
      as (t' & -> & Hnow). exact Hnow.
  - destruct (dstr_post_now_text _ _ _ _ _ _ _
                (wp_elim _ _ _ _ _ (dstr_reassign_cstr_spec d src w) Hrun) Hb Hinv I Hr)
      as (t' & Ht' & Hnow).
    assert (t' = t) by congruence. subst t'. exact Hnow.
  - destruct Ht as (Hp & bs & Hbs & Hinvs & <-).
    assert (Hpre : p <> d /\ is_dstr w p)
      by (split; [assumption|]; split; [assumption|]; eauto).
    destruct (dstr_post_now_text _ _ _ _ _ _ _
                (wp_elim _ _ _ _ _ (dstr_reassign_dstr_spec d p w) Hrun) Hb Hinv Hpre Hr)
      as (t' & Ht' & Hnow).
    rewrite (Ht' bs Hbs) in Hnow. exact Hnow.
  - destruct (dstr_post_now_text _ _ _ _ _ _ _
                (wp_elim _ _ _ _ _ (dstr_reassign_format_spec d rendered w) Hrun)
                Hb Hinv I Hr)
      as (t' & -> & Hnow). exact Hnow.
Qed.

Lemma dstr_reassign_sets_text_witness :
  now_text (demo_dstr_world "ab") 8
    (world_after (dstr_reassign_cstr 8 (literal (bytes "hello"))) (demo_dstr_world "ab"))
    8 (bytes "hello").
Proof.
  apply (dstr_reassign_sets_text 8 (literal (bytes "hello")) 0 [] (bytes "hello")
           (demo_dstr_world "ab") 8 _ (demo_dstr (bytes "ab") 10)).
  - vm_compute. reflexivity.
  - unfold dstr_inv, block_ok. repeat split; vm_compute; congruence.
  - right. left. split; vm_compute; reflexivity.
  - discriminate.
Defined.

(** X17 (dstr_reassign_empty, dstr_reassign_cstr, dstr_reassign_dstr,
    dstr_reassign_format).  When one of the dstr_reassign functions returns
    NULL, the target is not left as it was: its block stays in the heap
    under the old handle but with length 0 (not even a terminator counted),
    because the length is reset before the allocation is attempted. Such a
    run exists: dstr_reassign_cstr returns NULL when the capacity does not
    suffice and the allocator refuses. *)
Theorem failed_reassign_truncates (d : addr) (src : list Z) (p : addr)
    (rendered : list Z) (w : world Z) (b : _darray Z) :
  d <> NULL -> heap w !! d = Some b ->
  (forall w',
     dstr_reassign_empty d w = Some (NULL, w') \/
     dstr_reassign_cstr d src w = Some (NULL, w') \/
     dstr_reassign_dstr d p w = Some (NULL, w') \/
     dstr_reassign_format d rendered w = Some (NULL, w') ->
     heap w' = <[d := upd_length 0 b]> (heap w) /\
     da_length d w' = Some (0, w')) /\
  (next_answer_fails w ->
   forall n, strlen src = Some n -> _capacity b < n + 1 < 2 ^ 48 ->
     exists w', dstr_reassign_cstr d src w = Some (NULL, w')).
Proof.
  intros Hd Hb. split.
  - intros w' Hrun.
    assert (H : exists b0, heap w !! d = Some b0 /\
                           heap w' = <[d := upd_length 0 b0]> (heap w)).
    { destruct Hrun as [Hrun|[Hrun|[Hrun|Hrun]]].
      - exact (wp_elim _ _ _ _ _ (dstr_reassign_empty_null d w) Hrun eq_refl).
      - exact (wp_elim _ _ _ _ _ (dstr_reassign_cstr_null d src w) Hrun eq_refl).
      - exact (wp_elim _ _ _ _ _ (dstr_reassign_dstr_null d p w) Hrun eq_refl).
      - exact (wp_elim _ _ _ _ _ (dstr_reassign_format_null d rendered w) Hrun eq_refl). }
    destruct H as (b0 & Hb0 & Hh). assert (b0 = b) by congruence. subst b0.
    split; [exact Hh|]. unfold da_length.
    apply (get_eq _length w' d (upd_length 0 b) Hd). rewrite Hh. apply lookup_insert_eq.
  - intros Hf n Hn Hcap.
    destruct (strlen_Some _ _ Hn) as (s & _ & Hs & _).
    assert (Hw : wrap (n + 1) = n + 1) by wrap_lia.
    destruct (da_reserve_refused (put w d (upd_length 0 b)) d (upd_length 0 b) (n + 1)
                Hd (lookup_put _ _ _)) as (w' & Hrun & _).
    + destruct Hf as [Hf|[es Hf]]; [left|right; exists es]; exact Hf.
    + cbn. lia.
    + lia.
    + cbn. lia.
    + exists w'. unfold dstr_reassign_cstr.
      rewrite (bind_eq _ _ w _ _) by (exact (set_length_eq w d b 0 Hd Hb)).
      rewrite (bind_eq _ _ _ n _) by (unfold lift; rewrite Hn; reflexivity).
      rewrite Hw. unfold da_concat.
      rewrite (bind_eq _ _ _ _ _)
        by (apply (get_eq _length); [assumption|apply lookup_put]).
      rewrite (bind_eq _ _ _ _ _) by exact Hrun. reflexivity.
Qed.

Lemma failed_reassign_truncates_witness :
  (forall w',
     dstr_reassign_empty 8 demo_dstr_full = Some (NULL, w') \/
     dstr_reassign_cstr 8 (literal (bytes "hello")) demo_dstr_full = Some (NULL, w') \/
     dstr_reassign_dstr 8 0 demo_dstr_full = Some (NULL, w') \/
     dstr_reassign_format 8 [] demo_dstr_full = Some (NULL, w') ->
     heap w' = <[8 := upd_length 0 (demo_dstr (bytes "ab") 3)]> (heap demo_dstr_full) /\
     da_length 8 w' = Some (0, w')) /\
  (next_answer_fails demo_dstr_full ->
   forall n, strlen (literal (bytes "hello")) = Some n -> 3 < n + 1 < 2 ^ 48 ->
     exists w', dstr_reassign_cstr 8 (literal (bytes "hello")) demo_dstr_full
                = Some (NULL, w')).
Proof.
  apply (failed_reassign_truncates 8 (literal (bytes "hello")) 0 [] demo_dstr_full
           (demo_dstr (bytes "ab") 3)).
  - discriminate.
  - vm_compute. reflexivity.
Defined.

Section FindText.
Implicit Types (w : world Z) (p q r d : addr) (b : _darray Z).

Lemma starts_with_occurs needle hay :
  starts_with needle hay = true <-> occurs_at needle hay 0.
Proof.
  unfold occurs_at. rewrite drop_0. cbn [Nat.add].
  revert hay. induction needle as [|n needle IH]; intros [|h hay]; cbn.
  - split; auto with lia.
  - split; auto with lia.
  - split; [discriminate|]. intros [H _]. lia.
  - rewrite andb_true_iff, IH. split.
    + intros [E [Hl Ht]]. apply Z.eqb_eq in E. subst. split; [lia|]. rewrite Ht. reflexivity.
    + intros [Hl [= -> Ht]]. split; [apply Z.eqb_refl|]. split; [lia|exact Ht].
Qed.

Lemma occurs_at_cons needle h hay j :
  occurs_at needle (h :: hay) (S j) <-> occurs_at needle hay j.
Proof. unfold occurs_at. cbn. split; intros [? ?]; split; auto; lia. Qed.

Lemma strstr_first hay needle : forall i,
  strstr hay needle = Some i ->
  0 <= i /\ occurs_at needle hay (Z.to_nat i) /\
  forall j, (j < Z.to_nat i)%nat -> ~ occurs_at needle hay j.
Proof.
  induction hay as [|h hay IH]; intros i; cbn [strstr].
  - destruct (starts_with needle []) eqn:E; [|discriminate].
    intros [= <-]. split; [lia|]. split; [apply starts_with_occurs; exact E|].
    intros j Hj. cbn in Hj. lia.
  - destruct (starts_with needle (h :: hay)) eqn:E.
    + intros [= <-]. split; [lia|]. split; [apply starts_with_occurs; exact E|].
      intros j Hj. cbn in Hj. lia.
    + destruct (strstr hay needle) as [k|]; [|discriminate].
      intros [= <-]. destruct (IH k eq_refl) as (Hk & Hocc & Hfirst).
      split; [lia|].
      replace (Z.to_nat (k + 1)) with (S (Z.to_nat k)) by lia.
      split; [apply occurs_at_cons; exact Hocc|].
      intros [|j] Hj.
      * intros Ho. apply starts_with_occurs in Ho. congruence.
      * rewrite occurs_at_cons. apply Hfirst. lia.
Qed.

Lemma strstr_none hay needle :
  strstr hay needle = None -> forall j, ~ occurs_at needle hay j.
Proof.
  induction hay as [|h hay IH]; cbn [strstr].
  - destruct (starts_with needle []) eqn:E; [discriminate|].
    intros _ j [Hl Ho]. cbn in Hl.
    assert (j = 0%nat) by lia. subst j.
    assert (occurs_at needle [] 0) by (split; assumption).
    apply starts_with_occurs in H. congruence.
  - destruct (starts_with needle (h :: hay)) eqn:E; [discriminate|].
    destruct (strstr hay needle) as [k|]; [discriminate|].
    intros _ [|j].
    + intros Ho. apply starts_with_occurs in Ho. congruence.
    + rewrite occurs_at_cons. apply IH. reflexivity.
Qed.

(** [dstr_find] and [dstr_find_case] return, and leave the state as it
    is. *)
Lemma dstr_find_eq w d b substr needle :
  d <> NULL -> heap w !! d = Some b -> dstr_inv b -> c_str substr = Some needle ->
  dstr_find d substr w
  = Some (match strstr (c_prefix (dstr_text b)) needle with
          | Some loc => loc
          | None => -1
          end, w).
Proof.
  intros Hd Hb Hinv Hn. unfold dstr_find, read_mem.
  rewrite (bind_eq _ _ w _ w) by (exact (get_eq _data w d b Hd Hb)).
  rewrite (bind_eq _ _ w _ w) by (unfold lift; rewrite (c_str_dstr b Hinv); reflexivity).
  rewrite (bind_eq _ _ w _ w) by (unfold lift; rewrite Hn; reflexivity).
  destruct (strstr _ _); reflexivity.
Qed.

Lemma dstr_find_case_eq w d b substr needle :
  d <> NULL -> heap w !! d = Some b -> dstr_inv b -> c_str substr = Some needle ->
  dstr_find_case d substr w
  = Some (match _da_strcasestr (c_prefix (dstr_text b)) needle with
          | Some loc => loc
          | None => -1
          end, w).
Proof.
  intros Hd Hb Hinv Hn. unfold dstr_find_case, read_mem.
  rewrite (bind_eq _ _ w _ w) by (exact (get_eq _data w d b Hd Hb)).
  rewrite (bind_eq _ _ w _ w) by (unfold lift; rewrite (c_str_dstr b Hinv); reflexivity).
  rewrite (bind_eq _ _ w _ w) by (unfold lift; rewrite Hn; reflexivity).
  destruct (_da_strcasestr _ _); reflexivity.
Qed.

(** What the loop of [_da_strcasestr] returns is the offset of an
    occurrence. *)
Lemma _da_strcasestr_loop_sound needle hay : forall currh (hs pos : nat) currn matched i,
  needle = matched ++ currn -> currh = drop pos hay ->
  (hs + length matched = pos)%nat -> (pos <= length hay)%nat ->
  map tolower (take (length matched) (drop hs hay)) = map tolower matched ->
  _da_strcasestr_loop needle (Z.of_nat hs) currh (Z.of_nat pos) currn = Some i ->
  occurs_at_case needle hay (Z.to_nat i).
Proof.
  induction currh as [|ch currh IH]; intros hs pos currn matched i Hn Hh Hpos Hle Hm.
  - destruct currn as [|cn currn]; cbn; [|discriminate].
    intros [= <-]. rewrite app_nil_r in Hn. subst matched.
    rewrite Nat2Z.id. split; [lia|exact Hm].
  - assert (Hlt : (pos < length hay)%nat).
    { destruct (Nat.eq_dec pos (length hay)) as [->|]; [|lia].
      rewrite drop_all in Hh. discriminate. }
    assert (Hch : hay !! pos = Some ch).
    { rewrite <- (Nat.add_0_r pos), <- lookup_drop, <- Hh. reflexivity. }
    assert (Hh' : currh = drop (S pos) hay).
    { rewrite (drop_S _ _ _ Hch) in Hh. congruence. }
    destruct currn as [|cn currn]; cbn [_da_strcasestr_loop].
    + intros [= <-]. rewrite app_nil_r in Hn. subst matched.
      rewrite Nat2Z.id. split; [lia|exact Hm].
    + replace (Z.of_nat pos + 1) with (Z.of_nat (S pos)) by lia.
      destruct (Z.eqb_spec (tolower ch) (tolower cn)) as [E|E]; cbn [negb].
      * apply (IH hs (S pos) currn (matched ++ [cn]) i).
        -- rewrite <- app_assoc. exact Hn.
        -- exact Hh'.
        -- rewrite length_app. cbn [length]. lia.
        -- lia.
        -- rewrite length_app. cbn [length].
           replace (length matched + 1)%nat with (S (length matched)) by lia.
           rewrite (take_S_r _ _ ch).
           ++ rewrite !map_app, Hm. cbn [map]. rewrite E. reflexivity.
           ++ rewrite lookup_drop, Hpos. exact Hch.
      * apply (IH (S pos) (S pos) needle [] i); auto; cbn [length]; lia.
Qed.

Lemma _da_strcasestr_sound hay needle i :
  _da_strcasestr hay needle = Some i -> occurs_at_case needle hay (Z.to_nat i).
Proof.
  unfold _da_strcasestr. change 0 with (Z.of_nat 0).
  apply (_da_strcasestr_loop_sound needle hay hay 0 0 needle []); auto.
  lia.
Qed.

(** A run of [j] matching bytes in the loop of [_da_strcasestr]. *)
Lemma _da_strcasestr_loop_run needle c (j : nat) : forall hs pos currh currn,
  _da_strcasestr_loop needle hs (replicate j c ++ currh) pos (replicate j c ++ currn)
  = match currn with
    | [] => Some hs
    | _ => _da_strcasestr_loop needle hs currh (pos + Z.of_nat j) currn
    end.
Proof.
  induction j as [|j IH]; intros hs pos currh currn.
  - cbn [replicate app]. rewrite Z.add_0_r. destruct currn; [|reflexivity].
    destruct currh; reflexivity.
  - cbn [replicate app _da_strcasestr_loop]. rewrite Z.eqb_refl. cbn [negb].
    rewrite IH. destruct currn; [reflexivity|]. f_equal. lia.
Qed.

Lemma starts_with_replicate c (j : nat) x y :
  starts_with (replicate j c ++ x) (replicate j c ++ y) = starts_with x y.
Proof.
  induction j as [|j IH]; [reflexivity|].
  cbn [replicate app starts_with]. rewrite Z.eqb_refl. exact IH.
Qed.

Lemma c_prefix_nonzero t : Forall (fun c => c <> 0) t -> c_prefix t = t.
Proof.
  induction 1 as [|c t Hc _ IH]; [reflexivity|].
  cbn. destruct (Z.eqb_spec c 0); [contradiction|]. rewrite IH. reflexivity.
Qed.

End FindText.

(** X18 (dstr_find).  dstr_find on a dstring always returns and leaves the
    state unchanged: it returns -1 exactly when the substring occurs nowhere
    in the text, and otherwise the offset of its first occurrence (no
    occurrence starts at a smaller offset). *)
Theorem dstr_find_first_occurrence (w : world Z) (d : addr) (b : _darray Z)
    (substr needle : list Z) :
  d <> NULL -> heap w !! d = Some b -> dstr_inv b -> c_str substr = Some needle ->
  exists loc, dstr_find d substr w = Some (loc, w) /\
    ((loc = -1 /\ forall j, ~ occurs_at needle (c_prefix (dstr_text b)) j) \/
     (0 <= loc /\ occurs_at needle (c_prefix (dstr_text b)) (Z.to_nat loc) /\
      forall j, (j < Z.to_nat loc)%nat ->
        ~ occurs_at needle (c_prefix (dstr_text b)) j)).
Proof.
  intros Hd Hb Hinv Hn. eexists. split; [apply (dstr_find_eq w d b); eassumption|].
  destruct (strstr (c_prefix (dstr_text b)) needle) as [loc|] eqn:E.
  - right. apply strstr_first. exact E.
  - left. split; [reflexivity|]. apply strstr_none. exact E.
Qed.

Lemma dstr_find_first_occurrence_witness :
  exists loc, dstr_find 8 (literal (bytes "na")) (demo_dstr_world "banana")
              = Some (loc, demo_dstr_world "banana") /\
    ((loc = -1 /\
      forall j, ~ occurs_at (bytes "na")
                    (c_prefix (dstr_text (demo_dstr (bytes "banana") 10))) j) \/
     (0 <= loc /\
      occurs_at (bytes "na") (c_prefix (dstr_text (demo_dstr (bytes "banana") 10)))
        (Z.to_nat loc) /\
      forall j, (j < Z.to_nat loc)%nat ->
        ~ occurs_at (bytes "na")
            (c_prefix (dstr_text (demo_dstr (bytes "banana") 10))) j)).
Proof.
  apply (dstr_find_first_occurrence (demo_dstr_world "banana") 8
           (demo_dstr (bytes "banana") 10) (literal (bytes "na")) (bytes "na")).
  - discriminate.
  - vm_compute. reflexivity.
  - unfold dstr_inv, block_ok. repeat split; vm_compute; congruence.
  - vm_compute. reflexivity.
Defined.

(** X19 (dstr_find_case, _da_strcasestr).  dstr_find_case on a dstring
    always returns and leaves the state unchanged: its result is -1 or the
    offset of an occurrence of the substring up to the case of letters, and
    it is 0 for an empty substring. *)
Theorem dstr_find_case_finds_occurrence (w : world Z) (d : addr) (b : _darray Z)
    (substr needle : list Z) :
  d <> NULL -> heap w !! d = Some b -> dstr_inv b -> c_str substr = Some needle ->
  exists loc, dstr_find_case d substr w = Some (loc, w) /\
    (loc = -1 \/
     (0 <= loc /\ occurs_at_case needle (c_prefix (dstr_text b)) (Z.to_nat loc))) /\
    (needle = [] -> loc = 0).
Proof.
  intros Hd Hb Hinv Hn. eexists.
  split; [apply (dstr_find_case_eq w d b); eassumption|].
  destruct (_da_strcasestr (c_prefix (dstr_text b)) needle) as [loc|] eqn:E.
  - split.
    + right. split; [apply (_da_strcasestr_bound _ _ _ E)|].
      apply _da_strcasestr_sound. exact E.
    + intros ->. unfold _da_strcasestr in E.
      destruct (c_prefix (dstr_text b)); cbn in E; congruence.
  - split; [left; reflexivity|].
    intros ->. unfold _da_strcasestr in E.
    destruct (c_prefix (dstr_text b)); cbn in E; discriminate.
Qed.

Lemma dstr_find_case_finds_occurrence_witness :
  exists loc, dstr_find_case 8 (literal (bytes "NA")) (demo_dstr_world "banana")
              = Some (loc, demo_dstr_world "banana") /\
    (loc = -1 \/
     (0 <= loc /\
      occurs_at_case (bytes "NA")
        (c_prefix (dstr_text (demo_dstr (bytes "banana") 10))) (Z.to_nat loc))) /\
    (bytes "NA" = [] -> loc = 0).
Proof.
  apply (dstr_find_case_finds_occurrence (demo_dstr_world "banana") 8
           (demo_dstr (bytes "banana") 10) (literal (bytes "NA")) (bytes "NA")).
  - discriminate.
  - vm_compute. reflexivity.
  - unfold dstr_inv, block_ok. repeat split; vm_compute; congruence.
  - vm_compute. reflexivity.
Defined.

(** X20 (_da_strcasestr, dstr_find_case, dstr_find).  dstr_find_case can
    miss an occurrence that dstr_find finds: after a partial match fails,
    the scan of _da_strcasestr goes on behind the failing character instead
    of one character behind the start of the partial match. In the text c..c
    e with k+2 copies of c it returns -1 for the substring c..c e with k+1
    copies, which occurs at offset 1. *)
Theorem dstr_find_case_does_not_back_up (w : world Z) (d : addr) (b : _darray Z)
    (c e : Z) (k : nat) :
  d <> NULL -> heap w !! d = Some b -> dstr_inv b ->
  c <> 0 -> e <> 0 -> tolower c <> tolower e ->
  dstr_text b = replicate (S (S k)) c ++ [e] ->
  dstr_find_case d (literal (replicate (S k) c ++ [e])) w = Some (-1, w) /\
  dstr_find d (literal (replicate (S k) c ++ [e])) w = Some (1, w) /\
  occurs_at_case (replicate (S k) c ++ [e]) (dstr_text b) 1.
Proof.
  intros Hd Hb Hinv Hc He Hce Ht.
  assert (Hne : c <> e) by (intros ->; contradiction).
  assert (Hnz : Forall (fun x => x <> 0) (replicate (S k) c ++ [e])).
  { apply Forall_app. split; [apply Forall_replicate; exact Hc|].
    constructor; [exact He|constructor]. }
  assert (Hneedle : c_str (literal (replicate (S k) c ++ [e]))
                    = Some (replicate (S k) c ++ [e])).
  { unfold literal. change [0] with (0 :: @nil Z). rewrite c_str_app_zero.
    rewrite c_prefix_nonzero by exact Hnz. reflexivity. }
  assert (Hhay : c_prefix (dstr_text b) = replicate (S (S k)) c ++ [e]).
  { rewrite Ht. apply c_prefix_nonzero.
    apply Forall_app. split; [apply Forall_replicate; exact Hc|].
    constructor; [exact He|constructor]. }
  split; [|split].
  - rewrite (dstr_find_case_eq w d b _ _ Hd Hb Hinv Hneedle), Hhay.
    unfold _da_strcasestr.
    replace (replicate (S (S k)) c ++ [e]) with (replicate (S k) c ++ [c; e]).
    2:{ replace (S (S k)) with (S k + 1)%nat by lia.
        rewrite replicate_add, <- app_assoc. reflexivity. }
    rewrite _da_strcasestr_loop_run. cbn [_da_strcasestr_loop].
    destruct (Z.eqb_spec (tolower c) (tolower e)); [contradiction|]. cbn [negb].
    cbn [replicate app _da_strcasestr_loop].
    destruct (Z.eqb_spec (tolower e) (tolower c)); [congruence|]. reflexivity.
  - rewrite (dstr_find_eq w d b _ _ Hd Hb Hinv Hneedle), Hhay.
    replace (replicate (S (S k)) c ++ [e]) with (c :: (replicate (S k) c ++ [e]))
      by reflexivity.
    cbn [strstr].
    replace (starts_with (replicate (S k) c ++ [e]) (c :: replicate (S k) c ++ [e]))
      with false.
    2:{ symmetry. replace (c :: replicate (S k) c ++ [e])
          with (replicate (S k) c ++ [c; e]).
        2:{ change (c :: replicate (S k) c ++ [e])
              with (replicate (S (S k)) c ++ [e]).
            replace (S (S k)) with (S k + 1)%nat by lia.
            rewrite replicate_add, <- app_assoc. reflexivity. }
        rewrite starts_with_replicate. cbn [starts_with].
        destruct (Z.eqb_spec e c); [congruence|]. reflexivity. }
    replace (strstr (replicate (S k) c ++ [e]) (replicate (S k) c ++ [e]))
      with (Some 0); [reflexivity|].
    symmetry. destruct (replicate (S k) c ++ [e]) as [|x l] eqn:El; cbn [strstr].
    + reflexivity.
    + rewrite (proj2 (starts_with_occurs (x :: l) (x :: l))); [reflexivity|].
      split; [cbn; lia|]. rewrite drop_0. apply firstn_all.
  - rewrite Ht. split.
    + rewrite !length_app, !length_replicate. cbn [length]. lia.
    + change (replicate (S (S k)) c ++ [e]) with (c :: (replicate (S k) c ++ [e])).
      cbn [drop]. rewrite firstn_all. reflexivity.
Qed.

Lemma dstr_find_case_does_not_back_up_witness :
  dstr_find_case 8 (literal (replicate (S 0) 97 ++ [98])) (demo_dstr_world "aab")
    = Some (-1, demo_dstr_world "aab") /\
  dstr_find 8 (literal (replicate (S 0) 97 ++ [98])) (demo_dstr_world "aab")
    = Some (1, demo_dstr_world "aab") /\
  occurs_at_case (replicate (S 0) 97 ++ [98])
    (dstr_text (demo_dstr (bytes "aab") 10)) 1.
Proof.
  apply (dstr_find_case_does_not_back_up (demo_dstr_world "aab") 8
           (demo_dstr (bytes "aab") 10) 97 98 0).
  - discriminate.
  - vm_compute. reflexivity.
  - unfold dstr_inv, block_ok. repeat split; vm_compute; congruence.
  - discriminate.
  - discriminate.
  - vm_compute. discriminate.
  - vm_compute. reflexivity.
Defined.

Section Cmp.
Implicit Types (w : world Z) (p q d : addr) (b : _darray Z).

Lemma int_of_char_inj cs c1 c2 :
  is_byte c1 -> is_byte c2 -> int_of_char cs c1 = int_of_char cs c2 -> c1 = c2.
Proof.
  unfold is_byte, int_of_char. intros H1 H2.
  destruct cs; cbn [andb];
    destruct (Z.leb_spec 128 c1), (Z.leb_spec 128 c2); lia.
Qed.

Lemma tolower_zero c : tolower c = 0 <-> c = 0.
Proof.
  unfold tolower. destruct (Z.leb_spec 65 c), (Z.leb_spec c 90); cbn [andb]; lia.
Qed.

Lemma c_prefix_no_zero t : Forall (fun c => c <> 0) (c_prefix t).
Proof.
  induction t as [|c t IH]; cbn; [constructor|].
  destruct (Z.eqb_spec c 0); [constructor|]. constructor; assumption.
Qed.

(** The memory a string lives in: the string, its terminator, and what
    follows. *)
Lemma c_str_split s t :
  c_str s = Some t -> exists rest, s = t ++ 0 :: rest /\ Forall (fun c => c <> 0) t.
Proof.
  revert t. induction s as [|c s IH]; intros t H; [discriminate|].
  cbn in H. destruct (Z.eqb_spec c 0) as [->|Hc].
  - injection H as <-. exists s. split; [reflexivity|constructor].
  - destruct (c_str s) as [t'|]; [|discriminate]. injection H as <-.
    destruct (IH t' eq_refl) as (rest & -> & Hnz).
    exists rest. split; [reflexivity|]. constructor; assumption.
Qed.

(** [dstr_cmp] on two strings in memory. *)
Lemma dstr_cmp_loop_spec cs t1 : forall t2 r1 r2,
  Forall (fun c => c <> 0) t1 -> Forall (fun c => c <> 0) t2 ->
  exists r, dstr_cmp_loop cs (t1 ++ 0 :: r1) (t2 ++ 0 :: r2) = Some r /\
    (t1 = t2 -> r = 0) /\
    (forall pre c1 c2 rest1 rest2,
       t1 ++ [0] = pre ++ c1 :: rest1 -> t2 ++ [0] = pre ++ c2 :: rest2 ->
       c1 <> c2 -> r = int_of_char cs c1 - int_of_char cs c2).
Proof.
  induction t1 as [|a t1 IH]; intros t2 r1 r2 H1 H2.
  - destruct t2 as [|a2 t2]; cbn [app dstr_cmp_loop].
    + rewrite Z.eqb_refl. cbn [negb andb]. eexists. split; [reflexivity|].
      split; [intros _; lia|].
      intros [|x pre] c1 c2 rest1 rest2 E1 E2 Hne; cbn in E1, E2.
      * congruence.
      * destruct pre; discriminate.
    + inversion H2; subst.
      destruct (Z.eqb_spec 0 a2); [congruence|]. cbn [andb].
      eexists. split; [reflexivity|]. split; [discriminate|].
      intros [|x pre] c1 c2 rest1 rest2 E1 E2 Hne; cbn in E1, E2.
      * congruence.
      * destruct pre; discriminate.
  - inversion H1; subst. destruct t2 as [|a2 t2]; cbn [app dstr_cmp_loop].
    + destruct (Z.eqb_spec a 0); [contradiction|].
      eexists. split; [reflexivity|]. split; [discriminate|].
      intros [|x pre] c1 c2 rest1 rest2 E1 E2 Hne; cbn in E1, E2.
      * congruence.
      * destruct pre; discriminate.
    + inversion H2; subst.
      destruct (Z.eqb_spec a a2) as [<-|Hne0].
      * destruct (Z.eqb_spec a 0); [contradiction|]. cbn [negb andb].
        destruct (IH t2 r1 r2) as (r & Hr & Heq & Hdiff); [assumption|assumption|].
        exists r. split; [exact Hr|]. split; [intros [= ->]; auto|].
        intros [|x pre] c1 c2 rest1 rest2 E1 E2 Hne; cbn in E1, E2.
        -- congruence.
        -- injection E1 as -> E1. injection E2 as E2.
           exact (Hdiff pre c1 c2 rest1 rest2 E1 E2 Hne).
      * cbn [andb]. eexists. split; [reflexivity|]. split; [congruence|].
        intros [|x pre] c1 c2 rest1 rest2 E1 E2 Hne; cbn in E1, E2.
        -- congruence.
        -- congruence.
Qed.

Lemma dstr_cmp_case_loop_spec cs t1 : forall t2 r1 r2,
  Forall (fun c => c <> 0) t1 -> Forall (fun c => c <> 0) t2 ->
  exists r, dstr_cmp_case_loop cs (t1 ++ 0 :: r1) (t2 ++ 0 :: r2) = Some r /\
    (map tolower t1 = map tolower t2 -> r = 0) /\
    (forall pre1 pre2 c1 c2 rest1 rest2,
       t1 ++ [0] = pre1 ++ c1 :: rest1 -> t2 ++ [0] = pre2 ++ c2 :: rest2 ->
       map tolower pre1 = map tolower pre2 -> tolower c1 <> tolower c2 ->
       r = int_of_char cs c1 - int_of_char cs c2).
Proof.
  induction t1 as [|a t1 IH]; intros t2 r1 r2 H1 H2.
  - destruct t2 as [|a2 t2]; cbn [app dstr_cmp_case_loop].
    + rewrite Z.eqb_refl. cbn [negb andb]. eexists. split; [reflexivity|].
      split; [intros _; lia|].
      intros [|x pre1] [|y pre2] c1 c2 rest1 rest2 E1 E2 Hp Hne;
        cbn in E1, E2, Hp; try discriminate.
      * congruence.
      * destruct pre1; discriminate.
    + inversion H2; subst.
      assert (tolower a2 <> 0) by (rewrite tolower_zero; assumption).
      change (tolower 0) with 0.
      destruct (Z.eqb_spec 0 (tolower a2)); [congruence|]. cbn [andb].
      eexists. split; [reflexivity|]. split; [discriminate|].
      intros [|x pre1] [|y pre2] c1 c2 rest1 rest2 E1 E2 Hp Hne;
        cbn in E1, E2, Hp; try discriminate.
      * congruence.
      * destruct pre1; discriminate.
  - inversion H1; subst. destruct t2 as [|a2 t2]; cbn [app dstr_cmp_case_loop].
    + assert (tolower a <> 0) by (rewrite tolower_zero; assumption).
      change (tolower 0) with 0.
      destruct (Z.eqb_spec (tolower a) 0); [congruence|]. cbn [andb].
      eexists. split; [reflexivity|]. split; [discriminate|].
      intros [|x pre1] [|y pre2] c1 c2 rest1 rest2 E1 E2 Hp Hne;
        cbn in E1, E2, Hp; try discriminate.
      * congruence.
      * injection E2 as -> E2. destruct pre2; discriminate.
    + inversion H2; subst.
      destruct (Z.eqb_spec (tolower a) (tolower a2)) as [El|Hne0].
      * destruct (Z.eqb_spec a 0); [contradiction|]. cbn [negb andb].
        destruct (IH t2 r1 r2) as (r & Hr & Heq & Hdiff); [assumption|assumption|].
        exists r. split; [exact Hr|]. split; [intros [= _ E]; auto|].
        intros [|x pre1] [|y pre2] c1 c2 rest1 rest2 E1 E2 Hp Hne;
          cbn in E1, E2, Hp; try discriminate.
        -- congruence.
        -- injection E1 as -> E1. injection E2 as -> E2. injection Hp as _ Hp.
           exact (Hdiff pre1 pre2 c1 c2 rest1 rest2 E1 E2 Hp Hne).
      * cbn [andb]. eexists. split; [reflexivity|]. split; [intros [= E _]; congruence|].
        intros [|x pre1] [|y pre2] c1 c2 rest1 rest2 E1 E2 Hp Hne;
          cbn in E1, E2, Hp; try discriminate.
        -- congruence.
        -- congruence.
Qed.

Lemma int_of_char_diff cs c1 c2 :
  is_byte c1 -> is_byte c2 -> c1 <> c2 ->
  int_of_char cs c1 - int_of_char cs c2 <> 0.
Proof.
  intros H1 H2 Hne E. apply Hne. apply (int_of_char_inj cs); [assumption|assumption|lia].
Qed.

Lemma dstr_cmp_loop_zero cs t1 : forall t2 m1 m2,
  Forall (fun c => c <> 0) t1 -> Forall (fun c => c <> 0) t2 ->
  Forall is_byte t1 -> Forall is_byte t2 ->
  dstr_cmp_loop cs (t1 ++ 0 :: m1) (t2 ++ 0 :: m2) = Some 0 -> t1 = t2.
Proof.
  assert (B0 : is_byte 0) by (unfold is_byte; lia).
  induction t1 as [|a t1 IH]; intros t2 m1 m2 H1 H2 B1 B2.
  - destruct t2 as [|a2 t2]; cbn [app dstr_cmp_loop]; [reflexivity|].
    inversion H2; subst. inversion B2; subst.
    destruct (Z.eqb_spec 0 a2); [congruence|]. cbn [andb].
    intros [= E]. exfalso. revert E. apply int_of_char_diff; auto.
  - inversion H1; subst. inversion B1; subst.
    destruct t2 as [|a2 t2]; cbn [app dstr_cmp_loop].
    + destruct (Z.eqb_spec a 0); [contradiction|]. cbn [andb].
      intros [= E]. exfalso. revert E. apply int_of_char_diff; auto.
    + inversion H2; subst. inversion B2; subst.
      destruct (Z.eqb_spec a a2) as [<-|Hne0].
      * destruct (Z.eqb_spec a 0); [contradiction|]. cbn [negb andb].
        intros E. f_equal. exact (IH t2 m1 m2 ltac:(assumption) ltac:(assumption)
                                    ltac:(assumption) ltac:(assumption) E).
      * cbn [andb]. intros [= E]. exfalso. revert E. apply int_of_char_diff; auto.
Qed.

Lemma tolower_byte c : is_byte c -> is_byte (tolower c).
Proof.
  unfold is_byte, tolower.
  destruct (Z.leb_spec 65 c), (Z.leb_spec c 90); cbn [andb]; lia.
Qed.

Lemma dstr_cmp_case_loop_zero cs t1 : forall t2 m1 m2,
  Forall (fun c => c <> 0) t1 -> Forall (fun c => c <> 0) t2 ->
  Forall is_byte t1 -> Forall is_byte t2 ->
  dstr_cmp_case_loop cs (t1 ++ 0 :: m1) (t2 ++ 0 :: m2) = Some 0 ->
  map tolower t1 = map tolower t2.
Proof.
  assert (B0 : is_byte 0) by (unfold is_byte; lia).
  induction t1 as [|a t1 IH]; intros t2 m1 m2 H1 H2 B1 B2.
  - destruct t2 as [|a2 t2]; cbn [app dstr_cmp_case_loop]; [reflexivity|].
    inversion H2; subst. inversion B2; subst.
    assert (tolower a2 <> 0) by (rewrite tolower_zero; assumption).
    change (tolower 0) with 0.
    destruct (Z.eqb_spec 0 (tolower a2)); [congruence|]. cbn [andb].
    intros [= E]. exfalso. revert E. apply int_of_char_diff; auto.
  - inversion H1; subst. inversion B1; subst.
    destruct t2 as [|a2 t2]; cbn [app dstr_cmp_case_loop].
    + assert (tolower a <> 0) by (rewrite tolower_zero; assumption).
      change (tolower 0) with 0.
      destruct (Z.eqb_spec (tolower a) 0); [congruence|]. cbn [andb].
      intros [= E]. exfalso. revert E. apply int_of_char_diff; auto.
    + inversion H2; subst. inversion B2; subst.
      destruct (Z.eqb_spec (tolower a) (tolower a2)) as [El|Hne0].
      * destruct (Z.eqb_spec a 0); [contradiction|]. cbn [negb andb map].
        intros E. rewrite El. f_equal.
        exact (IH t2 m1 m2 ltac:(assumption) ltac:(assumption)
                 ltac:(assumption) ltac:(assumption) E).
      * cbn [andb]. intros [= E]. exfalso. revert E. apply int_of_char_diff; auto.
        intros ->. contradiction.
Qed.

Lemma dstr_mem b :
  dstr_inv b ->
  exists rest, _data b = c_prefix (dstr_text b) ++ 0 :: rest.
Proof.
  intros Hinv. destruct (c_str_split _ _ (c_str_dstr b Hinv)) as (rest & E & _).
  eauto.
Qed.

Lemma Forall_c_prefix (P : Z -> Prop) t : Forall P t -> Forall P (c_prefix t).
Proof.
  induction 1 as [|c t Hc _ IH]; cbn; [constructor|].
  destruct (c =? 0); [constructor|]. constructor; assumption.
Qed.

End Cmp.

(** X21 (dstr_cmp).  dstr_cmp on a dstring and a C string always returns and
    leaves the state unchanged: the result is 0 when the two strings are
    equal, for strings of bytes only then, and otherwise it is the
    difference of the two characters (as char values promoted to int) at the
    first position where they differ. *)
Theorem dstr_cmp_compares (char_signed : bool) (w : world Z) (d : addr)
    (b : _darray Z) (s2 u : list Z) :
  d <> NULL -> heap w !! d = Some b -> dstr_inv b -> c_str s2 = Some u ->
  exists v, dstr_cmp char_signed d s2 w = Some (v, w) /\
    (c_prefix (dstr_text b) = u -> v = 0) /\
    (Forall is_byte (dstr_text b) -> Forall is_byte u ->
     v = 0 -> c_prefix (dstr_text b) = u) /\
    (forall pre c1 c2 rest1 rest2,
       c_prefix (dstr_text b) ++ [0] = pre ++ c1 :: rest1 ->
       u ++ [0] = pre ++ c2 :: rest2 -> c1 <> c2 ->
       v = int_of_char char_signed c1 - int_of_char char_signed c2).
Proof.
  intros Hd Hb Hinv Hu.
  destruct (dstr_mem b Hinv) as (m1 & E1).
  destruct (c_str_split _ _ Hu) as (m2 & E2 & Hnz2).
  pose proof (c_prefix_no_zero (dstr_text b)) as Hnz1.
  destruct (dstr_cmp_loop_spec char_signed _ u m1 m2 Hnz1 Hnz2) as (v & Hv & Heq & Hdiff).
  exists v. split; [|split; [exact Heq|split; [|exact Hdiff]]].
  - unfold dstr_cmp, read_mem.
    rewrite (bind_eq _ _ w _ w) by (exact (get_eq _data w d b Hd Hb)).
    unfold lift. rewrite E1, E2, Hv. reflexivity.
  - intros B1 B2 ->.
    apply (dstr_cmp_loop_zero char_signed _ u m1 m2); auto.
    apply Forall_c_prefix. exact B1.
Qed.

Lemma dstr_cmp_compares_witness :
  exists v, dstr_cmp true 8 (literal (bytes "abd")) (demo_dstr_world "abc")
            = Some (v, demo_dstr_world "abc") /\
    (c_prefix (dstr_text (demo_dstr (bytes "abc") 10)) = bytes "abd" -> v = 0) /\
    (Forall is_byte (dstr_text (demo_dstr (bytes "abc") 10)) ->
     Forall is_byte (bytes "abd") ->
     v = 0 -> c_prefix (dstr_text (demo_dstr (bytes "abc") 10)) = bytes "abd") /\
    (forall pre c1 c2 rest1 rest2,
       c_prefix (dstr_text (demo_dstr (bytes "abc") 10)) ++ [0] = pre ++ c1 :: rest1 ->
       bytes "abd" ++ [0] = pre ++ c2 :: rest2 -> c1 <> c2 ->
       v = int_of_char true c1 - int_of_char true c2).
Proof.
  apply (dstr_cmp_compares true (demo_dstr_world "abc") 8
           (demo_dstr (bytes "abc") 10) (literal (bytes "abd")) (bytes "abd")).
  - discriminate.
  - vm_compute. reflexivity.
  - unfold dstr_inv, block_ok. repeat split; vm_compute; congruence.
  - vm_compute. reflexivity.
Defined.

(** X22 (dstr_cmp_case).  dstr_cmp_case on a dstring and a C string always
    returns and leaves the state unchanged: the result is 0 when the two
    strings are equal up to the case of letters, for strings of bytes only
    then, and otherwise it is the difference of the two characters as they
    are (not of their lower-case forms) at the first position where they
    differ up to case. *)
Theorem dstr_cmp_case_compares (char_signed : bool) (w : world Z) (d : addr)
    (b : _darray Z) (s2 u : list Z) :
  d <> NULL -> heap w !! d = Some b -> dstr_inv b -> c_str s2 = Some u ->
  exists v, dstr_cmp_case char_signed d s2 w = Some (v, w) /\
    (map tolower (c_prefix (dstr_text b)) = map tolower u -> v = 0) /\
    (Forall is_byte (dstr_text b) -> Forall is_byte u ->
     v = 0 -> map tolower (c_prefix (dstr_text b)) = map tolower u) /\
    (forall pre1 pre2 c1 c2 rest1 rest2,
       c_prefix (dstr_text b) ++ [0] = pre1 ++ c1 :: rest1 ->
       u ++ [0] = pre2 ++ c2 :: rest2 ->
       map tolower pre1 = map tolower pre2 -> tolower c1 <> tolower c2 ->
       v = int_of_char char_signed c1 - int_of_char char_signed c2).
Proof.
  intros Hd Hb Hinv Hu.
  destruct (dstr_mem b Hinv) as (m1 & E1).
  destruct (c_str_split _ _ Hu) as (m2 & E2 & Hnz2).
  pose proof (c_prefix_no_zero (dstr_text b)) as Hnz1.
  destruct (dstr_cmp_case_loop_spec char_signed _ u m1 m2 Hnz1 Hnz2)
    as (v & Hv & Heq & Hdiff).
  exists v. split; [|split; [exact Heq|split; [|exact Hdiff]]].
  - unfold dstr_cmp_case, read_mem.
    rewrite (bind_eq _ _ w _ w) by (exact (get_eq _data w d b Hd Hb)).
    unfold lift. rewrite E1, E2, Hv. reflexivity.
  - intros B1 B2 ->.
    apply (dstr_cmp_case_loop_zero char_signed _ u m1 m2); auto.
    apply Forall_c_prefix. exact B1.
Qed.

Lemma dstr_cmp_case_compares_witness :
  exists v, dstr_cmp_case true 8 (literal (bytes "ABD")) (demo_dstr_world "abc")
            = Some (v, demo_dstr_world "abc") /\
    (map tolower (c_prefix (dstr_text (demo_dstr (bytes "abc") 10)))
     = map tolower (bytes "ABD") -> v = 0) /\
    (Forall is_byte (dstr_text (demo_dstr (bytes "abc") 10)) ->
     Forall is_byte (bytes "ABD") ->
     v = 0 -> map tolower (c_prefix (dstr_text (demo_dstr (bytes "abc") 10)))
              = map tolower (bytes "ABD")) /\
    (forall pre1 pre2 c1 c2 rest1 rest2,
       c_prefix (dstr_text (demo_dstr (bytes "abc") 10)) ++ [0] = pre1 ++ c1 :: rest1 ->
       bytes "ABD" ++ [0] = pre2 ++ c2 :: rest2 ->
       map tolower pre1 = map tolower pre2 -> tolower c1 <> tolower c2 ->
       v = int_of_char true c1 - int_of_char true c2).
Proof.
  apply (dstr_cmp_case_compares true (demo_dstr_world "abc") 8
           (demo_dstr (bytes "abc") 10) (literal (bytes "ABD")) (bytes "ABD")).
  - discriminate.
  - vm_compute. reflexivity.
  - unfold dstr_inv, block_ok. repeat split; vm_compute; congruence.
  - vm_compute. reflexivity.
Defined.

Section Transform.
Implicit Types (w : world Z) (p q d : addr) (b : _darray Z).

Lemma dstr_foreach_map (f : Z -> Z) w d b :
  d <> NULL -> heap w !! d = Some b -> dstr_inv b -> f 0 = 0 ->
  exists b',
    _da_foreach d (fun c (_ : unit) => v <- peek d c ;; poke d c (f v)) tt w
    = Some (tt, put w d b') /\
    dstr_inv b' /\ dstr_text b' = map f (dstr_text b) /\
    _length b' = _length b /\ _capacity b' = _capacity b /\
    _elemsz b' = _elemsz b /\ _mem_funcs b' = _mem_funcs b.
Proof.
  intros Hd Hb Hinv Hf0.
  destruct (dstr_inv_elems _ Hinv) as (Hfit & Hel & Hlen).
  pose proof Hinv as (Hok & H1 & _).
  set (b' := upd_data (map f (elems b) ++ drop (Z.to_nat (_length b)) (_data b)) b).
  exists b'. split; [apply _da_foreach_map; assumption|].
  assert (Hl : length (map f (elems b)) = Z.to_nat (_length b))
    by (rewrite length_map; apply length_elems; assumption).
  assert (Hd' : length (_data b') = length (_data b)).
  { unfold b'. cbn [_data upd_data]. rewrite length_app, Hl, length_drop.
    destruct Hfit. lia. }
  destruct (dstr_inv_intro b' (map f (dstr_text b))) as [Hinv' Ht'].
  - apply block_ok_upd_data; [assumption|]. exact Hd'.
  - rewrite Hd'. destruct Hfit. exact (proj2 H).
  - unfold elems, b'. cbn [_length _data upd_data].
    rewrite take_app_length' by (symmetry; exact Hl).
    fold (elems b). rewrite Hel, map_app. cbn [map]. rewrite Hf0. reflexivity.
  - split; [exact Hinv'|]. split; [exact Ht'|]. cbn. auto.
Qed.

Lemma tolower_cases c :
  (65 <= c <= 90 /\ tolower c = c + 32) \/ (~ 65 <= c <= 90 /\ tolower c = c).
Proof.
  unfold tolower. destruct (Z.leb_spec 65 c), (Z.leb_spec c 90); cbn [andb]; lia.
Qed.

Lemma toupper_cases c :
  (97 <= c <= 122 /\ toupper c = c - 32) \/ (~ 97 <= c <= 122 /\ toupper c = c).
Proof.
  unfold toupper. destruct (Z.leb_spec 97 c), (Z.leb_spec c 122); cbn [andb]; lia.
Qed.

Lemma tolower_tolower c : tolower (tolower c) = tolower c.
Proof.
  destruct (tolower_cases c) as [[? E]|[? E]], (tolower_cases (tolower c)) as [[? E']|[? E']];
    rewrite E', ?E in *; lia.
Qed.

Lemma tolower_toupper c : tolower (toupper c) = tolower c.
Proof.
  destruct (toupper_cases c) as [[? E]|[? E]], (tolower_cases (toupper c)) as [[? E']|[? E']],
           (tolower_cases c) as [[? E2]|[? E2]];
    rewrite E', E2, ?E in *; lia.
Qed.

Lemma toupper_zero c : toupper c = 0 <-> c = 0.
Proof.
  unfold toupper. destruct (Z.leb_spec 97 c), (Z.leb_spec c 122); cbn [andb]; lia.
Qed.

Lemma c_prefix_map (f : Z -> Z) t :
  (forall c, f c = 0 <-> c = 0) -> c_prefix (map f t) = map f (c_prefix t).
Proof.
  intros Hf. induction t as [|c t IH]; [reflexivity|]. cbn.
  destruct (Z.eqb_spec c 0) as [->|Hc].
  - rewrite (proj2 (Hf 0) eq_refl). reflexivity.
  - destruct (Z.eqb_spec (f c) 0) as [E|_]; [apply (proj1 (Hf c)) in E; contradiction|].
    cbn. rewrite IH. reflexivity.
Qed.

(** The loop of [_da_strcasestr] does not see the case of the letters of
    the haystack. *)
Lemma _da_strcasestr_loop_map (f : Z -> Z) needle currh :
  (forall c, tolower (f c) = tolower c) ->
  forall hs pos currn,
  _da_strcasestr_loop needle hs (map f currh) pos currn
  = _da_strcasestr_loop needle hs currh pos currn.
Proof.
  intros Hf. induction currh as [|ch currh IH]; intros hs pos currn.
  - reflexivity.
  - destruct currn as [|cn currn]; cbn [map _da_strcasestr_loop]; [reflexivity|].
    rewrite Hf, !IH. reflexivity.
Qed.

End Transform.

(** X23 (dstr_transform_lower, dstr_transform_upper, _da_foreach).
    dstr_transform_lower and dstr_transform_upper always return on a dstring
    and replace its text by the text with tolower, respectively toupper,
    applied to every character; the result is still a dstring, with the same
    length and capacity. *)
Theorem dstr_transform_maps_text (w : world Z) (d : addr) (b : _darray Z) :
  d <> NULL -> heap w !! d = Some b -> dstr_inv b ->
  (exists b', dstr_transform_lower d w = Some (tt, put w d b') /\
     dstr_inv b' /\ dstr_text b' = map tolower (dstr_text b) /\
     _length b' = _length b /\ _capacity b' = _capacity b) /\
  (exists b', dstr_transform_upper d w = Some (tt, put w d b') /\
     dstr_inv b' /\ dstr_text b' = map toupper (dstr_text b) /\
     _length b' = _length b /\ _capacity b' = _capacity b).
Proof.
  intros Hd Hb Hinv. split.
  - destruct (dstr_foreach_map tolower w d b Hd Hb Hinv eq_refl)
      as (b' & Hrun & Hi & Ht & Hl & Hc & _).
    exists b'. auto.
  - destruct (dstr_foreach_map toupper w d b Hd Hb Hinv eq_refl)
      as (b' & Hrun & Hi & Ht & Hl & Hc & _).
    exists b'. auto.
Qed.

Lemma dstr_transform_maps_text_witness :
  (exists b', dstr_transform_lower 8 (demo_dstr_world "aBc")
              = Some (tt, put (demo_dstr_world "aBc") 8 b') /\
     dstr_inv b' /\
     dstr_text b' = map tolower (dstr_text (demo_dstr (bytes "aBc") 10)) /\
     _length b' = _length (demo_dstr (bytes "aBc") 10) /\
     _capacity b' = _capacity (demo_dstr (bytes "aBc") 10)) /\
  (exists b', dstr_transform_upper 8 (demo_dstr_world "aBc")
              = Some (tt, put (demo_dstr_world "aBc") 8 b') /\
     dstr_inv b' /\
     dstr_text b' = map toupper (dstr_text (demo_dstr (bytes "aBc") 10)) /\
     _length b' = _length (demo_dstr (bytes "aBc") 10) /\
     _capacity b' = _capacity (demo_dstr (bytes "aBc") 10)).
Proof.
  apply (dstr_transform_maps_text (demo_dstr_world "aBc") 8
           (demo_dstr (bytes "aBc") 10)).
  - discriminate.
  - vm_compute. reflexivity.
  - unfold dstr_inv, block_ok. repeat split; vm_compute; congruence.
Defined.

(** X24 (dstr_transform_lower, dstr_transform_upper, dstr_find_case,
    _da_strcasestr).  Changing the case of a dstring with
    dstr_transform_lower or dstr_transform_upper does not change what
    dstr_find_case returns for any substring. *)
Theorem case_transform_keeps_find_case (w : world Z) (d : addr) (b : _darray Z)
    (substr needle : list Z) :
  d <> NULL -> heap w !! d = Some b -> dstr_inv b -> c_str substr = Some needle ->
  exists loc wl wu,
    dstr_find_case d substr w = Some (loc, w) /\
    dstr_transform_lower d w = Some (tt, wl) /\
    dstr_find_case d substr wl = Some (loc, wl) /\
    dstr_transform_upper d w = Some (tt, wu) /\
    dstr_find_case d substr wu = Some (loc, wu).
Proof.
  intros Hd Hb Hinv Hn.
  destruct (dstr_foreach_map tolower w d b Hd Hb Hinv eq_refl)
    as (bl & Hrunl & Hil & Htl & _).
  destruct (dstr_foreach_map toupper w d b Hd Hb Hinv eq_refl)
    as (bu & Hrunu & Hiu & Htu & _).
  eexists. exists (put w d bl), (put w d bu).
  split; [apply (dstr_find_case_eq w d b); eassumption|].
  split; [exact Hrunl|]. split.
  { rewrite (dstr_find_case_eq _ d bl substr needle Hd (lookup_put _ _ _) Hil Hn).
    rewrite Htl, (c_prefix_map tolower) by apply tolower_zero.
    unfold _da_strcasestr.
    rewrite (_da_strcasestr_loop_map tolower) by apply tolower_tolower.
    reflexivity. }
  split; [exact Hrunu|].
  rewrite (dstr_find_case_eq _ d bu substr needle Hd (lookup_put _ _ _) Hiu Hn).
  rewrite Htu, (c_prefix_map toupper) by apply toupper_zero.
  unfold _da_strcasestr.
  rewrite (_da_strcasestr_loop_map toupper) by apply tolower_toupper.
  reflexivity.
Qed.

Lemma case_transform_keeps_find_case_witness :
  exists loc wl wu,
    dstr_find_case 8 (literal (bytes "bc")) (demo_dstr_world "aBc")
      = Some (loc, demo_dstr_world "aBc") /\
    dstr_transform_lower 8 (demo_dstr_world "aBc") = Some (tt, wl) /\
    dstr_find_case 8 (literal (bytes "bc")) wl = Some (loc, wl) /\
    dstr_transform_upper 8 (demo_dstr_world "aBc") = Some (tt, wu) /\
    dstr_find_case 8 (literal (bytes "bc")) wu = Some (loc, wu).
Proof.
  apply (case_transform_keeps_find_case (demo_dstr_world "aBc") 8
           (demo_dstr (bytes "aBc") 10) (literal (bytes "bc")) (bytes "bc")).
  - discriminate.
  - vm_compute. reflexivity.
  - unfold dstr_inv, block_ok. repeat split; vm_compute; congruence.
  - vm_compute. reflexivity.
Defined.

Section TrimText.
Variable fn_last_byte : mem_fn -> Z.
Implicit Types (w : world Z) (p q d : addr) (b : _darray Z).

Lemma count_space_blank l c rest :
  blank l -> isspace c = false ->
  count_space (l ++ c :: rest) = Some (Z.of_nat (length l)).
Proof.
  intros Hb Hc. induction Hb as [|x l Hx _ IH]; cbn [app count_space length].
  - rewrite Hc. reflexivity.
  - rewrite Hx, IH. f_equal. lia.
Qed.

Lemma count_space_None l : blank l -> count_space l = None.
Proof.
  induction 1 as [|x l Hx _ IH]; cbn [count_space]; [reflexivity|].
  rewrite Hx, IH. reflexivity.
Qed.

Lemma blank_app l1 l2 : blank (l1 ++ l2) <-> blank l1 /\ blank l2.
Proof. apply Forall_app. Qed.

Lemma blank_rev l : blank (rev l) <-> blank l.
Proof.
  split; intros H; [|apply Forall_rev; exact H].
  rewrite <- (rev_involutive l). apply Forall_rev. exact H.
Qed.

Lemma rev_lookup_Some {X} (l : list X) (i : nat) x :
  rev l !! i = Some x -> (i < length l)%nat /\ l !! (length l - S i)%nat = Some x.
Proof.
  revert i. induction l as [|a l IH] using rev_ind; intros i; [discriminate|].
  rewrite rev_app_distr, length_app. cbn [rev app length].
  destruct i as [|j]; cbn.
  - intros [= ->]. split; [lia|].
    rewrite lookup_app_r by lia.
    replace (length l + 1 - 1 - length l)%nat with O by lia. reflexivity.
  - intros H. destruct (IH j H) as [Hj Hx]. split; [lia|].
    rewrite lookup_app_l by lia.
    replace (length l + 1 - S (S j))%nat with (length l - S j)%nat by lia. exact Hx.
Qed.

(** What the two counts of [dstr_trim] say about the text. *)
Lemma trimmed_stripped t t' : trimmed t t' -> stripped t t'.
Proof.
  intros (n & n2 & Hn & Hn2 & ->).
  destruct (count_space_spec _ _ Hn) as (k & -> & Hbk & c & Hc & Hsc).
  destruct (count_space_spec _ _ Hn2) as (k2 & -> & Hbk2 & c2 & Hc2 & Hsc2).
  rewrite Nat2Z.id in *.
  assert (Hk : (k < length t)%nat).
  { pose proof (lookup_lt_Some _ _ _ Hc2) as H2.
    rewrite length_rev, length_drop in H2. lia. }
  rewrite lookup_app_l in Hc by lia.
  rewrite take_app_le in Hbk by lia.
  set (t1 := drop k t) in *.
  assert (Hk2 : (k2 < length t1)%nat).
  { pose proof (lookup_lt_Some _ _ _ Hc2) as H2. rewrite length_rev in H2. exact H2. }
  assert (Hl1 : length t1 = (length t - k)%nat) by (unfold t1; apply length_drop).
  replace (Z.to_nat (Z.of_nat (length t) - Z.of_nat k - Z.of_nat k2))
    with (length t1 - k2)%nat by lia.
  exists (take k t), (drop (length t1 - k2) t1).
  split; [|split; [exact Hbk|split; [|split]]].
  - rewrite (take_drop (length t1 - k2) t1). unfold t1. symmetry. apply take_drop.
  - apply blank_rev. rewrite <- firstn_rev. exact Hbk2.
  - exists c. split; [|exact Hsc].
    destruct (take (length t1 - k2) t1) as [|x l] eqn:E.
    + apply (f_equal length) in E. rewrite length_take in E. cbn in E. lia.
    + assert (Hx : take (length t1 - k2) t1 !! 0%nat = Some x) by (rewrite E; reflexivity).
      rewrite lookup_take_lt in Hx by lia. unfold t1 in Hx.
      rewrite lookup_drop, Nat.add_0_r in Hx. cbn. congruence.
  - exists c2. split; [|exact Hsc2].
    apply rev_lookup_Some in Hc2 as [_ Hc2].
    rewrite last_lookup, length_take.
    replace (Init.Nat.pred ((length t1 - k2) `min` length t1))
      with (length t1 - S k2)%nat by lia.
    rewrite lookup_take_lt by lia. exact Hc2.
Qed.

Lemma dstr_length_run w d b :
  d <> NULL -> heap w !! d = Some b -> dstr_inv b ->
  dstr_length d w = Some (_length b - 1, w).
Proof.
  intros Hd Hb Hinv. destruct (dstr_length_eq w d b Hd Hb Hinv) as [E1 E2].
  rewrite E1, E2. reflexivity.
Qed.

(** [dstr_trim] returns when the two scans stay in the text. *)
Lemma dstr_trim_eq w d b (k k2 : nat) :
  d <> NULL -> heap w !! d = Some b -> dstr_inv b ->
  count_space (dstr_text b ++ [0]) = Some (Z.of_nat k) ->
  count_space (rev (drop k (dstr_text b))) = Some (Z.of_nat k2) ->
  let b1 := blk_remove_arr 0 (Z.of_nat k) b in
  let b' := blk_remove_arr (_length b1 - 1 - Z.of_nat k2) (Z.of_nat k2) b1 in
  dstr_trim fn_last_byte d w = Some (d, put w d b') /\ dstr_inv b' /\
  dstr_text b' = take (length (dstr_text b) - k - k2) (drop k (dstr_text b)) /\
  _capacity b' = _capacity b.
Proof.
  intros Hd Hb Hinv Hk Hk2. cbv zeta.
  destruct (dstr_inv_elems _ Hinv) as (Hf & He & Hlt).
  assert (Hkt : (k < length (dstr_text b))%nat).
  { pose proof (count_space_bound _ _ Hk2) as H2.
    rewrite length_rev, length_drop in H2. lia. }
  destruct (trim_front b k Hinv ltac:(lia)) as (Hinv1 & Ht1 & Hc1).
  set (b1 := blk_remove_arr 0 (Z.of_nat k) b) in *.
  destruct (dstr_inv_elems _ Hinv1) as (Hf1 & He1 & Hlt1).
  assert (Hk2t : (k2 < length (dstr_text b1))%nat).
  { pose proof (count_space_bound _ _ Hk2) as H2.
    rewrite length_rev in H2. rewrite Ht1. lia. }
  destruct (trim_back b1 k2 Hinv1 ltac:(lia)) as (Hinv2 & Ht2 & Hc2).
  set (b2 := blk_remove_arr (_length b1 - 1 - Z.of_nat k2) (Z.of_nat k2) b1) in *.
  split; [|split; [exact Hinv2|split]].
  - unfold dstr_trim, read_mem, read_front.
    rewrite (bind_eq _ _ w _ w) by (exact (get_eq _data w d b Hd Hb)).
    rewrite (bind_eq _ _ w (Z.of_nat k) w).
    2:{ unfold lift. rewrite (dstr_data b Hinv), count_space_app_zero, Hk. reflexivity. }
    rewrite (bind_eq _ _ w tt (put w d b1)).
    2:{ apply da_remove_arr_eq; auto; lia. }
    rewrite (bind_eq _ _ _ _ _)
      by (exact (dstr_length_run _ d b1 Hd (lookup_put _ _ _) Hinv1)).
    rewrite (bind_eq _ _ _ _ _)
      by (exact (get_eq _data _ d b1 Hd (lookup_put _ _ _))).
    rewrite (bind_eq _ _ _ _ _)
      by (exact (get_eq (fun b => [fn_last_byte (free_f (_mem_funcs b))])
                   _ d b1 Hd (lookup_put _ _ _))).
    erewrite (bind_eq _ _ _ (Z.of_nat k2) _).
    2:{ unfold lift, count_space_back.
        destruct (Z.leb_spec (-1) (_length b1 - 1 - 1)); [|lia]. cbn [andb].
        destruct Hf1 as [Hf1 _].
        destruct (Z.ltb_spec (_length b1 - 1 - 1) (Z.of_nat (length (_data b1)))); [|lia].
        replace (Z.to_nat (_length b1 - 1 - 1 + 1))
          with (Z.to_nat (_length b1 - 1)) by lia.
        fold (dstr_text b1). rewrite Ht1.
        rewrite (count_space_app _ _ _ Hk2). reflexivity. }
    rewrite (bind_eq _ _ _ _ _)
      by (exact (dstr_length_run _ d b1 Hd (lookup_put _ _ _) Hinv1)).
    assert (E : wrap (_length b1 - 1 - Z.of_nat k2) = _length b1 - 1 - Z.of_nat k2)
      by (destruct Hf1; wrap_lia).
    rewrite E.
    rewrite (bind_eq _ _ _ tt (put (put w d b1) d b2)).
    2:{ apply da_remove_arr_eq; auto using lookup_put; lia. }
    rewrite put_put. reflexivity.
  - rewrite Ht2, Ht1, length_drop. f_equal; lia.
  - rewrite Hc2. exact Hc1.
Qed.

(** On a text of whitespace only, the scan for trailing whitespace starts
    at the byte in front of the data. *)
Lemma dstr_trim_blank_eq w d b :
  d <> NULL -> heap w !! d = Some b -> dstr_inv b -> blank (dstr_text b) ->
  let b1 := blk_remove_arr 0 (Z.of_nat (length (dstr_text b))) b in
  dstr_inv b1 /\ dstr_text b1 = [] /\ _capacity b1 = _capacity b /\
  dstr_trim fn_last_byte d w
  = if isspace (fn_last_byte (free_f (_mem_funcs b))) then None
    else Some (d, put w d b1).
Proof.
  intros Hd Hb Hinv Hbl. cbv zeta.
  destruct (dstr_inv_elems _ Hinv) as (Hf & He & Hlt).
  set (k := length (dstr_text b)).
  destruct (trim_front b k Hinv ltac:(lia)) as (Hinv1 & Ht1 & Hc1).
  set (b1 := blk_remove_arr 0 (Z.of_nat k) b) in *.
  unfold k in Ht1. rewrite drop_all in Ht1. fold k in Ht1.
  assert (Hl1 : _length b1 = 1).
  { destruct (dstr_inv_elems _ Hinv1) as (_ & _ & Hlt1).
    rewrite Ht1 in Hlt1. cbn [length] in Hlt1. lia. }
  destruct (dstr_inv_elems _ Hinv1) as (Hf1 & _ & _).
  split; [exact Hinv1|]. split; [exact Ht1|]. split; [exact Hc1|].
  unfold dstr_trim, read_mem, read_front.
  rewrite (bind_eq _ _ w _ w) by (exact (get_eq _data w d b Hd Hb)).
  rewrite (bind_eq _ _ w (Z.of_nat k) w).
  2:{ unfold lift. rewrite (dstr_data b Hinv).
      rewrite (count_space_blank _ 0 _ Hbl eq_refl). reflexivity. }
  rewrite (bind_eq _ _ w tt (put w d b1)).
  2:{ apply da_remove_arr_eq; auto; unfold k; lia. }
  rewrite (bind_eq _ _ _ _ _)
    by (exact (dstr_length_run _ d b1 Hd (lookup_put _ _ _) Hinv1)).
  rewrite (bind_eq _ _ _ _ _)
    by (exact (get_eq _data _ d b1 Hd (lookup_put _ _ _))).
  rewrite (bind_eq _ _ _ _ _)
    by (exact (get_eq (fun b => [fn_last_byte (free_f (_mem_funcs b))])
                 _ d b1 Hd (lookup_put _ _ _))).
  change (_mem_funcs b1) with (_mem_funcs b).
  rewrite Hl1. change (1 - 1 - 1) with (-1).
  unfold count_space_back.
  destruct (Z.ltb_spec (-1) (Z.of_nat (length (_data b1)))); [|lia].
  change (-1 <=? -1) with true. change (Z.to_nat (-1 + 1)) with 0%nat.
  rewrite take_0. cbn [andb rev app count_space].
  destruct (isspace (fn_last_byte (free_f (_mem_funcs b)))); [reflexivity|].
  rewrite (bind_eq _ _ _ 0 _) by reflexivity.
  rewrite (bind_eq _ _ _ _ _)
    by (exact (dstr_length_run _ d b1 Hd (lookup_put _ _ _) Hinv1)).
  rewrite Hl1. change (wrap (1 - 1 - 0)) with 0.
  rewrite (bind_eq _ _ _ tt (put (put w d b1) d (blk_remove_arr 0 0 b1))).
  2:{ apply da_remove_arr_eq; auto using lookup_put; lia. }
  rewrite put_put, (blk_remove_arr_nothing b1 0 Hf1) by lia. reflexivity.
Qed.

Lemma not_blank_counts t :
  Exists (fun c => isspace c = false) t ->
  exists k k2 : nat,
    count_space (t ++ [0]) = Some (Z.of_nat k) /\
    count_space (rev (drop k t)) = Some (Z.of_nat k2).
Proof.
  intros Hex.
  destruct (count_space_Some (t ++ [0])) as [n Hn].
  { apply Exists_app. left. exact Hex. }
  destruct (count_space_spec _ _ Hn) as (k & -> & Hbk & c & Hc & Hsc).
  assert (Hk : (k < length t)%nat).
  { destruct (Nat.lt_ge_cases k (length t)) as [|Hge]; [assumption|exfalso].
    pose proof (lookup_lt_Some _ _ _ Hc) as Hlt.
    rewrite length_app in Hlt. cbn [length] in Hlt.
    assert (k = length t) by lia. subst k.
    rewrite take_app_length in Hbk.
    apply Exists_exists in Hex as (x & Hx & Hsx).
    pose proof (proj1 (Forall_forall _ _) Hbk x Hx) as Hsx'. cbn in Hsx'. congruence. }
  rewrite lookup_app_l in Hc by lia.
  destruct (count_space_Some (rev (drop k t))) as [n2 Hn2].
  { apply Exists_rev. apply Exists_exists. exists c. split; [|exact Hsc].
    apply (list_elem_of_lookup_2 _ 0).
    rewrite lookup_drop, Nat.add_0_r. exact Hc. }
  destruct (count_space_spec _ _ Hn2) as (k2 & -> & _).
  exists k, k2. auto.
Qed.

End TrimText.

(** X25 (dstr_trim, da_remove_arr, dstr_length).  On a dstring whose text
    has a character that is not whitespace, dstr_trim always returns the
    same handle and leaves the text without the whitespace at its two ends
    (the result starts and ends with a non-whitespace character), in the
    same block with the same capacity.  On a text of whitespace only (the
    empty text included) the scan for trailing whitespace starts at the
    byte in front of the data, the last byte of the header; when that byte
    is not whitespace, dstr_trim returns the same handle as well and leaves
    the empty text. *)
Theorem dstr_trim_strips (fn_last_byte : mem_fn -> Z) (w : world Z) (d : addr)
    (b : _darray Z) :
  d <> NULL -> heap w !! d = Some b -> dstr_inv b ->
  (Exists (fun c => isspace c = false) (dstr_text b) ->
   exists b', dstr_trim fn_last_byte d w = Some (d, put w d b') /\ dstr_inv b' /\
     stripped (dstr_text b) (dstr_text b') /\ _capacity b' = _capacity b) /\
  (blank (dstr_text b) ->
   isspace (fn_last_byte (free_f (_mem_funcs b))) = false ->
   exists b', dstr_trim fn_last_byte d w = Some (d, put w d b') /\ dstr_inv b' /\
     dstr_text b' = [] /\ _capacity b' = _capacity b).
Proof.
  intros Hd Hb Hinv. split.
  - intros Hex.
    destruct (not_blank_counts _ Hex) as (k & k2 & Hk & Hk2).
    destruct (dstr_trim_eq fn_last_byte w d b k k2 Hd Hb Hinv Hk Hk2)
      as (Hrun & Hinv' & Ht' & Hc').
    eexists. split; [exact Hrun|]. split; [exact Hinv'|]. split; [|exact Hc'].
    apply trimmed_stripped. exists (Z.of_nat k), (Z.of_nat k2).
    rewrite !Nat2Z.id. split; [exact Hk|]. split; [exact Hk2|].
    rewrite Ht'. f_equal. lia.
  - intros Hbl Hfront.
    destruct (dstr_trim_blank_eq fn_last_byte w d b Hd Hb Hinv Hbl)
      as (Hinv1 & Ht1 & Hc1 & Hrun).
    rewrite Hfront in Hrun.
    eexists. split; [exact Hrun|]. auto.
Qed.

Lemma dstr_trim_strips_witness :
  (exists b', dstr_trim demo_fn_last_byte 8 (demo_dstr_world " ab ")
              = Some (8, put (demo_dstr_world " ab ") 8 b') /\ dstr_inv b' /\
     stripped (dstr_text (demo_dstr (bytes " ab ") 10)) (dstr_text b') /\
     _capacity b' = 10) /\
  (exists b', dstr_trim demo_fn_last_byte 8 (demo_dstr_world "  ")
              = Some (8, put (demo_dstr_world "  ") 8 b') /\ dstr_inv b' /\
     dstr_text b' = [] /\ _capacity b' = 10).
Proof.
  split.
  - apply (dstr_trim_strips demo_fn_last_byte (demo_dstr_world " ab ") 8
             (demo_dstr (bytes " ab ") 10)).
    + discriminate.
    + vm_compute. reflexivity.
    + unfold dstr_inv, block_ok. repeat split; vm_compute; congruence.
    + right. right. left. reflexivity.
  - apply (dstr_trim_strips demo_fn_last_byte (demo_dstr_world "  ") 8
             (demo_dstr (bytes "  ") 10)).
    + discriminate.
    + vm_compute. reflexivity.
    + unfold dstr_inv, block_ok. repeat split; vm_compute; congruence.
    + repeat constructor.
    + reflexivity.
Defined.

(** X26 (dstr_trim).  dstr_trim is idempotent: after a dstr_trim that
    returned, a second dstr_trim returns the same handle and changes
    nothing. *)
Theorem dstr_trim_idempotent (fn_last_byte : mem_fn -> Z) (w : world Z)
    (d : addr) (b : _darray Z) (r : addr) (w1 : world Z) :
  d <> NULL -> heap w !! d = Some b -> dstr_inv b ->
  dstr_trim fn_last_byte d w = Some (r, w1) ->
  dstr_trim fn_last_byte r w1 = Some (r, w1).
Proof.
  intros Hd Hb Hinv Hrun.
  assert (Hdec : forall c, {isspace c = true} + {isspace c = false})
    by (intros c; destruct (isspace c); auto).
  destruct (Forall_Exists_dec (fun c => isspace c = true)
              (fun c => isspace c = false) Hdec (dstr_text b)) as [Hall|Hex].
  - (* a text of whitespace only: the first call left the empty text *)
    destruct (dstr_trim_blank_eq fn_last_byte w d b Hd Hb Hinv Hall)
      as (Hinv1 & Ht1 & _ & Hrun1).
    rewrite Hrun1 in Hrun.
    destruct (isspace (fn_last_byte (free_f (_mem_funcs b)))) eqn:Hfront;
      [discriminate|].
    injection Hrun as <- <-.
    set (b1 := blk_remove_arr 0 (Z.of_nat (length (dstr_text b))) b) in *.
    assert (Hbl1 : blank (dstr_text b1)) by (rewrite Ht1; constructor).
    destruct (dstr_trim_blank_eq fn_last_byte (put w d b1) d b1 Hd (lookup_put _ _ _)
                Hinv1 Hbl1) as (_ & _ & _ & Hrun2).
    change (_mem_funcs b1) with (_mem_funcs b) in Hrun2.
    rewrite Hfront in Hrun2. rewrite Hrun2, put_put, Ht1.
    destruct (dstr_inv_elems _ Hinv1) as (Hf1 & _ & _).
    pose proof Hinv1 as (_ & Hge1 & _).
    change (Z.of_nat (length [])) with 0.
    rewrite (blk_remove_arr_nothing b1 0 Hf1) by lia. reflexivity.
  - destruct (not_blank_counts _ Hex) as (k & k2 & Hk & Hk2).
    destruct (dstr_trim_eq fn_last_byte w d b k k2 Hd Hb Hinv Hk Hk2)
      as (Hrun' & Hinv' & Ht' & _).
    rewrite Hrun' in Hrun. injection Hrun as <- <-.
    set (b' := blk_remove_arr _ _ _) in *.
    assert (Hst : stripped (dstr_text b) (dstr_text b')).
    { apply trimmed_stripped. exists (Z.of_nat k), (Z.of_nat k2).
      rewrite !Nat2Z.id. split; [exact Hk|]. split; [exact Hk2|].
      rewrite Ht'. f_equal. lia. }
    destruct Hst as (l & rr & _ & _ & _ & (c & Hc & Hsc) & (c2 & Hc2 & Hsc2)).
    assert (H0 : count_space (dstr_text b' ++ [0]) = Some (Z.of_nat 0)).
    { destruct (dstr_text b') as [|x t]; [discriminate|]. injection Hc as ->.
      cbn [app count_space]. rewrite Hsc. reflexivity. }
    assert (H02 : count_space (rev (drop 0 (dstr_text b'))) = Some (Z.of_nat 0)).
    { rewrite drop_0. destruct (dstr_text b') as [|x t] using rev_ind; [discriminate|].
      rewrite last_snoc in Hc2. injection Hc2 as ->.
      rewrite rev_app_distr. cbn [rev app count_space]. rewrite Hsc2. reflexivity. }
    destruct (dstr_trim_eq fn_last_byte (put w d b') d b' 0 0 Hd (lookup_put _ _ _)
                Hinv' H0 H02) as (Hrun2 & _).
    destruct (dstr_inv_elems _ Hinv') as (Hf' & _ & _).
    pose proof Hinv' as (_ & Hge1 & _).
    cbv zeta in Hrun2. change (Z.of_nat 0) with 0 in Hrun2.
    rewrite (blk_remove_arr_nothing b' 0 Hf') in Hrun2 by lia.
    rewrite Z.sub_0_r in Hrun2.
    rewrite (blk_remove_arr_nothing b' (_length b' - 1) Hf') in Hrun2 by lia.
    rewrite Hrun2, put_put. reflexivity.
Qed.

Lemma dstr_trim_idempotent_witness :
  dstr_trim demo_fn_last_byte 8
    (world_after (dstr_trim demo_fn_last_byte 8) (demo_dstr_world " ab "))
  = Some (8, world_after (dstr_trim demo_fn_last_byte 8) (demo_dstr_world " ab ")).
Proof.
  apply (dstr_trim_idempotent demo_fn_last_byte (demo_dstr_world " ab ") 8
           (demo_dstr (bytes " ab ") 10)).
  - discriminate.
  - vm_compute. reflexivity.
  - unfold dstr_inv, block_ok. repeat split; vm_compute; congruence.
  - vm_compute. reflexivity.
Defined.

(* ===================================================================== *)
(** * Runs of the replace loops                                           *)
(* ===================================================================== *)

Section InsertArrRoom.
Context {A : Type}.
Implicit Types (w : world A) (p q r : addr) (b : _darray A).

(** [da_insert_arr] where the capacity suffices: no allocator call. *)
Lemma da_insert_arr_room w p b i (src : list A) n :
  p <> NULL -> heap w !! p = Some b ->
  wrap (_length b + n) <= _capacity b ->
  can_move b (wrap (i + n)) i (wrap (_length b - i)) ->
  0 <= i -> 0 <= n <= Z.of_nat (length src) ->
  i + n <= Z.of_nat (length (_data b)) ->
  da_insert_arr p i src n w = Some (p, put w p (blk_insert_arr i src n b)).
Proof.
  intros Hp Hb Hcap Hmv Hi Hn Hin. unfold da_insert_arr.
  rewrite (bind_eq _ _ w _ w) by (exact (da_reserve_noop w p b n Hp Hb Hcap)).
  destruct (Z.eqb_spec p NULL); [contradiction|].
  rewrite (bind_eq _ _ w _ w) by (exact (get_eq _length w p b Hp Hb)).
  rewrite (bind_eq _ _ w _ _) by (exact (memmove_eq w p b _ _ _ Hp Hb Hmv)).
  pose proof Hmv as (M1 & M2 & M3 & M4 & M5).
  rewrite (bind_eq _ _ _ _ _)
    by (apply memcpy_eq;
        [assumption|apply lookup_put|assumption|assumption|
         cbn [_data upd_data]; rewrite length_blit_move by assumption; assumption]).
  rewrite put_put.
  rewrite (bind_eq _ _ _ _ _) by (exact (get_eq _length _ p _ Hp (lookup_put _ _ _))).
  rewrite (bind_eq _ _ _ _ _) by (exact (set_length_eq _ p _ _ Hp (lookup_put _ _ _))).
  rewrite put_put. reflexivity.
Qed.

End InsertArrRoom.

Section ReplaceRuns.
Implicit Types (w : world Z) (p q d : addr) (b : _darray Z).

Lemma strstr_empty hay : strstr hay [] = Some 0.
Proof. destruct hay; reflexivity. Qed.

Lemma _da_strcasestr_empty hay : _da_strcasestr hay [] = Some 0.
Proof. destruct hay; reflexivity. Qed.

(** An empty target is found at the start of every text. *)
Lemma restart_replace_all_empty F fuel :
  (forall hay, F hay [] = Some 0) ->
  forall text new, restart_replace_all (text_find F) fuel text [] new = None.
Proof.
  intros HF. induction fuel as [|fuel IH]; intros text new; [reflexivity|].
  cbn [restart_replace_all]. unfold text_find at 1. rewrite HF. apply IH.
Qed.

Lemma loop_post_empty F fuel d w b new r w' :
  (forall hay, F hay [] = Some 0) ->
  heap w !! d = Some b -> dstr_inv b ->
  loop_post F [] new d fuel w r w' ->
  r = Returned NULL \/ exists h, r = Running h.
Proof.
  intros HF Hb Hinv (b0 & q & b' & _ & Hb0 & _ & _ & Hend).
  rewrite Hb in Hb0. injection Hb0 as <-.
  destruct r as [h|h]; [|right; eauto].
  destruct (Z.eq_dec h NULL) as [->|Hne]; [left; reflexivity|exfalso].
  destruct Hend as [_ Hend]. destruct (Hend Hne Hinv) as [_ Hres].
  rewrite (restart_replace_all_empty F fuel HF) in Hres. discriminate.
Qed.

(** One replacement that does not make the text longer: it is done in the
    block, and the dstring stays one. *)
Lemma replace_step_room w d b loc sl new_str nl :
  d <> NULL -> heap w !! d = Some b -> dstr_inv b ->
  0 <= loc -> 0 <= nl <= sl -> nl <= Z.of_nat (length new_str) ->
  loc + sl <= Z.of_nat (length (dstr_text b)) ->
  exists b2,
    (da_remove_arr d loc sl ;; da_insert_arr d loc new_str nl) w
      = Some (d, put w d b2) /\
    dstr_inv b2 /\
    dstr_text b2 = take (Z.to_nat loc) (dstr_text b) ++ take (Z.to_nat nl) new_str
                     ++ drop (Z.to_nat (loc + sl)) (dstr_text b) /\
    _capacity b2 = _capacity b.
Proof.
  intros Hd Hb Hinv Hloc Hnl Hsrc Hfit.
  destruct (dstr_inv_elems _ Hinv) as (Hf & _ & Hlt).
  pose proof Hinv as (Hok & _ & _). pose proof Hok as (O1 & O2 & O3 & O4).
  pose proof Hf as [F1 F2].
  destruct (elems_remove_arr b loc sl Hf Hloc ltac:(lia) ltac:(lia)) as (L1 & _ & L3).
  set (b1 := blk_remove_arr loc sl b) in *.
  assert (C1 : _capacity b1 = _capacity b) by reflexivity.
  assert (Hrun : (da_remove_arr d loc sl ;; da_insert_arr d loc new_str nl) w
                 = Some (d, put w d (blk_insert_arr loc new_str nl b1))).
  { rewrite (bind_eq _ _ w tt (put w d b1))
      by (apply da_remove_arr_eq; auto; lia).
    rewrite (da_insert_arr_room (put w d b1) d b1 loc new_str nl);
      [rewrite put_put; reflexivity|assumption|apply lookup_put| | |lia|lia|lia].
    - rewrite L1, C1. wrap_lia.
    - assert (E2 : wrap (loc + nl) = loc + nl) by wrap_lia.
      assert (E3 : wrap (_length b1 - loc) = _length b1 - loc) by wrap_lia.
      rewrite E2, E3. unfold can_move. lia. }
  exists (blk_insert_arr loc new_str nl b1). split; [exact Hrun|].
  destruct (wp_elim _ _ _ _ _ (replace_step_spec d loc sl new_str nl w) Hrun)
    as (b0 & q & b' & _ & Hb0 & Hrel & Hq & _ & Hend).
  rewrite Hb in Hb0. injection Hb0 as <-.
  destruct Hq as [Hq|Hq]; [contradiction|]. subst q.
  pose proof (relocated_lookup _ _ _ _ _ Hrel) as Hb'.
  rewrite lookup_put in Hb'. injection Hb' as <-.
  assert (Hpre : forall b0, heap w !! d = Some b0 ->
            0 <= loc /\ 0 <= sl /\ loc + sl <= Z.of_nat (length (dstr_text b0))).
  { intros b0 Hb0. rewrite Hb in Hb0. injection Hb0 as <-. lia. }
  destruct (Hend Hd Hinv Hpre) as [Hinv2 Ht2].
  split; [exact Hinv2|]. split; [exact Ht2|reflexivity].
Qed.

Section Loop.
Variables (find : addr -> list Z -> M Z Z) (F : list Z -> list Z -> option Z).
Variables (substr new_str sub new : list Z) (sl nl : Z).
Hypothesis Hfind : forall w d b,
  d <> NULL -> heap w !! d = Some b -> dstr_inv b ->
  find d substr w = Some (match F (c_prefix (dstr_text b)) sub with
                          | Some loc => loc
                          | None => -1
                          end, w).
Hypothesis HF : forall hay i,
  F hay sub = Some i -> 0 <= i /\ i + Z.of_nat (length sub) <= Z.of_nat (length hay).
Hypothesis Hsl : sl = Z.of_nat (length sub).
Hypothesis Hnl : nl = Z.of_nat (length new).
Hypothesis Hnew : c_str new_str = Some new.

Lemma length_c_prefix t : (length (c_prefix t) <= length t)%nat.
Proof.
  induction t as [|c t IH]; cbn; [lia|]. destruct (c =? 0); cbn; lia.
Qed.

(** The target is not in the text: the loop returns at once. *)
Lemma replace_loop_absent fuel w d b :
  d <> NULL -> heap w !! d = Some b -> dstr_inv b ->
  F (c_prefix (dstr_text b)) sub = None ->
  replace_loop find (S fuel) d substr new_str sl nl w = Some (Returned d, w).
Proof.
  intros Hd Hb Hinv Hnone. cbn [replace_loop].
  rewrite (bind_eq _ _ w (-1) w) by (rewrite (Hfind w d b Hd Hb Hinv), Hnone; reflexivity).
  reflexivity.
Qed.

(** A replacement shorter than the target: every iteration shortens the
    text, so the loop returns within as many iterations as the text has
    bytes, plus the one that finds nothing. *)
Lemma replace_loop_shrinks fuel : forall w d b,
  d <> NULL -> heap w !! d = Some b -> dstr_inv b ->
  nl < sl -> (length (dstr_text b) < fuel)%nat ->
  exists b',
    replace_loop find fuel d substr new_str sl nl w = Some (Returned d, put w d b') /\
    dstr_inv b' /\
    restart_replace_all (text_find F) fuel (dstr_text b) sub new
      = Some (dstr_text b') /\
    (length (dstr_text b') <= length (dstr_text b))%nat /\
    _capacity b' = _capacity b.
Proof.
  induction fuel as [|fuel IH]; intros w d b Hd Hb Hinv Hlt Hfuel; [lia|].
  cbn [restart_replace_all]. unfold text_find at 1.
  destruct (F (c_prefix (dstr_text b)) sub) as [loc|] eqn:E.
  - destruct (HF _ _ E) as [Hloc Hfit].
    pose proof (length_c_prefix (dstr_text b)) as Hcp.
    destruct (c_str_take _ _ Hnew) as [Ht Hl].
    destruct (replace_step_room w d b loc sl new_str nl Hd Hb Hinv Hloc
                ltac:(lia) ltac:(lia) ltac:(lia)) as (b2 & Hrun & Hinv2 & Ht2 & Hc2).
    assert (Htk : take (Z.to_nat nl) new_str = new).
    { rewrite <- (take_app_length new [0]), <- Ht.
      rewrite take_take. f_equal. lia. }
    rewrite Htk in Ht2.
    assert (Hlen2 : (length (dstr_text b2) < length (dstr_text b))%nat).
    { rewrite Ht2, !length_app, length_take, length_drop. lia. }
    destruct (IH (put w d b2) d b2 Hd (lookup_put _ _ _) Hinv2 Hlt ltac:(lia))
      as (b' & Hrun' & Hinv' & Hres & Hle & Hcap).
    exists b'. cbn [replace_loop].
    rewrite (bind_eq _ _ w loc w) by (rewrite (Hfind w d b Hd Hb Hinv), E; reflexivity).
    destruct (Z.eqb_spec loc (-1)); [lia|].
    unfold bind in Hrun.
    destruct (da_remove_arr d loc sl w) as [[u w1]|] eqn:Erem; [|discriminate].
    rewrite (bind_eq _ _ w u w1 Erem).
    rewrite (bind_eq _ _ w1 d _ Hrun).
    destruct (Z.eqb_spec d NULL); [contradiction|].
    rewrite Hrun', put_put.
    split; [reflexivity|]. split; [assumption|].
    split; [rewrite <- Hres, Ht2; repeat f_equal; lia|].
    split; [lia|congruence].
  - exists b. rewrite (put_id w d b Hb).
    split; [apply (replace_loop_absent fuel w d b); assumption|].
    split; [assumption|]. split; [reflexivity|]. split; [lia|reflexivity].
Qed.

End Loop.
End ReplaceRuns.

Section ReplaceAll.
Implicit Types (w : world Z) (p q d : addr) (b : _darray Z).

Lemma strlen_c_str s t :
  c_str s = Some t -> Z.of_nat (length t) + 1 < SIZE_MOD ->
  strlen s = Some (Z.of_nat (length t)).
Proof.
  intros Hs Hl. unfold strlen. rewrite Hs.
  destruct (Z.ltb_spec (Z.of_nat (length t) + 1) SIZE_MOD); [reflexivity|lia].
Qed.

Lemma dstr_replace_all_eq fuel d substr new_str sub new w :
  c_str substr = Some sub -> c_str new_str = Some new ->
  Z.of_nat (length sub) + 1 < SIZE_MOD -> Z.of_nat (length new) + 1 < SIZE_MOD ->
  dstr_replace_all fuel d substr new_str w
  = replace_loop dstr_find fuel d substr new_str
      (Z.of_nat (length sub)) (Z.of_nat (length new)) w /\
  dstr_replace_all_case fuel d substr new_str w
  = replace_loop dstr_find_case fuel d substr new_str
      (Z.of_nat (length sub)) (Z.of_nat (length new)) w.
Proof.
  intros Hsub Hnew Hls Hln.
  unfold dstr_replace_all, dstr_replace_all_case.
  split.
  - rewrite (bind_eq _ _ w (Z.of_nat (length sub)) w)
      by (unfold lift; rewrite (strlen_c_str _ _ Hsub Hls); reflexivity).
    rewrite (bind_eq _ _ w (Z.of_nat (length new)) w)
      by (unfold lift; rewrite (strlen_c_str _ _ Hnew Hln); reflexivity).
    apply dstr_replace_all_loop_eq.
  - rewrite (bind_eq _ _ w (Z.of_nat (length sub)) w)
      by (unfold lift; rewrite (strlen_c_str _ _ Hsub Hls); reflexivity).
    rewrite (bind_eq _ _ w (Z.of_nat (length new)) w)
      by (unfold lift; rewrite (strlen_c_str _ _ Hnew Hln); reflexivity).
    apply dstr_replace_all_case_loop_eq.
Qed.

Lemma strstr_absent hay sub :
  (forall j, ~ occurs_at sub hay j) -> strstr hay sub = None.
Proof.
  intros Hno. destruct (strstr hay sub) as [i|] eqn:E; [|reflexivity].
  destruct (strstr_first _ _ _ E) as (_ & Ho & _). destruct (Hno _ Ho).
Qed.

Lemma _da_strcasestr_absent hay sub :
  (forall j, ~ occurs_at_case sub hay j) -> _da_strcasestr hay sub = None.
Proof.
  intros Hno. destruct (_da_strcasestr hay sub) as [i|] eqn:E; [|reflexivity].
  destruct (Hno _ (_da_strcasestr_sound _ _ _ E)).
Qed.

End ReplaceAll.

(** X27 (dstr_replace_all, dstr_replace_all_case, dstr_find,
    dstr_find_case).  When the substring occurs nowhere in the text of the
    dstring (for dstr_replace_all_case: nowhere up to the case of letters),
    dstr_replace_all and dstr_replace_all_case return the same handle after
    the first search, with the state (heap and allocator) unchanged. *)
Theorem replace_all_absent_target (fuel : nat) (w : world Z) (d : addr)
    (b : _darray Z) (substr new_str sub new : list Z) :
  d <> NULL -> heap w !! d = Some b -> dstr_inv b ->
  c_str substr = Some sub -> c_str new_str = Some new ->
  Z.of_nat (length sub) + 1 < SIZE_MOD -> Z.of_nat (length new) + 1 < SIZE_MOD ->
  ((forall j, ~ occurs_at sub (c_prefix (dstr_text b)) j) ->
   dstr_replace_all (S fuel) d substr new_str w = Some (Returned d, w)) /\
  ((forall j, ~ occurs_at_case sub (c_prefix (dstr_text b)) j) ->
   dstr_replace_all_case (S fuel) d substr new_str w = Some (Returned d, w)).
Proof.
  intros Hd Hb Hinv Hsub Hnew Hls Hln.
  destruct (dstr_replace_all_eq (S fuel) d substr new_str sub new w
              Hsub Hnew Hls Hln) as [-> ->].
  split; intros Hno.
  - apply (replace_loop_absent dstr_find strstr substr new_str sub
             _ _ (fun w d b Hd Hb Hinv => dstr_find_eq w d b substr sub Hd Hb Hinv Hsub)
             fuel w d b Hd Hb Hinv).
    apply strstr_absent. exact Hno.
  - apply (replace_loop_absent dstr_find_case _da_strcasestr substr new_str sub
             _ _ (fun w d b Hd Hb Hinv => dstr_find_case_eq w d b substr sub Hd Hb Hinv Hsub)
             fuel w d b Hd Hb Hinv).
    apply _da_strcasestr_absent. exact Hno.
Qed.

(** X28 (dstr_replace_all, dstr_replace_all_case, dstr_find, dstr_find_case,
    _da_strcasestr).  With an empty search substring dstr_replace_all and
    dstr_replace_all_case never return a handle, whatever the text and the
    replacement: the empty substring is found at offset 0 in every
    iteration, so after any number of iterations the loop is still running,
    unless an allocation failed and NULL was returned. *)
Theorem replace_all_empty_target_never_returns (fuel : nat) (w w' : world Z)
    (d : addr) (b : _darray Z) (substr new_str : list Z) (r : loop_end) :
  d <> NULL -> heap w !! d = Some b -> dstr_inv b ->
  c_str substr = Some [] ->
  dstr_replace_all fuel d substr new_str w = Some (r, w') \/
  dstr_replace_all_case fuel d substr new_str w = Some (r, w') ->
  r = Returned NULL \/ exists h, r = Running h.
Proof.
  intros Hd Hb Hinv Hsub [Hrun|Hrun].
  - destruct (wp_elim _ _ _ _ _ (dstr_replace_all_spec fuel d _ _ _ _ Hd Hb) Hrun)
      as (sub & new & Hsub' & _ & Hpost).
    rewrite Hsub in Hsub'. injection Hsub' as <-.
    exact (loop_post_empty strstr fuel d w b new r w' strstr_empty Hb Hinv Hpost).
  - destruct (wp_elim _ _ _ _ _ (dstr_replace_all_case_spec fuel d _ _ _ _ Hd Hb) Hrun)
      as (sub & new & Hsub' & _ & Hpost).
    rewrite Hsub in Hsub'. injection Hsub' as <-.
    exact (loop_post_empty _da_strcasestr fuel d w b new r w'
             _da_strcasestr_empty Hb Hinv Hpost).
Qed.

(** X29 (dstr_replace_all, dstr_replace_all_case, da_remove_arr,
    da_insert_arr, da_reserve).  When the replacement is shorter than the
    search substring, dstr_replace_all and dstr_replace_all_case return the
    same handle within as many replacements as the text has characters,
    without any reallocation (same block, same capacity); the result is a
    dstring whose text is not longer than before and in which the search
    finds nothing more. *)
Theorem replace_all_shorter_terminates (fuel : nat) (w : world Z) (d : addr)
    (b : _darray Z) (substr new_str sub new : list Z) :
  d <> NULL -> heap w !! d = Some b -> dstr_inv b ->
  c_str substr = Some sub -> c_str new_str = Some new ->
  Z.of_nat (length sub) + 1 < SIZE_MOD ->
  (length new < length sub)%nat ->
  (length (dstr_text b) < fuel)%nat ->
  (exists b',
     dstr_replace_all fuel d substr new_str w = Some (Returned d, put w d b') /\
     dstr_inv b' /\ _capacity b' = _capacity b /\
     (length (dstr_text b') <= length (dstr_text b))%nat /\
     restart_replace_all (text_find strstr) fuel (dstr_text b) sub new
       = Some (dstr_text b') /\
     forall j, ~ occurs_at sub (c_prefix (dstr_text b')) j) /\
  (exists b',
     dstr_replace_all_case fuel d substr new_str w = Some (Returned d, put w d b') /\
     dstr_inv b' /\ _capacity b' = _capacity b /\
     (length (dstr_text b') <= length (dstr_text b))%nat /\
     restart_replace_all (text_find _da_strcasestr) fuel (dstr_text b) sub new
       = Some (dstr_text b') /\
     _da_strcasestr (c_prefix (dstr_text b')) sub = None).
Proof.
  intros Hd Hb Hinv Hsub Hnew Hls Hlt Hfuel.
  destruct (dstr_replace_all_eq fuel d substr new_str sub new w
              Hsub Hnew Hls ltac:(lia)) as [-> ->].
  split.
  - destruct (replace_loop_shrinks dstr_find strstr substr new_str sub new
                (Z.of_nat (length sub)) (Z.of_nat (length new))
                (fun w d b Hd Hb Hinv => dstr_find_eq w d b substr sub Hd Hb Hinv Hsub)
                (fun hay i => strstr_bound hay sub i) eq_refl eq_refl Hnew
                fuel w d b Hd Hb Hinv ltac:(lia) Hfuel)
      as (b' & Hrun & Hinv' & Hres & Hle & Hcap).
    exists b'. repeat (split; [assumption|]).
    apply strstr_none.
    exact (restart_replace_all_done _ _ _ _ _ _ Hres).
  - destruct (replace_loop_shrinks dstr_find_case _da_strcasestr substr new_str sub new
                (Z.of_nat (length sub)) (Z.of_nat (length new))
                (fun w d b Hd Hb Hinv => dstr_find_case_eq w d b substr sub Hd Hb Hinv Hsub)
                (fun hay i => _da_strcasestr_bound hay sub i) eq_refl eq_refl Hnew
                fuel w d b Hd Hb Hinv ltac:(lia) Hfuel)
      as (b' & Hrun & Hinv' & Hres & Hle & Hcap).
    exists b'. repeat (split; [assumption|]).
    exact (restart_replace_all_done _ _ _ _ _ _ Hres).
Qed.

Lemma replace_all_absent_target_witness :
  dstr_replace_all 2 8 (literal (bytes "x")) (literal (bytes "yy"))
    (demo_dstr_world "aab") = Some (Returned 8, demo_dstr_world "aab") /\
  dstr_replace_all_case 2 8 (literal (bytes "x")) (literal (bytes "yy"))
    (demo_dstr_world "aab") = Some (Returned 8, demo_dstr_world "aab").
Proof.
  split;
    [apply (replace_all_absent_target 1 (demo_dstr_world "aab") 8
              (demo_dstr (bytes "aab") 10)
              (literal (bytes "x")) (literal (bytes "yy"))
              (bytes "x") (bytes "yy"))
    |apply (replace_all_absent_target 1 (demo_dstr_world "aab") 8
              (demo_dstr (bytes "aab") 10)
              (literal (bytes "x")) (literal (bytes "yy"))
              (bytes "x") (bytes "yy"))];
    try discriminate; try (vm_compute; reflexivity);
    try (unfold dstr_inv, block_ok; repeat split; vm_compute; congruence);
    (replace (c_prefix (dstr_text (demo_dstr (bytes "aab") 10))) with [97; 97; 98]
       by (vm_compute; reflexivity));
    change (bytes "x") with [120];
    intros j [Hl Ho]; cbn [length] in Hl;
    (destruct j as [|[|[|j]]]; [vm_compute in Ho; discriminate..|lia]).
Defined.

Lemma replace_all_empty_target_never_returns_witness :
  Running 8 = Returned NULL \/ exists h, Running 8 = Running h.
Proof.
  apply (replace_all_empty_target_never_returns 3 (demo_dstr_world "ab")
           (world_after (dstr_replace_all 3 8 (literal []) (literal (bytes "x")))
              (demo_dstr_world "ab"))
           8 (demo_dstr (bytes "ab") 10) (literal []) (literal (bytes "x"))).
  - discriminate.
  - vm_compute. reflexivity.
  - unfold dstr_inv, block_ok. repeat split; vm_compute; congruence.
  - vm_compute. reflexivity.
  - left. vm_compute. reflexivity.
Defined.

Lemma replace_all_shorter_terminates_witness :
  (exists b',
     dstr_replace_all 4 8 (literal (bytes "ab")) (literal (bytes "b"))
       (demo_dstr_world "aab")
     = Some (Returned 8, put (demo_dstr_world "aab") 8 b') /\
     dstr_inv b' /\ _capacity b' = 10 /\
     (length (dstr_text b') <= length (dstr_text (demo_dstr (bytes "aab") 10)))%nat /\
     restart_replace_all (text_find strstr) 4
       (dstr_text (demo_dstr (bytes "aab") 10)) (bytes "ab") (bytes "b")
       = Some (dstr_text b') /\
     forall j, ~ occurs_at (bytes "ab") (c_prefix (dstr_text b')) j) /\
  (exists b',
     dstr_replace_all_case 4 8 (literal (bytes "ab")) (literal (bytes "b"))
       (demo_dstr_world "aab")
     = Some (Returned 8, put (demo_dstr_world "aab") 8 b') /\
     dstr_inv b' /\ _capacity b' = 10 /\
     (length (dstr_text b') <= length (dstr_text (demo_dstr (bytes "aab") 10)))%nat /\
     restart_replace_all (text_find _da_strcasestr) 4
       (dstr_text (demo_dstr (bytes "aab") 10)) (bytes "ab") (bytes "b")
       = Some (dstr_text b') /\
     _da_strcasestr (c_prefix (dstr_text b')) (bytes "ab") = None).
Proof.
  apply (replace_all_shorter_terminates 4 (demo_dstr_world "aab") 8
           (demo_dstr (bytes "aab") 10)
           (literal (bytes "ab")) (literal (bytes "b")) (bytes "ab") (bytes "b")).
  - discriminate.
  - vm_compute. reflexivity.
  - unfold dstr_inv, block_ok. repeat split; vm_compute; congruence.
  - vm_compute. reflexivity.
  - vm_compute. reflexivity.
  - vm_compute. reflexivity.
  - vm_compute. lia.
  - vm_compute. lia.
Defined.
